(** * ScoreHeap: a shallow embedding of obsius/score-heap and its properties

    The JavaScript sources embedded here are
    - [utility.js]           ([searchBinary], [interleaveArrays]),
    - [Partition.js]         (the sorted segment),
    - [UniformPartition.js]  (the uniform segment),
    - [ScoreHeap.js]         (the orchestrator).

    Numbers are [Z]. An [Int32Array] is a [list Z] of fixed length whose
    writes wrap to 32 bits ([toInt32]) and are dropped out of range, and
    whose reads out of range are [undefined], here [None]. A run of a
    method is a value of [option]: [None] stands for a run that throws
    (TypeError, RangeError, the explicit [throw] of [Partition.join]) or
    that needs a number where it read [undefined]. The places where the
    source itself tests an [undefined] value are written out. *)

From stdpp Require Import base numbers option list sorting gmap.

Open Scope Z_scope.

(** ** 32-bit integers and typed arrays *)

Module Int32.

Definition toInt32 (x : Z) : Z := (x + 2 ^ 31) `mod` 2 ^ 32 - 2 ^ 31.

Definition is_int32 (x : Z) : Prop := - 2 ^ 31 ≤ x < 2 ^ 31.

(** [x >> 1] of JavaScript: the operand is taken to int32 first. *)
Definition sar1 (x : Z) : Z := Z.shiftr (toInt32 x) 1.

End Int32.

Import Int32.

(** ** JavaScript arrays read and spliced at integer positions *)

Module JsArray.

Abbreviation len a := (Z.of_nat (length a)) (only parsing).

(** [a[i]]: [undefined] outside [0 .. length). *)
Definition get {A} (a : list A) (i : Z) : option A :=
  if bool_decide (0 ≤ i) then a !! Z.to_nat i else None.

(** A relative start index, clamped as ECMAScript does for [splice]
    and [subarray]. *)
Definition rel (n i : Z) : Z :=
  if bool_decide (i < 0) then Z.max (n + i) 0 else Z.min i n.

(** [a.splice(start, deleteCount, ...items)], the array afterwards. *)
Definition splice {A} (a : list A) (start deleteCount : Z) (items : list A) : list A :=
  let s := rel (len a) start in
  let d := Z.min (Z.max deleteCount 0) (len a - s) in
  take (Z.to_nat s) a ++ items ++ drop (Z.to_nat (s + d)) a.

(** [a[i] = x] for a position that exists. *)
Definition put {A} (a : list A) (i : Z) (x : A) : list A :=
  if bool_decide (0 ≤ i) then <[Z.to_nat i := x]> a else a.

End JsArray.

Module TypedArray.

Abbreviation len a := (Z.of_nat (length a)) (only parsing).

(** The largest length a typed array can be asked for: above 2^53 - 1
    the conversion of the length ([ToIndex]) throws a RangeError. An
    engine may refuse a smaller length for want of memory; that is
    outside this model. *)
Definition MAX_LENGTH : Z := 2 ^ 53 - 1.

(** [new Int32Array(n)]; a negative length and a length above
    [MAX_LENGTH] are a RangeError. *)
Definition create (n : Z) : option (list Z) :=
  if bool_decide (0 ≤ n ≤ MAX_LENGTH) then Some (replicate (Z.to_nat n) 0) else None.

(** [a[i]] *)
Definition get (a : list Z) (i : Z) : option Z := JsArray.get a i.

(** [a[i] = v] *)
Definition put (a : list Z) (i : Z) (v : Z) : list Z :=
  if bool_decide (0 ≤ i) then <[Z.to_nat i := toInt32 v]> a else a.

(** [a.subarray(b, e)] read as a value. *)
Definition subarray (a : list Z) (b e : Z) : list Z :=
  let b' := JsArray.rel (len a) b in
  let e' := JsArray.rel (len a) e in
  take (Z.to_nat (e' - b')) (drop (Z.to_nat b') a).

(** [dest.set(src, offset)]; the source is read before anything is
    written, also when both views share a buffer. *)
Definition set (dest src : list Z) (offset : Z) : option (list Z) :=
  if bool_decide (0 ≤ offset ∧ offset + len src ≤ len dest) then
    Some (take (Z.to_nat offset) dest ++ src
            ++ drop (Z.to_nat (offset + len src)) dest)
  else None.

(** [a.fill(v)] *)
Definition fill (a : list Z) (v : Z) : list Z :=
  replicate (length a) (toInt32 v).

End TypedArray.

(** ** utility.js *)

Module Utility.

(** The state of the loop of [searchBinary]: [currentIndex] and [result]
    are [undefined] ([None]) until the body has run once. *)
Fixpoint searchLoop (fuel : nat) (fn : Z → option Z)
    (minIndex maxIndex : Z) (currentIndex result : option Z)
    : option (option Z * option Z) :=
  match fuel with
  | O => None
  | S fuel' =>
      if bool_decide (minIndex ≤ maxIndex) then
        let cur := sar1 (minIndex + maxIndex) in
        r ← fn cur;
        if bool_decide (r > 0) then
          searchLoop fuel' fn (cur + 1) maxIndex (Some cur) (Some r)
        else if bool_decide (r < 0) then
          searchLoop fuel' fn minIndex (cur - 1) (Some cur) (Some r)
        else Some (Some cur, Some r)
      else Some (currentIndex, result)
  end.

(** The loop halves an interval of at most [length] positions. *)
Definition searchFuel (length : Z) : nat := S (S (Z.to_nat (Z.log2 length))).

(** [searchBinary(length, fn)]. The result is [Some None] when the
    source returns [undefined] (the loop never ran). *)
Definition searchBinary (length : Z) (fn : Z → option Z) : option (option Z) :=
  st ← searchLoop (searchFuel length) fn 0 (length - 1) None None;
  match st with
  | (Some c, Some r) =>
      if bool_decide (r > 0) then Some (Some (c + 1)) else Some (Some c)
  | (currentIndex, _) => Some currentIndex
  end.

(** The inner [while] of [interleaveArrays]. *)
Fixpoint interleaveInner (fuel : nat) (dest src1 src2 : list Z)
    (fn : Z → Z → option Z) (i j k : Z) : option (list Z * Z * Z) :=
  match fuel with
  | O => None
  | S fuel' =>
      if bool_decide (k < TypedArray.len src2) then
        if bool_decide (j = TypedArray.len src1) then
          v ← TypedArray.get src2 k;
          interleaveInner fuel' (TypedArray.put dest i v) src1 src2 fn (i + 1) j (k + 1)
        else
          r ← fn j k;
          if bool_decide (r < 0) then
            v ← TypedArray.get src2 k;
            interleaveInner fuel' (TypedArray.put dest i v) src1 src2 fn (i + 1) j (k + 1)
          else Some (dest, i, k)
      else Some (dest, i, k)
  end.

(** The outer [for] of [interleaveArrays]. *)
Fixpoint interleaveOuter (fuel : nat) (dest src1 src2 : list Z)
    (fn : Z → Z → option Z) (i j k : Z) : option (list Z) :=
  match fuel with
  | O => None
  | S fuel' =>
      if bool_decide (i < TypedArray.len src1 + TypedArray.len src2) then
        '(dest1, i1, k1) ← interleaveInner (S (length src2)) dest src1 src2 fn i j k;
        if bool_decide (j < TypedArray.len src1) then
          v ← TypedArray.get src1 j;
          interleaveOuter fuel' (TypedArray.put dest1 i1 v) src1 src2 fn (i1 + 1) (j + 1) k1
        else
          interleaveOuter fuel' dest1 src1 src2 fn i1 j k1
      else Some dest
  end.

(** [interleaveArrays(dest, src1, src2, fn)] *)
Definition interleaveArrays (dest src1 src2 : list Z)
    (fn : Z → Z → option Z) : option (list Z) :=
  interleaveOuter (S (length src1 + length src2)) dest src1 src2 fn 0 0 0.

End Utility.

(** ** The side table and the segments

    [lookups] is the one [Int32Array] shared by the heap and all its
    segments: cell [3*i] is the score of identifier [i], cell [3*i+1] the
    id of its owning segment and cell [3*i+2] its slot in a uniform
    segment. Every method that writes it takes it and returns it.

    A segment object of either class has the same fields; [uniform] is
    the class: [true] for [UniformPartition], [false] (the field is
    absent in the source) for [Partition]. *)

Module Seg.

Record t := Make {
  uniform : bool;
  id : Z;
  indices : list Z;
  length : Z;
  min : Z
}.

Definition with_indices (p : t) (a : list Z) : t :=
  Make (uniform p) (id p) a (length p) (min p).
Definition with_length (p : t) (n : Z) : t :=
  Make (uniform p) (id p) (indices p) n (min p).
Definition with_min (p : t) (m : Z) : t :=
  Make (uniform p) (id p) (indices p) (length p) m.

End Seg.

(** ** Partition.js: the sorted segment *)

Module Partition.

(** [get max()] *)
Definition max (lookups : list Z) (p : Seg.t) : option Z :=
  i ← TypedArray.get (Seg.indices p) (Seg.length p - 1);
  TypedArray.get lookups (i * 3).

(** The loop of the constructor: owner id written, slot cleared. *)
Fixpoint constructLoop (n : nat) (id : Z) (indices lookups : list Z) (i : Z)
    : option (list Z) :=
  match n with
  | O => Some lookups
  | S n' =>
      x ← TypedArray.get indices i;
      let index := x * 3 in
      let lookups := TypedArray.put lookups (index + 1) id in
      let lookups := TypedArray.put lookups (index + 2) (-1) in
      constructLoop n' id indices lookups (i + 1)
  end.

(** [new Partition(id, lookups, indices, length)] *)
Definition new (id : Z) (lookups indices : list Z) (length : Z)
    : option (list Z * Seg.t) :=
  i0 ← TypedArray.get indices 0;
  min ← TypedArray.get lookups (i0 * 3);
  lookups' ← constructLoop (Z.to_nat length) id indices lookups 0;
  Some (lookups', Seg.Make false id indices length min).

(** The comparator used by every search of a sorted segment:
    [score - lookups[indices[i] * 3] || index - indices[i]]. *)
Definition compare (lookups indices : list Z) (score index i : Z) : option Z :=
  x ← TypedArray.get indices i;
  s ← TypedArray.get lookups (x * 3);
  Some (if bool_decide (score - s ≠ 0) then score - s else index - x).

(** [reindex(removeIndex, insertIndex, index)]; [None] is [null] or a
    missing argument. [index] is only read where the source passes it. *)
Definition reindex (p : Seg.t) (removeIndex insertIndex : option Z) (index : Z)
    : option Seg.t :=
  let indices := Seg.indices p in
  let length := Seg.length p in
  match removeIndex, insertIndex with
  | None, None => Some p
  | None, Some ins =>
      a ← TypedArray.set indices (TypedArray.subarray indices ins length) (ins + 1);
      Some (Seg.with_indices p (TypedArray.put a ins index))
  | Some rem, None =>
      a ← TypedArray.set indices (TypedArray.subarray indices (rem + 1) length) rem;
      Some (Seg.with_indices p a)
  | Some rem, Some ins =>
      if bool_decide (rem < ins) then
        a ← TypedArray.set indices (TypedArray.subarray indices (rem + 1) (ins + 1)) rem;
        Some (Seg.with_indices p (TypedArray.put a ins index))
      else if bool_decide (rem > ins) then
        a ← TypedArray.set indices (TypedArray.subarray indices ins rem) (ins + 1);
        Some (Seg.with_indices p (TypedArray.put a ins index))
      else Some p
  end.

(** [insert(index, score, partitionIndex)]; [hint] is the optional third
    argument. *)
Definition insert (lookups : list Z) (p : Seg.t) (index score : Z) (hint : option Z)
    : option (list Z * Seg.t) :=
  let lookups := TypedArray.put lookups (index * 3 + 1) (Seg.id p) in
  partitionIndex ←
    match hint with
    | Some h => Some (Some h)
    | None => Utility.searchBinary (Seg.length p)
                (compare lookups (Seg.indices p) score index)
    end;
  p1 ← reindex p None partitionIndex index;
  let p2 := Seg.with_length p1 (Seg.length p1 + 1) in
  Some (lookups,
        if bool_decide (partitionIndex = Some 0) then Seg.with_min p2 score else p2).

(** The first loop of [join]: the joined identifiers change owner. *)
Fixpoint adoptLoop (id : Z) (partitionIndices lookups : list Z) : list Z :=
  match partitionIndices with
  | [] => lookups
  | x :: rest =>
      let lookups := TypedArray.put lookups (x * 3 + 1) id in
      let lookups := TypedArray.put lookups (x * 3 + 2) (-1) in
      adoptLoop id rest lookups
  end.

(** [join(partition)] *)
Definition join (lookups : list Z) (p partition : Seg.t) : option (list Z * Seg.t) :=
  if bool_decide (Seg.length partition + Seg.length p ≤ TypedArray.len (Seg.indices p)) then
    let indices := Seg.indices p in
    let length := Seg.length p in
    let partitionIndices := TypedArray.subarray (Seg.indices partition) 0 (Seg.length partition) in
    let lookups := adoptLoop (Seg.id p) partitionIndices lookups in
    dest ← TypedArray.create (TypedArray.len indices);
    merged ← Utility.interleaveArrays dest (TypedArray.subarray indices 0 length)
      partitionIndices
      (λ a b,
         pb ← TypedArray.get partitionIndices b;
         ia ← TypedArray.get indices a;
         sb ← TypedArray.get lookups (pb * 3);
         sa ← TypedArray.get lookups (ia * 3);
         Some (if bool_decide (sb - sa ≠ 0) then sb - sa else pb - ia));
    Some (lookups,
          Seg.with_length (Seg.with_indices p merged) (length + Seg.length partition))
  else None.

(** [next()]; [None] is [undefined]. *)
Definition next (p : Seg.t) : option Z :=
  if bool_decide (Seg.length p ≠ 0) then
    TypedArray.get (Seg.indices p) (Seg.length p - 1)
  else None.

(** [remove(index)] *)
Definition remove (lookups : list Z) (p : Seg.t) (index : Z) : option (list Z * Seg.t) :=
  let length := Seg.length p in
  score ← TypedArray.get lookups (index * 3);
  partitionIndex ← Utility.searchBinary length (compare lookups (Seg.indices p) score index);
  p1 ← match partitionIndex with
       | Some pi => if bool_decide (pi < length - 1) then reindex p (Some pi) None 0
                    else Some p
       | None => Some p
       end;
  Some (TypedArray.put lookups (index * 3 + 1) (-1),
        Seg.with_length p1 (Seg.length p1 - 1)).

(** [split()]: the detached upper half and the segment left behind.
    The source halves [length] as a floating-point number; an odd length
    is outside this model. *)
Definition split (p : Seg.t) : option (list Z * Seg.t) :=
  if bool_decide (Seg.length p `mod` 2 = 0) then
    fresh ← TypedArray.create (Seg.length p);
    splitIndices ← TypedArray.set fresh
      (TypedArray.subarray (Seg.indices p) (Seg.length p / 2)
         (TypedArray.len (Seg.indices p))) 0;
    Some (splitIndices, Seg.with_length p (Seg.length p / 2))
  else None.

(** [update(index, score)] *)
Definition update (lookups : list Z) (p : Seg.t) (index score : Z) : option Seg.t :=
  let indices := Seg.indices p in
  let length := Seg.length p in
  currentScore ← TypedArray.get lookups (index * 3);
  if bool_decide (score ≠ currentScore) then
    cur ← Utility.searchBinary length (compare lookups indices currentScore index);
    match cur with
    | None => Some p
    | Some c =>
        below ← (if bool_decide (c > 0) then
                   x ← TypedArray.get indices (c - 1);
                   s ← TypedArray.get lookups (x * 3);
                   Some (bool_decide (score ≤ s))
                 else Some false);
        above ← (if (below : bool) then Some true
                 else if bool_decide (c < length - 1) then
                   x ← TypedArray.get indices (c + 1);
                   s ← TypedArray.get lookups (x * 3);
                   Some (bool_decide (s ≤ score))
                 else Some false);
        if (above : bool) then
          found ← Utility.searchBinary length (compare lookups indices score index);
          q ← found;
          let partitionIndex := Z.min (length - 1) q in
          partitionIndex ←
            (if bool_decide (c < partitionIndex ∧ partitionIndex > 0) then
               r ← compare lookups indices score index partitionIndex;
               Some (if bool_decide (r < 0) then partitionIndex - 1 else partitionIndex)
             else Some partitionIndex);
          p1 ← (if bool_decide (c ≠ partitionIndex) then
                  reindex p (Some c) (Some partitionIndex) index
                else Some p);
          if bool_decide (partitionIndex = 0) then Some (Seg.with_min p1 score)
          else if bool_decide (c = 0) then
            x ← TypedArray.get (Seg.indices p1) 0;
            s ← TypedArray.get lookups (x * 3);
            Some (Seg.with_min p1 s)
          else Some p1
        else if bool_decide (c = 0) then Some (Seg.with_min p score)
        else Some p
    end
  else Some p.

End Partition.

(** ** UniformPartition.js: the uniform segment *)

Module UniformPartition.

(** [get max()] *)
Definition max (p : Seg.t) : Z := Seg.min p.

(** The loop of the constructor: owner id and slot written. *)
Fixpoint constructLoop (n : nat) (id : Z) (indices lookups : list Z) (i : Z)
    : option (list Z) :=
  match n with
  | O => Some lookups
  | S n' =>
      x ← TypedArray.get indices i;
      let index := x * 3 in
      let lookups := TypedArray.put lookups (index + 1) id in
      let lookups := TypedArray.put lookups (index + 2) i in
      constructLoop n' id indices lookups (i + 1)
  end.

(** [new UniformPartition(id, lookups, indices, length)] *)
Definition new (id : Z) (lookups indices : list Z) (length : Z)
    : option (list Z * Seg.t) :=
  i0 ← TypedArray.get indices 0;
  min ← TypedArray.get lookups (i0 * 3);
  lookups' ← constructLoop (Z.to_nat length) id indices lookups 0;
  Some (lookups', Seg.Make true id indices length min).

(** [insert(index)] *)
Definition insert (lookups : list Z) (p : Seg.t) (index : Z) : option (list Z * Seg.t) :=
  let lookups := TypedArray.put lookups (index * 3 + 1) (Seg.id p) in
  indices ←
    (if bool_decide (TypedArray.len (Seg.indices p) = Seg.length p) then
       expandedIndices ← TypedArray.create (Seg.length p * 2);
       TypedArray.set expandedIndices (Seg.indices p) 0
     else Some (Seg.indices p));
  let lookups := TypedArray.put lookups (index * 3 + 2) (Seg.length p) in
  Some (lookups,
        Seg.with_length
          (Seg.with_indices p (TypedArray.put indices (Seg.length p) index))
          (Seg.length p + 1)).

(** The loop of [join] over the slots [i .. i + n) just copied: a live
    slot changes owner and records its place. *)
Fixpoint adoptLoop (n : nat) (id : Z) (indices lookups : list Z) (i : Z) : list Z :=
  match n with
  | O => lookups
  | S n' =>
      let lookups :=
        match TypedArray.get indices i with
        | Some x =>
            if bool_decide (0 ≤ x) then
              TypedArray.put (TypedArray.put lookups (x * 3 + 1) id) (x * 3 + 2) i
            else lookups
        | None => lookups
        end in
      adoptLoop n' id indices lookups (i + 1)
  end.

(** [join(partition)] *)
Definition join (lookups : list Z) (p partition : Seg.t) : option (list Z * Seg.t) :=
  indices ←
    (if bool_decide (Seg.length p + Seg.length partition > TypedArray.len (Seg.indices p)) then
       expandedIndices ← TypedArray.create (Seg.length p + Seg.length partition);
       TypedArray.set expandedIndices (Seg.indices p) 0
     else Some (Seg.indices p));
  let length := Seg.length p in
  indices ← TypedArray.set indices
    (TypedArray.subarray (Seg.indices partition) 0 (Seg.length partition)) length;
  let lookups :=
    adoptLoop (Z.to_nat (Seg.length partition)) (Seg.id p) indices lookups length in
  Some (lookups,
        Seg.with_length (Seg.with_indices p indices) (length + Seg.length partition)).

(** [while (--this.length > 0 && indices[this.length - 1] < 0) {}]:
    the value of [length] when the loop stops. *)
Fixpoint skipLoop (fuel : nat) (indices : list Z) (length : Z) : Z :=
  match fuel with
  | O => length
  | S fuel' =>
      let length := length - 1 in
      if bool_decide (length > 0) then
        match TypedArray.get indices (length - 1) with
        | Some x => if bool_decide (x < 0) then skipLoop fuel' indices length else length
        | None => length
        end
      else length
  end.

(** [next()]: the segment afterwards and the result ([None] is
    [undefined]). The loop decrements [length] at most [length] times,
    once if it is negative. *)
Definition next (p : Seg.t) : Seg.t * option Z :=
  if bool_decide (Seg.length p ≠ 0) then
    let length :=
      match TypedArray.get (Seg.indices p) (Seg.length p - 1) with
      | Some x =>
          if bool_decide (x < 0) then
            skipLoop (S (Z.to_nat (Seg.length p))) (Seg.indices p) (Seg.length p)
          else Seg.length p
      | None => Seg.length p
      end in
    let p := Seg.with_length p length in
    if bool_decide (length ≠ 0) then
      (p, TypedArray.get (Seg.indices p) (length - 1))
    else (Seg.with_indices p [0], None)
  else (p, None).

(** [remove(index)] *)
Definition remove (lookups : list Z) (p : Seg.t) (index : Z) : list Z * Seg.t :=
  let indices :=
    match TypedArray.get lookups (index * 3 + 2) with
    | Some partitionIndex => TypedArray.put (Seg.indices p) partitionIndex (-1)
    | None => Seg.indices p
    end in
  let lookups := TypedArray.put lookups (index * 3 + 1) (-1) in
  let lookups := TypedArray.put lookups (index * 3 + 2) (-1) in
  (lookups, Seg.with_indices p indices).

(** [update()] does nothing. *)
Definition update (p : Seg.t) : Seg.t := p.

End UniformPartition.

(** ** Method calls on a segment of either class *)

Module Segment.

Definition max (lookups : list Z) (p : Seg.t) : option Z :=
  if Seg.uniform p then Some (UniformPartition.max p) else Partition.max lookups p.

Definition insert (lookups : list Z) (p : Seg.t) (index score : Z) (hint : option Z)
    : option (list Z * Seg.t) :=
  if Seg.uniform p then UniformPartition.insert lookups p index
  else Partition.insert lookups p index score hint.

Definition join (lookups : list Z) (p partition : Seg.t) : option (list Z * Seg.t) :=
  if Seg.uniform p then UniformPartition.join lookups p partition
  else Partition.join lookups p partition.

Definition next (p : Seg.t) : Seg.t * option Z :=
  if Seg.uniform p then UniformPartition.next p else (p, Partition.next p).

Definition remove (lookups : list Z) (p : Seg.t) (index : Z) : option (list Z * Seg.t) :=
  if Seg.uniform p then Some (UniformPartition.remove lookups p index)
  else Partition.remove lookups p index.

Definition update (lookups : list Z) (p : Seg.t) (index score : Z) : option Seg.t :=
  if Seg.uniform p then Some (UniformPartition.update p)
  else Partition.update lookups p index score.

End Segment.

(** ** ScoreHeap.js: the orchestrator *)

Module ScoreHeap.

Definition MIN_SECTOR_LENGTH : Z := 32.
Definition TARGET_SECTOR_LENGTH : Z := 1024.
Definition MAX_SECTOR_LENGTH : Z := 4096.

Record t := Make {
  lookups : list Z;
  partitions : list Seg.t;
  partitionIds : gmap Z Z;
  nextId : Z;
  partitionLength : Z
}.

Definition with_lookups (h : t) (l : list Z) : t :=
  Make l (partitions h) (partitionIds h) (nextId h) (partitionLength h).
Definition with_partitions (h : t) (ps : list Seg.t) : t :=
  Make (lookups h) ps (partitionIds h) (nextId h) (partitionLength h).
Definition with_partitionIds (h : t) (m : gmap Z Z) : t :=
  Make (lookups h) (partitions h) m (nextId h) (partitionLength h).
Definition with_nextId (h : t) (n : Z) : t :=
  Make (lookups h) (partitions h) (partitionIds h) n (partitionLength h).

(** [Math.min(MAX, Math.max(MIN, 2 ** Math.floor(Math.log2(n / TARGET))))]
    for [n] pairs. Below [TARGET] pairs the power is a fraction (or 0 for
    no pair at all), which [Math.max] replaces by [MIN]; it is written 0
    here. From [TARGET] on, the floor of the logarithm of the quotient is
    the logarithm of the integer quotient. *)
Definition computePartitionLength (n : Z) : Z :=
  Z.min MAX_SECTOR_LENGTH
    (Z.max MIN_SECTOR_LENGTH
       (if bool_decide (n < TARGET_SECTOR_LENGTH) then 0
        else 2 ^ Z.log2 (n / TARGET_SECTOR_LENGTH))).

(** The comparator of the constructor's sort on pairs [(index, score)]:
    [a[1] - b[1] || a[0] - b[0]]. *)
Definition comparePairs (a b : Z * Z) : Z :=
  if bool_decide (a.2 - b.2 ≠ 0) then a.2 - b.2 else a.1 - b.1.

Fixpoint insertPair (a : Z * Z) (l : list (Z * Z)) : list (Z * Z) :=
  match l with
  | [] => [a]
  | b :: l' => if bool_decide (comparePairs a b ≤ 0) then a :: b :: l'
               else b :: insertPair a l'
  end.

(** [indexScores.sort(...)]: a stable sort, here by insertion. *)
Definition sortPairs (l : list (Z * Z)) : list (Z * Z) := foldr insertPair [] l.

(** The loop that fills a chunk up to position [n]. *)
Fixpoint fillLoop (fuel : nat) (indexScores : list (Z * Z)) (n : Z)
    (i : Z) (chunk lookups : list Z) : option (Z * list Z * list Z) :=
  match fuel with
  | O => if bool_decide (i < n) then None else Some (i, chunk, lookups)
  | S fuel' =>
      if bool_decide (i < n) then
        '(index, score) ← JsArray.get indexScores i;
        fillLoop fuel' indexScores n (i + 1) (chunk ++ [index])
          (TypedArray.put lookups (index * 3) score)
      else Some (i, chunk, lookups)
  end.

(** The loop that extends a uniform chunk over the following pairs of the
    same score. *)
Fixpoint extendLoop (fuel : nat) (indexScores : list (Z * Z))
    (i : Z) (chunk lookups : list Z) : option (Z * list Z * list Z) :=
  match fuel with
  | O => if bool_decide (i < JsArray.len indexScores) then None
         else Some (i, chunk, lookups)
  | S fuel' =>
      if bool_decide (i < JsArray.len indexScores) then
        '(index, score) ← JsArray.get indexScores i;
        '(_, previous) ← JsArray.get indexScores (i - 1);
        if bool_decide (score = previous) then
          extendLoop fuel' indexScores (i + 1) (chunk ++ [index])
            (TypedArray.put lookups (index * 3) score)
        else Some (i, chunk, lookups)
      else Some (i, chunk, lookups)
  end.

(** The partitioning loop of the constructor. *)
Fixpoint partitionLoop (fuel : nat) (indexScores : list (Z * Z)) (i : Z) (h : t)
    : option t :=
  match fuel with
  | O => if bool_decide (i < JsArray.len indexScores) then None else Some h
  | S fuel' =>
      if bool_decide (i < JsArray.len indexScores) then
        let n := Z.min (JsArray.len indexScores) (i + partitionLength h) in
        '(i, chunk, lookups) ← fillLoop (Z.to_nat (n - i)) indexScores n i [] (lookups h);
        uniform ←
          (if bool_decide (JsArray.len chunk = partitionLength h) then
             '(_, last) ← JsArray.get indexScores (i - 1);
             '(_, first) ← JsArray.get indexScores (i - JsArray.len chunk);
             Some (bool_decide (last = first))
           else Some false);
        '(i, chunk, lookups) ←
          (if (uniform : bool) then
             extendLoop (Z.to_nat (JsArray.len indexScores - i)) indexScores i chunk lookups
           else Some (i, chunk, lookups));
        let partitionIds := <[nextId h := JsArray.len (partitions h)]> (partitionIds h) in
        '(lookups, p) ←
          (if (uniform : bool) then
             UniformPartition.new (nextId h) lookups (toInt32 <$> chunk) (JsArray.len chunk)
           else
             fresh ← TypedArray.create (partitionLength h);
             indices ← TypedArray.set fresh (toInt32 <$> chunk) 0;
             Partition.new (nextId h) lookups indices (JsArray.len chunk));
        partitionLoop fuel' indexScores i
          (Make lookups (partitions h ++ [p]) partitionIds (nextId h + 1) (partitionLength h))
      else Some h
  end.

(** [new ScoreHeap(indexScores, maxLength)] *)
Definition new (indexScores : list (Z * Z)) (maxLength : Z) : option t :=
  fresh ← TypedArray.create (maxLength * 3);
  let lookups := TypedArray.fill fresh (-1) in
  let partitionLength := computePartitionLength (JsArray.len indexScores) in
  let indexScores := sortPairs indexScores in
  partitionLoop (length indexScores) indexScores 0
    (Make lookups [] ∅ 0 partitionLength).

(** [reindex(index)]: the loop over the segments from position [i] on. *)
Fixpoint reindexLoop (ps : list Seg.t) (i : Z) (ids : gmap Z Z) : gmap Z Z :=
  match ps with
  | [] => ids
  | p :: ps' => reindexLoop ps' (i + 1) (<[Seg.id p := i]> ids)
  end.

(** [reindex(index)]; a negative [index] reads [partitions[index].id] of
    [undefined] as soon as there is a segment. *)
Definition reindex (h : t) (index : Z) : option t :=
  if bool_decide (0 ≤ index) then
    Some (with_partitionIds h
            (reindexLoop (drop (Z.to_nat index) (partitions h)) index (partitionIds h)))
  else if bool_decide (index < JsArray.len (partitions h)) then None
  else Some h.

(** The loop of [next()]: the tail segment is asked, and popped when it
    has nothing left. Each turn but the last pops a segment. *)
Fixpoint nextLoop (fuel : nat) (ps : list Seg.t) : list Seg.t * option Z :=
  match fuel with
  | O => (ps, None)
  | S fuel' =>
      match JsArray.get ps (JsArray.len ps - 1) with
      | None => (ps, None)
      | Some p =>
          let '(p', r) := Segment.next p in
          let ps := JsArray.put ps (JsArray.len ps - 1) p' in
          match r with
          | Some x => (ps, Some x)
          | None => nextLoop fuel' (JsArray.splice ps (JsArray.len ps - 1) 1 [])
          end
      end
  end.

(** [next()]: the heap afterwards and the result ([None] is [undefined]). *)
Definition next (h : t) : t * option Z :=
  let '(ps, r) := nextLoop (S (length (partitions h))) (partitions h) in
  (with_partitions h ps, r).

(** [remove(index)]: the heap afterwards and the result ([None] is
    [undefined]). *)
Definition remove (h : t) (index : Z) : option (t * option Z) :=
  if bool_decide (JsArray.len (partitions h) ≠ 0) then
    match TypedArray.get (lookups h) (index * 3 + 1) with
    | Some partitionId =>
        if bool_decide (0 ≤ partitionId) then
          partitionIndex ← partitionIds h !! partitionId;
          p ← JsArray.get (partitions h) partitionIndex;
          '(lookups, p) ← Segment.remove (lookups h) p index;
          let h := with_partitions (with_lookups h lookups)
                     (JsArray.put (partitions h) partitionIndex p) in
          h ← (if bool_decide (Seg.length p = 0) then
                 reindex (with_partitions h (JsArray.splice (partitions h) partitionIndex 1 []))
                   partitionIndex
               else Some h);
          Some (h, Some index)
        else Some (h, None)
    | None => Some (h, None)
    end
  else Some (h, None).

(** [insertPartition(index, indices, length)]: the heap afterwards; the
    segment returned by the source is the one now at the insertion place. *)
Definition insertPartition (h : t) (index : Z) (indices : list Z) (length : Z)
    : option t :=
  '(lookups, partition) ← Partition.new (nextId h) (lookups h) indices length;
  let h := Make lookups (JsArray.splice (partitions h) index 0 [partition])
             (<[nextId h := index]> (partitionIds h)) (nextId h + 1) (partitionLength h) in
  reindex h (index + 1).

(** [joinPartitions(index)] *)
Definition joinPartitions (h : t) (index : Z) : option t :=
  if bool_decide (0 ≤ index ∧ index < JsArray.len (partitions h) - 1) then
    partition1 ← JsArray.get (partitions h) index;
    partition2 ← JsArray.get (partitions h) (index + 1);
    max2 ← Segment.max (lookups h) partition2;
    if bool_decide (Seg.min partition1 = max2) then
      if Seg.uniform partition1 then
        '(lookups, partition1) ← Segment.join (lookups h) partition1 partition2;
        let ps := JsArray.put (partitions h) index partition1 in
        reindex (with_partitions (with_lookups h lookups) (JsArray.splice ps (index + 1) 1 []))
          (index + 1)
      else if Seg.uniform partition2 then
        '(lookups, partition2) ← Segment.join (lookups h) partition2 partition1;
        let ps := JsArray.put (partitions h) (index + 1) partition2 in
        reindex (with_partitions (with_lookups h lookups) (JsArray.splice ps index 1 []))
          index
      else
        fresh ← TypedArray.create (Seg.length partition1 + Seg.length partition2);
        a ← TypedArray.set fresh
               (TypedArray.subarray (Seg.indices partition1) 0 (Seg.length partition1)) 0;
        partitionIndices ← TypedArray.set a
               (TypedArray.subarray (Seg.indices partition2) 0 (Seg.length partition2))
               (Seg.length partition1);
        let ids := <[nextId h := index]> (partitionIds h) in
        '(lookups, u) ← UniformPartition.new (nextId h) (lookups h) partitionIndices
                          (TypedArray.len partitionIndices);
        reindex (Make lookups (JsArray.splice (partitions h) index 2 [u]) ids
                   (nextId h + 1) (partitionLength h))
          (index + 1)
    else if bool_decide (Seg.uniform partition1 = false ∧ Seg.uniform partition2 = false
                         ∧ Seg.length partition1 + Seg.length partition2 ≤ partitionLength h) then
      '(lookups, partition1) ← Segment.join (lookups h) partition1 partition2;
      let ps := JsArray.put (partitions h) index partition1 in
      reindex (with_partitions (with_lookups h lookups) (JsArray.splice ps (index + 1) 1 []))
        (index + 0)
    else Some h
  else Some h.

(** The comparator of the segment search of [update]. *)
Definition route (ps : list Seg.t) (score : Z) (i : Z) : option Z :=
  p ← JsArray.get ps i;
  if bool_decide (Seg.min p ≤ score) then
    if bool_decide (i = JsArray.len ps - 1) then Some 0
    else
      q ← JsArray.get ps (i + 1);
      if bool_decide (Seg.min q > score) then Some 0 else Some 1
  else if bool_decide (i = 0) then Some 0
  else Some (-1).

(** The test of [update] for the segment that owns the identifier
    taking the new score in place. *)
Definition fits (h : t) (currentPartitionIndex : Z) (currentPartition : Seg.t) (score : Z)
    : option bool :=
  if Seg.uniform currentPartition then
    Some (bool_decide (Seg.min currentPartition = score))
  else if bool_decide (JsArray.len (partitions h) = 1) then Some true
  else if bool_decide (Seg.min currentPartition ≤ score) then
    if bool_decide (currentPartitionIndex = JsArray.len (partitions h) - 1) then Some true
    else
      q ← JsArray.get (partitions h) (currentPartitionIndex + 1);
      Some (bool_decide (Seg.min q > score))
  else Some false.

(** A method call that changes the segment at a position of
    [partitions] and the side table. *)
Definition atPartition (h : t) (i : Z)
    (f : list Z → Seg.t → option (list Z * Seg.t)) : option t :=
  p ← JsArray.get (partitions h) i;
  '(lookups, p) ← f (lookups h) p;
  Some (with_partitions (with_lookups h lookups) (JsArray.put (partitions h) i p)).

(** [new UniformPartition(p.id, lookups, p.indices, p.length)] put in
    the place of the sorted segment [p] at position [i], then
    [insert(index, score)] on it. *)
Definition convertAndInsert (h : t) (i : Z) (index score : Z) : option t :=
  h ← atPartition h i
         (λ lookups p, UniformPartition.new (Seg.id p) lookups (Seg.indices p) (Seg.length p));
  atPartition h i (λ lookups p, Segment.insert lookups p index score None).

(** A new one-element sorted segment at position [i]. *)
Definition insertSingleton (h : t) (i : Z) (index : Z) : option t :=
  fresh ← TypedArray.create (partitionLength h);
  insertPartition h i (TypedArray.put fresh 0 index) 1.

(** The insertion part of [update], when there is a segment: the
    decision list on the segment found by the search. *)
Definition place (h : t) (index score : Z) : option t :=
  let ps := partitions h in
  let partitionLength := partitionLength h in
  found ← Utility.searchBinary (JsArray.len ps) (route ps score);
  partitionIndex ← found;
  partition ← JsArray.get ps partitionIndex;
  partitionMax ← Segment.max (lookups h) partition;
  let lowerPartition :=
    if bool_decide (partitionIndex > 0) then JsArray.get ps (partitionIndex - 1) else None in
  let upperPartition :=
    if bool_decide (partitionIndex < JsArray.len ps - 1) then JsArray.get ps (partitionIndex + 1)
    else None in
  let lowerIs (f : Seg.t → bool) : bool :=
    match lowerPartition with Some lo => f lo | None => false end in
  let upperIs (f : Seg.t → bool) : bool :=
    match upperPartition with Some up => f up | None => false end in
  let stuck := Seg.uniform partition || bool_decide (Seg.length partition = partitionLength) in
  (* best case: uniform partition with matching score *)
  if Seg.uniform partition && bool_decide (Seg.min partition = score) then
    atPartition h partitionIndex (λ lookups p, Segment.insert lookups p index score None)
  (* 2: lower partition is uniform with matching score *)
  else if lowerIs (λ lo, Seg.uniform lo && bool_decide (Seg.min lo = score)) then
    atPartition h (partitionIndex - 1) (λ lookups p, Segment.insert lookups p index score None)
  (* 3: partition has room and score is at the end *)
  else if negb (Seg.uniform partition) && bool_decide (Seg.length partition < partitionLength)
          && bool_decide (score > partitionMax) then
    atPartition h partitionIndex
      (λ lookups p, Segment.insert lookups p index score (Some (Seg.length p)))
  (* 4: switched off in the source by a constant false *)
  (* 5: partition is full or non-matching uniform, upper partition takes the index *)
  else if stuck && bool_decide (partitionMax ≤ score)
          && upperIs (λ up, negb (Seg.uniform up)
                            && bool_decide (Seg.length up < partitionLength)) then
    atPartition h (partitionIndex + 1) (λ lookups p, Segment.insert lookups p index score (Some 0))
  else
    (* 6: partition is full or non-matching uniform, lower partition takes the index *)
    lowerTakes ←
      (if stuck && bool_decide (score = Seg.min partition) then
         match lowerPartition with
         | Some lo =>
             if negb (Seg.uniform lo) then
               if bool_decide (Seg.length lo < partitionLength) then Some true
               else if bool_decide (score = Seg.min lo) then
                 loMax ← Segment.max (lookups h) lo;
                 Some (bool_decide (Seg.min lo = loMax))
               else Some false
             else Some false
         | None => Some false
         end
       else Some false);
    if (lowerTakes : bool) then
      if lowerIs (λ lo, bool_decide (Seg.length lo < partitionLength)) then
        atPartition h (partitionIndex - 1) (λ lookups p, Segment.insert lookups p index score None)
      else convertAndInsert h (partitionIndex - 1) index score
    (* 7: partition is uniform but ineligible, insert new partition *)
    else if Seg.uniform partition then
      insertSingleton h
        (if bool_decide (score > Seg.min partition) then partitionIndex + 1 else partitionIndex)
        index
    (* 8: simple insert *)
    else if bool_decide (Seg.length partition < partitionLength) then
      atPartition h partitionIndex (λ lookups p, Segment.insert lookups p index score None)
    (* 9: partition is full but can be converted to uniform partition *)
    else if bool_decide (score = Seg.min partition ∧ Seg.min partition = partitionMax) then
      convertAndInsert h partitionIndex index score
    (* 10: partition is full, split *)
    else
      '(splitIndices, lowerHalf) ← Partition.split partition;
      let h := with_partitions h (JsArray.put ps partitionIndex lowerHalf) in
      if bool_decide (partitionLength `mod` 2 = 0) then
        h ← insertPartition h (partitionIndex + 1) splitIndices (partitionLength / 2);
        newPartition ← JsArray.get (partitions h) (partitionIndex + 1);
        if bool_decide (Seg.min newPartition > score) then
          atPartition h partitionIndex (λ lookups p, Segment.insert lookups p index score None)
        else
          atPartition h (partitionIndex + 1)
            (λ lookups p, Segment.insert lookups p index score None)
      else None.

(** The removal part of [update]: the identifier leaves the segment at
    [currentPartitionIndex]; a segment left empty is taken out and its
    neighbours are offered to [joinPartitions]. *)
Definition displace (h : t) (currentPartitionIndex : Z) (index : Z) : option t :=
  h ← atPartition h currentPartitionIndex (λ lookups p, Segment.remove lookups p index);
  currentPartition ← JsArray.get (partitions h) currentPartitionIndex;
  if bool_decide (Seg.length currentPartition = 0) then
    h ← reindex (with_partitions h (JsArray.splice (partitions h) currentPartitionIndex 1 []))
           currentPartitionIndex;
    joinPartitions h (currentPartitionIndex - 1)
  else Some h.

(** [update(index, score)] *)
Definition update (h : t) (index score : Z) : option t :=
  let currentPartitionIndex :=
    match TypedArray.get (lookups h) (index * 3 + 1) with
    | Some currentPartitionId =>
        if bool_decide (0 ≤ currentPartitionId) then partitionIds h !! currentPartitionId
        else None
    | None => None
    end in
  let currentPartition :=
    match currentPartitionIndex with
    | Some i => (λ p, (i, p)) <$> JsArray.get (partitions h) i
    | None => None
    end in
  inPlace ←
    match currentPartition with
    | Some (i, p) => fits h i p score
    | None => Some false
    end;
  if (inPlace : bool) then
    match currentPartition with
    | Some (i, _) =>
        h ← atPartition h i
               (λ lookups p, p' ← Segment.update lookups p index score; Some (lookups, p'));
        Some (with_lookups h (TypedArray.put (lookups h) (index * 3) score))
    | None => None
    end
  else
    h ← match currentPartition with
        | Some (i, _) => displace h i index
        | None => Some h
        end;
    let h := with_lookups h (TypedArray.put (lookups h) (index * 3) score) in
    if bool_decide (JsArray.len (partitions h) = 0) then insertSingleton h 0 index
    else place h index score.

End ScoreHeap.


(** * Properties *)

(** ** What an observer reads off a heap *)

Module View.

(** The score recorded for an identifier. *)
Definition score (h : ScoreHeap.t) (x : Z) : option Z :=
  TypedArray.get (ScoreHeap.lookups h) (x * 3).

(** The owning-segment field of an identifier. *)
Definition owner (h : ScoreHeap.t) (x : Z) : option Z :=
  TypedArray.get (ScoreHeap.lookups h) (x * 3 + 1).

(** An identifier is present when its owning-segment field is not
    negative; an identifier outside the side table has no such field. *)
Definition present (h : ScoreHeap.t) (x : Z) : Prop :=
  ∃ o, owner h x = Some o ∧ 0 ≤ o.

(** The live region of a segment: the slots below [length], without the
    tombstones of a uniform segment. *)
Definition live (p : Seg.t) : list Z :=
  let region := take (Z.to_nat (Seg.length p)) (Seg.indices p) in
  if Seg.uniform p then filter (λ x, 0 ≤ x) region else region.

(** The largest score of a segment, as the source's [max] getters read
    it. *)
Definition maxOf (h : ScoreHeap.t) (p : Seg.t) : option Z :=
  Segment.max (ScoreHeap.lookups h) p.

End View.

(** ** What the search utility finds *)

Module SearchSpec.

(** The sign of the comparator never rises along the positions: the
    positions are sorted and the comparator is the target minus the
    element. *)
Definition sorted_for (n : Z) (cmp : Z → Z) : Prop :=
  ∀ i j, 0 ≤ i ∧ i < j < n → (cmp i ≤ 0 → cmp j ≤ 0) ∧ (cmp i < 0 → cmp j < 0).

(** What [searchBinary] returns: an exact match, or the place where the
    sign of the comparator turns, which is [n] when it never does. *)
Definition found (n : Z) (cmp : Z → Z) (q : Z) : Prop :=
  0 ≤ q ≤ n ∧
  ((q < n ∧ cmp q = 0)
   ∨ ((∀ i, 0 ≤ i < q → cmp i > 0) ∧ (∀ i, q ≤ i < n → cmp i < 0))).

(** The insertion point the claim C6 words: the first position whose
    comparator value is not negative, clamped into [0, n-1]. *)
Fixpoint firstNonNegative (fuel : nat) (cmp : Z → Z) (i : Z) : Z :=
  match fuel with
  | O => i
  | S fuel' => if bool_decide (0 ≤ cmp i) then i else firstNonNegative fuel' cmp (i + 1)
  end.

Definition claimedInsertionPoint (n : Z) (cmp : Z → Z) : Z :=
  Z.max 0 (Z.min (n - 1) (firstNonNegative (Z.to_nat n) cmp 0)).

End SearchSpec.

(** ** What the merge utility produces *)

Module MergeSpec.

Inductive side := FromA | FromB.

#[export] Instance side_eq_dec : EqDecision side.
Proof. solve_decision. Defined.

(** An element of the output: the source it was taken from, its
    position there and its value. *)
Definition pick : Type := side * Z * Z.

Definition value (t : pick) : Z := t.2.

(** The merge as the specification words it, on the elements that are
    left: the head of [B] is taken when the comparator is negative, the
    head of [A] otherwise. [j] and [k] are the positions of the heads. *)
Fixpoint mergeFrom (cmp : Z → Z → Z) (A : list Z) (j : Z) : list Z → Z → list pick :=
  fix inner (B : list Z) (k : Z) : list pick :=
    match A, B with
    | [], [] => []
    | [], y :: B' => (FromB, k, y) :: inner B' (k + 1)
    | x :: A', [] => (FromA, j, x) :: mergeFrom cmp A' (j + 1) [] k
    | x :: A', y :: B' =>
        if bool_decide (cmp j k < 0) then (FromB, k, y) :: inner B' (k + 1)
        else (FromA, j, x) :: mergeFrom cmp A' (j + 1) (y :: B') k
    end.

(** [t1] stands before [t2] in [l]. *)
Definition before {X} (t1 t2 : X) (l : list X) : Prop :=
  ∃ l1 l2 l3, l = l1 ++ t1 :: l2 ++ t2 :: l3.

(** The elements taken from one source, in the order of the output. *)
Definition taken (s : side) (l : list pick) : list Z :=
  value <$> filter (λ t, t.1.1 = s) l.

(** The comparator agrees with one ordering of the two sources: an
    element of [B] smaller than one of [A] is smaller than the later
    ones, and so are the earlier elements of [B]. *)
Definition monotone (a b : Z) (cmp : Z → Z → Z) : Prop :=
  ∀ j k, 0 ≤ j < a → 0 ≤ k < b → cmp j k < 0 →
    (∀ j', j ≤ j' < a → cmp j' k < 0) ∧ (∀ k', 0 ≤ k' ≤ k → cmp j k' < 0).

End MergeSpec.

(** ** The invariant of the heap *)

Module Inv.

(** The three cells of an identifier, read with a default; the invariant
    keeps every identifier it mentions inside the side table. *)
Definition scoreAt (lookups : list Z) (x : Z) : Z := lookups !!! Z.to_nat (x * 3).
Definition ownerAt (lookups : list Z) (x : Z) : Z := lookups !!! Z.to_nat (x * 3 + 1).
Definition slotAt (lookups : list Z) (x : Z) : Z := lookups !!! Z.to_nat (x * 3 + 2).

(** The order of a sorted segment: by score, then by identifier. *)
Definition keyLt (a b : Z * Z) : Prop := a.1 < b.1 ∨ (a.1 = b.1 ∧ a.2 < b.2).
Definition keyOf (lookups : list Z) (x : Z) : Z * Z := (scoreAt lookups x, x).
Definition before (lookups : list Z) (x y : Z) : Prop :=
  keyLt (keyOf lookups x) (keyOf lookups y).

(** The slots of a segment below its logical length. *)
Definition region (p : Seg.t) : list Z :=
  take (Z.to_nat (Seg.length p)) (Seg.indices p).

(** A sorted segment: a backing array of [partitionLength] slots, at
    least one member, the members identifiers of the side table in
    strictly ascending order, each owned by the segment, and [min] at
    most every score (it is not refreshed by a removal). *)
Record sortedOk (N PL : Z) (lookups : list Z) (p : Seg.t) : Prop := {
  so_capacity : Z.of_nat (length (Seg.indices p)) = PL;
  so_length : 1 ≤ Seg.length p ≤ PL;
  so_range : Forall (λ x, 0 ≤ x < N) (region p);
  so_sorted : StronglySorted (before lookups) (region p);
  so_owner : Forall (λ x, ownerAt lookups x = Seg.id p) (region p);
  so_min : Forall (λ x, Seg.min p ≤ scoreAt lookups x) (region p)
}.

(** A uniform segment: at least one slot, and every slot that is not a
    tombstone holds an identifier of the side table with the score of
    the segment, owned by it and recorded at this slot. *)
Record uniformOk (N : Z) (lookups : list Z) (p : Seg.t) : Prop := {
  uo_length : 1 ≤ Seg.length p ≤ Z.of_nat (length (Seg.indices p));
  uo_slots : ∀ i x, region p !! i = Some x → 0 ≤ x →
    x < N ∧ scoreAt lookups x = Seg.min p
    ∧ ownerAt lookups x = Seg.id p ∧ slotAt lookups x = Z.of_nat i
}.

Definition segOk (N PL : Z) (lookups : list Z) (p : Seg.t) : Prop :=
  if Seg.uniform p then uniformOk N lookups p else sortedOk N PL lookups p.

(** No score of the segment is above [b]. *)
Definition below (lookups : list Z) (p : Seg.t) (b : Z) : Prop :=
  if Seg.uniform p then Seg.min p ≤ b
  else Forall (λ x, scoreAt lookups x ≤ b) (region p).

(** Consecutive segments: no score of one is above [min] of the next. *)
Fixpoint ordered (lookups : list Z) (ps : list Seg.t) : Prop :=
  match ps with
  | p :: rest =>
      match rest with
      | q :: _ => below lookups p (Seg.min q)
      | [] => True
      end ∧ ordered lookups rest
  | [] => True
  end.

(** The segment ids name the positions. *)
Definition idsOk (ids : gmap Z Z) (ps : list Seg.t) : Prop :=
  ∀ k p, ps !! k = Some p → ids !! Seg.id p = Some (Z.of_nat k).

(** The sum of the logical lengths. *)
Definition mass (ps : list Seg.t) : Z := foldr (λ p n, Seg.length p + n) 0 ps.

(** What the counters may reach: segment ids and slots are stored in an
    [Int32Array], and the searches halve sums of positions in 32 bits. *)
Definition limit : Z := 2 ^ 30.

Record heapOk (N : Z) (h : ScoreHeap.t) : Prop := {
  ho_lookups : Z.of_nat (length (ScoreHeap.lookups h)) = 3 * N;
  ho_capacity : 0 ≤ N ≤ limit;
  ho_partitionLength :
    2 ≤ ScoreHeap.partitionLength h ≤ 4096 ∧ ScoreHeap.partitionLength h `mod` 2 = 0;
  ho_nextId : 0 ≤ ScoreHeap.nextId h ≤ limit;
  ho_mass : mass (ScoreHeap.partitions h) ≤ limit;
  ho_segs : Forall (λ p, segOk N (ScoreHeap.partitionLength h) (ScoreHeap.lookups h) p
                         ∧ 0 ≤ Seg.id p < ScoreHeap.nextId h) (ScoreHeap.partitions h);
  ho_ids : idsOk (ScoreHeap.partitionIds h) (ScoreHeap.partitions h);
  ho_owned : ∀ x, 0 ≤ x < N → 0 ≤ ownerAt (ScoreHeap.lookups h) x →
    ∃ p, p ∈ ScoreHeap.partitions h ∧ Seg.id p = ownerAt (ScoreHeap.lookups h) x
         ∧ x ∈ View.live p;
  ho_ordered : ordered (ScoreHeap.lookups h) (ScoreHeap.partitions h)
}.

(** The capacity the heap was built for. *)
Definition capacity (h : ScoreHeap.t) : Z := Z.of_nat (length (ScoreHeap.lookups h)) `div` 3.

(** Room for one more [update]: it creates at most two segments and
    adds at most one member. *)
Definition roomy (h : ScoreHeap.t) : Prop :=
  ScoreHeap.nextId h + 2 ≤ limit ∧ mass (ScoreHeap.partitions h) + 1 ≤ limit.

(** The pairs a heap may be built from: distinct identifiers of the
    key space, int32 scores. *)
Definition pairsOk (pairs : list (Z * Z)) (maxLength : Z) : Prop :=
  0 ≤ maxLength ≤ limit
  ∧ NoDup pairs.*1
  ∧ Forall (λ a, 0 ≤ a.1 < maxLength ∧ is_int32 a.2) pairs.

(** The heaps a caller who keeps the contract can hold. *)
Inductive reachable : ScoreHeap.t → Prop :=
  | reach_new pairs maxLength h :
      pairsOk pairs maxLength →
      ScoreHeap.new pairs maxLength = Some h →
      reachable h
  | reach_next h :
      reachable h → reachable (ScoreHeap.next h).1
  | reach_remove h index h' r :
      reachable h →
      ScoreHeap.remove h index = Some (h', r) →
      reachable h'
  | reach_update h index score h' :
      reachable h →
      0 ≤ index < capacity h → is_int32 score → roomy h →
      ScoreHeap.update h index score = Some h' →
      reachable h'.

End Inv.

(** ** Definitions the proofs use *)

Module Ghost.

Import Inv.

(** What [searchBinary] returns for the final state of its loop. *)
Definition searchFinish (st : option Z * option Z) : option Z :=
  match st with
  | (Some c, Some r) => if bool_decide (r > 0) then Some (c + 1) else Some c
  | (currentIndex, _) => currentIndex
  end.

(** The destination while the merge runs: what was written so far, then
    the old content. *)
Definition written (out dest : list Z) : list Z := out ++ drop (length out) dest.

(** Two side tables that agree on the cells of an identifier. *)
Definition sameCells (lk lk' : list Z) (x : Z) : Prop :=
  scoreAt lk' x = scoreAt lk x ∧ ownerAt lk' x = ownerAt lk x ∧ slotAt lk' x = slotAt lk x.

(** The value of [compare] at a position that holds the identifier [y]. *)
Definition compareWith (lk : list Z) (s x y : Z) : Z :=
  if bool_decide (s - scoreAt lk y ≠ 0) then s - scoreAt lk y else x - y.

(** The result of [update], whatever branch produced it: the member
    stands at place [t] among the others, and [min] moved in step. *)
Definition moved (lk : list Z) (p : Seg.t) (x s : Z) (L : list Z) (p' : Seg.t) : Prop :=
  ∃ t G' m,
    p' = Seg.Make (Seg.uniform p) (Seg.id p) (take t L ++ x :: drop t L ++ G')
           (Seg.length p) m
    ∧ length (take t L ++ x :: drop t L ++ G') = length (Seg.indices p)
    ∧ Forall (λ y, keyLt (keyOf lk y) (s, x)) (take t L)
    ∧ Forall (λ y, keyLt (s, x) (keyOf lk y)) (drop t L)
    ∧ Z.min (Seg.min p) s ≤ m ∧ m ≤ s
    ∧ Forall (λ y, m ≤ scoreAt lk y) L.

(** The side table after a loop that hands the identifiers [R] to the
    segment [i]: the owner cell of each is [i], the other identifiers
    keep their cells, and no score changes. [slot] tells what the loop
    leaves in the slot cell. *)
Record handed (lk lk' : list Z) (R : list Z) (i : Z) : Prop := {
  hd_length : length lk' = length lk;
  hd_score : ∀ y, 0 ≤ y → scoreAt lk' y = scoreAt lk y;
  hd_owner : ∀ y, y ∈ R → ownerAt lk' y = i;
  hd_other : ∀ y, 0 ≤ y → y ∉ R → sameCells lk lk' y
}.

(** The comparator of [join] on the positions of the two regions. *)
Definition joinCompare (lk : list Z) (Rp Rq : list Z) (j k : Z) : Z :=
  let pb := Rq !!! Z.to_nat k in
  let ia := Rp !!! Z.to_nat j in
  let sb := scoreAt lk pb in
  let sa := scoreAt lk ia in
  if bool_decide (sb - sa ≠ 0) then sb - sa else pb - ia.

(** What the constructor and [join] do to the side table for the slots
    [T] that start at position [k]: a live slot gets the owner [i] and
    its position. *)
Fixpoint tagLoop (i : Z) (T : list Z) (k : Z) (lk : list Z) : list Z :=
  match T with
  | [] => lk
  | y :: T' =>
      tagLoop i T' (k + 1)
        (if bool_decide (0 ≤ y)
         then TypedArray.put (TypedArray.put lk (y * 3 + 1) i) (y * 3 + 2) k
         else lk)
  end.

(** No live identifier stands at two slots. *)
Definition liveOnce (T : list Z) : Prop :=
  ∀ j j' y, T !! j = Some y → T !! j' = Some y → 0 ≤ y → j = j'.

Record tagged (lk lk' : list Z) (T : list Z) (i k : Z) : Prop := {
  tg_length : length lk' = length lk;
  tg_score : ∀ y, 0 ≤ y → scoreAt lk' y = scoreAt lk y;
  tg_slot : ∀ j y, T !! j = Some y → 0 ≤ y →
    ownerAt lk' y = i ∧ slotAt lk' y = k + Z.of_nat j;
  tg_other : ∀ y, 0 ≤ y → y ∉ T → sameCells lk lk' y
}.

(** What [next] returns and leaves behind. *)
Definition nextSpec (N : Z) (h h' : ScoreHeap.t) (r : option Z) : Prop :=
  heapOk N h'
  ∧ ScoreHeap.lookups h' = ScoreHeap.lookups h
  ∧ ScoreHeap.nextId h' = ScoreHeap.nextId h
  ∧ ScoreHeap.partitionLength h' = ScoreHeap.partitionLength h
  ∧ mass (ScoreHeap.partitions h') ≤ mass (ScoreHeap.partitions h)
  ∧ match r with
    | Some x =>
        0 ≤ x < N ∧ 0 ≤ ownerAt (ScoreHeap.lookups h) x
        ∧ ∀ y, 0 ≤ y < N → 0 ≤ ownerAt (ScoreHeap.lookups h) y →
            scoreAt (ScoreHeap.lookups h) y ≤ scoreAt (ScoreHeap.lookups h) x
    | None => ∀ y, 0 ≤ y < N → ownerAt (ScoreHeap.lookups h) y < 0
    end
  ∧ ScoreHeap.next h' = (h', r).

(** What [joinPartitions] keeps of the heap. *)
Definition joinKeeps (N : Z) (h h' : ScoreHeap.t) : Prop :=
  heapOk N h'
  ∧ length (ScoreHeap.lookups h') = length (ScoreHeap.lookups h)
  ∧ (∀ y, 0 ≤ y → scoreAt (ScoreHeap.lookups h') y = scoreAt (ScoreHeap.lookups h) y)
  ∧ (∀ y, 0 ≤ y → ownerAt (ScoreHeap.lookups h) y < 0 →
       sameCells (ScoreHeap.lookups h) (ScoreHeap.lookups h') y)
  ∧ (∀ y, 0 ≤ y < N → 0 ≤ ownerAt (ScoreHeap.lookups h) y →
       0 ≤ ownerAt (ScoreHeap.lookups h') y)
  ∧ ScoreHeap.nextId h ≤ ScoreHeap.nextId h' ≤ ScoreHeap.nextId h + 1
  ∧ ScoreHeap.partitionLength h' = ScoreHeap.partitionLength h
  ∧ mass (ScoreHeap.partitions h') = mass (ScoreHeap.partitions h).

(** What the removal part keeps: the other identifiers keep their
    score and stay present or absent. *)
Definition others (N : Z) (h h' : ScoreHeap.t) (x : Z) : Prop :=
  ∀ y, 0 ≤ y < N → y ≠ x →
    scoreAt (ScoreHeap.lookups h') y = scoreAt (ScoreHeap.lookups h) y
    ∧ (0 ≤ ownerAt (ScoreHeap.lookups h') y ↔ 0 ≤ ownerAt (ScoreHeap.lookups h) y).

(** What the insertion part of [update] reaches: the identifier is
    present with its score, the others are as they were. *)
Definition placedSpec (N : Z) (h h' : ScoreHeap.t) (x s : Z) : Prop :=
  heapOk N h'
  ∧ 0 ≤ ownerAt (ScoreHeap.lookups h') x
  ∧ scoreAt (ScoreHeap.lookups h') x = s
  ∧ others N h h' x
  ∧ ScoreHeap.partitionLength h' = ScoreHeap.partitionLength h.

(** The outcome of [insert] on a sorted segment: the place [la | lb]
    of the new key in the region. *)
Definition insertsAt (lk : list Z) (q : Seg.t) (x s : Z) (hint : option Z)
    (la lb G' : list Z) : Prop :=
  region q = la ++ lb
  ∧ Forall (λ y, keyLt (keyOf lk y) (s, x)) la
  ∧ Forall (λ y, keyLt (s, x) (keyOf lk y)) lb
  ∧ Partition.insert lk q x s hint
    = Some (TypedArray.put lk (x * 3 + 1) (Seg.id q),
            Seg.Make (Seg.uniform q) (Seg.id q) (la ++ x :: lb ++ G')
              (Seg.length q + 1)
              (if bool_decide (la = []) then s else Seg.min q))
  ∧ length (la ++ x :: lb ++ G') = length (Seg.indices q).

(** The comparator of the search on the [min] fields. *)
Definition routeAt (mins : list Z) (s i : Z) : Z :=
  if bool_decide (mins !!! Z.to_nat i ≤ s) then
    if bool_decide (i = Z.of_nat (length mins) - 1) then 0
    else if bool_decide (mins !!! Z.to_nat (i + 1) > s) then 0 else 1
  else if bool_decide (i = 0) then 0
  else -1.

Definition pairLe (a b : Z * Z) : Prop := ScoreHeap.comparePairs a b ≤ 0.

(** The order of the sorted pairs when no identifier comes twice. *)
Definition pairLt (a b : Z * Z) : Prop := keyLt (a.2, a.1) (b.2, b.1).

(** The score cells after the pairs [S] were written in turn. *)
Definition writeScores (S : list (Z * Z)) (lk : list Z) : list Z :=
  foldl (λ lk a, TypedArray.put lk (a.1 * 3) a.2) lk S.

Record scored (lk lk' : list Z) (S : list (Z * Z)) : Prop := {
  sc_length : length lk' = length lk;
  sc_cells : ∀ y, 0 ≤ y → ownerAt lk' y = ownerAt lk y ∧ slotAt lk' y = slotAt lk y;
  sc_score : ∀ a, a ∈ S → scoreAt lk' a.1 = a.2;
  sc_other : ∀ y, 0 ≤ y → y ∉ S.*1 → scoreAt lk' y = scoreAt lk y
}.

(** The heap while the constructor runs: the pairs [done] are in
    segments and present with their scores, the pairs [rest] are to
    come and none of their scores is below a score of the last segment,
    and no other identifier is present. *)
Record built (N PL : Z) (done rest : list (Z * Z)) (h : ScoreHeap.t) : Prop := {
  bu_ok : heapOk N h;
  bu_PL : ScoreHeap.partitionLength h = PL;
  bu_nextId : ScoreHeap.nextId h = Z.of_nat (length (ScoreHeap.partitions h));
  bu_mass : mass (ScoreHeap.partitions h) = Z.of_nat (length done);
  bu_absent : ∀ a, a ∈ rest → ownerAt (ScoreHeap.lookups h) a.1 < 0;
  bu_below : ∀ p a, last (ScoreHeap.partitions h) = Some p → a ∈ rest →
    below (ScoreHeap.lookups h) p a.2;
  bu_done : ∀ a, a ∈ done →
    0 ≤ ownerAt (ScoreHeap.lookups h) a.1 ∧ scoreAt (ScoreHeap.lookups h) a.1 = a.2;
  bu_others : ∀ y, 0 ≤ y < N → y ∉ done.*1 → ownerAt (ScoreHeap.lookups h) y < 0
}.

(** What the constructor of either class leaves in the side table for
    the chunk and the others. *)
Definition chunked (lk : list Z) (S : list (Z * Z)) (nid : Z) (lk' : list Z) : Prop :=
  length lk' = length lk
  ∧ (∀ a, a ∈ S → scoreAt lk' a.1 = a.2 ∧ ownerAt lk' a.1 = nid)
  ∧ (∀ y, 0 ≤ y → y ∉ S.*1 → sameCells lk lk' y).

End Ghost.

(** ** The scenario of four equal scores *)

Module ScenarioA.

Definition pairs : list (Z * Z) := [(0, 5); (1, 5); (2, 5); (3, 5)].

(** What stands for the heap of a constructor or method that threw. *)
Definition nothing : ScoreHeap.t := ScoreHeap.Make [] [] ∅ 0 0.

(** [new ScoreHeap(pairs, 4)] *)
Definition heap : ScoreHeap.t := default nothing (ScoreHeap.new pairs 4).

End ScenarioA.

(** ** The scenario of a tie in a uniform segment

    Thirty-two identifiers of score 5 make a uniform segment; 33 and
    then 32 are inserted with the same score. *)

Module ScenarioTie.

Definition pairs : list (Z * Z) := (λ i, (i, 5)) <$> seqZ 0 32.

(** [new ScoreHeap(pairs, 34)] *)
Definition built : ScoreHeap.t := default ScenarioA.nothing (ScoreHeap.new pairs 34).

(** [update(33, 5)] *)
Definition first : ScoreHeap.t := default ScenarioA.nothing (ScoreHeap.update built 33 5).

(** [update(32, 5)] after that *)
Definition heap : ScoreHeap.t := default ScenarioA.nothing (ScoreHeap.update first 32 5).

(** The one segment of [heap]. *)
Definition segment : Seg.t :=
  default (Seg.Make false 0 [] 0 0) (ScoreHeap.partitions heap !! 0%nat).

End ScenarioTie.

(** ** The scenario of two sorted segments

    Thirty-three identifiers, each with its own value as score, make a
    full sorted segment and a segment of one. *)

Module ScenarioJoin.

Definition pairs : list (Z * Z) := (λ i, (i, i)) <$> seqZ 0 33.

(** [new ScoreHeap(pairs, 33)] *)
Definition built : ScoreHeap.t := default ScenarioA.nothing (ScoreHeap.new pairs 33).

(** [remove(0)] makes room in the lower segment. *)
Definition heap : ScoreHeap.t :=
  default ScenarioA.nothing (fst <$> ScoreHeap.remove built 0).

Definition lower (h : ScoreHeap.t) : Seg.t :=
  default (Seg.Make false 0 [] 0 0) (ScoreHeap.partitions h !! 0%nat).
Definition upper (h : ScoreHeap.t) : Seg.t :=
  default (Seg.Make false 0 [] 0 0) (ScoreHeap.partitions h !! 1%nat).

End ScenarioJoin.

(** ** The scenario of a full sorted segment

    Thirty-two identifiers, each with its own value as score, fill one
    sorted segment; the identifiers 32 and 33 of the key space are
    absent. *)

Module ScenarioFull.

Definition pairs : list (Z * Z) := (λ i, (i, i)) <$> seqZ 0 32.

(** [new ScoreHeap(pairs, 34)] *)
Definition heap : ScoreHeap.t := default ScenarioA.nothing (ScoreHeap.new pairs 34).

(** The one segment of [heap]. *)
Definition segment : Seg.t :=
  default (Seg.Make false 0 [] 0 0) (ScoreHeap.partitions heap !! 0%nat).

End ScenarioFull.

(** ** The scenario of a heap without pairs *)

Module ScenarioEmpty.

(** [new ScoreHeap([], 4)] *)
Definition heap : ScoreHeap.t := default ScenarioA.nothing (ScoreHeap.new [] 4).

End ScenarioEmpty.

(** ** The scenario of a uniform segment with no live member

    Every identifier of the uniform segment of the tie scenario is
    removed; the segment stays, with tombstones only. *)

Module ScenarioTombs.

Definition heap : ScoreHeap.t :=
  foldl (λ h i, default ScenarioA.nothing (fst <$> ScoreHeap.remove h i))
    ScenarioTie.built (seqZ 0 32).

(** The one segment of [heap]. *)
Definition segment : Seg.t :=
  default (Seg.Make false 0 [] 0 0) (ScoreHeap.partitions heap !! 0%nat).

End ScenarioTombs.

(** ** The scenario of a sorted segment converted to a uniform one

    Thirty-two identifiers are inserted with the score 5 into a heap
    without pairs, 31 first and 0 last; they fill one sorted segment.
    [update(32, 5)] converts it to a uniform segment and appends 32,
    and [remove(32)] leaves a tombstone in the slot of 32. *)

Module ScenarioConvert.

(** The identifiers in the order of their insertion: 31 down to 0. *)
Definition inserts : list Z := reverse (seqZ 0 32).

(** [new ScoreHeap([], 40)] *)
Definition empty : ScoreHeap.t := default ScenarioA.nothing (ScoreHeap.new [] 40).

(** [update(i, 5)] for the identifiers of [inserts], one after the other *)
Definition filled : ScoreHeap.t :=
  foldl (λ h i, default ScenarioA.nothing (ScoreHeap.update h i 5)) empty inserts.

(** [update(32, 5)] *)
Definition converted : ScoreHeap.t :=
  default ScenarioA.nothing (ScoreHeap.update filled 32 5).

(** [remove(32)] *)
Definition heap : ScoreHeap.t :=
  default ScenarioA.nothing (fst <$> ScoreHeap.remove converted 32).

(** The one segment of [heap]. *)
Definition segment : Seg.t :=
  default (Seg.Make false 0 [] 0 0) (ScoreHeap.partitions heap !! 0%nat).

End ScenarioConvert.



(** * Proofs *)

(** ** 32-bit integers and arrays *)

Lemma toInt32_id x : is_int32 x → toInt32 x = x.
Proof.
  unfold is_int32, toInt32. intros H.
  rewrite Z.mod_small by lia. lia.
Qed.

Lemma toInt32_is_int32 x : is_int32 (toInt32 x).
Proof.
  unfold is_int32, toInt32.
  pose proof (Z.mod_pos_bound (x + 2 ^ 31) (2 ^ 32)). lia.
Qed.

Lemma sar1_half x : 0 ≤ x < 2 ^ 31 → sar1 x = x `div` 2.
Proof.
  intros H. unfold sar1. rewrite toInt32_id by (unfold is_int32; lia).
  rewrite Z.shiftr_div_pow2 by lia. reflexivity.
Qed.

Lemma get_lookup (a : list Z) i y :
  0 ≤ i → a !! Z.to_nat i = Some y → TypedArray.get a i = Some y.
Proof.
  intros Hi Hy. unfold TypedArray.get, JsArray.get.
  rewrite bool_decide_eq_true_2 by done. exact Hy.
Qed.

Lemma drop_lookup_cons {X} (l : list X) n y rest :
  drop n l = y :: rest → l !! n = Some y ∧ drop (S n) l = rest.
Proof.
  intros H. split.
  - rewrite <- (Nat.add_0_r n), <- lookup_drop, H. reflexivity.
  - replace (S n) with (n + 1)%nat by lia. rewrite <- drop_drop, H. reflexivity.
Qed.


Import Utility SearchSpec Ghost.

(** ** The search utility *)

Lemma searchBinary_unfold n fn :
  searchBinary n fn = searchFinish <$> searchLoop (searchFuel n) fn 0 (n - 1) None None.
Proof.
  unfold searchBinary. destruct (searchLoop _ _ _ _ _ _) as [[[c|] [r|]]|]; simpl; try reflexivity.
  case_bool_decide; reflexivity.
Qed.

Lemma searchLoop_S fuel fn lo hi c r :
  searchLoop (S fuel) fn lo hi c r =
  if bool_decide (lo ≤ hi) then
    fn (sar1 (lo + hi)) ≫= λ x,
      if bool_decide (x > 0) then
        searchLoop fuel fn (sar1 (lo + hi) + 1) hi (Some (sar1 (lo + hi))) (Some x)
      else if bool_decide (x < 0) then
        searchLoop fuel fn lo (sar1 (lo + hi) - 1) (Some (sar1 (lo + hi))) (Some x)
      else Some (Some (sar1 (lo + hi)), Some x)
  else Some (c, r).
Proof. reflexivity. Qed.

Lemma searchLoop_ext fuel fn fn' lo hi c r :
  (∀ i, fn i = fn' i) → searchLoop fuel fn lo hi c r = searchLoop fuel fn' lo hi c r.
Proof.
  intros Hext. revert lo hi c r. induction fuel as [|fuel IH]; intros lo hi c r; [done|].
  rewrite !searchLoop_S, Hext. case_bool_decide; [|done].
  destruct (fn' _) as [x|]; [|done]. cbn [mbind option_bind].
  rewrite !IH. done.
Qed.

Lemma searchBinary_ext n fn fn' :
  (∀ i, fn i = fn' i) → searchBinary n fn = searchBinary n fn'.
Proof. intros Hext. unfold searchBinary. rewrite (searchLoop_ext _ fn fn') by done. done. Qed.

Section search.
Context (n : Z) (fn : Z → option Z) (cmp : Z → Z).
Hypothesis Hn : n ≤ 2 ^ 30.
Hypothesis Hfn : ∀ i, 0 ≤ i < n → fn i = Some (cmp i).
Hypothesis Hsorted : sorted_for n cmp.

Lemma searchLoop_found fuel lo hi c r :
  0 ≤ lo → hi < n → lo ≤ hi + 1 →
  hi - lo + 1 < 2 ^ Z.of_nat fuel →
  (∀ i, 0 ≤ i < lo → cmp i > 0) →
  (∀ i, hi < i < n → cmp i < 0) →
  match c, r with
  | Some c, Some r => (r > 0 → lo = c + 1) ∧ (r < 0 → hi = c - 1) ∧ r ≠ 0
  | None, None => lo = 0 ∧ hi = n - 1
  | _, _ => False
  end →
  ∃ st, searchLoop (S fuel) fn lo hi c r = Some st
        ∧ match searchFinish st with
          | Some q => found n cmp q
          | None => n ≤ 0
          end.
Proof.
  revert lo hi c r. induction fuel as [|fuel IH]; intros lo hi c r Hlo Hhi Hle Hsz Hl Hr Hst.
  - (* the interval is empty *)
    change (2 ^ Z.of_nat 0) with 1 in Hsz.
    simpl. rewrite bool_decide_eq_false_2 by lia.
    eexists; split; [reflexivity|].
    destruct c as [c|], r as [r|]; try done; simpl.
    + destruct Hst as (Hp & Hm & Hne).
      case_bool_decide as Hpos.
      * split; [lia|]. right. split; intros i Hi; [apply Hl|apply Hr]; lia.
      * split; [lia|]. right. split; intros i Hi; [apply Hl|apply Hr]; lia.
    + lia.
  - rewrite searchLoop_S. case_bool_decide as Hgo.
    + assert (Hhalf : sar1 (lo + hi) = (lo + hi) `div` 2) by (apply sar1_half; lia).
      rewrite Hhalf. set (cur := (lo + hi) `div` 2).
      assert (Hdiv : 2 * cur ≤ lo + hi < 2 * cur + 2).
      { unfold cur. pose proof (Z.div_mod (lo + hi) 2 ltac:(lia)).
        pose proof (Z.mod_pos_bound (lo + hi) 2 ltac:(lia)). lia. }
      clearbody cur.
      rewrite Hfn by lia. simpl.
      assert (Hpow : 2 ^ Z.of_nat (S fuel) = 2 * 2 ^ Z.of_nat fuel).
      { rewrite Nat2Z.inj_succ, Z.pow_succ_r; lia. }
      case_bool_decide as Hpos; [|case_bool_decide as Hneg].
      * apply IH; try lia.
        -- intros i Hi. destruct (decide (i < lo)); [apply Hl; lia|].
           destruct (decide (i = cur)) as [->|]; [lia|].
           destruct (Hsorted i cur) as [H1 _]; [lia|].
           destruct (decide (cmp i ≤ 0)); [specialize (H1 ltac:(done))|]; lia.
        -- done.
      * apply IH; try lia.
        -- done.
        -- intros i Hi. destruct (decide (hi < i)); [apply Hr; lia|].
           destruct (decide (i = cur)) as [->|]; [lia|].
           destruct (Hsorted cur i) as [_ H2]; [lia|]. apply H2. lia.
      * eexists; split; [reflexivity|]. simpl.
        rewrite bool_decide_eq_false_2 by lia.
        split; [lia|]. left. split; lia.
    + eexists; split; [reflexivity|].
      destruct c as [c|], r as [r|]; try done; simpl.
      * destruct Hst as (Hp & Hm & Hne).
        case_bool_decide as Hpos.
        -- split; [lia|]. right. split; intros i Hi; [apply Hl|apply Hr]; lia.
        -- split; [lia|]. right. split; intros i Hi; [apply Hl|apply Hr]; lia.
      * lia.
Qed.

Lemma searchBinary_found :
  0 < n → ∃ q, searchBinary n fn = Some (Some q) ∧ found n cmp q.
Proof.
  intros Hpos. rewrite searchBinary_unfold. unfold searchFuel.
  destruct (searchLoop_found (S (Z.to_nat (Z.log2 n))) 0 (n - 1) None None)
    as (st & -> & Hst); try lia.
  - rewrite Nat2Z.inj_succ, Z2Nat.id by apply Z.log2_nonneg.
    pose proof (Z.log2_spec n Hpos). lia.
  - simpl. destruct (searchFinish st) as [q|]; [|lia]. eauto.
Qed.

End search.

(** For no position at all the loop never runs and the source returns
    [undefined]. *)
Lemma searchBinary_empty n fn : n ≤ 0 → searchBinary n fn = Some None.
Proof.
  intros Hn. unfold searchBinary, searchFuel.
  cbn [searchLoop]. rewrite bool_decide_eq_false_2 by lia. reflexivity.
Qed.

(** C6, as stated, fails: for one position whose element is below the
    target the utility returns 1, the length, while the insertion point
    of the claim, clamped into [0, n-1], is 0. No position matches. *)
Lemma searchBinary_is_not_clamped :
  sorted_for 1 (λ _, 1)
  ∧ searchBinary 1 (λ _, Some 1) = Some (Some 1)
  ∧ claimedInsertionPoint 1 (λ _, 1) = 0.
Proof.
  split; [|split; reflexivity].
  intros i j Hij. lia.
Qed.

(** C6, amended: for a length [n] with 0 < n ≤ 2^30 and a comparator
    whose sign never rises along the positions, [searchBinary] returns a
    position [q] in [0, n]; when some position compares equal, [q] is a
    position that compares equal; when none does, [q] is the insertion
    point: every position before [q] has a positive comparator and every
    position from [q] on a negative one, so [q] is [n], not [n-1], when
    the target is above every element. For [n ≤ 0] the result is
    [undefined]. *)
Theorem searchBinary_correct (n : Z) (cmp : Z → Z) :
  (n ≤ 0 → searchBinary n (λ i, Some (cmp i)) = Some None)
  ∧ (0 < n ≤ 2 ^ 30 → sorted_for n cmp →
     ∃ q, searchBinary n (λ i, Some (cmp i)) = Some (Some q)
       ∧ 0 ≤ q ≤ n
       ∧ ((∃ i, 0 ≤ i < n ∧ cmp i = 0) → q < n ∧ cmp q = 0)
       ∧ ((∀ i, 0 ≤ i < n → cmp i ≠ 0) →
          (∀ i, 0 ≤ i < q → cmp i > 0) ∧ (∀ i, q ≤ i < n → cmp i < 0))).
Proof.
  split; [apply searchBinary_empty|].
  intros [Hpos Hn] Hsorted.
  destruct (searchBinary_found n (λ i, Some (cmp i)) cmp Hn) as (q & Hq & Hrange & Hfound);
    [done|done|done|].
  exists q. split; [done|]. split; [done|]. split.
  - intros (i & Hi & Hz). destruct Hfound as [Hm|[Hbefore Hafter]]; [done|].
    destruct (decide (i < q)).
    + specialize (Hbefore i ltac:(lia)). lia.
    + specialize (Hafter i ltac:(lia)). lia.
  - intros Hnone. destruct Hfound as [[Hlt Hz]|Hins]; [|done].
    specialize (Hnone q ltac:(lia)). done.
Qed.

Lemma searchBinary_correct_witness :
  ∃ q, searchBinary 4 (λ i, Some (5 - 2 * i)) = Some (Some q)
    ∧ 0 ≤ q ≤ 4
    ∧ ((∃ i, 0 ≤ i < 4 ∧ 5 - 2 * i = 0) → q < 4 ∧ 5 - 2 * q = 0)
    ∧ ((∀ i, 0 ≤ i < 4 → 5 - 2 * i ≠ 0) →
       (∀ i, 0 ≤ i < q → 5 - 2 * i > 0) ∧ (∀ i, q ≤ i < 4 → 5 - 2 * i < 0)).
Proof.
  apply (proj2 (searchBinary_correct 4 (λ i, 5 - 2 * i))).
  - lia.
  - intros i j Hij. lia.
Defined.

Import Utility MergeSpec Ghost.

(** ** The merge utility *)

Lemma mergeFrom_cons cmp x A j y B k :
  mergeFrom cmp (x :: A) j (y :: B) k =
  if bool_decide (cmp j k < 0) then (FromB, k, y) :: mergeFrom cmp (x :: A) j B (k + 1)
  else (FromA, j, x) :: mergeFrom cmp A (j + 1) (y :: B) k.
Proof. reflexivity. Qed.

Lemma mergeFrom_nil_r cmp x A j k :
  mergeFrom cmp (x :: A) j [] k = (FromA, j, x) :: mergeFrom cmp A (j + 1) [] k.
Proof. reflexivity. Qed.

Lemma mergeFrom_nil_cons cmp j y B k :
  mergeFrom cmp [] j (y :: B) k = (FromB, k, y) :: mergeFrom cmp [] j B (k + 1).
Proof. reflexivity. Qed.

Lemma mergeFrom_length cmp A j B k :
  length (mergeFrom cmp A j B k) = (length A + length B)%nat.
Proof.
  revert j B k. induction A as [|x A IHA]; intros j B; induction B as [|y B IHB]; intros k.
  - reflexivity.
  - rewrite mergeFrom_nil_cons. simpl. rewrite IHB. reflexivity.
  - rewrite mergeFrom_nil_r. simpl. rewrite IHA. simpl. lia.
  - rewrite mergeFrom_cons. case_bool_decide; simpl.
    + rewrite IHB. simpl. lia.
    + rewrite IHA. simpl. lia.
Qed.

Lemma taken_A cmp A j B k : taken FromA (mergeFrom cmp A j B k) = A.
Proof.
  unfold taken.
  revert j B k. induction A as [|x A IHA]; intros j B; induction B as [|y B IHB]; intros k.
  - reflexivity.
  - rewrite mergeFrom_nil_cons, filter_cons_False by (simpl; congruence). apply IHB.
  - rewrite mergeFrom_nil_r, filter_cons_True by reflexivity. simpl. f_equal. apply IHA.
  - rewrite mergeFrom_cons. case_bool_decide.
    + rewrite filter_cons_False by (simpl; congruence). apply IHB.
    + rewrite filter_cons_True by reflexivity. simpl. f_equal. apply IHA.
Qed.

Lemma taken_B cmp A j B k : taken FromB (mergeFrom cmp A j B k) = B.
Proof.
  unfold taken.
  revert j B k. induction A as [|x A IHA]; intros j B; induction B as [|y B IHB]; intros k.
  - reflexivity.
  - rewrite mergeFrom_nil_cons, filter_cons_True by reflexivity. simpl. f_equal. apply IHB.
  - rewrite mergeFrom_nil_r, filter_cons_False by (simpl; congruence). apply IHA.
  - rewrite mergeFrom_cons. case_bool_decide.
    + rewrite filter_cons_True by reflexivity. simpl. f_equal. apply IHB.
    + rewrite filter_cons_False by (simpl; congruence). apply IHA.
Qed.

(** Every pick names a position of its source at or after the heads. *)
Lemma mergeFrom_elem cmp A j B k s n v :
  (s, n, v) ∈ mergeFrom cmp A j B k →
  match s with
  | FromA => j ≤ n ∧ A !! Z.to_nat (n - j) = Some v
  | FromB => k ≤ n ∧ B !! Z.to_nat (n - k) = Some v
  end.
Proof.
  revert j B k. induction A as [|x A IHA]; intros j B; induction B as [|y B IHB]; intros k.
  - simpl. intros H. inversion H.
  - rewrite mergeFrom_nil_cons. intros [Heq|Hin]%elem_of_cons.
    + inversion Heq; subst. split; [lia|]. replace (k - k) with 0 by lia. reflexivity.
    + apply IHB in Hin. destruct s; [destruct Hin as [? Hin]; destruct (Z.to_nat (n - j)); done|].
      destruct Hin as [Hk Hin]. split; [lia|].
      replace (Z.to_nat (n - k)) with (S (Z.to_nat (n - (k + 1)))) by lia. exact Hin.
  - rewrite mergeFrom_nil_r. intros [Heq|Hin]%elem_of_cons.
    + inversion Heq; subst. split; [lia|]. replace (j - j) with 0 by lia. reflexivity.
    + apply IHA in Hin. destruct s; [|destruct Hin as [? Hin]; destruct (Z.to_nat (n - k)); done].
      destruct Hin as [Hk Hin]. split; [lia|].
      replace (Z.to_nat (n - j)) with (S (Z.to_nat (n - (j + 1)))) by lia. exact Hin.
  - rewrite mergeFrom_cons. case_bool_decide.
    + intros [Heq|Hin]%elem_of_cons.
      * inversion Heq; subst. split; [lia|]. replace (k - k) with 0 by lia. reflexivity.
      * apply IHB in Hin. destruct s; [exact Hin|].
        destruct Hin as [Hk Hin]. split; [lia|].
        replace (Z.to_nat (n - k)) with (S (Z.to_nat (n - (k + 1)))) by lia. exact Hin.
    + intros [Heq|Hin]%elem_of_cons.
      * inversion Heq; subst. split; [lia|]. replace (j - j) with 0 by lia. reflexivity.
      * apply IHA in Hin. destruct s; [|exact Hin].
        destruct Hin as [Hk Hin]. split; [lia|].
        replace (Z.to_nat (n - j)) with (S (Z.to_nat (n - (j + 1)))) by lia. exact Hin.
Qed.

Lemma before_cons_head {X} (t u : X) l : u ∈ l → before t u (t :: l).
Proof.
  intros (l2 & l3 & ->)%list_elem_of_split. exists [], l2, l3. reflexivity.
Qed.

Lemma before_cons_tail {X} (t u v : X) l : before t u l → before t u (v :: l).
Proof.
  intros (l1 & l2 & l3 & ->). exists (v :: l1), l2, l3. reflexivity.
Qed.

Lemma mergeFrom_order cmp a b A j B k :
  0 ≤ j → 0 ≤ k → a = j + Z.of_nat (length A) → b = k + Z.of_nat (length B) →
  monotone a b cmp →
  ∀ n m x y,
    (FromA, n, x) ∈ mergeFrom cmp A j B k →
    (FromB, m, y) ∈ mergeFrom cmp A j B k →
    if bool_decide (cmp n m < 0)
    then before (FromB, m, y) (FromA, n, x) (mergeFrom cmp A j B k)
    else before (FromA, n, x) (FromB, m, y) (mergeFrom cmp A j B k).
Proof.
  intros Hj Hk Ha Hb Hmono. revert j B k Hj Hk Ha Hb.
  induction A as [|x0 A IHA]; intros j B; induction B as [|y0 B IHB];
    intros k Hj Hk Ha Hb n m x y HA HB.
  - inversion HA.
  - apply mergeFrom_elem in HA as [_ HA]. destruct (Z.to_nat (n - j)); done.
  - apply mergeFrom_elem in HB as [_ HB]. destruct (Z.to_nat (m - k)); done.
  - pose proof (mergeFrom_elem _ _ _ _ _ _ _ _ HA) as [Hn HnA].
    pose proof (mergeFrom_elem _ _ _ _ _ _ _ _ HB) as [Hm HmB].
    apply lookup_lt_Some in HnA, HmB. simpl in HnA, HmB, Ha, Hb.
    revert HA HB. rewrite mergeFrom_cons. case_bool_decide as Hc.
    + intros [HA|HA]%elem_of_cons [HB|HB]%elem_of_cons; try discriminate.
      * inversion HB; subst m y.
        destruct (Hmono j k ltac:(lia) ltac:(lia) Hc) as [Hup _].
        rewrite bool_decide_eq_true_2 by (apply Hup; lia).
        apply before_cons_head, HA.
      * specialize (IHB (k + 1) Hj ltac:(lia) Ha ltac:(simpl; lia) n m x y HA HB).
        case_bool_decide; apply before_cons_tail, IHB.
    + intros [HA|HA]%elem_of_cons [HB|HB]%elem_of_cons; try discriminate.
      * inversion HA; subst n x.
        rewrite bool_decide_eq_false_2.
        { apply before_cons_head, HB. }
        intros Hlt. apply Hc.
        destruct (Hmono j m ltac:(lia) ltac:(lia) Hlt) as [_ Hdown].
        apply Hdown. lia.
      * specialize (IHA (j + 1) (y0 :: B) k ltac:(lia) Hk ltac:(simpl; lia) Hb n m x y HA HB).
        case_bool_decide; apply before_cons_tail, IHA.
Qed.

Lemma mergeFrom_value_elem cmp A j B k v :
  v ∈ value <$> mergeFrom cmp A j B k → v ∈ A ∨ v ∈ B.
Proof.
  intros ([[s n] v'] & -> & Hin)%list_elem_of_fmap.
  apply mergeFrom_elem in Hin. destruct s; destruct Hin as [_ Hin];
    apply list_elem_of_lookup_2 in Hin; auto.
Qed.

Lemma mergeFrom_sorted (le : relation Z) `{!Transitive le} cmp A j B k :
  StronglySorted le A → StronglySorted le B →
  (∀ n m x y, A !! n = Some x → B !! m = Some y →
     if bool_decide (cmp (j + Z.of_nat n) (k + Z.of_nat m) < 0) then le y x else le x y) →
  StronglySorted le (value <$> mergeFrom cmp A j B k).
Proof.
  revert j B k. induction A as [|x0 A IHA]; intros j B; induction B as [|y0 B IHB];
    intros k HA HB Hc.
  - constructor.
  - rewrite mergeFrom_nil_cons, fmap_cons.
    apply StronglySorted_inv in HB as [HB HyB].
    constructor.
    + apply IHB; [constructor|done|]. intros n m x y Hx. destruct n; done.
    + apply Forall_forall. intros v [Hv|Hv]%mergeFrom_value_elem; [inversion Hv|].
      rewrite Forall_forall in HyB. apply HyB, Hv.
  - rewrite mergeFrom_nil_r, fmap_cons.
    apply StronglySorted_inv in HA as [HA HxA].
    constructor.
    + apply IHA; [done|constructor|]. intros n m x y _ Hy. destruct m; done.
    + apply Forall_forall. intros v [Hv|Hv]%mergeFrom_value_elem; [|inversion Hv].
      rewrite Forall_forall in HxA. apply HxA, Hv.
  - pose proof (Hc 0%nat 0%nat x0 y0 eq_refl eq_refl) as H00.
    rewrite !Z.add_0_r in H00.
    pose proof HA as HA'. pose proof HB as HB'.
    apply StronglySorted_inv in HA' as [HAt HxA].
    apply StronglySorted_inv in HB' as [HBt HyB].
    rewrite Forall_forall in HxA, HyB.
    rewrite mergeFrom_cons. case_bool_decide as Hlt; rewrite fmap_cons.
    + constructor.
      * apply IHB; [done|done|].
        intros n m x y Hx Hy. specialize (Hc n (S m) x y Hx Hy).
        replace (k + 1 + Z.of_nat m) with (k + Z.of_nat (S m)) by lia. exact Hc.
      * apply Forall_forall. intros v [Hv|Hv]%mergeFrom_value_elem.
        -- apply elem_of_cons in Hv as [->|Hv]; [done|].
           etrans; [exact H00|]. apply HxA, Hv.
        -- apply HyB, Hv.
    + constructor.
      * apply IHA; [done|done|].
        intros n m x y Hx Hy. specialize (Hc (S n) m x y Hx Hy).
        replace (j + 1 + Z.of_nat n) with (j + Z.of_nat (S n)) by lia. exact Hc.
      * apply Forall_forall. intros v [Hv|Hv]%mergeFrom_value_elem.
        -- apply HxA, Hv.
        -- apply elem_of_cons in Hv as [->|Hv]; [done|].
           etrans; [exact H00|]. apply HyB, Hv.
Qed.

Lemma put_written out dest v :
  (length out < length dest)%nat → is_int32 v →
  TypedArray.put (written out dest) (Z.of_nat (length out)) v = written (out ++ [v]) dest.
Proof.
  intros Hlen Hv. unfold TypedArray.put, written.
  rewrite bool_decide_eq_true_2 by lia. rewrite Nat2Z.id, toInt32_id by done.
  rewrite insert_app_r_alt by lia. rewrite Nat.sub_diag.
  destruct (drop (length out) dest) as [|y rest] eqn:Hdrop.
  { apply (f_equal length) in Hdrop. rewrite length_drop in Hdrop. simpl in Hdrop. lia. }
  simpl. rewrite <- app_assoc. simpl. do 2 f_equal.
  rewrite length_app. simpl.
  rewrite <- drop_drop, Hdrop. reflexivity.
Qed.

Section interleave.
Context (dest A0 B0 : list Z) (fn : Z → Z → option Z) (cmp : Z → Z → Z).
Hypothesis HA0 : Forall is_int32 A0.
Hypothesis HB0 : Forall is_int32 B0.
Hypothesis Hfn : ∀ j k, 0 ≤ j < Z.of_nat (length A0) → 0 ≤ k < Z.of_nat (length B0) →
  fn j k = Some (cmp j k).

Lemma interleaveInner_spec Brem : ∀ fuel out j k,
  0 ≤ j ≤ Z.of_nat (length A0) → 0 ≤ k →
  Brem = drop (Z.to_nat k) B0 →
  (length out + length Brem ≤ length dest)%nat →
  (length Brem < fuel)%nat →
  ∃ m, (m ≤ length Brem)%nat
    ∧ interleaveInner fuel (written out dest) A0 B0 fn (Z.of_nat (length out)) j k
      = Some (written (out ++ take m Brem) dest, Z.of_nat (length out) + Z.of_nat m,
              k + Z.of_nat m)
    ∧ value <$> mergeFrom cmp (drop (Z.to_nat j) A0) j Brem k
      = take m Brem ++ (value <$> mergeFrom cmp (drop (Z.to_nat j) A0) j (drop m Brem) (k + Z.of_nat m))
    ∧ (drop m Brem = [] ∨ (drop (Z.to_nat j) A0 ≠ [] ∧ ¬ cmp j (k + Z.of_nat m) < 0)).
Proof.
  induction Brem as [|y B' IH]; intros fuel out j k Hj Hk HB Hlen Hfuel.
  - exists 0%nat. destruct fuel as [|fuel]; [simpl in Hfuel; lia|].
    assert (Hk' : ¬ k < Z.of_nat (length B0)).
    { symmetry in HB. apply (f_equal length) in HB. rewrite length_drop in HB.
      simpl in HB. lia. }
    simpl. rewrite bool_decide_eq_false_2 by done.
    rewrite app_nil_r, !Z.add_0_r. auto.
  - destruct fuel as [|fuel]; [simpl in Hfuel; lia|].
    symmetry in HB. pose proof (drop_lookup_cons _ _ _ _ HB) as [Hy HB'].
    assert (HkB : k < Z.of_nat (length B0)) by (apply lookup_lt_Some in Hy; lia).
    assert (Hyi : is_int32 y) by (rewrite Forall_forall in HB0; eapply HB0, list_elem_of_lookup_2, Hy).
    assert (Hstep : ∃ m, (m ≤ length (y :: B'))%nat
      ∧ interleaveInner fuel (TypedArray.put (written out dest) (Z.of_nat (length out)) y)
          A0 B0 fn (Z.of_nat (length out) + 1) j (k + 1)
        = Some (written (out ++ take m (y :: B')) dest,
                Z.of_nat (length out) + Z.of_nat m, k + Z.of_nat m)
      ∧ y :: (value <$> mergeFrom cmp (drop (Z.to_nat j) A0) j B' (k + 1))
        = take m (y :: B') ++
          (value <$> mergeFrom cmp (drop (Z.to_nat j) A0) j (drop m (y :: B')) (k + Z.of_nat m))
      ∧ (drop m (y :: B') = [] ∨
          (drop (Z.to_nat j) A0 ≠ [] ∧ ¬ cmp j (k + Z.of_nat m) < 0))).
    { rewrite put_written by (simpl in Hlen; lia || done).
      destruct (IH fuel (out ++ [y]) j (k + 1)) as (m & Hm & Hrun & Hval & Hstop).
      - done.
      - lia.
      - rewrite <- HB'. f_equal. lia.
      - rewrite length_app. simpl in *. lia.
      - simpl in Hfuel. lia.
      - exists (S m). split; [simpl; lia|].
        rewrite length_app in Hrun. simpl length in Hrun.
        replace (Z.of_nat (length out + 1)) with (Z.of_nat (length out) + 1) in Hrun by lia.
        rewrite Hrun. rewrite <- app_assoc.
        change ([y] ++ take m B') with (take (S m) (y :: B')).
        change (drop (S m) (y :: B')) with (drop m B').
        replace (k + 1 + Z.of_nat m) with (k + Z.of_nat (S m)) in * by lia.
        replace (Z.of_nat (length out) + 1 + Z.of_nat m)
          with (Z.of_nat (length out) + Z.of_nat (S m)) by lia.
        split; [reflexivity|].
        split; [|done]. change (take (S m) (y :: B')) with (y :: take m B').
        simpl app. f_equal. exact Hval. }
    cbn [interleaveInner]. rewrite bool_decide_eq_true_2 by done.
    rewrite !(get_lookup B0 k y) by done. cbn [mbind option_bind].
    destruct (drop (Z.to_nat j) A0) as [|x A'] eqn:HA.
    + (* the first source is used up *)
      assert (Hje : j = Z.of_nat (length A0)).
      { apply (f_equal length) in HA. rewrite length_drop in HA. simpl in HA. lia. }
      rewrite bool_decide_eq_true_2 by done.
      destruct Hstep as (m & Hm & Hrun & Hval & Hstop).
      exists m. rewrite Hrun. split; [done|]. split; [done|].
      rewrite mergeFrom_nil_cons, fmap_cons. auto.
    + assert (HjA : j < Z.of_nat (length A0)).
      { apply (f_equal length) in HA. rewrite length_drop in HA. simpl in HA. lia. }
      rewrite bool_decide_eq_false_2 by lia.
      rewrite Hfn by lia. cbn [mbind option_bind].
      rewrite mergeFrom_cons.
      case_bool_decide as Hc.
      * destruct Hstep as (m & Hm & Hrun & Hval & Hstop).
        exists m. rewrite Hrun. split; [done|]. split; [done|].
        rewrite fmap_cons. auto.
      * exists 0%nat. split; [lia|]. rewrite app_nil_r, !Z.add_0_r.
        split; [done|]. split; [|right; done].
        simpl take. simpl drop. rewrite mergeFrom_cons, bool_decide_eq_false_2 by done.
        reflexivity.
Qed.

Lemma interleaveOuter_spec : ∀ fuel out j k,
  0 ≤ j ≤ Z.of_nat (length A0) → 0 ≤ k ≤ Z.of_nat (length B0) →
  Z.of_nat (length out) = j + k →
  (length A0 + length B0 ≤ length dest)%nat →
  (length (drop (Z.to_nat j) A0)
   + (if drop (Z.to_nat k) B0 is [] then 0 else 1) < fuel)%nat →
  interleaveOuter fuel (written out dest) A0 B0 fn (Z.of_nat (length out)) j k
  = Some (written (out ++ (value <$>
            mergeFrom cmp (drop (Z.to_nat j) A0) j (drop (Z.to_nat k) B0) k)) dest).
Proof.
  induction fuel as [|fuel IH]; intros out j k Hj Hk Hout Hdest Hfuel; [lia|].
  cbn [interleaveOuter].
  set (Arem := drop (Z.to_nat j) A0) in *. set (Brem := drop (Z.to_nat k) B0) in *.
  assert (HlA : length Arem = (length A0 - Z.to_nat j)%nat) by apply length_drop.
  assert (HlB : length Brem = (length B0 - Z.to_nat k)%nat) by apply length_drop.
  case_bool_decide as Hgo.
  - destruct (interleaveInner_spec Brem (S (length B0)) out j k) as (m & Hm & -> & Hval & Hstop);
      [done|lia|done|lia|lia|].
    cbn [mbind option_bind].
    change (drop (Z.to_nat j) A0) with Arem in Hval, Hstop.
    assert (HB' : drop (Z.to_nat (k + Z.of_nat m)) B0 = drop m Brem).
    { unfold Brem. rewrite drop_drop. f_equal. lia. }
    assert (Hlen' : Z.of_nat (length (out ++ take m Brem)) = Z.of_nat (length out) + Z.of_nat m).
    { rewrite length_app, length_take. lia. }
    case_bool_decide as HjA.
    + destruct Arem as [|x A'] eqn:HA; [simpl in HlA; lia|].
      pose proof (drop_lookup_cons _ _ _ _ HA) as [Hx HA'].
      rewrite (get_lookup A0 j x) by (done || lia). cbn [mbind option_bind].
      rewrite <- Hlen'.
      rewrite put_written.
      2:{ rewrite length_app, length_take. simpl in HlA. lia. }
      2:{ rewrite Forall_forall in HA0. eapply HA0, list_elem_of_lookup_2, Hx. }
      replace (Z.of_nat (length (out ++ take m Brem)) + 1)
        with (Z.of_nat (length ((out ++ take m Brem) ++ [x]))).
      2:{ rewrite (length_app _ [x]). simpl. lia. }
      rewrite IH.
      * f_equal. f_equal. rewrite Hval, <- !app_assoc. f_equal. f_equal.
        replace (Z.to_nat (j + 1)) with (S (Z.to_nat j)) by lia.
        rewrite HA', HB'.
        destruct Hstop as [Hnil|[_ Hc]].
        -- rewrite Hnil, mergeFrom_nil_r. reflexivity.
        -- destruct (drop m Brem) as [|y B'']; [rewrite mergeFrom_nil_r; reflexivity|].
           rewrite mergeFrom_cons, bool_decide_eq_false_2 by done. reflexivity.
      * lia.
      * lia.
      * rewrite (length_app _ [x]). simpl. lia.
      * done.
      * replace (Z.to_nat (j + 1)) with (S (Z.to_nat j)) by lia.
        rewrite HA', HB'. simpl in Hfuel.
        destruct (drop m Brem) eqn:Hd; [lia|].
        destruct Brem; [rewrite drop_nil in Hd; done|lia].
    + assert (HAnil : Arem = []) by (apply nil_length_inv; lia).
      destruct Hstop as [Hnil|[Hne _]]; [|done].
      rewrite <- Hlen'. rewrite IH.
      * f_equal. f_equal. rewrite Hval, <- app_assoc. f_equal. f_equal.
        fold Arem. rewrite HB', HAnil, Hnil. reflexivity.
      * lia.
      * lia.
      * lia.
      * done.
      * fold Arem. rewrite HB', HAnil, Hnil. simpl.
        rewrite HAnil in Hfuel. simpl in Hfuel.
        destruct Brem; [simpl in HlA, HlB; lia|lia].
  - assert (HAnil : Arem = []) by (apply nil_length_inv; lia).
    assert (HBnil : Brem = []) by (apply nil_length_inv; lia).
    rewrite HAnil, HBnil. simpl. rewrite app_nil_r. reflexivity.
Qed.

Lemma interleaveArrays_spec :
  (length A0 + length B0 ≤ length dest)%nat →
  interleaveArrays dest A0 B0 fn
  = Some ((value <$> mergeFrom cmp A0 0 B0 0) ++ drop (length A0 + length B0) dest).
Proof.
  intros Hdest. unfold interleaveArrays.
  change dest with (written [] dest) at 1.
  change 0 with (Z.of_nat (length (@nil Z))) at 1.
  rewrite interleaveOuter_spec; try (simpl; lia).
  - unfold written. rewrite app_nil_l, length_fmap, mergeFrom_length. reflexivity.
  - change (Z.to_nat 0) with 0%nat. rewrite !drop_0. destruct B0; simpl; lia.
Qed.

End interleave.

Lemma mergeFrom_has_A cmp A j B k n x :
  A !! n = Some x → (FromA, j + Z.of_nat n, x) ∈ mergeFrom cmp A j B k.
Proof.
  revert j B k n. induction A as [|x0 A IHA]; intros j B; induction B as [|y0 B IHB];
    intros k n Hx; try done.
  - rewrite mergeFrom_nil_r. destruct n as [|n]; simpl in Hx.
    + injection Hx as ->. rewrite Z.add_0_r. apply elem_of_cons. auto.
    + apply elem_of_cons. right.
      replace (j + Z.of_nat (S n)) with (j + 1 + Z.of_nat n) by lia. apply IHA, Hx.
  - rewrite mergeFrom_cons. case_bool_decide.
    + apply elem_of_cons. right. apply IHB, Hx.
    + destruct n as [|n]; simpl in Hx.
      * injection Hx as ->. rewrite Z.add_0_r. apply elem_of_cons. auto.
      * apply elem_of_cons. right.
        replace (j + Z.of_nat (S n)) with (j + 1 + Z.of_nat n) by lia. apply IHA, Hx.
Qed.

Lemma mergeFrom_has_B cmp A j B k n y :
  B !! n = Some y → (FromB, k + Z.of_nat n, y) ∈ mergeFrom cmp A j B k.
Proof.
  revert j B k n. induction A as [|x0 A IHA]; intros j B; induction B as [|y0 B IHB];
    intros k n Hy; try done.
  - rewrite mergeFrom_nil_cons. destruct n as [|n]; simpl in Hy.
    + injection Hy as ->. rewrite Z.add_0_r. apply elem_of_cons. auto.
    + apply elem_of_cons. right.
      replace (k + Z.of_nat (S n)) with (k + 1 + Z.of_nat n) by lia. apply IHB, Hy.
  - rewrite mergeFrom_cons. case_bool_decide.
    + destruct n as [|n]; simpl in Hy.
      * injection Hy as ->. rewrite Z.add_0_r. apply elem_of_cons. auto.
      * apply elem_of_cons. right.
        replace (k + Z.of_nat (S n)) with (k + 1 + Z.of_nat n) by lia. apply IHB, Hy.
    + apply elem_of_cons. right. apply IHA, Hy.
Qed.

(** C7, as stated, fails in its last part: when the comparator makes an
    element of [A] equal to an element of [B], the element of [A] is
    written first. *)
Lemma interleaveArrays_tie_takes_first_source :
  interleaveArrays [0; 0] [10] [20] (λ _ _, Some 0) = Some [10; 20].
Proof. reflexivity. Qed.

(** C7, amended: for sources [A] and [B] (typed arrays, so of int32
    values) and a destination of at least [a+b] slots, [interleaveArrays]
    fills the first [a+b] slots with the merge that takes the head of [B]
    when the comparator is negative and the head of [A] otherwise. The
    elements of each source keep their order and occur once; the output
    ascends when both sources do and the comparator agrees with their
    order; and for a comparator that is consistent along the sources the
    element [B[k]] stands before [A[j]] exactly when [cmp j k < 0]: on a
    tie the element of [A] comes first. *)
Theorem interleaveArrays_stable_merge (dest A B : list Z) (cmp : Z → Z → Z) :
  Forall is_int32 A → Forall is_int32 B →
  (length A + length B ≤ length dest)%nat →
  interleaveArrays dest A B (λ j k, Some (cmp j k))
    = Some ((value <$> mergeFrom cmp A 0 B 0) ++ drop (length A + length B) dest)
  ∧ taken FromA (mergeFrom cmp A 0 B 0) = A
  ∧ taken FromB (mergeFrom cmp A 0 B 0) = B
  ∧ (∀ le : relation Z, Transitive le →
       StronglySorted le A → StronglySorted le B →
       (∀ j k x y, A !! j = Some x → B !! k = Some y →
          if bool_decide (cmp (Z.of_nat j) (Z.of_nat k) < 0) then le y x else le x y) →
       StronglySorted le (value <$> mergeFrom cmp A 0 B 0))
  ∧ (monotone (Z.of_nat (length A)) (Z.of_nat (length B)) cmp →
     ∀ j k x y, A !! j = Some x → B !! k = Some y →
       if bool_decide (cmp (Z.of_nat j) (Z.of_nat k) < 0)
       then before (FromB, Z.of_nat k, y) (FromA, Z.of_nat j, x) (mergeFrom cmp A 0 B 0)
       else before (FromA, Z.of_nat j, x) (FromB, Z.of_nat k, y) (mergeFrom cmp A 0 B 0)).
Proof.
  intros HA HB Hdest.
  split; [apply interleaveArrays_spec; auto|].
  split; [apply taken_A|]. split; [apply taken_B|]. split.
  - intros le Htrans HsA HsB Hc. apply mergeFrom_sorted; auto.
  - intros Hmono j k x y Hx Hy.
    apply (mergeFrom_order cmp (Z.of_nat (length A)) (Z.of_nat (length B))); auto; try lia.
    + apply (mergeFrom_has_A cmp A 0 B 0 j x Hx).
    + apply (mergeFrom_has_B cmp A 0 B 0 k y Hy).
Qed.

Lemma interleaveArrays_stable_merge_witness :
  interleaveArrays [0; 0; 0; 0] [1; 3] [3; 4] (λ j k, Some (([3; 4] !!! Z.to_nat k) - ([1; 3] !!! Z.to_nat j)))
    = Some [1; 3; 3; 4].
Proof.
  exact (proj1 (interleaveArrays_stable_merge [0; 0; 0; 0] [1; 3] [3; 4]
    (λ j k, ([3; 4] !!! Z.to_nat k) - ([1; 3] !!! Z.to_nat j))
    ltac:(repeat constructor; unfold is_int32; lia)
    ltac:(repeat constructor; unfold is_int32; lia)
    ltac:(simpl; lia))).
Defined.


(** ** Typed arrays and the side table *)

Import Inv Ghost.

Lemma get_in_range (a : list Z) i :
  0 ≤ i < Z.of_nat (length a) → TypedArray.get a i = Some (a !!! Z.to_nat i).
Proof.
  intros Hi. apply get_lookup; [lia|].
  apply list_lookup_lookup_total_lt. lia.
Qed.

Lemma get_Some (a : list Z) i y :
  TypedArray.get a i = Some y → 0 ≤ i < Z.of_nat (length a) ∧ a !! Z.to_nat i = Some y.
Proof.
  unfold TypedArray.get, JsArray.get. case_bool_decide; [|done].
  intros Hy. pose proof (lookup_lt_Some _ _ _ Hy). split; [lia|done].
Qed.

Lemma jsget_lookup {A} (a : list A) i y :
  0 ≤ i → a !! Z.to_nat i = Some y → JsArray.get a i = Some y.
Proof.
  intros Hi Hy. unfold JsArray.get. rewrite bool_decide_eq_true_2 by done. exact Hy.
Qed.

Lemma jsget_nat {A} (a : list A) k : JsArray.get a (Z.of_nat k) = a !! k.
Proof.
  unfold JsArray.get. rewrite bool_decide_eq_true_2 by lia. rewrite Nat2Z.id. reflexivity.
Qed.

Lemma jsget_Some {A} (a : list A) i y :
  JsArray.get a i = Some y → 0 ≤ i < Z.of_nat (length a) ∧ a !! Z.to_nat i = Some y.
Proof.
  unfold JsArray.get. case_bool_decide; [|done].
  intros Hy. pose proof (lookup_lt_Some _ _ _ Hy). split; [lia|done].
Qed.

Lemma put_length (a : list Z) i v : length (TypedArray.put a i v) = length a.
Proof. unfold TypedArray.put. case_bool_decide; [apply length_insert|done]. Qed.

Lemma put_nat (a : list Z) k v :
  TypedArray.put a (Z.of_nat k) v = <[k := toInt32 v]> a.
Proof.
  unfold TypedArray.put. rewrite bool_decide_eq_true_2 by lia. rewrite Nat2Z.id. reflexivity.
Qed.

Lemma put_total_same (a : list Z) i v :
  0 ≤ i < Z.of_nat (length a) → TypedArray.put a i v !!! Z.to_nat i = toInt32 v.
Proof.
  intros Hi. unfold TypedArray.put. rewrite bool_decide_eq_true_2 by lia.
  apply list_lookup_total_insert_eq. lia.
Qed.

Lemma put_total_other (a : list Z) i j v :
  0 ≤ j → i ≠ j → TypedArray.put a i v !!! Z.to_nat j = a !!! Z.to_nat j.
Proof.
  intros Hj Hne. unfold TypedArray.put. case_bool_decide; [|done].
  apply list_lookup_total_insert_ne. lia.
Qed.

Lemma create_ok n :
  0 ≤ n ≤ 4 * limit → TypedArray.create n = Some (replicate (Z.to_nat n) 0).
Proof.
  intros Hn. unfold TypedArray.create, TypedArray.MAX_LENGTH.
  rewrite bool_decide_eq_true_2 by (unfold limit in Hn; lia). done.
Qed.

(** Discharges the length bound of [create_ok] from the bounds at hand. *)
Ltac fits := unfold limit in *; lia.

Lemma set_ok (dest src : list Z) off :
  0 ≤ off → off + Z.of_nat (length src) ≤ Z.of_nat (length dest) →
  TypedArray.set dest src off
  = Some (take (Z.to_nat off) dest ++ src ++ drop (Z.to_nat off + length src) dest).
Proof.
  intros H0 Hle. unfold TypedArray.set. rewrite bool_decide_eq_true_2 by done.
  replace (Z.to_nat (off + Z.of_nat (length src))) with (Z.to_nat off + length src)%nat by lia.
  reflexivity.
Qed.

Lemma subarray_ok (a : list Z) b e :
  0 ≤ b ≤ e → e ≤ Z.of_nat (length a) →
  TypedArray.subarray a b e = take (Z.to_nat (e - b)) (drop (Z.to_nat b) a).
Proof.
  intros Hb He. unfold TypedArray.subarray, JsArray.rel.
  rewrite !bool_decide_eq_false_2 by lia.
  rewrite !Z.min_l by lia. reflexivity.
Qed.

Lemma subarray_region (a : list Z) n :
  0 ≤ n ≤ Z.of_nat (length a) → TypedArray.subarray a 0 n = take (Z.to_nat n) a.
Proof.
  intros Hn. rewrite subarray_ok by lia. rewrite Z.sub_0_r. reflexivity.
Qed.

(** *** The cells of the side table *)

Section table.
Context (N : Z) (lk : list Z).
Hypothesis Hlk : Z.of_nat (length lk) = 3 * N.

Lemma get_score x : 0 ≤ x < N → TypedArray.get lk (x * 3) = Some (scoreAt lk x).
Proof. intros Hx. apply get_in_range. lia. Qed.

Lemma get_owner x : 0 ≤ x < N → TypedArray.get lk (x * 3 + 1) = Some (ownerAt lk x).
Proof. intros Hx. apply get_in_range. lia. Qed.

Lemma get_slot x : 0 ≤ x < N → TypedArray.get lk (x * 3 + 2) = Some (slotAt lk x).
Proof. intros Hx. apply get_in_range. lia. Qed.

Lemma get_owner_outside x : ¬ 0 ≤ x < N → TypedArray.get lk (x * 3 + 1) = None.
Proof.
  intros Hx. unfold TypedArray.get, JsArray.get. case_bool_decide; [|done].
  apply lookup_ge_None. lia.
Qed.

End table.

Lemma scoreAt_put_score lk x y v :
  0 ≤ x → 0 ≤ y →
  scoreAt (TypedArray.put lk (y * 3) v) x
  = if decide (x = y ∧ y * 3 < Z.of_nat (length lk)) then toInt32 v else scoreAt lk x.
Proof.
  intros Hx Hy. unfold scoreAt. case_decide as Hd.
  - destruct Hd as [-> Hd]. apply put_total_same. lia.
  - destruct (decide (x = y)) as [->|Hne].
    + unfold TypedArray.put. rewrite bool_decide_eq_true_2 by lia.
      rewrite list_insert_ge by lia. done.
    + apply put_total_other; lia.
Qed.

Lemma scoreAt_put_owner lk x y v :
  0 ≤ x → scoreAt (TypedArray.put lk (y * 3 + 1) v) x = scoreAt lk x.
Proof. intros Hx. unfold scoreAt. apply put_total_other; lia. Qed.

Lemma scoreAt_put_slot lk x y v :
  0 ≤ x → scoreAt (TypedArray.put lk (y * 3 + 2) v) x = scoreAt lk x.
Proof. intros Hx. unfold scoreAt. apply put_total_other; lia. Qed.

Lemma ownerAt_put_score lk x y v :
  0 ≤ x → ownerAt (TypedArray.put lk (y * 3) v) x = ownerAt lk x.
Proof. intros Hx. unfold ownerAt. apply put_total_other; lia. Qed.

Lemma ownerAt_put_slot lk x y v :
  0 ≤ x → ownerAt (TypedArray.put lk (y * 3 + 2) v) x = ownerAt lk x.
Proof. intros Hx. unfold ownerAt. apply put_total_other; lia. Qed.

Lemma ownerAt_put_owner_other lk x y v :
  0 ≤ x → x ≠ y → ownerAt (TypedArray.put lk (y * 3 + 1) v) x = ownerAt lk x.
Proof. intros Hx Hne. unfold ownerAt. apply put_total_other; lia. Qed.

Lemma ownerAt_put_owner_same lk x v :
  0 ≤ x → x * 3 + 1 < Z.of_nat (length lk) →
  ownerAt (TypedArray.put lk (x * 3 + 1) v) x = toInt32 v.
Proof. intros Hx Hlt. unfold ownerAt. apply put_total_same. lia. Qed.

Lemma slotAt_put_score lk x y v :
  0 ≤ x → slotAt (TypedArray.put lk (y * 3) v) x = slotAt lk x.
Proof. intros Hx. unfold slotAt. apply put_total_other; lia. Qed.

Lemma slotAt_put_owner lk x y v :
  0 ≤ x → slotAt (TypedArray.put lk (y * 3 + 1) v) x = slotAt lk x.
Proof. intros Hx. unfold slotAt. apply put_total_other; lia. Qed.

Lemma slotAt_put_slot_other lk x y v :
  0 ≤ x → x ≠ y → slotAt (TypedArray.put lk (y * 3 + 2) v) x = slotAt lk x.
Proof. intros Hx Hne. unfold slotAt. apply put_total_other; lia. Qed.

Lemma slotAt_put_slot_same lk x v :
  0 ≤ x → x * 3 + 2 < Z.of_nat (length lk) →
  slotAt (TypedArray.put lk (x * 3 + 2) v) x = toInt32 v.
Proof. intros Hx Hlt. unfold slotAt. apply put_total_same. lia. Qed.

Lemma sameCells_refl lk x : sameCells lk lk x.
Proof. done. Qed.

Lemma sameCells_put_score lk x y v : 0 ≤ x → 0 ≤ y → x ≠ y →
  sameCells lk (TypedArray.put lk (y * 3) v) x.
Proof.
  intros Hx Hy Hne. split; [|split].
  - rewrite scoreAt_put_score by done. case_decide; [lia|done].
  - apply ownerAt_put_score; done.
  - apply slotAt_put_score; done.
Qed.

Lemma sameCells_put_owner lk x y v : 0 ≤ x → x ≠ y →
  sameCells lk (TypedArray.put lk (y * 3 + 1) v) x.
Proof.
  intros Hx Hne. split; [|split].
  - apply scoreAt_put_owner; done.
  - apply ownerAt_put_owner_other; done.
  - apply slotAt_put_owner; done.
Qed.

Lemma sameCells_put_slot lk x y v : 0 ≤ x → x ≠ y →
  sameCells lk (TypedArray.put lk (y * 3 + 2) v) x.
Proof.
  intros Hx Hne. split; [|split].
  - apply scoreAt_put_slot; done.
  - apply ownerAt_put_slot; done.
  - apply slotAt_put_slot_other; done.
Qed.

Lemma sameCells_trans lk1 lk2 lk3 x :
  sameCells lk1 lk2 x → sameCells lk2 lk3 x → sameCells lk1 lk3 x.
Proof.
  intros (H1 & H2 & H3) (H4 & H5 & H6). repeat split; congruence.
Qed.

Lemma get_put_other (a : list Z) i j v :
  i ≠ j → TypedArray.get (TypedArray.put a i v) j = TypedArray.get a j.
Proof.
  intros Hne. unfold TypedArray.get, JsArray.get, TypedArray.put.
  case_bool_decide; [|done]. case_bool_decide; [|done].
  apply list_lookup_insert_ne. lia.
Qed.


(** ** The sorted segment *)

Import Utility SearchSpec Inv Ghost.

(** *** The order of the keys *)

Lemma keyLt_irrefl a : ¬ keyLt a a.
Proof. unfold keyLt. lia. Qed.

Lemma keyLt_trans a b c : keyLt a b → keyLt b c → keyLt a c.
Proof. unfold keyLt. lia. Qed.

Lemma keyLt_asym a b : keyLt a b → ¬ keyLt b a.
Proof. unfold keyLt. lia. Qed.

Lemma keyLt_total a b : keyLt a b ∨ a = b ∨ keyLt b a.
Proof.
  destruct a as [a1 a2], b as [b1 b2]. unfold keyLt. simpl.
  destruct (decide (a1 = b1)), (decide (a2 = b2)); subst; auto; lia.
Qed.

#[export] Instance keyLt_dec a b : Decision (keyLt a b).
Proof. unfold keyLt. apply _. Defined.

#[export] Instance before_trans lk : Transitive (before lk).
Proof. intros x y z. unfold before. apply keyLt_trans. Qed.

Lemma before_irrefl lk x : ¬ before lk x x.
Proof. apply keyLt_irrefl. Qed.

Lemma before_sameCells lk lk' x y :
  scoreAt lk' x = scoreAt lk x → scoreAt lk' y = scoreAt lk y →
  before lk x y → before lk' x y.
Proof. unfold before, keyOf, keyLt. simpl. intros -> ->. done. Qed.

Lemma StronglySorted_NoDup lk l : StronglySorted (before lk) l → NoDup l.
Proof.
  induction 1 as [|x l Hs IH Hx]; constructor; [|done].
  intros Hin. rewrite Forall_forall in Hx. exact (before_irrefl lk x (Hx x Hin)).
Qed.

Lemma StronglySorted_lookup_lt {X} (R : relation X) l i j x y :
  StronglySorted R l → l !! i = Some x → l !! j = Some y → (i < j)%nat → R x y.
Proof.
  intros Hs. revert i j. induction Hs as [|z l Hs IH Hz]; intros i j Hi Hj Hlt; [done|].
  destruct j as [|j]; [lia|]. destruct i as [|i]; simpl in *.
  - injection Hi as ->. rewrite Forall_forall in Hz. eapply Hz, list_elem_of_lookup_2, Hj.
  - apply (IH i j); [done|done|lia].
Qed.

Lemma StronglySorted_sublist {X} (R : relation X) l k :
  StronglySorted R l → k `sublist_of` l → StronglySorted R k.
Proof.
  intros Hs Hsub. revert Hs. induction Hsub as [|x k l Hsub IH|x k l Hsub IH]; intros Hs.
  - constructor.
  - apply StronglySorted_inv in Hs as [Hs Hx]. constructor; [auto|].
    rewrite Forall_forall in *. intros y Hy. eapply Hx, elem_of_sublist; eauto.
  - apply StronglySorted_inv in Hs as [Hs _]. auto.
Qed.

Lemma StronglySorted_ext {X} (R R' : relation X) l :
  (∀ x y, x ∈ l → y ∈ l → R x y → R' x y) →
  StronglySorted R l → StronglySorted R' l.
Proof.
  intros Himp Hs. induction Hs as [|x l Hs IH Hx]; constructor.
  - apply IH. intros a b Ha Hb. apply Himp; right; done.
  - rewrite Forall_forall in *. intros y Hy. apply Himp; [left|right; done|auto].
Qed.

(** *** The comparator of the searches *)

Lemma compareWith_pos lk s x y : compareWith lk s x y > 0 ↔ keyLt (keyOf lk y) (s, x).
Proof. unfold compareWith, keyLt, keyOf. simpl. case_bool_decide; lia. Qed.

Lemma compareWith_neg lk s x y : compareWith lk s x y < 0 ↔ keyLt (s, x) (keyOf lk y).
Proof. unfold compareWith, keyLt, keyOf. simpl. case_bool_decide; lia. Qed.

Lemma compareWith_zero lk s x y : compareWith lk s x y = 0 ↔ keyOf lk y = (s, x).
Proof.
  unfold compareWith, keyOf. case_bool_decide as Hd; split; intros Hk; try lia.
  - injection Hk as ??. lia.
  - f_equal; lia.
  - injection Hk as ??. lia.
Qed.

Section sorted.
Context (N : Z) (lk : list Z).
Hypothesis Hlk : Z.of_nat (length lk) = 3 * N.

Lemma compare_at ind s x i y :
  0 ≤ i → ind !! Z.to_nat i = Some y → 0 ≤ y < N →
  Partition.compare lk ind s x i = Some (compareWith lk s x y).
Proof.
  intros Hi Hy Hr. unfold Partition.compare.
  rewrite (get_lookup ind i y) by done. cbn [mbind option_bind].
  rewrite (get_score N lk Hlk y Hr). reflexivity.
Qed.

Lemma compare_put_owner ind s x y v i :
  Partition.compare (TypedArray.put lk (y * 3 + 1) v) ind s x i
  = Partition.compare lk ind s x i.
Proof.
  unfold Partition.compare. destruct (TypedArray.get ind i) as [z|]; [|done].
  cbn [mbind option_bind]. rewrite get_put_other by lia. done.
Qed.

(** The search of a sorted region for the key [(s, x)]: the position of
    the key, or the place where it belongs. *)
Lemma search_region ind n s x :
  1 ≤ n ≤ limit → (Z.to_nat n ≤ length ind)%nat →
  Forall (λ y, 0 ≤ y < N) (take (Z.to_nat n) ind) →
  StronglySorted (before lk) (take (Z.to_nat n) ind) →
  ∃ q, searchBinary n (Partition.compare lk ind s x) = Some (Some q)
    ∧ 0 ≤ q ≤ n
    ∧ ((∃ y, take (Z.to_nat n) ind !! Z.to_nat q = Some y ∧ keyOf lk y = (s, x))
       ∨ (Forall (λ y, keyLt (keyOf lk y) (s, x)) (take (Z.to_nat q) (take (Z.to_nat n) ind))
          ∧ Forall (λ y, keyLt (s, x) (keyOf lk y)) (drop (Z.to_nat q) (take (Z.to_nat n) ind)))).
Proof.
  intros Hn Hlen Hrange Hsorted.
  set (R := take (Z.to_nat n) ind) in *.
  assert (HlenR : length R = Z.to_nat n) by (unfold R; rewrite length_take; lia).
  set (cmp := λ i, compareWith lk s x (R !!! Z.to_nat i)).
  assert (Hat : ∀ i, 0 ≤ i < n → ∃ y, R !! Z.to_nat i = Some y ∧ R !!! Z.to_nat i = y
                                    ∧ ind !! Z.to_nat i = Some y ∧ 0 ≤ y < N).
  { intros i Hi. destruct (lookup_lt_is_Some_2 R (Z.to_nat i)) as [y Hy]; [lia|].
    exists y. split; [done|]. split; [apply list_lookup_total_correct, Hy|].
    split; [|exact (Forall_lookup_1 _ _ _ _ Hrange Hy)].
    unfold R in Hy. rewrite lookup_take_lt in Hy by lia. done. }
  destruct (searchBinary_found n (Partition.compare lk ind s x) cmp) as (q & Hq & Hqr & Hfound).
  - unfold limit in Hn. lia.
  - intros i Hi. destruct (Hat i Hi) as (y & HyR & Hy & Hyi & Hyr).
    unfold cmp. rewrite Hy. apply compare_at; [lia|done|done].
  - intros i j Hij.
    destruct (Hat i ltac:(lia)) as (yi & HiR & Hi & _ & _).
    destruct (Hat j ltac:(lia)) as (yj & HjR & Hj & _ & _).
    unfold cmp. rewrite Hi, Hj.
    assert (Hb : before lk yi yj).
    { eapply (StronglySorted_lookup_lt _ R (Z.to_nat i) (Z.to_nat j)); eauto. lia. }
    unfold before in Hb.
    pose proof (compareWith_neg lk s x yi) as Hni.
    pose proof (compareWith_neg lk s x yj) as Hnj.
    pose proof (compareWith_zero lk s x yi) as Hzi.
    assert (Hcase : compareWith lk s x yi ≤ 0 → compareWith lk s x yj < 0).
    { intros Hc. apply Hnj. destruct (decide (compareWith lk s x yi = 0)) as [Hz|Hnz].
      - apply Hzi in Hz. rewrite <- Hz. exact Hb.
      - eapply keyLt_trans; [apply Hni; lia|exact Hb]. }
    split; intros Hc; specialize (Hcase ltac:(lia)); lia.
  - lia.
  - exists q. split; [done|]. split; [done|].
    destruct Hfound as [[Hlt Hz]|[Hb Ha]].
    + left. destruct (Hat q ltac:(lia)) as (y & HyR & Hy & _ & _).
      exists y. split; [done|]. apply compareWith_zero. unfold cmp in Hz. rewrite Hy in Hz. done.
    + right. split; apply Forall_lookup_2; intros i y Hy.
      * pose proof (lookup_lt_Some _ _ _ Hy) as Hi. rewrite length_take in Hi.
        rewrite lookup_take_lt in Hy by lia.
        specialize (Hb (Z.of_nat i) ltac:(lia)). unfold cmp in Hb.
        rewrite Nat2Z.id, (list_lookup_total_correct _ _ _ Hy) in Hb.
        apply compareWith_pos. done.
      * rewrite lookup_drop in Hy.
        pose proof (lookup_lt_Some _ _ _ Hy) as Hi.
        specialize (Ha (Z.of_nat (Z.to_nat q + i)) ltac:(lia)). unfold cmp in Ha.
        rewrite Nat2Z.id, (list_lookup_total_correct _ _ _ Hy) in Ha.
        apply compareWith_neg. done.
Qed.

End sorted.

(** *** The shifts of [reindex] *)

Ltac lens :=
  repeat (rewrite length_app || rewrite length_cons || rewrite length_take
          || rewrite length_drop || rewrite length_replicate || rewrite put_length
          || rewrite length_insert);
  cbn [length]; lia.

Lemma take_app_at {X} (l k : list X) n : n = length l → take n (l ++ k) = l.
Proof. intros ->. apply take_app_length. Qed.

Lemma drop_app_at {X} (l k : list X) n : n = length l → drop n (l ++ k) = k.
Proof. intros ->. apply drop_app_length. Qed.

Lemma take_app_past {X} (l k : list X) n m :
  n = (length l + m)%nat → take n (l ++ k) = l ++ take m k.
Proof. intros ->. apply take_app_add. Qed.

Lemma drop_app_past {X} (l k : list X) n m :
  n = (length l + m)%nat → drop n (l ++ k) = drop m k.
Proof. intros ->. apply drop_app_add. Qed.

Lemma put_app_at (l k : list Z) y i x :
  i = Z.of_nat (length l) → is_int32 x →
  TypedArray.put (l ++ y :: k) i x = l ++ x :: k.
Proof.
  intros -> Hx. rewrite put_nat, toInt32_id by done.
  rewrite insert_app_r_alt by lia. rewrite Nat.sub_diag. reflexivity.
Qed.

Lemma region_shape p R G :
  Seg.indices p = R ++ G → Seg.length p = Z.of_nat (length R) → region p = R.
Proof.
  intros Hi Hl. unfold region. rewrite Hi, Hl, Nat2Z.id. apply take_app_length.
Qed.

Lemma region_split p :
  0 ≤ Seg.length p ≤ Z.of_nat (length (Seg.indices p)) →
  Seg.indices p = region p ++ drop (Z.to_nat (Seg.length p)) (Seg.indices p)
  ∧ Seg.length p = Z.of_nat (length (region p)).
Proof.
  intros Hl. unfold region. rewrite take_drop. split; [done|].
  rewrite length_take. lia.
Qed.

Lemma reindex_insert p l1 l2 g G x :
  Seg.indices p = l1 ++ l2 ++ g :: G →
  Seg.length p = Z.of_nat (length (l1 ++ l2)) →
  is_int32 x →
  Partition.reindex p None (Some (Z.of_nat (length l1))) x
  = Some (Seg.with_indices p (l1 ++ x :: l2 ++ G)).
Proof.
  intros Hi Hl Hx. unfold Partition.reindex. rewrite Hi, Hl.
  rewrite length_app in *.
  rewrite subarray_ok by lens.
  rewrite Nat2Z.id, drop_app_at by done.
  rewrite take_app_at by lia.
  rewrite set_ok by lens.
  cbn [mbind option_bind]. do 2 f_equal.
  rewrite (take_app_past l1 _ _ 1) by lia.
  rewrite (drop_app_past l1 _ _ (1 + length l2)) by lia.
  rewrite (drop_app_past l2 _ _ 1) by lia. simpl drop.
  assert (Htake : ∃ h, take 1 (l2 ++ g :: G) = [h]) by (destruct l2; simpl; eauto).
  destruct Htake as [h ->].
  rewrite <- app_assoc. simpl. apply put_app_at; done.
Qed.

Lemma reindex_remove p l1 y l2 G :
  Seg.indices p = l1 ++ y :: l2 ++ G →
  Seg.length p = Z.of_nat (length (l1 ++ y :: l2)) →
  ∃ G', Partition.reindex p (Some (Z.of_nat (length l1))) None 0
          = Some (Seg.with_indices p (l1 ++ l2 ++ G'))
        ∧ length G' = S (length G).
Proof.
  intros Hi Hl. unfold Partition.reindex. rewrite Hi, Hl.
  rewrite length_app in *. simpl length.
  rewrite subarray_ok by lens.
  rewrite (drop_app_past l1 _ _ 1) by lia.
  change (drop 1 (y :: l2 ++ G)) with (l2 ++ G).
  rewrite take_app_at by lia.
  rewrite set_ok by lens.
  cbn [mbind option_bind].
  rewrite Nat2Z.id, take_app_at by done.
  rewrite (drop_app_past l1 _ _ (length l2)) by lia.
  exists (drop (length l2) (y :: l2 ++ G)). split; [done|].
  rewrite length_drop. simpl. rewrite length_app. lia.
Qed.

Lemma reindex_down p l1 y l2 z l3 G x :
  Seg.indices p = l1 ++ y :: l2 ++ z :: l3 ++ G →
  is_int32 x →
  Partition.reindex p (Some (Z.of_nat (length l1)))
    (Some (Z.of_nat (length l1) + 1 + Z.of_nat (length l2))) x
  = Some (Seg.with_indices p (l1 ++ l2 ++ z :: x :: l3 ++ G)).
Proof.
  intros Hi Hx. unfold Partition.reindex. rewrite Hi.
  rewrite bool_decide_eq_true_2 by lia.
  rewrite subarray_ok by lens.
  rewrite (drop_app_past l1 _ _ 1) by lia.
  change (drop 1 (y :: l2 ++ z :: l3 ++ G)) with (l2 ++ z :: l3 ++ G).
  rewrite (take_app_past l2 _ _ 1) by lia.
  change (take 1 (z :: l3 ++ G)) with [z].
  rewrite set_ok by lens.
  cbn [mbind option_bind]. do 2 f_equal.
  rewrite Nat2Z.id, take_app_at by done.
  rewrite (drop_app_past l1 _ _ (1 + length l2)) by lens.
  change (drop (1 + length l2) (y :: l2 ++ z :: l3 ++ G)) with (drop (length l2) (l2 ++ z :: l3 ++ G)).
  rewrite drop_app_at by done.
  replace (l1 ++ (l2 ++ [z]) ++ z :: l3 ++ G) with ((l1 ++ l2 ++ [z]) ++ z :: l3 ++ G)
    by (rewrite <- !app_assoc; done).
  rewrite put_app_at; [rewrite <- !app_assoc; done| |done].
  rewrite !length_app. simpl. lia.
Qed.

Lemma reindex_up p l1 l2 y l3 G x :
  Seg.indices p = l1 ++ l2 ++ y :: l3 ++ G →
  l2 ≠ [] → is_int32 x →
  Partition.reindex p (Some (Z.of_nat (length l1) + Z.of_nat (length l2)))
    (Some (Z.of_nat (length l1))) x
  = Some (Seg.with_indices p (l1 ++ x :: l2 ++ l3 ++ G)).
Proof.
  intros Hi Hne Hx. unfold Partition.reindex. rewrite Hi.
  assert (0 < length l2)%nat by (destruct l2; [done|simpl; lia]).
  rewrite bool_decide_eq_false_2 by lia. rewrite bool_decide_eq_true_2 by lia.
  rewrite subarray_ok by lens.
  rewrite Nat2Z.id, drop_app_at by done.
  rewrite take_app_at by lia.
  rewrite set_ok by lens.
  cbn [mbind option_bind]. do 2 f_equal.
  rewrite (take_app_past l1 _ _ 1) by lia.
  rewrite (drop_app_past l1 _ _ (1 + length l2)) by lia.
  rewrite (drop_app_past l2 _ _ 1) by lia. simpl drop.
  destruct l2 as [|h l2']; [done|]. simpl take.
  rewrite <- app_assoc. simpl. apply put_app_at; done.
Qed.

(** *** [remove] and [insert] *)

Section methods.
Context (N PL : Z) (lk : list Z).
Hypothesis Hlk : Z.of_nat (length lk) = 3 * N.
Hypothesis HPL : PL ≤ limit.

Lemma sortedOk_shape p :
  sortedOk N PL lk p →
  ∃ G, Seg.indices p = region p ++ G
       ∧ Seg.length p = Z.of_nat (length (region p))
       ∧ Z.of_nat (length (region p)) + Z.of_nat (length G) = PL.
Proof.
  intros [Hcap Hlen _ _ _ _].
  destruct (region_split p) as [Hi Hl]; [lia|].
  eexists. split; [exact Hi|]. split; [exact Hl|].
  rewrite <- Hcap. apply (f_equal length) in Hi. rewrite length_app in Hi. lia.
Qed.

(** The search for a member of the region finds its position. *)
Lemma search_member p x l1 l2 :
  sortedOk N PL lk p → region p = l1 ++ x :: l2 →
  searchBinary (Seg.length p) (Partition.compare lk (Seg.indices p) (scoreAt lk x) x)
  = Some (Some (Z.of_nat (length l1))).
Proof.
  intros Hok Hr. pose proof Hok as [Hcap Hlen Hrange Hsorted _ _].
  destruct (search_region N lk Hlk (Seg.indices p) (Seg.length p) (scoreAt lk x) x)
    as (q & Hq & Hqr & Hcase); try done.
  - lia.
  - lia.
  - fold (region p) in *.
    assert (Hx : region p !! length l1 = Some x).
    { rewrite Hr. rewrite lookup_app_r by lia. rewrite Nat.sub_diag. done. }
    destruct Hcase as [(y & Hy & Hk)|[Hb Ha]].
    + injection Hk as _ ->.
      pose proof (StronglySorted_NoDup _ _ Hsorted) as Hnd.
      pose proof (NoDup_lookup _ _ _ _ Hnd Hy Hx) as Heq.
      rewrite Hq. do 2 f_equal. lia.
    + exfalso. rewrite Forall_forall in Hb, Ha.
      assert (Hin : x ∈ take (Z.to_nat q) (region p) ∨ x ∈ drop (Z.to_nat q) (region p)).
      { rewrite <- elem_of_app, take_drop, Hr. apply elem_of_app. right. left. }
      destruct Hin as [Hin|Hin]; [apply Hb in Hin|apply Ha in Hin];
        exact (keyLt_irrefl _ Hin).
Qed.

Lemma Partition_remove_ok p x l1 l2 :
  sortedOk N PL lk p → region p = l1 ++ x :: l2 →
  ∃ G', Partition.remove lk p x
        = Some (TypedArray.put lk (x * 3 + 1) (-1),
                Seg.Make (Seg.uniform p) (Seg.id p) (l1 ++ l2 ++ G')
                  (Seg.length p - 1) (Seg.min p))
      ∧ length (l1 ++ l2 ++ G') = length (Seg.indices p).
Proof.
  intros Hok Hr. pose proof Hok as [Hcap Hlen Hrange Hsorted _ _].
  destruct (sortedOk_shape p Hok) as (G & Hi & Hl & HG).
  assert (Hx : 0 ≤ x < N).
  { rewrite Forall_forall in Hrange. apply Hrange. rewrite Hr. apply elem_of_app. right. left. }
  unfold Partition.remove. rewrite (get_score N lk Hlk x Hx). cbn [mbind option_bind].
  rewrite (search_member p x l1 l2 Hok Hr). cbn [mbind option_bind].
  rewrite Hr in Hi, Hl. rewrite <- app_assoc in Hi. simpl in Hi.
  case_bool_decide as Hlast.
  - destruct (reindex_remove p l1 x l2 G Hi Hl) as (G' & -> & HG').
    cbn [mbind option_bind]. exists G'. split; [reflexivity|].
    rewrite Hi. lens.
  - assert (l2 = []) as ->.
    { destruct l2; [done|]. rewrite length_app in Hl. simpl in Hl. lia. }
    cbn [mbind option_bind]. exists (x :: G). split; [|rewrite Hi; lens].
    unfold Seg.with_length. rewrite Hi. destruct p; reflexivity.
Qed.

(** The search for a key that is not in the region finds its place. *)
Lemma search_place p s x :
  sortedOk N PL lk p → x ∉ region p →
  ∃ l1 l2, region p = l1 ++ l2
    ∧ Forall (λ y, keyLt (keyOf lk y) (s, x)) l1
    ∧ Forall (λ y, keyLt (s, x) (keyOf lk y)) l2
    ∧ searchBinary (Seg.length p) (Partition.compare lk (Seg.indices p) s x)
      = Some (Some (Z.of_nat (length l1))).
Proof.
  intros Hok Hx. pose proof Hok as [Hcap Hlen Hrange Hsorted _ _].
  destruct (search_region N lk Hlk (Seg.indices p) (Seg.length p) s x)
    as (q & Hq & Hqr & Hcase); try done.
  - lia.
  - lia.
  - fold (region p) in *. destruct Hcase as [(y & Hy & Hk)|[Hb Ha]].
    + injection Hk as _ ->. apply list_elem_of_lookup_2 in Hy. done.
    + exists (take (Z.to_nat q) (region p)), (drop (Z.to_nat q) (region p)).
      split; [by rewrite take_drop|]. split; [done|]. split; [done|].
      rewrite Hq. do 2 f_equal. rewrite length_take.
      unfold region. rewrite length_take. lia.
Qed.

Lemma Partition_insert_at p x s l1 l2 :
  sortedOk N PL lk p → region p = l1 ++ l2 →
  Seg.length p < PL → is_int32 x →
  ∃ G', Partition.insert lk p x s (Some (Z.of_nat (length l1)))
        = Some (TypedArray.put lk (x * 3 + 1) (Seg.id p),
                Seg.Make (Seg.uniform p) (Seg.id p) (l1 ++ x :: l2 ++ G')
                  (Seg.length p + 1)
                  (if bool_decide (l1 = []) then s else Seg.min p))
      ∧ length (l1 ++ x :: l2 ++ G') = length (Seg.indices p).
Proof.
  intros Hok Hr Hroom Hx.
  destruct (sortedOk_shape p Hok) as (G & Hi & Hl & HG).
  destruct G as [|g G]; [simpl in HG; lia|].
  rewrite Hr in Hi, Hl. rewrite <- app_assoc in Hi.
  unfold Partition.insert. cbn [mbind option_bind].
  rewrite (reindex_insert p l1 l2 g G x Hi Hl Hx). cbn [mbind option_bind].
  exists G. split; [|rewrite Hi; lens].
  do 2 f_equal.
  assert (Hz : bool_decide (Some (Z.of_nat (length l1)) = Some 0) = bool_decide (l1 = [])).
  { apply bool_decide_ext. split.
    - intros [=]. destruct l1; [done|simpl in *; lia].
    - intros ->. done. }
  rewrite Hz. destruct (bool_decide (l1 = [])); destruct p; reflexivity.
Qed.

Lemma Partition_insert_ok p x s :
  sortedOk N PL lk p → x ∉ region p →
  Seg.length p < PL → is_int32 x →
  ∃ l1 l2 G', region p = l1 ++ l2
    ∧ Forall (λ y, keyLt (keyOf lk y) (s, x)) l1
    ∧ Forall (λ y, keyLt (s, x) (keyOf lk y)) l2
    ∧ Partition.insert lk p x s None
      = Some (TypedArray.put lk (x * 3 + 1) (Seg.id p),
              Seg.Make (Seg.uniform p) (Seg.id p) (l1 ++ x :: l2 ++ G')
                (Seg.length p + 1)
                (if bool_decide (l1 = []) then s else Seg.min p))
    ∧ length (l1 ++ x :: l2 ++ G') = length (Seg.indices p).
Proof.
  intros Hok Hnin Hroom Hx.
  destruct (search_place p s x) as (l1 & l2 & Hr & Hb & Ha & Hq); [done|done|].
  destruct (Partition_insert_at p x s l1 l2) as (G' & Hins & Hlen); try done.
  exists l1, l2, G'. repeat (split; [done|]). split; [|done].
  rewrite <- Hins. unfold Partition.insert.
  (* the comparator reads scores only, the owner cell just written is not one *)
  assert (Hsame : searchBinary (Seg.length p)
            (Partition.compare (TypedArray.put lk (x * 3 + 1) (Seg.id p)) (Seg.indices p) s x)
          = Some (Some (Z.of_nat (length l1)))).
  { rewrite <- Hq. apply searchBinary_ext. intros i. apply compare_put_owner. }
  rewrite Hsame. reflexivity.
Qed.

End methods.


(** *** [update]: the move of a member to the place of its new score *)

Import Utility SearchSpec Inv Ghost.

Lemma get_middle (l k : list Z) y i :
  i = Z.of_nat (length l) → TypedArray.get (l ++ y :: k) i = Some y.
Proof.
  intros ->. apply get_lookup; [lia|]. rewrite Nat2Z.id.
  rewrite lookup_app_r by lia. rewrite Nat.sub_diag. done.
Qed.

Lemma snoc_or_nil {X} (l : list X) : l = [] ∨ ∃ l' y, l = l' ++ [y].
Proof. destruct l as [|y l] using rev_ind; [left; done|right; eauto]. Qed.

Section update.
Context (N PL : Z) (lk : list Z).
Hypothesis Hlk : Z.of_nat (length lk) = 3 * N.
Hypothesis HPL : PL ≤ limit.

(** Reading the score of the member at a position of the region. *)
Lemma score_at_position p i y :
  sortedOk N PL lk p → 0 ≤ i → region p !! Z.to_nat i = Some y →
  (x ← TypedArray.get (Seg.indices p) i; TypedArray.get lk (x * 3)) = Some (scoreAt lk y).
Proof.
  intros Hok Hi Hy. pose proof Hok as [_ _ Hrange _ _ _].
  pose proof (Forall_lookup_1 _ _ _ _ Hrange Hy) as Hyr.
  unfold region in Hy. apply lookup_take_Some in Hy as [Hy _].
  rewrite (get_lookup _ i y Hi Hy). cbn [mbind option_bind].
  apply (get_score N lk Hlk y Hyr).
Qed.

Lemma keyLt_score_lt lk' y s x : scoreAt lk' y < s → keyLt (keyOf lk' y) (s, x).
Proof. unfold keyLt, keyOf. simpl. lia. Qed.

Lemma keyLt_score_gt lk' y s x : s < scoreAt lk' y → keyLt (s, x) (keyOf lk' y).
Proof. unfold keyLt, keyOf. simpl. lia. Qed.

Lemma keyLt_score_le a b : keyLt a b → a.1 ≤ b.1.
Proof. unfold keyLt. lia. Qed.

(** The place [t] of the new key among the other members, when the
    order of the region does not change. *)
Lemma update_stays p x s l1 l2 :
  sortedOk N PL lk p → region p = l1 ++ x :: l2 →
  (l1 = [] ∨ ∃ l1' y, l1 = l1' ++ [y] ∧ scoreAt lk y < s) →
  (l2 = [] ∨ ∃ y l2', l2 = y :: l2' ∧ s < scoreAt lk y) →
  Forall (λ y, keyLt (keyOf lk y) (s, x)) l1 ∧ Forall (λ y, keyLt (s, x) (keyOf lk y)) l2.
Proof.
  intros Hok Hr H1 H2. pose proof Hok as [_ _ _ Hsorted _ _].
  rewrite Hr in Hsorted.
  apply StronglySorted_app in Hsorted as (H12 & Hs1 & Hs2).
  apply StronglySorted_inv in Hs2 as [Hs2 Hx2].
  split.
  - destruct H1 as [->|(l1' & y & -> & Hy)]; [constructor|].
    apply Forall_app. split; [|constructor; [apply keyLt_score_lt, Hy|constructor]].
    apply StronglySorted_app in Hs1 as (Hl1 & _ & _).
    apply Forall_forall. intros z Hz. apply keyLt_score_lt.
    specialize (Hl1 z y Hz ltac:(left)). apply keyLt_score_le in Hl1. simpl in Hl1. lia.
  - destruct H2 as [->|(y & l2' & -> & Hy)]; [constructor|].
    constructor; [apply keyLt_score_gt, Hy|].
    apply StronglySorted_inv in Hs2 as [_ Hy2].
    eapply Forall_impl; [exact Hy2|]. intros z Hz. apply keyLt_score_gt.
    apply keyLt_score_le in Hz. simpl in Hz. lia.
Qed.

Lemma Forall_keyLt_score_le l s x :
  Forall (λ y, keyLt (keyOf lk y) (s, x)) l → Forall (λ y, scoreAt lk y ≤ s) l.
Proof.
  intros H. eapply Forall_impl; [exact H|]. intros y Hy. apply keyLt_score_le in Hy. done.
Qed.

Lemma Forall_keyLt_score_ge l s x :
  Forall (λ y, keyLt (s, x) (keyOf lk y)) l → Forall (λ y, s ≤ scoreAt lk y) l.
Proof.
  intros H. eapply Forall_impl; [exact H|]. intros y Hy. apply keyLt_score_le in Hy. done.
Qed.

(** The member moves towards the front: its new key is below the old. *)
Lemma update_moves_down p x s l1a l1b l2 G :
  sortedOk N PL lk p → is_int32 x →
  Seg.indices p = l1a ++ l1b ++ x :: l2 ++ G →
  Seg.length p = Z.of_nat (length (l1a ++ l1b ++ x :: l2)) →
  Forall (λ y, keyLt (keyOf lk y) (s, x)) l1a →
  Forall (λ y, keyLt (s, x) (keyOf lk y)) (l1b ++ l2) →
  let c := Z.of_nat (length l1a) + Z.of_nat (length l1b) in
  let q := Z.of_nat (length l1a) in
  moved lk p x s (l1a ++ l1b ++ l2)
    (let p1 := if bool_decide (c ≠ q)
               then Seg.with_indices p (l1a ++ x :: l1b ++ l2 ++ G) else p in
     if bool_decide (q = 0) then Seg.with_min p1 s else p1).
Proof.
  intros Hok Hx Hi Hl Hb Ha c q. pose proof Hok as [_ _ _ _ _ Hmin].
  rewrite (region_shape p (l1a ++ l1b ++ x :: l2) G) in Hmin
    by (rewrite <- ?app_assoc; simpl; rewrite <- ?app_assoc; done).
  exists (length l1a), G, (if bool_decide (q = 0) then s else Seg.min p).
  rewrite take_app_at, drop_app_at by done.
  assert (Hmin1 : Forall (λ y, Seg.min p ≤ scoreAt lk y) l1a)
    by (apply Forall_app in Hmin as [? _]; done).
  assert (HminL : Forall (λ y, Seg.min p ≤ scoreAt lk y) (l1a ++ l1b ++ l2)).
  { rewrite !Forall_app in Hmin. rewrite Forall_cons in Hmin. rewrite !Forall_app. tauto. }
  split.
  { subst c q. destruct l1b as [|z l1b].
    - rewrite bool_decide_eq_false_2 by (simpl; lia). simpl in *.
      case_bool_decide; destruct p; simpl in *; subst; rewrite <- ?app_assoc; reflexivity.
    - rewrite bool_decide_eq_true_2 by (simpl; lia).
      case_bool_decide; destruct p; simpl in *; rewrite <- ?app_assoc; reflexivity. }
  split; [rewrite Hi; lens|]. split; [done|]. split; [done|].
  subst q. case_bool_decide as Hq.
  - assert (l1a = []) as -> by (destruct l1a; [done|simpl in Hq; lia]).
    split; [lia|]. split; [lia|]. simpl. apply Forall_keyLt_score_ge in Ha. done.
  - split; [lia|]. split; [|done].
    destruct l1a as [|y l1a]; [done|].
    apply Forall_cons in Hb as [Hy _]. apply Forall_cons in Hmin1 as [Hm _].
    apply keyLt_score_le in Hy. simpl in Hy. lia.
Qed.

(** The member moves towards the end: its new key is above the old. *)
Lemma update_moves_up p x s l1 l2a l3 G :
  sortedOk N PL lk p → is_int32 x →
  Seg.indices p = l1 ++ x :: l2a ++ l3 ++ G →
  Seg.length p = Z.of_nat (length (l1 ++ x :: l2a ++ l3)) →
  Forall (λ y, keyLt (keyOf lk y) (s, x)) (l1 ++ l2a) →
  Forall (λ y, keyLt (s, x) (keyOf lk y)) l3 →
  let c := Z.of_nat (length l1) in
  let t := Z.of_nat (length l1) + Z.of_nat (length l2a) in
  moved lk p x s (l1 ++ l2a ++ l3)
    (let p1 := if bool_decide (c ≠ t)
               then Seg.with_indices p (l1 ++ l2a ++ x :: l3 ++ G) else p in
     if bool_decide (t = 0) then Seg.with_min p1 s
     else if bool_decide (c = 0)
          then Seg.with_min p1 (scoreAt lk (default 0 (head (l2a ++ l3))))
          else p1).
Proof.
  intros Hok Hx Hi Hl Hb Ha c t. pose proof Hok as [_ _ _ Hsorted _ Hmin].
  rewrite (region_shape p (l1 ++ x :: l2a ++ l3) G) in Hmin, Hsorted
    by (rewrite <- ?app_assoc; simpl; rewrite <- ?app_assoc; done).
  assert (HminL : Forall (λ y, Seg.min p ≤ scoreAt lk y) (l1 ++ l2a ++ l3)).
  { rewrite !Forall_app in Hmin. rewrite Forall_cons in Hmin. rewrite !Forall_app in Hmin.
    rewrite !Forall_app. tauto. }
  exists (length l1 + length l2a)%nat, G,
    (if bool_decide (t = 0) then s
     else if bool_decide (c = 0) then scoreAt lk (default 0 (head (l2a ++ l3)))
          else Seg.min p).
  rewrite (app_assoc l1 l2a l3).
  assert (Hll : (length l1 + length l2a)%nat = length (l1 ++ l2a)) by (rewrite length_app; done).
  rewrite (take_app_at _ _ _ Hll), (drop_app_at _ _ _ Hll). clear Hll.
  split.
  { subst c t. destruct l2a as [|z l2a].
    - rewrite bool_decide_eq_false_2 by (simpl; lia). simpl in *.
      rewrite app_nil_r.
      repeat case_bool_decide; destruct p; simpl in *; subst; rewrite <- ?app_assoc; reflexivity.
    - rewrite bool_decide_eq_true_2 by (simpl; lia).
      repeat case_bool_decide; destruct p; simpl in *; rewrite <- ?app_assoc; reflexivity. }
  split; [rewrite Hi; lens|]. split; [done|]. split; [done|].
  subst c t. case_bool_decide as Ht; [|case_bool_decide as Hc].
  - assert (l1 = []) as -> by (destruct l1; [done|simpl in Ht; lia]).
    assert (l2a = []) as -> by (destruct l2a; [done|simpl in Ht; lia]).
    split; [lia|]. split; [lia|]. simpl. apply Forall_keyLt_score_ge in Ha. done.
  - assert (l1 = []) as -> by (destruct l1; [done|simpl in Hc; lia]).
    destruct l2a as [|z l2a]; [simpl in Ht; lia|]. simpl in *.
    apply Forall_cons in Hb as [Hz _]. apply keyLt_score_le in Hz. simpl in Hz.
    apply Forall_cons in HminL as [Hmz _].
    split; [lia|]. split; [lia|].
    apply StronglySorted_inv in Hsorted as [Hsorted _].
    apply StronglySorted_inv in Hsorted as [_ Hzs].
    constructor; [lia|].
    eapply Forall_impl; [exact Hzs|]. intros y Hy. apply keyLt_score_le in Hy. done.
  - split; [lia|]. split; [|rewrite <- app_assoc; done].
    destruct l1 as [|y l1]; [done|]. simpl in *.
    apply Forall_cons in Hb as [Hy _]. apply Forall_cons in HminL as [Hm _].
    apply keyLt_score_le in Hy. simpl in Hy. lia.
Qed.

(** The two tests of [update] for an order that changes. *)
Lemma update_tests p x s l1 l2 G :
  sortedOk N PL lk p →
  Seg.indices p = l1 ++ x :: l2 ++ G →
  Seg.length p = Z.of_nat (length (l1 ++ x :: l2)) →
  let c := Z.of_nat (length l1) in
  ∃ below above : bool,
    (if bool_decide (c > 0) then
       y ← TypedArray.get (Seg.indices p) (c - 1);
       s' ← TypedArray.get lk (y * 3);
       Some (bool_decide (s ≤ s'))
     else Some false) = Some below
    ∧ (if below then Some true
       else if bool_decide (c < Seg.length p - 1) then
         y ← TypedArray.get (Seg.indices p) (c + 1);
         s' ← TypedArray.get lk (y * 3);
         Some (bool_decide (s' ≤ s))
       else Some false) = Some above
    ∧ (above = false →
       (l1 = [] ∨ ∃ l1' y, l1 = l1' ++ [y] ∧ scoreAt lk y < s)
       ∧ (l2 = [] ∨ ∃ y l2', l2 = y :: l2' ∧ s < scoreAt lk y)).
Proof.
  intros Hok Hi Hl c. pose proof Hok as [_ _ Hrange _ _ _].
  rewrite (region_shape p (l1 ++ x :: l2) G) in Hrange
    by (rewrite <- ?app_assoc; simpl; done).
  rewrite Forall_app, Forall_cons in Hrange. destruct Hrange as (Hr1 & Hrx & Hr2).
  subst c. rewrite Hi, Hl.
  assert (Hbelow : ∃ below : bool,
    (if bool_decide (Z.of_nat (length l1) > 0) then
       y ← TypedArray.get (l1 ++ x :: l2 ++ G) (Z.of_nat (length l1) - 1);
       s' ← TypedArray.get lk (y * 3);
       Some (bool_decide (s ≤ s'))
     else Some false) = Some below
    ∧ (below = false → l1 = [] ∨ ∃ l1' y, l1 = l1' ++ [y] ∧ scoreAt lk y < s)).
  { destruct (snoc_or_nil l1) as [->|(l1' & y & ->)].
    - exists false. split; [done|]. auto.
    - rewrite bool_decide_eq_true_2 by lens.
      rewrite <- app_assoc. cbn [app]. rewrite (get_middle l1' _ y) by lens.
      cbn [mbind option_bind].
      apply Forall_app in Hr1 as [_ Hy]. apply Forall_cons in Hy as [Hy _].
      rewrite (get_score N lk Hlk y Hy). cbn [mbind option_bind].
      eexists. split; [reflexivity|]. intros Hf%bool_decide_eq_false.
      right. exists l1', y. split; [done|lia]. }
  destruct Hbelow as (below & -> & Hbelow). exists below.
  destruct below.
  - exists true. split; [done|]. split; [done|]. done.
  - destruct l2 as [|y l2].
    + exists false. split; [done|]. rewrite bool_decide_eq_false_2 by lens.
      split; [done|]. intros _. split; [auto|]. left; done.
    + rewrite bool_decide_eq_true_2 by lens.
      replace (l1 ++ x :: (y :: l2) ++ G) with ((l1 ++ [x]) ++ y :: l2 ++ G)
        by (rewrite <- app_assoc; done).
      rewrite (get_middle (l1 ++ [x]) _ y) by lens.
      cbn [mbind option_bind].
      apply Forall_cons in Hr2 as [Hy _].
      rewrite (get_score N lk Hlk y Hy). cbn [mbind option_bind].
      eexists. split; [done|]. split; [reflexivity|]. intros Hf%bool_decide_eq_false.
      split; [auto|]. right. exists y, l2. split; [done|lia].
Qed.

Lemma Partition_update_ok p x s l1 l2 :
  sortedOk N PL lk p → region p = l1 ++ x :: l2 → is_int32 x →
  ∃ p', Partition.update lk p x s = Some p' ∧ moved lk p x s (l1 ++ l2) p'.
Proof.
  intros Hok Hr Hx. pose proof Hok as [Hcap Hlen Hrange Hsorted _ Hmin].
  destruct (sortedOk_shape N PL lk p Hok) as (G & Hi & Hl & HG).
  rewrite Hr in Hi, Hl. rewrite <- app_assoc in Hi. cbn [app] in Hi.
  assert (Hxr : 0 ≤ x < N).
  { rewrite Forall_forall in Hrange. apply Hrange. rewrite Hr. apply elem_of_app. right. left. }
  unfold Partition.update. rewrite (get_score N lk Hlk x Hxr). cbn [mbind option_bind].
  case_bool_decide as Hne.
  2:{ (* the score does not change *)
    subst s. eexists. split; [reflexivity|].
    rewrite Hr in Hsorted, Hmin.
    apply StronglySorted_app in Hsorted as (H12 & Hs1 & Hs2).
    apply StronglySorted_inv in Hs2 as [Hs2 Hx2].
    exists (length l1), G, (Seg.min p).
    rewrite take_app_at, drop_app_at by done.
    split; [destruct p; simpl in *; subst; reflexivity|].
    split; [rewrite Hi; lens|].
    split; [apply Forall_forall; intros y Hy; apply (H12 y x Hy); left|].
    split; [exact Hx2|].
    rewrite Forall_app, Forall_cons in Hmin. destruct Hmin as (Hm1 & Hmx & Hm2).
    split; [lia|]. split; [lia|]. apply Forall_app. done. }
  rewrite (search_member N PL lk Hlk HPL p x l1 l2 Hok Hr). cbn [mbind option_bind].
  destruct (update_tests p x s l1 l2 G Hok Hi Hl) as (below & above & -> & Habove & Hstay).
  cbn [mbind option_bind]. rewrite Habove. cbn [mbind option_bind].
  destruct above.
  2:{ (* the order does not change *)
    destruct (Hstay eq_refl) as [H1 H2].
    destruct (update_stays p x s l1 l2 Hok Hr H1 H2) as [Hb Ha].
    exists (if bool_decide (Z.of_nat (length l1) = 0) then Seg.with_min p s else p).
    split; [destruct (bool_decide (Z.of_nat (length l1) = 0)); reflexivity|].
    pose proof (update_moves_down p x s l1 [] l2 G Hok Hx Hi Hl Hb Ha) as Hm.
    cbn zeta in Hm. cbn [length app] in Hm. rewrite Z.add_0_r in Hm.
    rewrite (bool_decide_eq_false_2 (_ ≠ _)) in Hm by (intros H; apply H; done).
    exact Hm. }
  (* the order changes: the place of the new key *)
  destruct (search_region N lk Hlk (Seg.indices p) (Seg.length p) s x)
    as (q & Hq & Hqr & Hcase); try done; [lia|lia|].
  fold (region p) in Hcase. rewrite Hq. cbn [mbind option_bind].
  destruct Hcase as [(y & Hy & Hk)|[Hb Ha]].
  { exfalso. injection Hk as Hs ->. done. }
  rewrite Hr in Hb, Ha.
  destruct (decide (s < scoreAt lk x)) as [Hdown|Hup].
  - (* towards the front *)
    assert (Hqc : (Z.to_nat q ≤ length l1)%nat).
    { destruct (decide (Z.to_nat q ≤ length l1)%nat) as [|Hgt]; [done|exfalso].
      rewrite Forall_forall in Hb. specialize (Hb x).
      rewrite (take_app_past l1 _ _ (Z.to_nat q - length l1)) in Hb by lia.
      destruct (Z.to_nat q - length l1)%nat as [|k] eqn:Hk; [lia|].
      specialize (Hb ltac:(apply elem_of_app; right; left)).
      apply keyLt_score_le in Hb. simpl in Hb. lia. }
    rewrite take_app_le in Hb by done. rewrite drop_app_le in Ha by done.
    set (l1a := take (Z.to_nat q) l1) in *. set (l1b := drop (Z.to_nat q) l1) in *.
    assert (Hl1 : l1 = l1a ++ l1b) by (unfold l1a, l1b; rewrite take_drop; done).
    assert (Hq' : q = Z.of_nat (length l1a)) by (unfold l1a; rewrite length_take; lia).
    rewrite Hl1 in Hi, Hl. rewrite <- app_assoc in Hi.
    replace ((l1a ++ l1b) ++ x :: l2) with (l1a ++ l1b ++ x :: l2) in Hl
      by (rewrite <- app_assoc; done).
    assert (Ha' : Forall (λ y, keyLt (s, x) (keyOf lk y)) (l1b ++ l2)).
    { rewrite Forall_app, Forall_cons in Ha. rewrite Forall_app. tauto. }
    pose proof (update_moves_down p x s l1a l1b l2 G Hok Hx Hi Hl Hb Ha') as Hm.
    cbn zeta in Hm.
    rewrite Hl1. rewrite (length_app l1a l1b), Nat2Z.inj_add.
    rewrite <- Hq' in *.
    rewrite Z.min_r by (rewrite Hl; lens).
    rewrite (bool_decide_eq_false_2 (_ ∧ _)) by lia. cbn [mbind option_bind].
    assert (Hre : (if bool_decide (q + Z.of_nat (length l1b) ≠ q)
                   then Partition.reindex p (Some (q + Z.of_nat (length l1b))) (Some q) x
                   else Some p)
                  = Some (if bool_decide (q + Z.of_nat (length l1b) ≠ q)
                          then Seg.with_indices p (l1a ++ x :: l1b ++ l2 ++ G) else p)).
    { destruct (bool_decide (q + Z.of_nat (length l1b) ≠ q)) eqn:Hcq; [|done].
      apply bool_decide_eq_true in Hcq. rewrite Hq'.
      apply (reindex_up p l1a l1b x l2 G x); [done| |done].
      intros E. rewrite E in Hcq. simpl in Hcq. lia. }
    rewrite Hre. cbn [mbind option_bind].
    destruct (bool_decide (q = 0)) eqn:Hq0.
    + eexists. split; [reflexivity|]. rewrite <- app_assoc. exact Hm.
    + apply bool_decide_eq_false in Hq0.
      rewrite (bool_decide_eq_false_2 (_ = 0)) by lia.
      eexists. split; [reflexivity|]. rewrite <- app_assoc. exact Hm.
  - (* towards the end *)
    assert (Hs : scoreAt lk x < s) by lia.
    assert (Hqc : (length l1 < Z.to_nat q)%nat).
    { destruct (decide (length l1 < Z.to_nat q)%nat) as [|Hle]; [done|exfalso].
      rewrite Forall_forall in Ha. specialize (Ha x).
      rewrite drop_app_le in Ha by lia.
      specialize (Ha ltac:(apply elem_of_app; right; left)).
      apply keyLt_score_le in Ha. simpl in Ha. lia. }
    rewrite (take_app_past l1 _ _ (S (Z.to_nat q - length l1 - 1))) in Hb by lia.
    rewrite (drop_app_past l1 _ _ (S (Z.to_nat q - length l1 - 1))) in Ha by lia.
    cbn [take drop] in Hb, Ha.
    set (l2a := take (Z.to_nat q - length l1 - 1) l2) in *.
    set (l3 := drop (Z.to_nat q - length l1 - 1) l2) in *.
    assert (Hl2 : l2 = l2a ++ l3) by (unfold l2a, l3; rewrite take_drop; done).
    assert (Hlq : Z.of_nat (length l1 + length l2a + 1) = q).
    { unfold l2a. rewrite length_take.
      assert (Z.to_nat q ≤ length l1 + S (length l2))%nat; [|lia].
      rewrite Hl, length_app in Hqr. simpl in Hqr. lia. }
    rewrite Hl2 in Hi, Hl. rewrite <- app_assoc in Hi.
    assert (Hb' : Forall (λ y, keyLt (keyOf lk y) (s, x)) (l1 ++ l2a)).
    { rewrite Forall_app, Forall_cons in Hb. rewrite Forall_app. tauto. }
    pose proof (update_moves_up p x s l1 l2a l3 G Hok Hx Hi Hl Hb' Ha) as Hm.
    cbn zeta in Hm. rewrite <- Hl2 in Hm.
    set (c := Z.of_nat (length l1)) in *.
    set (t := c + Z.of_nat (length l2a)) in *.
    assert (Hlen' : Seg.length p = t + 1 + Z.of_nat (length l3)) by (rewrite Hl; unfold t, c; lens).
    assert (Hqt : q = t + 1) by (unfold t, c; lia).
    (* the position the source settles on *)
    assert (Hpi :
      (if bool_decide (c < Z.min (Seg.length p - 1) q ∧ Z.min (Seg.length p - 1) q > 0) then
         r ← Partition.compare lk (Seg.indices p) s x (Z.min (Seg.length p - 1) q);
         Some (if bool_decide (r < 0) then Z.min (Seg.length p - 1) q - 1
               else Z.min (Seg.length p - 1) q)
       else Some (Z.min (Seg.length p - 1) q)) = Some t).
    { pose proof Hok as [_ _ Hrange' _ _ _].
      rewrite (region_shape p (l1 ++ x :: l2a ++ l3) G) in Hrange'
        by (rewrite <- ?app_assoc; simpl; rewrite <- ?app_assoc; done).
      rewrite Forall_app, Forall_cons, Forall_app in Hrange'.
      destruct Hrange' as (_ & _ & Hr2a & Hr3).
      destruct l3 as [|z l3].
      - simpl in Hlen'. rewrite Z.min_l by lia.
        replace (Seg.length p - 1) with t by lia.
        destruct (snoc_or_nil l2a) as [E|(l2a' & z & E)].
        + rewrite bool_decide_eq_false_2 by (unfold t; rewrite E; simpl; lia). done.
        + rewrite bool_decide_eq_true_2 by (unfold t; rewrite E; split; lens).
          rewrite Hi, E.
          replace (l1 ++ x :: (l2a' ++ [z]) ++ [] ++ G)
            with ((l1 ++ x :: l2a') ++ z :: G)
            by (rewrite <- !app_assoc; simpl; rewrite <- ?app_assoc; done).
          rewrite E in Hr2a, Hb'. apply Forall_app in Hr2a as [_ Hz].
          apply Forall_cons in Hz as [Hz _].
          rewrite (compare_at N lk Hlk _ s x t z); [|unfold t, c; lia| |done].
          2:{ rewrite lookup_app_r by (unfold t, c; rewrite E; lens).
              replace (Z.to_nat t - length (l1 ++ x :: l2a'))%nat with 0%nat; [done|].
              unfold t, c. rewrite E. lens. }
          cbn [mbind option_bind]. rewrite bool_decide_eq_false_2; [done|].
          rewrite Forall_app, Forall_app in Hb'. destruct Hb' as (_ & _ & Hzb).
          apply Forall_cons in Hzb as [Hzb _].
          apply compareWith_pos in Hzb. lia.
      - rewrite Z.min_r by (simpl in Hlen'; lia).
        rewrite bool_decide_eq_true_2 by (unfold t, c in *; lia).
        rewrite Hi.
        replace (l1 ++ x :: l2a ++ (z :: l3) ++ G)
          with ((l1 ++ x :: l2a) ++ z :: l3 ++ G)
          by (rewrite <- !app_assoc; simpl; done).
        apply Forall_cons in Hr3 as [Hz _].
        rewrite (compare_at N lk Hlk _ s x q z); [|lia| |done].
        2:{ rewrite lookup_app_r by (rewrite Hqt; unfold t, c; lens).
            replace (Z.to_nat q - length (l1 ++ x :: l2a))%nat with 0%nat; [done|].
            rewrite Hqt. unfold t, c. lens. }
        cbn [mbind option_bind]. apply Forall_cons in Ha as [Hza _].
        apply compareWith_neg in Hza. rewrite bool_decide_eq_true_2 by done.
        f_equal. lia. }
    rewrite Hpi. cbn [mbind option_bind].
    assert (Hre : (if bool_decide (c ≠ t)
                   then Partition.reindex p (Some c) (Some t) x else Some p)
                  = Some (if bool_decide (c ≠ t)
                          then Seg.with_indices p (l1 ++ l2a ++ x :: l3 ++ G) else p)).
    { destruct (bool_decide (c ≠ t)) eqn:Hct; [|done].
      apply bool_decide_eq_true in Hct.
      destruct (snoc_or_nil l2a) as [E|(l2a' & z & E)].
      { unfold t in Hct. rewrite E in Hct. simpl in Hct. lia. }
      unfold t, c. rewrite E.
      replace (Z.of_nat (length l1) + Z.of_nat (length (l2a' ++ [z])))
        with (Z.of_nat (length l1) + 1 + Z.of_nat (length l2a')) by lens.
      rewrite (reindex_down p l1 x l2a' z l3 G x); [|rewrite Hi, E, <- !app_assoc; done|done].
      do 2 f_equal. rewrite <- !app_assoc. done. }
    rewrite Hre. cbn [mbind option_bind].
    destruct (bool_decide (t = 0)) eqn:Ht0.
    + eexists. split; [reflexivity|]. exact Hm.
    + apply bool_decide_eq_false in Ht0.
      destruct (bool_decide (c = 0)) eqn:Hc0.
      * (* the first member left: [min] is read from the new first one *)
        apply bool_decide_eq_true in Hc0.
        assert (l1 = []) as E1 by (destruct l1; [done|unfold c in Hc0; simpl in Hc0; lia]).
        destruct l2a as [|z0 l2a']; [unfold t, c in Ht0; rewrite E1 in Ht0; simpl in Ht0; lia|].
        rewrite bool_decide_eq_true_2 by (unfold t, c; rewrite E1; simpl; lia).
        cbn [Seg.with_indices Seg.indices]. rewrite E1. cbn [app].
        rewrite (get_lookup _ 0 z0) by done. cbn [mbind option_bind].
        pose proof Hok as [_ _ Hrange' _ _ _].
        rewrite (region_shape p (l1 ++ x :: (z0 :: l2a') ++ l3) G) in Hrange'
          by (rewrite <- ?app_assoc; simpl; rewrite <- ?app_assoc; done).
        rewrite Forall_app, Forall_cons in Hrange'. destruct Hrange' as (_ & _ & Hz0).
        apply Forall_cons in Hz0 as [Hz0 _].
        rewrite (get_score N lk Hlk z0 Hz0). cbn [mbind option_bind].
        eexists. split; [reflexivity|].
        rewrite E1 in Hm. cbn [app head default] in Hm.
        rewrite bool_decide_eq_true_2 in Hm by (unfold t, c; rewrite E1; simpl; lia).
        replace (default 0 (head l2)) with z0 in Hm by (rewrite Hl2; done).
        exact Hm.
      * eexists. split; [reflexivity|]. exact Hm.
Qed.

End update.


(** *** The sorted segment keeps its invariant *)

Import Utility SearchSpec Inv Ghost.

Lemma sortedOk_intro N PL lk u i ind n m R G :
  ind = R ++ G → n = Z.of_nat (length R) → Z.of_nat (length ind) = PL →
  R ≠ [] →
  Forall (λ x, 0 ≤ x < N) R →
  StronglySorted (before lk) R →
  Forall (λ x, ownerAt lk x = i) R →
  Forall (λ x, m ≤ scoreAt lk x) R →
  sortedOk N PL lk (Seg.Make u i ind n m).
Proof.
  intros -> -> Hcap Hne Hrange Hsorted Hown Hmin.
  assert (Hreg : region (Seg.Make u i (R ++ G) (Z.of_nat (length R)) m) = R).
  { apply (region_shape _ R G); done. }
  split; simpl; rewrite ?Hreg; try done.
  rewrite length_app in Hcap. destruct R; [done|]. simpl in *. lia.
Qed.

Lemma sortedOk_frame N PL lk lk' p :
  sortedOk N PL lk p →
  (∀ y, y ∈ region p → scoreAt lk' y = scoreAt lk y ∧ ownerAt lk' y = ownerAt lk y) →
  sortedOk N PL lk' p.
Proof.
  intros [Hcap Hlen Hrange Hsorted Hown Hmin] Hsame. split; try done.
  - eapply StronglySorted_ext; [|exact Hsorted].
    intros a b Ha Hb. apply before_sameCells; apply Hsame; done.
  - rewrite Forall_forall in *. intros y Hy. rewrite (proj2 (Hsame y Hy)). auto.
  - rewrite Forall_forall in *. intros y Hy. rewrite (proj1 (Hsame y Hy)). auto.
Qed.

Lemma sortedOk_member N PL lk p x :
  sortedOk N PL lk p → x ∈ region p → 0 ≤ x < N ∧ ownerAt lk x = Seg.id p.
Proof.
  intros [_ _ Hrange _ Hown _] Hx. rewrite Forall_forall in *. auto.
Qed.

(** The region after a removal. *)
Lemma sortedOk_removed N PL lk lk' p x l1 l2 G' :
  sortedOk N PL lk p → region p = l1 ++ x :: l2 →
  length (l1 ++ l2 ++ G') = length (Seg.indices p) →
  l1 ++ l2 ≠ [] →
  (∀ y, 0 ≤ y → y ≠ x → sameCells lk lk' y) →
  sortedOk N PL lk'
    (Seg.Make (Seg.uniform p) (Seg.id p) (l1 ++ l2 ++ G') (Seg.length p - 1) (Seg.min p)).
Proof.
  intros Hok Hr Hlen Hne Hsame. pose proof Hok as [Hcap Hl Hrange Hsorted Hown Hmin].
  destruct (sortedOk_shape N PL lk p Hok) as (G & Hi & Hl' & HG).
  rewrite Hr in *.
  assert (Hnd := StronglySorted_NoDup _ _ Hsorted).
  apply NoDup_app in Hnd as (Hnd1 & Hndx & Hnd2). apply NoDup_cons in Hnd2 as [Hx2 Hnd2].
  assert (Hx1 : x ∉ l1) by (intros Hin; apply (Hndx x Hin); left).
  assert (Hsub : l1 ++ l2 `sublist_of` l1 ++ x :: l2).
  { apply sublist_app; [done|]. apply sublist_cons. done. }
  assert (Hcells : ∀ y, y ∈ l1 ++ l2 → sameCells lk lk' y).
  { intros y Hy. apply Hsame.
    - rewrite Forall_forall in Hrange. apply (Hrange y). eapply elem_of_sublist; eauto.
    - intros ->. apply elem_of_app in Hy as [?|?]; done. }
  apply (sortedOk_intro N PL lk' _ _ _ _ _ (l1 ++ l2) G').
  - rewrite <- app_assoc. done.
  - rewrite length_app in *. simpl in Hl'. lia.
  - rewrite Hlen. done.
  - done.
  - rewrite Forall_forall in *. intros y Hy. apply Hrange. eapply elem_of_sublist; eauto.
  - eapply StronglySorted_ext; [|eapply StronglySorted_sublist; eauto].
    intros a b Ha Hb. apply before_sameCells; apply Hcells; done.
  - apply Forall_forall. intros y Hy. destruct (Hcells y Hy) as (_ & -> & _).
    rewrite Forall_forall in Hown. apply Hown. eapply elem_of_sublist; eauto.
  - apply Forall_forall. intros y Hy. destruct (Hcells y Hy) as (-> & _ & _).
    rewrite Forall_forall in Hmin. apply Hmin. eapply elem_of_sublist; eauto.
Qed.

(** A member [x] with the key [(s, x)] put at its place among the
    members [la ++ lb]. *)
Lemma sortedOk_placed N PL lk lk' u i m x s la lb G' n :
  Forall (λ y, 0 ≤ y < N) (la ++ lb) →
  StronglySorted (before lk) (la ++ lb) →
  Forall (λ y, ownerAt lk y = i) (la ++ lb) →
  x ∉ la ++ lb → 0 ≤ x < N →
  Forall (λ y, keyLt (keyOf lk y) (s, x)) la →
  Forall (λ y, keyLt (s, x) (keyOf lk y)) lb →
  (∀ y, 0 ≤ y → y ≠ x → sameCells lk lk' y) →
  scoreAt lk' x = s → ownerAt lk' x = i →
  m ≤ s → Forall (λ y, m ≤ scoreAt lk y) (la ++ lb) →
  Z.of_nat (length (la ++ x :: lb ++ G')) = PL →
  n = Z.of_nat (length (la ++ lb)) + 1 →
  sortedOk N PL lk' (Seg.Make u i (la ++ x :: lb ++ G') n m).
Proof.
  intros Hrange Hsorted Hown Hx Hxr Hb Ha Hsame Hs Ho Hm HmL Hcap ->.
  assert (Hcells : ∀ y, y ∈ la ++ lb → sameCells lk lk' y).
  { intros y Hy. apply Hsame.
    - rewrite Forall_forall in Hrange. apply (Hrange y Hy).
    - intros ->. done. }
  assert (Hcells_a : ∀ y, y ∈ la → sameCells lk lk' y)
    by (intros y Hy; apply Hcells, elem_of_app; auto).
  assert (Hcells_b : ∀ y, y ∈ lb → sameCells lk lk' y)
    by (intros y Hy; apply Hcells, elem_of_app; auto).
  apply (sortedOk_intro N PL lk' _ _ _ _ _ (la ++ x :: lb) G').
  - rewrite <- app_assoc. done.
  - rewrite !length_app. simpl. lia.
  - done.
  - destruct la; done.
  - rewrite Forall_app, Forall_cons. rewrite Forall_app in Hrange. tauto.
  - apply StronglySorted_app in Hsorted as (Hab & Hsa & Hsb).
    apply StronglySorted_app. split; [|split].
    + intros a b Ha' [->|Hb']%elem_of_cons.
      * unfold before, keyOf. rewrite Hs. destruct (Hcells_a a Ha') as (-> & _).
        rewrite Forall_forall in Hb. apply (Hb a Ha').
      * apply (before_sameCells lk); [apply Hcells_a|apply Hcells_b|apply Hab]; done.
    + eapply StronglySorted_ext; [|exact Hsa].
      intros a b Ha' Hb'. apply before_sameCells; apply Hcells_a; done.
    + constructor.
      * eapply StronglySorted_ext; [|exact Hsb].
        intros a b Ha' Hb'. apply before_sameCells; apply Hcells_b; done.
      * apply Forall_forall. intros b Hb'. unfold before, keyOf. rewrite Hs.
        destruct (Hcells_b b Hb') as (-> & _).
        rewrite Forall_forall in Ha. apply (Ha b Hb').
  - rewrite Forall_app, Forall_cons. rewrite Forall_app in Hown.
    destruct Hown as [Hoa Hob]. rewrite Forall_forall in Hoa, Hob.
    split; [|split; [done|]]; apply Forall_forall; intros y Hy.
    + destruct (Hcells_a y Hy) as (_ & -> & _). auto.
    + destruct (Hcells_b y Hy) as (_ & -> & _). auto.
  - rewrite Forall_app, Forall_cons. rewrite Forall_app in HmL.
    destruct HmL as [Hma Hmb]. rewrite Forall_forall in Hma, Hmb.
    split; [|split; [lia|]]; apply Forall_forall; intros y Hy.
    + destruct (Hcells_a y Hy) as (-> & _). auto.
    + destruct (Hcells_b y Hy) as (-> & _). auto.
Qed.

(** The scores of a region put in place stay below a bound. *)
Lemma placed_below lk lk' x s la lb b :
  (∀ y, y ∈ la ++ lb → scoreAt lk' y = scoreAt lk y) →
  scoreAt lk' x = s → s ≤ b →
  Forall (λ y, scoreAt lk y ≤ b) (la ++ lb) →
  Forall (λ y, scoreAt lk' y ≤ b) (la ++ x :: lb).
Proof.
  intros Hsame Hs Hsb HL. rewrite Forall_app, Forall_cons. rewrite Forall_app in HL.
  destruct HL as [Ha Hb]. rewrite Forall_forall in Ha, Hb.
  split; [|split; [lia|]]; apply Forall_forall; intros y Hy;
    rewrite Hsame by (apply elem_of_app; auto); auto.
Qed.


(** *** [split], the constructor and [join] of the sorted segment *)

Import Utility SearchSpec MergeSpec Inv Ghost.

Lemma Partition_split_ok N PL lk p :
  PL ≤ limit → sortedOk N PL lk p → Seg.length p = PL → PL `mod` 2 = 0 →
  ∃ la lb, region p = la ++ lb
    ∧ Seg.indices p = la ++ lb
    ∧ Z.of_nat (length la) = PL `div` 2 ∧ Z.of_nat (length lb) = PL `div` 2
    ∧ Partition.split p
      = Some (lb ++ replicate (Z.to_nat (PL `div` 2)) 0, Seg.with_length p (PL `div` 2)).
Proof.
  intros HPL Hok Hfull Heven. pose proof Hok as [Hcap Hlen _ _ _ _].
  assert (Hhalf : PL = 2 * (PL `div` 2)).
  { pose proof (Z.div_mod PL 2 ltac:(lia)). lia. }
  assert (Hreg : region p = Seg.indices p).
  { unfold region. apply take_ge. lia. }
  exists (take (Z.to_nat (PL `div` 2)) (Seg.indices p)),
         (drop (Z.to_nat (PL `div` 2)) (Seg.indices p)).
  rewrite take_drop. split; [done|]. split; [done|].
  split; [rewrite length_take; lia|]. split; [rewrite length_drop; lia|].
  unfold Partition.split. rewrite Hfull, bool_decide_eq_true_2 by done.
  rewrite create_ok by fits. cbn [mbind option_bind].
  rewrite subarray_ok by lia.
  rewrite take_ge by lens.
  rewrite set_ok by lens.
  cbn [mbind option_bind].
  change (Z.to_nat 0) with 0%nat. rewrite take_0. cbn [app].
  rewrite drop_replicate, length_drop. do 4 f_equal. lia.
Qed.

Lemma handed_nil lk i : handed lk lk [] i.
Proof. split; try done. intros y Hy. inversion Hy. Qed.

Lemma handed_step lk lk1 lk' x R i :
  length lk1 = length lk → 0 ≤ x →
  (∀ y, 0 ≤ y → scoreAt lk1 y = scoreAt lk y) →
  ownerAt lk1 x = i →
  (∀ y, 0 ≤ y → y ≠ x → sameCells lk lk1 y) →
  handed lk1 lk' R i → handed lk lk' (x :: R) i.
Proof.
  intros Hlen Hx Hsc1 Hown1 Hoth1 [Hl' Hsc Hown Hoth]. split.
  - congruence.
  - intros y Hy. rewrite Hsc by done. auto.
  - intros y [->|Hy]%elem_of_cons; [|auto].
    destruct (decide (x ∈ R)) as [Hin|Hnin]; [auto|].
    destruct (Hoth x Hx Hnin) as (_ & -> & _). done.
  - intros y Hy Hnin. apply not_elem_of_cons in Hnin as [Hne Hnin].
    eapply sameCells_trans; [apply Hoth1|apply Hoth]; done.
Qed.

(** One turn of a constructor loop: owner and slot of [x] written. *)
Lemma owner_slot_written N lk x i v :
  Z.of_nat (length lk) = 3 * N → 0 ≤ x < N →
  let lk1 := TypedArray.put (TypedArray.put lk (x * 3 + 1) i) (x * 3 + 2) v in
  length lk1 = length lk
  ∧ (∀ y, 0 ≤ y → scoreAt lk1 y = scoreAt lk y)
  ∧ ownerAt lk1 x = toInt32 i ∧ slotAt lk1 x = toInt32 v
  ∧ (∀ y, 0 ≤ y → y ≠ x → sameCells lk lk1 y).
Proof.
  intros Hlk Hx lk1. unfold lk1. split; [rewrite !put_length; done|].
  split; [|split; [|split]].
  - intros y Hy. rewrite scoreAt_put_slot, scoreAt_put_owner by done. done.
  - rewrite ownerAt_put_slot, ownerAt_put_owner_same by lia. done.
  - rewrite slotAt_put_slot_same by lens. done.
  - intros y Hy Hne.
    eapply sameCells_trans; [apply sameCells_put_owner|apply sameCells_put_slot]; done.
Qed.

Lemma sorted_constructLoop N i indices : ∀ n k R lk,
  Z.of_nat (length lk) = 3 * N → is_int32 i →
  R = take n (drop k indices) → length R = n →
  Forall (λ y, 0 ≤ y < N) R →
  ∃ lk', Partition.constructLoop n i indices lk (Z.of_nat k) = Some lk'
         ∧ handed lk lk' R i
         ∧ (∀ y, y ∈ R → slotAt lk' y = -1).
Proof.
  induction n as [|n IH]; intros k R lk Hlk Hi HR Hlen Hrange.
  - destruct R; [|done]. exists lk. split; [done|]. split; [apply handed_nil|].
    intros y Hy. inversion Hy.
  - destruct R as [|x R]; [done|].
    assert (Hx : indices !! k = Some x ∧ R = take n (drop (S k) indices)).
    { destruct (drop k indices) as [|x' rest] eqn:Hd; [done|].
      apply drop_lookup_cons in Hd as [Hx' Hrest]. simpl in HR.
      injection HR as -> ->. rewrite Hrest. done. }
    destruct Hx as [Hx HR']. apply Forall_cons in Hrange as [Hxr Hrange].
    cbn [Partition.constructLoop].
    rewrite (get_lookup indices (Z.of_nat k) x) by (rewrite ?Nat2Z.id; done || lia).
    cbn [mbind option_bind].
    destruct (owner_slot_written N lk x i (-1) Hlk Hxr) as (Hlen1 & Hsc1 & Hown1 & Hslot1 & Hoth1).
    set (lk1 := TypedArray.put (TypedArray.put lk (x * 3 + 1) i) (x * 3 + 2) (-1)) in *.
    rewrite toInt32_id in Hown1 by done.
    destruct (IH (S k) R lk1) as (lk' & Hrun & Hh & Hslot); try done.
    + congruence.
    + simpl in Hlen. lia.
    + replace (Z.of_nat k + 1) with (Z.of_nat (S k)) by lia.
      rewrite Hrun. exists lk'. split; [done|].
      split; [eapply handed_step; try exact Hh; done || lia|].
      intros y [->|Hy]%elem_of_cons; [|auto].
      destruct (decide (x ∈ R)) as [Hin|Hnin]; [auto|].
      destruct Hh as [_ _ _ Hoth].
      destruct (Hoth x ltac:(lia) Hnin) as (_ & _ & ->). done.
Qed.

Lemma Partition_new_ok N lk i indices n R G :
  Z.of_nat (length lk) = 3 * N → is_int32 i →
  indices = R ++ G → n = Z.of_nat (length R) → R ≠ [] →
  Forall (λ y, 0 ≤ y < N) R →
  ∃ lk', Partition.new i lk indices n
         = Some (lk', Seg.Make false i indices n (scoreAt lk (default 0 (head R))))
         ∧ handed lk lk' R i
         ∧ (∀ y, y ∈ R → slotAt lk' y = -1).
Proof.
  intros Hlk Hi -> -> Hne Hrange.
  destruct R as [|x R]; [done|]. clear Hne.
  pose proof Hrange as Hxr. apply Forall_cons in Hxr as [Hxr _].
  unfold Partition.new.
  rewrite (get_lookup _ 0 x) by done. cbn [mbind option_bind].
  rewrite (get_score N lk Hlk x Hxr). cbn [mbind option_bind].
  rewrite Nat2Z.id.
  destruct (sorted_constructLoop N i ((x :: R) ++ G) (length (x :: R)) 0 (x :: R) lk)
    as (lk' & Hrun & Hh & Hslot); try done.
  - rewrite drop_0, take_app_length. done.
  - change (Z.of_nat 0) with 0 in Hrun. rewrite Hrun. cbn [mbind option_bind].
    exists lk'. done.
Qed.

Lemma sorted_adoptLoop N i : ∀ R lk,
  Z.of_nat (length lk) = 3 * N → is_int32 i →
  Forall (λ y, 0 ≤ y < N) R →
  handed lk (Partition.adoptLoop i R lk) R i.
Proof.
  induction R as [|x R IH]; intros lk Hlk Hi Hrange; [apply handed_nil|].
  apply Forall_cons in Hrange as [Hxr Hrange]. cbn [Partition.adoptLoop].
  destruct (owner_slot_written N lk x i (-1) Hlk Hxr) as (Hlen1 & Hsc1 & Hown1 & _ & Hoth1).
  rewrite toInt32_id in Hown1 by done.
  apply (handed_step lk _ _ x R i Hlen1 ltac:(lia) Hsc1 Hown1 Hoth1).
  apply IH; [congruence|done|done].
Qed.

Lemma handed_sorted lk lk' R i l :
  handed lk lk' R i → Forall (λ y, 0 ≤ y) l →
  StronglySorted (before lk) l → StronglySorted (before lk') l.
Proof.
  intros [_ Hsc _ _] Hl. apply StronglySorted_ext.
  rewrite Forall_forall in Hl.
  intros a b Ha Hb. apply before_sameCells; apply Hsc; auto.
Qed.

Lemma in_range_int32 N l :
  N ≤ limit → Forall (λ y, 0 ≤ y < N) l → Forall is_int32 l.
Proof.
  intros HN Hl. eapply Forall_impl; [exact Hl|]. unfold is_int32, limit in *.
  simpl. intros y Hy. lia.
Qed.

Lemma Partition_join_run N PL lk p q :
  Z.of_nat (length lk) = 3 * N → N ≤ limit → PL ≤ limit → is_int32 (Seg.id p) →
  sortedOk N PL lk p → sortedOk N PL lk q →
  Seg.length p + Seg.length q ≤ PL →
  let lk' := Partition.adoptLoop (Seg.id p) (region q) lk in
  Partition.join lk p q
  = Some (lk', Seg.Make (Seg.uniform p) (Seg.id p)
            ((value <$> mergeFrom (joinCompare lk' (region p) (region q)) (region p) 0 (region q) 0)
             ++ drop (length (region p) + length (region q)) (replicate (Z.to_nat PL) 0))
            (Seg.length p + Seg.length q) (Seg.min p)).
Proof.
  intros Hlk HN HPL Hid Hp Hq Hroom lk'.
  pose proof Hp as [Hcap Hlen Hrange Hsorted Hown Hminp].
  pose proof Hq as [Hcapq Hlenq Hrangeq Hsortedq Hownq Hminq].
  destruct (sortedOk_shape N PL lk p Hp) as (Gp & Hip & Hlp & HGp).
  destruct (sortedOk_shape N PL lk q Hq) as (Gq & Hiq & Hlq & HGq).
  unfold Partition.join.
  rewrite bool_decide_eq_true_2 by lia.
  rewrite !subarray_region by lia. fold (region p) (region q).
  pose proof (sorted_adoptLoop N (Seg.id p) (region q) lk Hlk Hid Hrangeq) as Hh.
  fold lk'. destruct Hh as [Hlen' _ _ _]. fold lk' in Hlen'.
  rewrite create_ok by fits. cbn [mbind option_bind].
  rewrite (interleaveArrays_spec _ (region p) (region q) _
             (joinCompare lk' (region p) (region q))).
  - cbn [mbind option_bind]. rewrite Hcap. reflexivity.
  - eapply (in_range_int32 N); done.
  - eapply (in_range_int32 N); done.
  - intros j k Hj Hk.
    assert (Hq' : region q !! Z.to_nat k = Some (region q !!! Z.to_nat k)).
    { apply list_lookup_lookup_total_lt. lia. }
    assert (Hp' : region p !! Z.to_nat j = Some (region p !!! Z.to_nat j)).
    { apply list_lookup_lookup_total_lt. lia. }
    rewrite (get_lookup _ k _ ltac:(lia) Hq'). cbn [mbind option_bind].
    rewrite (get_lookup (Seg.indices p) j (region p !!! Z.to_nat j)); [|lia|].
    + cbn [mbind option_bind].
      apply list_elem_of_lookup_2 in Hq', Hp'.
      rewrite Forall_forall in Hrange, Hrangeq.
      rewrite (get_score N lk') by (congruence || auto).
      cbn [mbind option_bind].
      rewrite (get_score N lk') by (congruence || auto).
      cbn [mbind option_bind]. reflexivity.
    + rewrite Hip at 1. rewrite lookup_app_l by lia. done.
  - rewrite length_replicate. lia.
Qed.

(** [join] of two sorted segments that stand in order and share no
    identifier: the merged region is sorted and holds the identifiers
    of both. *)
Lemma Partition_join_ok N PL lk p q :
  Z.of_nat (length lk) = 3 * N → N ≤ limit → PL ≤ limit → is_int32 (Seg.id p) →
  sortedOk N PL lk p → sortedOk N PL lk q →
  Seg.length p + Seg.length q ≤ PL →
  Seg.min p ≤ Seg.min q →
  (∀ x, x ∈ region p → x ∉ region q) →
  ∃ lk' p', Partition.join lk p q = Some (lk', p')
    ∧ handed lk lk' (region q) (Seg.id p)
    ∧ Seg.uniform p' = Seg.uniform p ∧ Seg.id p' = Seg.id p
    ∧ Seg.length p' = Seg.length p + Seg.length q
    ∧ Seg.min p' = Seg.min p
    ∧ (∀ v, v ∈ region p' ↔ v ∈ region p ∨ v ∈ region q)
    ∧ sortedOk N PL lk' p'.
Proof.
  intros Hlk HN HPL Hid Hp Hq Hroom Hmin Hdisj.
  pose proof (Partition_join_run N PL lk p q Hlk HN HPL Hid Hp Hq Hroom) as Hrun.
  cbv zeta in Hrun.
  pose proof Hp as [Hcap Hlen Hrange Hsorted Hown Hminp].
  pose proof Hq as [Hcapq Hlenq Hrangeq Hsortedq Hownq Hminq].
  destruct (sortedOk_shape N PL lk p Hp) as (Gp & Hip & Hlp & HGp).
  destruct (sortedOk_shape N PL lk q Hq) as (Gq & Hiq & Hlq & HGq).
  pose proof (sorted_adoptLoop N (Seg.id p) (region q) lk Hlk Hid Hrangeq) as Hh.
  set (lk' := Partition.adoptLoop (Seg.id p) (region q) lk) in *.
  pose proof Hh as [Hlen' Hsc' Hown' Hoth'].
  set (cmp := joinCompare lk' (region p) (region q)) in *.
  set (L := value <$> mergeFrom cmp (region p) 0 (region q) 0) in *.
  assert (HL : Z.of_nat (length L) = Seg.length p + Seg.length q).
  { unfold L. rewrite length_fmap, mergeFrom_length. lia. }
  assert (Hmem : ∀ v, v ∈ L ↔ v ∈ region p ∨ v ∈ region q).
  { intros v. split; [apply mergeFrom_value_elem|].
    intros [Hv|Hv]; apply list_elem_of_lookup_1 in Hv as [n Hn]; unfold L;
      apply list_elem_of_fmap.
    - exists (FromA, 0 + Z.of_nat n, v). split; [done|]. apply mergeFrom_has_A, Hn.
    - exists (FromB, 0 + Z.of_nat n, v). split; [done|]. apply mergeFrom_has_B, Hn. }
  eexists _, _. split; [exact Hrun|]. split; [done|]. do 4 (split; [done|]).
  match goal with |- (∀ v, v ∈ region ?p' ↔ _) ∧ _ =>
    assert (Hreg : region p' = L) by (eapply region_shape; [simpl; reflexivity|simpl; lia]) end.
  rewrite Hreg. split; [done|].
  rewrite Forall_forall in Hrange, Hrangeq, Hown, Hminp, Hminq.
  eapply sortedOk_intro; [reflexivity|lia| | | | | |].
  - rewrite length_app, length_drop, length_replicate. lia.
  - intros HLnil. rewrite HLnil in HL. simpl in HL. lia.
  - apply Forall_forall. intros v [Hv|Hv]%Hmem; auto.
  - unfold L. apply mergeFrom_sorted; [apply _| | |].
    + eapply handed_sorted; [exact Hh| |exact Hsorted].
      apply Forall_forall. intros y Hy. apply Hrange in Hy. lia.
    + eapply handed_sorted; [exact Hh| |exact Hsortedq].
      apply Forall_forall. intros y Hy. apply Hrangeq in Hy. lia.
    + intros n m x y Hx Hy. unfold cmp, joinCompare. rewrite !Z.add_0_l, !Nat2Z.id.
      rewrite (list_lookup_total_correct _ _ _ Hx), (list_lookup_total_correct _ _ _ Hy).
      apply list_elem_of_lookup_2 in Hx, Hy.
      assert (x ≠ y) by (intros ->; exact (Hdisj y Hx Hy)).
      unfold before, keyOf, keyLt. cbn [fst snd].
      repeat case_bool_decide; lia.
  - apply Forall_forall. intros v [Hv|Hv]%Hmem; [|auto].
    destruct (decide (v ∈ region q)) as [Hin|Hnin]; [auto|].
    destruct (Hoth' v) as (_ & -> & _); [apply Hrange in Hv; lia|done|auto].
  - apply Forall_forall. intros v Hv. rewrite Hsc'.
    + apply Hmem in Hv as [Hv|Hv]; [auto|]. apply Hminq in Hv. lia.
    + apply Hmem in Hv as [Hv|Hv]; [apply Hrange in Hv|apply Hrangeq in Hv]; lia.
Qed.


(** ** The uniform segment *)

Import Utility SearchSpec MergeSpec Inv Ghost.

(** The members of a segment are its live region. *)
Lemma live_uniform p y :
  Seg.uniform p = true → y ∈ View.live p ↔ y ∈ region p ∧ 0 ≤ y.
Proof.
  intros Hu. unfold View.live. rewrite Hu. fold (region p).
  rewrite list_elem_of_filter. tauto.
Qed.

Lemma live_sorted p : Seg.uniform p = false → View.live p = region p.
Proof. intros Hu. unfold View.live. rewrite Hu. reflexivity. Qed.

Lemma uniformOk_frame N lk lk' p :
  uniformOk N lk p →
  (∀ y, y ∈ region p → 0 ≤ y → sameCells lk lk' y) →
  uniformOk N lk' p.
Proof.
  intros [Hlen Hslots] Hsame. split; [done|].
  intros i x Hx H0. destruct (Hslots i x Hx H0) as (HN & Hs & Ho & Hl).
  destruct (Hsame x) as (-> & -> & ->); [eapply list_elem_of_lookup_2; done|done|done].
Qed.

(** No identifier stands at two slots. *)
Lemma uniformOk_slot N lk p i j x :
  uniformOk N lk p → region p !! i = Some x → region p !! j = Some x → 0 ≤ x → i = j.
Proof.
  intros [_ Hslots] Hi Hj H0.
  destruct (Hslots i x Hi H0) as (_ & _ & _ & Hsi).
  destruct (Hslots j x Hj H0) as (_ & _ & _ & Hsj). lia.
Qed.

Lemma region_lookup p i x :
  region p !! i = Some x ↔ Seg.indices p !! i = Some x ∧ Z.of_nat i < Seg.length p.
Proof.
  unfold region. rewrite lookup_take_Some. split; intros [H1 H2]; (split; [done|lia]).
Qed.

(** [remove]: the slot recorded for the identifier becomes a tombstone. *)
Lemma Uniform_remove_ok N lk p x k :
  Z.of_nat (length lk) = 3 * N → uniformOk N lk p → Seg.length p ≤ limit →
  region p !! k = Some x → 0 ≤ x →
  let lk' := TypedArray.put (TypedArray.put lk (x * 3 + 1) (-1)) (x * 3 + 2) (-1) in
  let p' := Seg.with_indices p (<[k := -1]> (Seg.indices p)) in
  UniformPartition.remove lk p x = (lk', p')
  ∧ region p' = <[k := -1]> (region p)
  ∧ uniformOk N lk' p'.
Proof.
  intros Hlk Hok Hlim Hk H0 lk' p'. pose proof Hok as [Hlen Hslots].
  destruct (Hslots k x Hk H0) as (HN & Hs & Ho & Hl).
  apply region_lookup in Hk as [Hki Hkn].
  assert (Hreg : region p' = <[k := -1]> (region p)).
  { unfold region, p'. simpl. apply take_insert_lt. lia. }
  split; [|split; [done|]].
  - unfold UniformPartition.remove. rewrite (get_slot N lk Hlk x) by lia.
    rewrite Hl. fold lk'. f_equal. unfold p'. f_equal. rewrite put_nat. done.
  - destruct (owner_slot_written N lk x (-1) (-1) Hlk ltac:(lia))
      as (Hlen1 & Hsc1 & Hown1 & Hslot1 & Hoth1). fold lk' in Hlen1, Hsc1, Hown1, Hslot1, Hoth1.
    split.
    + unfold p'. simpl. rewrite length_insert. done.
    + intros i y Hy Hy0. rewrite Hreg in Hy.
      destruct (decide (i = k)) as [->|Hne].
      * rewrite list_lookup_insert_eq in Hy; [injection Hy as <-; lia|].
        unfold region. rewrite length_take. apply lookup_lt_Some in Hki. lia.
      * rewrite list_lookup_insert_ne in Hy by done.
        assert (y ≠ x).
        { intros ->. apply Hne. eapply (uniformOk_slot N lk p); try done.
          apply region_lookup. done. }
        destruct (Hslots i y Hy Hy0) as (HyN & Hys & Hyo & Hyl).
        destruct (Hoth1 y Hy0) as (-> & -> & ->); done.
Qed.

(** [insert]: the identifier is appended, the backing array doubled when
    it is full. *)
Lemma Uniform_insert_ok N lk p x :
  Z.of_nat (length lk) = 3 * N → N ≤ limit → uniformOk N lk p →
  Seg.length p ≤ limit → is_int32 (Seg.id p) →
  0 ≤ x < N → scoreAt lk x = Seg.min p → x ∉ region p →
  let lk' := TypedArray.put (TypedArray.put lk (x * 3 + 1) (Seg.id p)) (x * 3 + 2) (Seg.length p) in
  ∃ ind, UniformPartition.insert lk p x
         = Some (lk', Seg.Make (Seg.uniform p) (Seg.id p) ind (Seg.length p + 1) (Seg.min p))
    ∧ take (Z.to_nat (Seg.length p + 1)) ind = region p ++ [x]
    ∧ uniformOk N lk' (Seg.Make (Seg.uniform p) (Seg.id p) ind (Seg.length p + 1) (Seg.min p)).
Proof.
  intros Hlk HN Hok Hlim Hid Hx Hs Hnin lk'. pose proof Hok as [Hlen Hslots].
  assert (Hxi : is_int32 x) by (unfold is_int32, limit in *; lia).
  assert (Hli : is_int32 (Seg.length p)) by (unfold is_int32, limit in *; lia).
  destruct (region_split p ltac:(lia)) as [Hi Hl].
  remember (drop (Z.to_nat (Seg.length p)) (Seg.indices p)) as G eqn:HGdef.
  assert (Hind : ∃ g G',
    (if bool_decide (Z.of_nat (length (Seg.indices p)) = Seg.length p) then
       TypedArray.create (Seg.length p * 2)
       ≫= λ expandedIndices, TypedArray.set expandedIndices (Seg.indices p) 0
     else Some (Seg.indices p)) = Some (region p ++ g :: G')).
  { case_bool_decide as Hfull.
    - rewrite create_ok by fits. cbn [mbind option_bind].
      rewrite set_ok by lens. change (Z.to_nat 0) with 0%nat. rewrite take_0.
      cbn [app]. rewrite drop_replicate.
      assert (Hreg0 : region p = Seg.indices p) by (unfold region; apply take_ge; lia).
      rewrite Hreg0.
      replace (Z.to_nat (Seg.length p * 2) - (0 + length (Seg.indices p)))%nat
        with (S (Z.to_nat (Seg.length p) - 1)) by lia.
      eexists _, _. reflexivity.
    - destruct G as [|g G'].
      + exfalso. apply Hfull. rewrite Hi, app_nil_r. lia.
      + exists g, G'. f_equal. exact Hi. }
  destruct Hind as (g & G' & Hind). exists (region p ++ x :: G').
  assert (Hreg : take (Z.to_nat (Seg.length p + 1)) (region p ++ x :: G') = region p ++ [x]).
  { rewrite (take_app_past _ _ _ 1) by lia. done. }
  split; [|split; [exact Hreg|]].
  - unfold UniformPartition.insert. rewrite Hind. cbn [mbind option_bind].
    fold lk'. unfold Seg.with_length, Seg.with_indices. cbn [Seg.uniform Seg.id Seg.min Seg.indices].
    rewrite put_app_at by (done || lia). reflexivity.
  - destruct (owner_slot_written N lk x (Seg.id p) (Seg.length p) Hlk Hx)
      as (Hlen1 & Hsc1 & Hown1 & Hslot1 & Hoth1). fold lk' in Hlen1, Hsc1, Hown1, Hslot1, Hoth1.
    rewrite toInt32_id in Hown1, Hslot1 by done.
    split.
    + simpl. rewrite length_app. simpl. lia.
    + unfold region at 1. cbn [Seg.indices Seg.length]. rewrite Hreg.
      intros i y Hy Hy0. cbn [Seg.min Seg.id].
      apply lookup_app_Some in Hy as [Hy|[Hge Hy]].
      * assert (y ≠ x) by (intros ->; apply Hnin; eapply list_elem_of_lookup_2; done).
        destruct (Hslots i y Hy Hy0) as (HyN & Hys & Hyo & Hyl).
        destruct (Hoth1 y Hy0) as (-> & -> & ->); done.
      * destruct (i - length (region p))%nat as [|?] eqn:Hd; [|done].
        injection Hy as <-. rewrite Hsc1 by lia. split; [lia|]. split; [done|].
        split; [done|]. lia.
Qed.

(** *** [next] of the uniform segment *)

(** A region ends with tombstones after its last live slot, if it has
    a live slot at all. *)
Lemma last_live_split (R : list Z) :
  Forall (λ y, y < 0) R
  ∨ ∃ L x T, R = L ++ x :: T ∧ 0 ≤ x ∧ Forall (λ y, y < 0) T.
Proof.
  induction R as [|y R IH] using rev_ind; [left; constructor|].
  destruct (decide (0 ≤ y)) as [Hy|Hy].
  - right. exists R, y, []. split; [done|]. split; [done|constructor].
  - destruct IH as [IH|(L & x & T & -> & Hx & HT)].
    + left. apply Forall_app. split; [done|]. repeat constructor. lia.
    + right. exists L, x, (T ++ [y]). rewrite <- app_assoc. split; [done|].
      split; [done|]. apply Forall_app. split; [done|]. repeat constructor. lia.
Qed.

Lemma skipLoop_spec (indices L : list Z) : ∀ T fuel,
  (length T ≤ fuel)%nat → T ≠ [] → Forall (λ y, y < 0) T →
  (∀ y, last L = Some y → 0 ≤ y) →
  take (length L + length T) indices = L ++ T →
  UniformPartition.skipLoop fuel indices (Z.of_nat (length L + length T))
  = Z.of_nat (length L).
Proof.
  induction T as [|t T IH] using rev_ind; intros fuel Hfuel Hne HT HL Hi; [done|].
  rewrite length_app in Hfuel, Hi |- *. simpl in Hfuel, Hi |- *.
  destruct fuel as [|fuel]; [lia|]. cbn [UniformPartition.skipLoop].
  apply Forall_app in HT as [HT _].
  assert (Hpre : take (length L + length T) indices = L ++ T).
  { apply (f_equal (take (length L + length T))) in Hi.
    rewrite take_take, app_assoc, take_app_length' in Hi by (rewrite length_app; lia).
    rewrite <- Hi. f_equal. lia. }
  replace (Z.of_nat (length L + (length T + 1)) - 1) with (Z.of_nat (length L + length T)) by lia.
  destruct (snoc_or_nil T) as [->|(T0 & t0 & ->)].
  - simpl in *. rewrite Nat.add_0_r in *.
    destruct (snoc_or_nil L) as [->|(L0 & l0 & ->)].
    + rewrite bool_decide_eq_false_2 by (simpl; lia). done.
    + rewrite bool_decide_eq_true_2 by (rewrite length_app; simpl; lia).
      rewrite (get_lookup _ _ l0).
      * rewrite bool_decide_eq_false_2; [done|].
        specialize (HL l0 (last_snoc _ _)). lia.
      * rewrite length_app. simpl. lia.
      * rewrite app_nil_r in Hpre.
        assert (Hl0 : take (length (L0 ++ [l0])) indices !! length L0 = Some l0).
        { rewrite Hpre. rewrite lookup_app_r by lia. rewrite Nat.sub_diag. done. }
        apply lookup_take_Some in Hl0 as [Hl0 _].
        rewrite length_app. simpl.
        replace (Z.to_nat (Z.of_nat (length L0 + 1) - 1)) with (length L0) by lia. done.
  - rewrite bool_decide_eq_true_2 by (rewrite length_app; simpl; lia).
    assert (Ht0 : indices !! (length L + length T0)%nat = Some t0).
    { assert (H : take (length L + length (T0 ++ [t0])) indices
                  !! (length L + length T0)%nat = Some t0).
      { rewrite Hpre, app_assoc. rewrite lookup_app_r by (rewrite length_app; lia).
        rewrite length_app, Nat.sub_diag. done. }
      apply lookup_take_Some in H as [H _]. done. }
    rewrite (get_lookup _ _ t0).
    + assert (Ht0neg : t0 < 0).
      { rewrite Forall_forall in HT. apply HT. apply elem_of_app. right. left. }
      rewrite bool_decide_eq_true_2 by done.
      apply IH; try done.
      * lia.
      * destruct T0; done.
    + rewrite length_app. simpl. lia.
    + rewrite length_app. simpl.
      replace (Z.to_nat (Z.of_nat (length L + (length T0 + 1)) - 1))
        with (length L + length T0)%nat by lia. done.
Qed.

Lemma region_length p :
  0 ≤ Seg.length p ≤ Z.of_nat (length (Seg.indices p)) →
  Z.of_nat (length (region p)) = Seg.length p.
Proof. intros H. unfold region. rewrite length_take. lia. Qed.

(** [next] with a live slot: the tombstones after the last live slot
    are dropped from the region, the identifier of that slot is
    returned. *)
Lemma Uniform_next_live p L x T :
  0 ≤ Seg.length p ≤ Z.of_nat (length (Seg.indices p)) →
  region p = L ++ x :: T → 0 ≤ x → Forall (λ y, y < 0) T →
  UniformPartition.next p = (Seg.with_length p (Z.of_nat (length L) + 1), Some x).
Proof.
  intros Hlen Hr Hx HT. pose proof (region_length p Hlen) as Hn.
  rewrite Hr, length_app in Hn. simpl in Hn.
  assert (Hxi : Seg.indices p !! length L = Some x).
  { assert (H : region p !! length L = Some x).
    { rewrite Hr, lookup_app_r by lia. rewrite Nat.sub_diag. done. }
    apply region_lookup in H as [H _]. done. }
  unfold UniformPartition.next. rewrite bool_decide_eq_true_2 by lia.
  assert (Hfinal : ∀ q, q = Seg.with_length p (Z.of_nat (length L) + 1) →
    (if bool_decide (Z.of_nat (length L) + 1 ≠ 0)
     then (q, TypedArray.get (Seg.indices q) (Z.of_nat (length L) + 1 - 1))
     else (Seg.with_indices q [0], None))
    = (Seg.with_length p (Z.of_nat (length L) + 1), Some x)).
  { intros q ->. rewrite bool_decide_eq_true_2 by lia. f_equal.
    apply get_lookup; [lia|]. simpl.
    replace (Z.to_nat (Z.of_nat (length L) + 1 - 1)) with (length L) by lia. done. }
  destruct (snoc_or_nil T) as [->|(T0 & t0 & ->)].
  - simpl in Hn. rewrite (get_lookup _ _ x).
    + rewrite (bool_decide_eq_false_2 (x < 0)) by lia. cbv zeta.
      replace (Seg.length p) with (Z.of_nat (length L) + 1) by lia.
      apply Hfinal. done.
    + lia.
    + replace (Z.to_nat (Seg.length p - 1)) with (length L) by lia. done.
  - assert (Ht0 : t0 < 0).
    { rewrite Forall_forall in HT. apply HT. apply elem_of_app. right. left. }
    rewrite length_app in Hn. simpl in Hn.
    rewrite (get_lookup _ _ t0).
    + rewrite (bool_decide_eq_true_2 (t0 < 0)) by done. cbv zeta.
      assert (Hskip : UniformPartition.skipLoop (S (Z.to_nat (Seg.length p))) (Seg.indices p)
                (Seg.length p) = Z.of_nat (length L) + 1).
      { replace (Seg.length p)
          with (Z.of_nat (length (L ++ [x]) + length (T0 ++ [t0]))) at 2
          by (rewrite !length_app; simpl; lia).
        rewrite (skipLoop_spec (Seg.indices p) (L ++ [x]) (T0 ++ [t0])).
        - rewrite length_app. simpl. lia.
        - rewrite length_app. simpl. lia.
        - destruct T0; done.
        - done.
        - intros y. rewrite last_snoc. intros [= <-]. done.
        - rewrite <- app_assoc. cbn [app]. rewrite <- Hr. unfold region. f_equal.
          rewrite !length_app. simpl. lia. }
      rewrite Hskip. apply Hfinal. done.
    + lia.
    + assert (H : region p !! (length L + S (length T0))%nat = Some t0).
      { rewrite Hr, lookup_app_r by lia.
        replace (length L + S (length T0) - length L)%nat with (S (length T0)) by lia.
        simpl. rewrite lookup_app_r by lia. rewrite Nat.sub_diag. done. }
      apply region_lookup in H as [H _].
      replace (Z.to_nat (Seg.length p - 1)) with (length L + S (length T0))%nat by lia. done.
Qed.

(** [next] without a live slot: the segment gives up its array. *)
Lemma Uniform_next_dead p :
  1 ≤ Seg.length p ≤ Z.of_nat (length (Seg.indices p)) →
  Forall (λ y, y < 0) (region p) →
  UniformPartition.next p
  = (Seg.Make (Seg.uniform p) (Seg.id p) [0] 0 (Seg.min p), None).
Proof.
  intros Hlen HT. pose proof (region_length p ltac:(lia)) as Hn.
  unfold UniformPartition.next. rewrite bool_decide_eq_true_2 by lia.
  destruct (snoc_or_nil (region p)) as [Hnil|(T0 & t0 & Hr)].
  { rewrite Hnil in Hn. simpl in Hn. lia. }
  rewrite Hr, length_app in Hn. simpl in Hn.
  assert (Ht0 : t0 < 0).
  { rewrite Forall_forall in HT. apply HT. rewrite Hr. apply elem_of_app. right. left. }
  rewrite (get_lookup _ _ t0).
  - rewrite (bool_decide_eq_true_2 (t0 < 0)) by done. cbv zeta.
    assert (Hskip : UniformPartition.skipLoop (S (Z.to_nat (Seg.length p))) (Seg.indices p)
              (Seg.length p) = 0).
    { replace (Seg.length p)
        with (Z.of_nat (length (@nil Z) + length (T0 ++ [t0]))) at 2
        by (rewrite !length_app; simpl; lia).
      rewrite (skipLoop_spec (Seg.indices p) [] (T0 ++ [t0])).
      - done.
      - rewrite length_app. simpl. lia.
      - destruct T0; done.
      - rewrite <- Hr. done.
      - done.
      - cbn [app]. rewrite <- Hr. unfold region. f_equal.
        rewrite length_take. simpl. lia. }
    rewrite Hskip. rewrite bool_decide_eq_false_2 by lia. reflexivity.
  - lia.
  - assert (H : region p !! length T0 = Some t0).
    { rewrite Hr, lookup_app_r by lia. rewrite Nat.sub_diag. done. }
    apply region_lookup in H as [H _].
    replace (Z.to_nat (Seg.length p - 1)) with (length T0) by lia. done.
Qed.

(** The live identifiers are the same after [next]. *)
Lemma live_after_next p L x T :
  Seg.uniform p = true →
  0 ≤ Seg.length p ≤ Z.of_nat (length (Seg.indices p)) →
  region p = L ++ x :: T → Forall (λ y, y < 0) T →
  region (Seg.with_length p (Z.of_nat (length L) + 1)) = L ++ [x]
  ∧ View.live (Seg.with_length p (Z.of_nat (length L) + 1)) = View.live p.
Proof.
  intros Hu Hlen Hr HT.
  assert (Hreg : region (Seg.with_length p (Z.of_nat (length L) + 1)) = L ++ [x]).
  { pose proof (region_length p Hlen) as Hn. rewrite Hr, length_app in Hn. simpl in Hn.
    unfold region in *. simpl.
    replace (Z.to_nat (Z.of_nat (length L) + 1))
      with (Z.to_nat (Z.of_nat (length L) + 1) `min` Z.to_nat (Seg.length p))%nat by lia.
    rewrite <- take_take, Hr.
    rewrite (take_app_past _ _ _ 1) by lia. done. }
  split; [done|].
  unfold View.live. cbn [Seg.uniform Seg.with_length]. rewrite Hu.
  fold (region p). fold (region (Seg.with_length p (Z.of_nat (length L) + 1))) in Hreg.
  change (take (Z.to_nat (Seg.length (Seg.with_length p (Z.of_nat (length L) + 1))))
            (Seg.indices (Seg.with_length p (Z.of_nat (length L) + 1))))
    with (region (Seg.with_length p (Z.of_nat (length L) + 1))).
  rewrite Hreg, Hr. rewrite !filter_app. f_equal.
  rewrite (filter_cons _ x T). rewrite (filter_cons _ x []).
  assert (HTnil : filter (λ y, 0 ≤ y) T = []).
  { clear Hr. induction HT as [|t T Ht HT IHT]; [done|].
    rewrite filter_cons. rewrite decide_False by lia. exact IHT. }
  rewrite HTnil. done.
Qed.

(** *** The loops that record owner and slot *)

Lemma liveOnce_tail y T : liveOnce (y :: T) → liveOnce T ∧ (0 ≤ y → y ∉ T).
Proof.
  intros H. split.
  - intros j j' z Hj Hj' Hz. specialize (H (S j) (S j') z Hj Hj' Hz). lia.
  - intros Hy [j Hj]%list_elem_of_lookup_1. specialize (H 0%nat (S j) y eq_refl Hj Hy). lia.
Qed.

Lemma liveOnce_NoDup T : NoDup T → liveOnce T.
Proof. intros Hnd j j' y Hj Hj' _. eapply NoDup_lookup; done. Qed.

Lemma tagLoop_spec N i : ∀ T k lk,
  Z.of_nat (length lk) = 3 * N → is_int32 i →
  0 ≤ k → k + Z.of_nat (length T) ≤ 2 ^ 31 →
  Forall (λ y, y < N) T → liveOnce T →
  tagged lk (tagLoop i T k lk) T i k.
Proof.
  induction T as [|y T IH]; intros k lk Hlk Hi Hk Hkn Hrange Honce.
  - split; done.
  - apply Forall_cons in Hrange as [Hy Hrange].
    apply liveOnce_tail in Honce as [Honce Hnin]. simpl in Hkn.
    cbn [tagLoop].
    set (lk1 := if bool_decide (0 ≤ y)
                then TypedArray.put (TypedArray.put lk (y * 3 + 1) i) (y * 3 + 2) k
                else lk).
    assert (H1 : length lk1 = length lk
                 ∧ (∀ z, 0 ≤ z → scoreAt lk1 z = scoreAt lk z)
                 ∧ (0 ≤ y → ownerAt lk1 y = i ∧ slotAt lk1 y = k)
                 ∧ (∀ z, 0 ≤ z → z ≠ y → sameCells lk lk1 z)).
    { unfold lk1. case_bool_decide as Hy0.
      - destruct (owner_slot_written N lk y i k Hlk ltac:(lia)) as (H1 & H2 & H3 & H4 & H5).
        rewrite toInt32_id in H3 by done.
        rewrite toInt32_id in H4 by (unfold is_int32; lia). done.
      - split; [done|]. split; [done|]. split; [lia|]. done. }
    destruct H1 as (Hlen1 & Hsc1 & Hy1 & Hoth1).
    destruct (IH (k + 1) lk1) as [Hl' Hsc' Hslot' Hoth']; try done; try lia.
    split.
    + congruence.
    + intros z Hz. rewrite Hsc' by done. auto.
    + intros j z Hj Hz. destruct j as [|j]; simpl in Hj.
      * injection Hj as ->.
        destruct (Hoth' z Hz (Hnin Hz)) as (_ & -> & ->). replace (k + Z.of_nat 0) with k by lia.
        auto.
      * destruct (Hslot' j z Hj Hz) as [-> ->]. split; [done|lia].
    + intros z Hz Hnz. apply not_elem_of_cons in Hnz as [Hne Hnz].
      eapply sameCells_trans; [apply Hoth1|apply Hoth']; done.
Qed.

Lemma uniform_constructLoop i indices : ∀ n k T lk,
  T = take n (drop k indices) → length T = n → Forall (λ y, 0 ≤ y) T →
  UniformPartition.constructLoop n i indices lk (Z.of_nat k)
  = Some (tagLoop i T (Z.of_nat k) lk).
Proof.
  induction n as [|n IH]; intros k T lk HT Hlen Hpos.
  - destruct T; [|done]. reflexivity.
  - destruct T as [|y T]; [done|].
    assert (Hy : indices !! k = Some y ∧ T = take n (drop (S k) indices)).
    { destruct (drop k indices) as [|y' rest] eqn:Hd; [done|].
      apply drop_lookup_cons in Hd as [Hy' Hrest]. simpl in HT.
      injection HT as -> ->. rewrite Hrest. done. }
    destruct Hy as [Hy HT']. apply Forall_cons in Hpos as [Hy0 Hpos].
    cbn [UniformPartition.constructLoop tagLoop].
    rewrite (get_lookup indices (Z.of_nat k) y) by (rewrite ?Nat2Z.id; done || lia).
    cbn [mbind option_bind]. rewrite bool_decide_eq_true_2 by done.
    replace (Z.of_nat k + 1) with (Z.of_nat (S k)) by lia.
    apply IH; [done|simpl in Hlen; lia|done].
Qed.

Lemma uniform_adoptLoop i indices : ∀ n k T lk,
  T = take n (drop k indices) → length T = n →
  UniformPartition.adoptLoop n i indices lk (Z.of_nat k) = tagLoop i T (Z.of_nat k) lk.
Proof.
  induction n as [|n IH]; intros k T lk HT Hlen.
  - destruct T; [|done]. reflexivity.
  - destruct T as [|y T]; [done|].
    assert (Hy : indices !! k = Some y ∧ T = take n (drop (S k) indices)).
    { destruct (drop k indices) as [|y' rest] eqn:Hd; [done|].
      apply drop_lookup_cons in Hd as [Hy' Hrest]. simpl in HT.
      injection HT as -> ->. rewrite Hrest. done. }
    destruct Hy as [Hy HT'].
    cbn [UniformPartition.adoptLoop tagLoop].
    rewrite (get_lookup indices (Z.of_nat k) y) by (rewrite ?Nat2Z.id; done || lia).
    replace (Z.of_nat k + 1) with (Z.of_nat (S k)) by lia.
    apply IH; [done|simpl in Hlen; lia].
Qed.

(** [new UniformPartition] over a whole array of distinct identifiers
    of one score. *)
Lemma Uniform_new_ok N lk i indices s :
  Z.of_nat (length lk) = 3 * N → is_int32 i →
  indices ≠ [] → Z.of_nat (length indices) ≤ limit →
  Forall (λ y, 0 ≤ y < N) indices → NoDup indices →
  Forall (λ y, scoreAt lk y = s) indices →
  let lk' := tagLoop i indices 0 lk in
  let p := Seg.Make true i indices (Z.of_nat (length indices)) s in
  UniformPartition.new i lk indices (Z.of_nat (length indices)) = Some (lk', p)
  ∧ tagged lk lk' indices i 0
  ∧ uniformOk N lk' p.
Proof.
  intros Hlk Hi Hne Hlim Hrange Hnd Hs lk' p.
  assert (Htag : tagged lk lk' indices i 0).
  { apply (tagLoop_spec N); try done.
    - unfold limit in Hlim. lia.
    - eapply Forall_impl; [exact Hrange|]. simpl. intros y Hy. lia.
    - apply liveOnce_NoDup, Hnd. }
  split; [|split; [done|]].
  - unfold UniformPartition.new.
    destruct (indices !! 0%nat) as [x|] eqn:Hx;
      [|apply lookup_ge_None in Hx; destruct indices; [done|simpl in Hx; lia]].
    rewrite (get_lookup _ 0 x) by done. cbn [mbind option_bind].
    rewrite Forall_forall in Hrange, Hs.
    assert (Hxin : x ∈ indices) by (eapply list_elem_of_lookup_2; done).
    rewrite (get_score N lk Hlk x) by auto. cbn [mbind option_bind].
    rewrite Nat2Z.id.
    pose proof (uniform_constructLoop i indices (length indices) 0 indices lk) as Hrun.
    change (Z.of_nat 0) with 0 in Hrun. rewrite Hrun.
    + cbn [mbind option_bind]. fold lk'. rewrite (Hs x Hxin). reflexivity.
    + rewrite drop_0, firstn_all. done.
    + done.
    + apply Forall_forall. intros y Hy. apply Hrange in Hy. lia.
  - destruct Htag as [Hl' Hsc' Hslot' Hoth']. split.
    + simpl. destruct indices; [done|]. simpl. lia.
    + unfold region. simpl. rewrite Nat2Z.id, firstn_all.
      intros j y Hy Hy0. destruct (Hslot' j y Hy Hy0) as [-> ->].
      rewrite Hsc' by done. rewrite Forall_forall in Hrange, Hs.
      apply list_elem_of_lookup_2 in Hy. split; [apply Hrange in Hy; lia|].
      split; [auto|]. split; [done|lia].
Qed.

(** [join]: the region of the other segment is appended. *)
Lemma Uniform_join_ok N lk p q :
  Z.of_nat (length lk) = 3 * N → is_int32 (Seg.id p) → uniformOk N lk p →
  0 ≤ Seg.length q ≤ Z.of_nat (length (Seg.indices q)) →
  Seg.length p + Seg.length q ≤ limit →
  Forall (λ y, y < N) (region q) → liveOnce (region q) →
  (∀ y, y ∈ region q → 0 ≤ y → scoreAt lk y = Seg.min p ∧ y ∉ region p) →
  let lk' := tagLoop (Seg.id p) (region q) (Seg.length p) lk in
  ∃ ind,
    let p' := Seg.Make (Seg.uniform p) (Seg.id p) ind (Seg.length p + Seg.length q) (Seg.min p) in
    UniformPartition.join lk p q = Some (lk', p')
    ∧ region p' = region p ++ region q
    ∧ tagged lk lk' (region q) (Seg.id p) (Seg.length p)
    ∧ uniformOk N lk' p'.
Proof.
  intros Hlk Hi Hok Hlenq Hlim Hrange Honce Hq lk'. pose proof Hok as [Hlen Hslots].
  pose proof (region_length p ltac:(lia)) as Hnp.
  pose proof (region_length q ltac:(lia)) as Hnq.
  assert (Htag : tagged lk lk' (region q) (Seg.id p) (Seg.length p)).
  { apply (tagLoop_spec N); try done; unfold limit in Hlim; lia. }
  assert (Hind : ∃ G1,
    (if bool_decide (Seg.length p + Seg.length q > Z.of_nat (length (Seg.indices p))) then
       TypedArray.create (Seg.length p + Seg.length q)
       ≫= λ expandedIndices, TypedArray.set expandedIndices (Seg.indices p) 0
     else Some (Seg.indices p)) = Some (region p ++ G1)
    ∧ Seg.length q ≤ Z.of_nat (length G1)).
  { destruct (region_split p ltac:(lia)) as [Hsplit _].
    remember (drop (Z.to_nat (Seg.length p)) (Seg.indices p)) as G eqn:HG.
    assert (HlenG : Z.of_nat (length (Seg.indices p))
                    = Z.of_nat (length (region p)) + Z.of_nat (length G)).
    { rewrite Hsplit at 1. rewrite length_app. lia. }
    case_bool_decide as Hbig.
    - rewrite create_ok by fits. cbn [mbind option_bind].
      rewrite set_ok by lens. change (Z.to_nat 0) with 0%nat. rewrite take_0.
      cbn [app]. rewrite drop_replicate.
      eexists (G ++ _). rewrite app_assoc. split; [rewrite <- Hsplit; reflexivity|].
      rewrite length_app, length_replicate. lia.
    - exists G. split; [f_equal; exact Hsplit|]. lia. }
  destruct Hind as (G1 & Hind & HG1).
  exists (region p ++ region q ++ drop (length (region q)) G1). cbv zeta.
  assert (Hreg : region (Seg.Make (Seg.uniform p) (Seg.id p)
                     (region p ++ region q ++ drop (length (region q)) G1)
                     (Seg.length p + Seg.length q) (Seg.min p))
                 = region p ++ region q).
  { unfold region at 1. simpl. rewrite app_assoc. apply take_app_at.
    rewrite length_app. lia. }
  split; [|split; [done|split; [done|]]].
  - unfold UniformPartition.join. rewrite Hind. cbn [mbind option_bind].
    rewrite subarray_region by lia. fold (region q).
    rewrite set_ok by lens. cbn [mbind option_bind].
    rewrite (take_app_at (region p)) by lia.
    rewrite (drop_app_past (region p) _ _ (length (region q))) by lia.
    pose proof (uniform_adoptLoop (Seg.id p)
                  (region p ++ region q ++ drop (length (region q)) G1)
                  (Z.to_nat (Seg.length q)) (Z.to_nat (Seg.length p)) (region q) lk) as Hrun.
    rewrite Z2Nat.id in Hrun by lia. rewrite Hrun.
    + reflexivity.
    + rewrite (drop_app_at (region p)) by lia. rewrite take_app_at by lia. done.
    + lia.
  - destruct Htag as [Hl' Hsc' Hslot' Hoth']. split.
    + simpl. rewrite !length_app, length_drop. lia.
    + rewrite Hreg. intros j y Hy Hy0. cbn [Seg.min Seg.id].
      apply lookup_app_Some in Hy as [Hy|[Hge Hy]].
      * assert (Hnin : y ∉ region q).
        { intros Hin. destruct (Hq y Hin Hy0) as [_ Hn]. apply Hn.
          eapply list_elem_of_lookup_2. done. }
        destruct (Hslots j y Hy Hy0) as (HyN & Hys & Hyo & Hyl).
        destruct (Hoth' y Hy0 Hnin) as (-> & -> & ->). done.
      * destruct (Hslot' _ y Hy Hy0) as [-> ->]. rewrite Hsc' by done.
        assert (Hin : y ∈ region q) by (eapply list_elem_of_lookup_2; done).
        rewrite Forall_forall in Hrange. split; [auto|].
        split; [apply Hq; done|]. split; [done|lia].
Qed.


(** ** The invariant of the heap *)

Import Utility SearchSpec MergeSpec Inv Ghost.

(** *** Segments of either class *)

Lemma segOk_member N PL lk p y :
  segOk N PL lk p → y ∈ View.live p →
  0 ≤ y < N ∧ ownerAt lk y = Seg.id p ∧ Seg.min p ≤ scoreAt lk y ∧ y ∈ region p.
Proof.
  unfold segOk. destruct (Seg.uniform p) eqn:Hu; intros Hok Hy.
  - apply live_uniform in Hy as [Hy H0]; [|done].
    pose proof Hy as [i Hi]%list_elem_of_lookup_1.
    destruct Hok as [_ Hslots]. destruct (Hslots i y Hi H0) as (? & ? & ? & ?).
    repeat split; try done; lia.
  - rewrite live_sorted in Hy by done.
    destruct Hok as [_ _ Hrange _ Hown Hmin]. rewrite Forall_forall in *.
    specialize (Hmin y Hy). specialize (Hrange y Hy). specialize (Hown y Hy).
    repeat split; (done || lia).
Qed.

Lemma live_region p y : y ∈ View.live p → y ∈ region p.
Proof.
  unfold View.live. fold (region p). destruct (Seg.uniform p); [|done].
  rewrite list_elem_of_filter. tauto.
Qed.

Lemma segOk_frame N PL lk lk' p :
  segOk N PL lk p → (∀ y, y ∈ View.live p → sameCells lk lk' y) → segOk N PL lk' p.
Proof.
  unfold segOk. destruct (Seg.uniform p) eqn:Hu; intros Hok Hsame.
  - eapply uniformOk_frame; [done|]. intros y Hy H0. apply Hsame, live_uniform; done.
  - eapply sortedOk_frame; [done|]. intros y Hy.
    destruct (Hsame y) as (? & ? & ?); [rewrite live_sorted; done|done].
Qed.

Lemma segOk_length N PL lk p : segOk N PL lk p → 1 ≤ Seg.length p.
Proof.
  unfold segOk. destruct (Seg.uniform p); intros Hok.
  - destruct Hok as [? _]. lia.
  - destruct Hok as [_ ? _ _ _ _]. lia.
Qed.

Lemma below_frame lk lk' p b :
  (∀ y, y ∈ View.live p → scoreAt lk' y = scoreAt lk y) → below lk p b → below lk' p b.
Proof.
  unfold below. destruct (Seg.uniform p) eqn:Hu; [done|]. intros Hsame Hb.
  rewrite Forall_forall in *. intros y Hy. rewrite Hsame; [auto|].
  rewrite live_sorted; done.
Qed.

Lemma below_mono lk p b b' : below lk p b → b ≤ b' → below lk p b'.
Proof.
  unfold below. destruct (Seg.uniform p); [lia|]. intros Hb Hle.
  eapply Forall_impl; [exact Hb|]. simpl. intros y Hy. lia.
Qed.

(** A bound on a segment is a bound on its [min]. *)
Lemma below_min N PL lk p b : segOk N PL lk p → below lk p b → Seg.min p ≤ b.
Proof.
  unfold segOk, below. destruct (Seg.uniform p); [done|]. intros Hok Hb.
  destruct Hok as [Hcap Hlen _ _ _ Hmin].
  destruct (region p) as [|y R] eqn:HR.
  - apply (f_equal length) in HR. unfold region in HR. rewrite length_take in HR.
    simpl in HR. lia.
  - apply Forall_cons in Hmin as [Hmin _]. apply Forall_cons in Hb as [Hb _]. lia.
Qed.

Lemma below_member N PL lk p b y :
  segOk N PL lk p → below lk p b → y ∈ View.live p → scoreAt lk y ≤ b.
Proof.
  unfold segOk, below. destruct (Seg.uniform p) eqn:Hu; intros Hok Hb Hy.
  - apply live_uniform in Hy as [Hy H0]; [|done].
    pose proof Hy as [i Hi]%list_elem_of_lookup_1.
    destruct Hok as [_ Hslots]. destruct (Hslots i y Hi H0) as (? & ? & ? & ?). lia.
  - rewrite live_sorted in Hy by done. rewrite Forall_forall in Hb. auto.
Qed.

(** *** The order of the segments *)

Lemma ordered_cons lk p ps :
  ordered lk (p :: ps)
  ↔ (∀ q, head ps = Some q → below lk p (Seg.min q)) ∧ ordered lk ps.
Proof.
  cbn [ordered]. destruct ps as [|q ps]; cbn [head].
  - split; [intros [_ H]; split; [done|exact H]|intros [_ H]; done].
  - split; intros [H1 H2]; (split; [|exact H2]).
    + intros q' [= <-]. exact H1.
    + apply H1. done.
Qed.

Lemma ordered_app lk a b :
  ordered lk (a ++ b)
  ↔ ordered lk a ∧ ordered lk b
    ∧ (∀ p q, last a = Some p → head b = Some q → below lk p (Seg.min q)).
Proof.
  induction a as [|p a IH].
  - cbn [app]. split; [intros H; split; [done|split; [done|done]]|intros (_ & H & _); done].
  - rewrite <- app_comm_cons, !ordered_cons, IH. split.
    + intros (Hp & Ha & Hb & Hab). split; [split; [|done]|split; [done|]].
      * intros q Hq. apply Hp. destruct a; [done|]. exact Hq.
      * intros p' q Hl Hq. destruct a as [|p0 a].
        -- cbn in Hl. injection Hl as <-. apply Hp. exact Hq.
        -- apply Hab; [|done]. exact Hl.
    + intros ((Hp & Ha) & Hb & Hab). split; [|split; [done|split; [done|]]].
      * intros q Hq. destruct a as [|p0 a].
        -- apply (Hab p q); done.
        -- apply Hp. exact Hq.
      * intros p' q Hl Hq. apply Hab; [|done]. destruct a; [done|]. exact Hl.
Qed.

Lemma ordered_frame lk lk' ps :
  (∀ p y, p ∈ ps → y ∈ View.live p → scoreAt lk' y = scoreAt lk y) →
  ordered lk ps → ordered lk' ps.
Proof.
  induction ps as [|p ps IH]; [done|]. intros Hsame. rewrite !ordered_cons.
  intros [Hp Hps]. split.
  - intros q Hq. eapply below_frame; [|apply Hp, Hq].
    intros y Hy. apply (Hsame p); [left|done].
  - apply IH; [|done]. intros q y Hq. apply Hsame. right. done.
Qed.

Lemma ordered_singleton lk p : ordered lk [p].
Proof. done. Qed.

(** *** The sum of the lengths *)

Lemma mass_app a b : mass (a ++ b) = mass a + mass b.
Proof. unfold mass. induction a as [|p a IH]; simpl; [done|]. fold (mass (a ++ b)) in *. lia. Qed.

Lemma mass_cons p a : mass (p :: a) = Seg.length p + mass a.
Proof. reflexivity. Qed.

Lemma mass_nonneg N PL lk ps :
  Forall (λ p, segOk N PL lk p) ps → 0 ≤ mass ps.
Proof.
  induction 1 as [|p ps Hp _ IH]; [done|]. rewrite mass_cons.
  apply segOk_length in Hp. lia.
Qed.

(** *** Segment ids *)

Lemma idsOk_inj ids ps k k' p q :
  idsOk ids ps → ps !! k = Some p → ps !! k' = Some q → Seg.id p = Seg.id q → k = k'.
Proof.
  intros Hids Hp Hq Heq. pose proof (Hids k p Hp) as H1. pose proof (Hids k' q Hq) as H2.
  rewrite Heq in H1. rewrite H1 in H2. injection H2. lia.
Qed.

Lemma idsOk_NoDup ids ps : idsOk ids ps → NoDup (Seg.id <$> ps).
Proof.
  intros Hids. apply NoDup_alt. intros i j x Hi Hj.
  rewrite list_lookup_fmap in Hi, Hj.
  destruct (ps !! i) as [p|] eqn:Hp; [|done]. destruct (ps !! j) as [q|] eqn:Hq; [|done].
  simpl in Hi, Hj. injection Hi as Hi. injection Hj as Hj.
  eapply idsOk_inj; [done..|congruence].
Qed.

(** [reindex]: the ids of the positions from [i] on are recorded. *)
Lemma reindexLoop_spec ps : ∀ rest pre ids,
  ps = pre ++ rest → NoDup (Seg.id <$> ps) →
  (∀ k p, pre !! k = Some p → ids !! Seg.id p = Some (Z.of_nat k)) →
  idsOk (ScoreHeap.reindexLoop rest (Z.of_nat (length pre)) ids) ps.
Proof.
  induction rest as [|r rest IH]; intros pre ids Hps Hnd Hpre.
  - rewrite app_nil_r in Hps. subst pre. exact Hpre.
  - cbn [ScoreHeap.reindexLoop].
    replace (Z.of_nat (length pre) + 1) with (Z.of_nat (length (pre ++ [r])))
      by (rewrite length_app; simpl; lia).
    apply IH; [rewrite <- app_assoc; done|done|].
    intros k p Hk. apply lookup_app_Some in Hk as [Hk|[Hge Hk]].
    + rewrite lookup_insert_ne; [auto|].
      intros Heq. rewrite Hps in Hnd.
      assert (H1 : (Seg.id <$> pre ++ r :: rest) !! k = Some (Seg.id p)).
      { rewrite list_lookup_fmap, lookup_app_l by (eapply lookup_lt_Some; done).
        rewrite Hk. done. }
      assert (H2 : (Seg.id <$> pre ++ r :: rest) !! length pre = Some (Seg.id p)).
      { rewrite list_lookup_fmap, lookup_app_r by lia. rewrite Nat.sub_diag. simpl.
        congruence. }
      pose proof (NoDup_lookup _ _ _ _ Hnd H1 H2). apply lookup_lt_Some in Hk. lia.
    + destruct (k - length pre)%nat as [|?] eqn:Hd; [|done]. injection Hk as <-.
      rewrite lookup_insert_eq. f_equal. lia.
Qed.

Lemma reindex_ok h i ps :
  ScoreHeap.partitions h = ps → 0 ≤ i →
  NoDup (Seg.id <$> ps) →
  (∀ k p, Z.of_nat k < i → ps !! k = Some p →
     ScoreHeap.partitionIds h !! Seg.id p = Some (Z.of_nat k)) →
  ∃ ids, ScoreHeap.reindex h i = Some (ScoreHeap.with_partitionIds h ids) ∧ idsOk ids ps.
Proof.
  intros Hps Hi Hnd Hpre. unfold ScoreHeap.reindex. rewrite bool_decide_eq_true_2 by done.
  eexists. split; [reflexivity|]. rewrite Hps.
  destruct (decide (Z.to_nat i ≤ length ps)%nat) as [Hle|Hgt].
  - replace i with (Z.of_nat (length (take (Z.to_nat i) ps))) at 2
      by (rewrite length_take; lia).
    apply reindexLoop_spec; [by rewrite take_drop|done|].
    intros k p Hk. apply lookup_take_Some in Hk as [Hk Hlt]. apply Hpre; [lia|done].
  - rewrite drop_ge by lia. cbn [ScoreHeap.reindexLoop].
    intros k p Hk. apply Hpre; [|done]. apply lookup_lt_Some in Hk. lia.
Qed.

(** *** Ownership *)

Lemma heap_segOk N h k p :
  heapOk N h → ScoreHeap.partitions h !! k = Some p →
  segOk N (ScoreHeap.partitionLength h) (ScoreHeap.lookups h) p
  ∧ 0 ≤ Seg.id p < ScoreHeap.nextId h.
Proof.
  intros Hok Hp. destruct Hok as [_ _ _ _ _ Hsegs _ _ _].
  rewrite Forall_lookup in Hsegs. exact (Hsegs k p Hp).
Qed.

(** No identifier is a member of two segments. *)
Lemma heap_disjoint N h k k' p q y :
  heapOk N h →
  ScoreHeap.partitions h !! k = Some p → ScoreHeap.partitions h !! k' = Some q →
  y ∈ View.live p → y ∈ View.live q → k = k'.
Proof.
  intros Hok Hp Hq Hyp Hyq.
  destruct (heap_segOk N h k p Hok Hp) as [Hsp _].
  destruct (heap_segOk N h k' q Hok Hq) as [Hsq _].
  destruct (segOk_member _ _ _ _ _ Hsp Hyp) as (_ & Ho1 & _).
  destruct (segOk_member _ _ _ _ _ Hsq Hyq) as (_ & Ho2 & _).
  eapply idsOk_inj; [apply Hok|done|done|congruence].
Qed.

Lemma absent_no_member N h p y :
  heapOk N h → p ∈ ScoreHeap.partitions h →
  ownerAt (ScoreHeap.lookups h) y < 0 → y ∉ View.live p.
Proof.
  intros Hok [k Hp]%list_elem_of_lookup_1 Hneg Hy.
  destruct (heap_segOk N h k p Hok Hp) as [Hsp Hid].
  destruct (segOk_member _ _ _ _ _ Hsp Hy) as (_ & Ho & _). lia.
Qed.

Lemma outside_middle N h l1 mid l2 p q y :
  heapOk N h → ScoreHeap.partitions h = l1 ++ mid ++ l2 →
  p ∈ l1 ++ l2 → q ∈ mid → y ∈ View.live p → y ∉ View.live q.
Proof.
  intros Hok Hps Hp [j Hq]%list_elem_of_lookup_1 Hyp Hyq.
  assert (Hq' : ScoreHeap.partitions h !! (length l1 + j)%nat = Some q).
  { rewrite Hps, lookup_app_r by lia.
    replace (length l1 + j - length l1)%nat with j by lia.
    apply lookup_app_l_Some. done. }
  pose proof (lookup_lt_Some _ _ _ Hq) as Hj.
  apply elem_of_app in Hp as [[k Hp]%list_elem_of_lookup_1|[k Hp]%list_elem_of_lookup_1].
  - assert (Hp' : ScoreHeap.partitions h !! k = Some p).
    { rewrite Hps. apply lookup_app_l_Some. done. }
    pose proof (lookup_lt_Some _ _ _ Hp).
    pose proof (heap_disjoint N h _ _ _ _ y Hok Hp' Hq' Hyp Hyq). lia.
  - assert (Hp' : ScoreHeap.partitions h !! (length l1 + (length mid + k))%nat = Some p).
    { rewrite Hps, lookup_app_r by lia.
      replace (length l1 + (length mid + k) - length l1)%nat with (length mid + k)%nat by lia.
      rewrite lookup_app_r by lia.
      replace (length mid + k - length mid)%nat with k by lia. done. }
    pose proof (heap_disjoint N h _ _ _ _ y Hok Hp' Hq' Hyp Hyq). lia.
Qed.

Lemma outer_in {X} (l1 mid l2 : list X) p : p ∈ l1 ++ l2 → p ∈ l1 ++ mid ++ l2.
Proof. rewrite !elem_of_app. tauto. Qed.

Lemma middle_in {X} (l1 mid l2 : list X) p : p ∈ mid → p ∈ l1 ++ mid ++ l2.
Proof. rewrite !elem_of_app. tauto. Qed.

(** *** A change of some consecutive segments

    The segments [mid] are replaced by [mid'], the cells of the
    identifiers [X] may change: identifiers that were absent, or
    members of [mid]. What is left to show concerns the new segments
    and the identifiers of [X] only. *)
Lemma heapOk_surgery N h l1 mid l2 lk' mid' ids' nextId' (X : list Z) :
  heapOk N h →
  ScoreHeap.partitions h = l1 ++ mid ++ l2 →
  length lk' = length (ScoreHeap.lookups h) →
  (∀ y, 0 ≤ y → y ∉ X → sameCells (ScoreHeap.lookups h) lk' y) →
  (∀ y, y ∈ X → ownerAt (ScoreHeap.lookups h) y < 0 ∨ ∃ p, p ∈ mid ∧ y ∈ View.live p) →
  (∀ p y, p ∈ mid → y ∈ View.live p → y ∈ X) →
  Forall (λ p, segOk N (ScoreHeap.partitionLength h) lk' p ∧ 0 ≤ Seg.id p < nextId') mid' →
  ScoreHeap.nextId h ≤ nextId' ≤ limit →
  idsOk ids' (l1 ++ mid' ++ l2) →
  mass mid' ≤ mass mid + (limit - mass (ScoreHeap.partitions h)) →
  (∀ y, y ∈ X → 0 ≤ y < N → 0 ≤ ownerAt lk' y →
     ∃ p, p ∈ mid' ∧ Seg.id p = ownerAt lk' y ∧ y ∈ View.live p) →
  ordered lk' mid' →
  (∀ p q, last l1 = Some p → head (mid' ++ l2) = Some q →
     below (ScoreHeap.lookups h) p (Seg.min q)) →
  (∀ p q, last mid' = Some p → head l2 = Some q → below lk' p (Seg.min q)) →
  heapOk N (ScoreHeap.Make lk' (l1 ++ mid' ++ l2) ids' nextId' (ScoreHeap.partitionLength h)).
Proof.
  intros Hok Hps Hlen Hsame HX HXmid Hmid' Hnext Hids Hmass Hown Hord Hb1 Hb2.
  pose proof Hok as [Hlk HN HPL Hnid Hm Hsegs _ Howned Hordered].
  assert (Hout : ∀ p y, p ∈ l1 ++ l2 → y ∈ View.live p → y ∉ X).
  { intros p y Hp Hy Hin. destruct (HX y Hin) as [Hneg|(q & Hq & Hyq)].
    - eapply (absent_no_member N h p y); try done.
      rewrite Hps. apply outer_in, Hp.
    - eapply (outside_middle N h l1 mid l2 p q y); done. }
  assert (Hframe : ∀ p y, p ∈ l1 ++ l2 → y ∈ View.live p →
            sameCells (ScoreHeap.lookups h) lk' y).
  { intros p y Hp Hy. apply Hsame; [|eapply Hout; done].
    assert (Hpin : p ∈ ScoreHeap.partitions h).
    { rewrite Hps. apply outer_in, Hp. }
    apply list_elem_of_lookup_1 in Hpin as [k Hk].
    destruct (heap_segOk N h k p Hok Hk) as [Hsp _].
    destruct (segOk_member _ _ _ _ _ Hsp Hy) as (? & _). lia. }
  rewrite Hps in Hsegs, Hordered, Hm.
  rewrite !Forall_app in Hsegs. destruct Hsegs as (Hs1 & _ & Hs2).
  rewrite !ordered_app in Hordered. destruct Hordered as (Ho1 & (_ & Ho2 & _) & _).
  rewrite !mass_app in Hm.
  split; cbn [ScoreHeap.lookups ScoreHeap.partitions ScoreHeap.partitionIds
              ScoreHeap.nextId ScoreHeap.partitionLength].
  - lia.
  - done.
  - done.
  - lia.
  - rewrite Hps, !mass_app in Hmass. rewrite !mass_app. lia.
  - rewrite !Forall_app. split; [|split; [done|]].
    + rewrite Forall_forall in Hs1 |- *. intros p Hp. destruct (Hs1 p Hp) as [Hsp Hid].
      split; [|lia]. eapply segOk_frame; [done|]. intros y Hy.
      apply (Hframe p); [apply elem_of_app; auto|done].
    + rewrite Forall_forall in Hs2 |- *. intros p Hp. destruct (Hs2 p Hp) as [Hsp Hid].
      split; [|lia]. eapply segOk_frame; [done|]. intros y Hy.
      apply (Hframe p); [apply elem_of_app; auto|done].
  - done.
  - intros y Hy Ho. destruct (decide (y ∈ X)) as [Hin|Hnin].
    + destruct (Hown y Hin Hy Ho) as (p & Hp & Hid & Hyp).
      exists p. split; [apply middle_in, Hp|done].
    + destruct (Hsame y ltac:(lia) Hnin) as (_ & Heq & _). rewrite Heq in Ho |- *.
      destruct (Howned y Hy Ho) as (p & Hp & Hid & Hyp). exists p. split; [|done].
      rewrite Hps in Hp. rewrite !elem_of_app in Hp |- *.
      destruct Hp as [Hp|[Hp|Hp]]; [tauto| |tauto].
      exfalso. apply Hnin. eapply HXmid; done.
  - rewrite !ordered_app. split; [|split; [split; [done|split]|]].
    + eapply ordered_frame; [|done]. intros p y Hp Hy.
      apply (Hframe p); [apply elem_of_app; auto|done].
    + eapply ordered_frame; [|done]. intros p y Hp Hy.
      apply (Hframe p); [apply elem_of_app; auto|done].
    + done.
    + intros p q Hp Hq. eapply below_frame; [|apply Hb1; done].
      intros y Hy. apply (Hframe p); [|done]. apply elem_of_app. left.
      apply last_Some in Hp as [l' ->]. apply elem_of_app. right. left.
Qed.

(** *** Positions of [partitions] *)

Lemma jsget_middle {A} (l1 : list A) p l2 i :
  i = Z.of_nat (length l1) → JsArray.get (l1 ++ p :: l2) i = Some p.
Proof.
  intros ->. rewrite jsget_nat, lookup_app_r by lia. rewrite Nat.sub_diag. done.
Qed.

Lemma jsput_middle {A} (l1 : list A) p l2 i p' :
  i = Z.of_nat (length l1) → JsArray.put (l1 ++ p :: l2) i p' = l1 ++ p' :: l2.
Proof.
  intros ->. unfold JsArray.put. rewrite bool_decide_eq_true_2 by lia.
  rewrite Nat2Z.id, insert_app_r_alt by lia. rewrite Nat.sub_diag. done.
Qed.

Lemma splice_middle {A} (l1 mid l2 items : list A) i d :
  i = Z.of_nat (length l1) → d = Z.of_nat (length mid) →
  JsArray.splice (l1 ++ mid ++ l2) i d items = l1 ++ items ++ l2.
Proof.
  intros -> ->. unfold JsArray.splice, JsArray.rel.
  rewrite bool_decide_eq_false_2 by lia.
  rewrite !length_app.
  rewrite (Z.min_l (Z.of_nat (length l1))) by lia.
  rewrite Z.max_l by lia. rewrite Z.min_l by lia.
  rewrite take_app_at by lia.
  rewrite (drop_app_past l1 _ _ (length mid)) by lia.
  rewrite drop_app_at by lia. done.
Qed.

Lemma splice_delete {A} (l1 : list A) p l2 i :
  i = Z.of_nat (length l1) → JsArray.splice (l1 ++ p :: l2) i 1 [] = l1 ++ l2.
Proof. intros Hi. apply (splice_middle l1 [p] l2 [] i 1); done. Qed.

Lemma splice_insert {A} (l1 l2 : list A) q i :
  i = Z.of_nat (length l1) → JsArray.splice (l1 ++ l2) i 0 [q] = l1 ++ q :: l2.
Proof. intros Hi. apply (splice_middle l1 [] l2 [q] i 0); done. Qed.

Lemma splice_two {A} (l1 : list A) p q l2 u i :
  i = Z.of_nat (length l1) → JsArray.splice (l1 ++ p :: q :: l2) i 2 [u] = l1 ++ u :: l2.
Proof. intros Hi. apply (splice_middle l1 [p; q] l2 [u] i 2); done. Qed.

(** The neighbours of a segment. *)
Lemma ordered_around lk l1 p l2 :
  ordered lk (l1 ++ p :: l2) →
  (∀ q, last l1 = Some q → below lk q (Seg.min p))
  ∧ (∀ r, head l2 = Some r → below lk p (Seg.min r)).
Proof.
  rewrite ordered_app, ordered_cons. intros (_ & (Hp & _) & Hl). split; [|done].
  intros q Hq. apply Hl; done.
Qed.

(** The segment that owns a present identifier. *)
Lemma locate N h x :
  heapOk N h → 0 ≤ x < N → 0 ≤ ownerAt (ScoreHeap.lookups h) x →
  ∃ l1 p l2, ScoreHeap.partitions h = l1 ++ p :: l2
    ∧ Seg.id p = ownerAt (ScoreHeap.lookups h) x
    ∧ x ∈ View.live p
    ∧ ScoreHeap.partitionIds h !! ownerAt (ScoreHeap.lookups h) x
      = Some (Z.of_nat (length l1)).
Proof.
  intros Hok Hx Ho. pose proof Hok as [_ _ _ _ _ _ Hids Howned _].
  destruct (Howned x Hx Ho) as (p & Hp & Hid & Hxp).
  apply list_elem_of_lookup_1 in Hp as [k Hk].
  pose proof (Hids k p Hk) as Hidk.
  apply list_elem_of_split_length in Hk as (l1 & l2 & Hps & Hlen).
  exists l1, p, l2. split; [done|]. split; [done|]. split; [done|].
  rewrite <- Hid, Hidk, Hlen. done.
Qed.

(** The segments of a heap with their invariants, one by one. *)
Lemma heap_seg_at N h l1 p l2 :
  heapOk N h → ScoreHeap.partitions h = l1 ++ p :: l2 →
  segOk N (ScoreHeap.partitionLength h) (ScoreHeap.lookups h) p
  ∧ 0 ≤ Seg.id p < ScoreHeap.nextId h.
Proof.
  intros Hok Hps. apply (heap_segOk N h (length l1)); [done|].
  rewrite Hps, lookup_app_r by lia. rewrite Nat.sub_diag. done.
Qed.


(** ** An identifier leaves its segment *)

Import Utility SearchSpec MergeSpec Inv Ghost.

Lemma idsOk_replace ids l1 (p p' : Seg.t) l2 :
  idsOk ids (l1 ++ p :: l2) → Seg.id p' = Seg.id p → idsOk ids (l1 ++ p' :: l2).
Proof.
  intros Hids Hid k q Hk.
  destruct (decide (k = length l1)) as [->|Hne].
  - rewrite lookup_app_r in Hk by lia. rewrite Nat.sub_diag in Hk. injection Hk as <-.
    rewrite Hid. apply Hids. rewrite lookup_app_r by lia. rewrite Nat.sub_diag. done.
  - apply Hids. rewrite lookup_app_Some in Hk |- *.
    destruct Hk as [Hk|[Hge Hk]]; [left; done|right; split; [done|]].
    destruct (k - length l1)%nat as [|n] eqn:Hd; [lia|]. done.
Qed.

Lemma NoDup_ids_delete (l1 mid l2 : list Seg.t) :
  NoDup (Seg.id <$> l1 ++ mid ++ l2) → NoDup (Seg.id <$> l1 ++ l2).
Proof.
  intros Hnd. eapply sublist_NoDup; [exact Hnd|].
  apply fmap_sublist, sublist_app; [done|]. apply sublist_inserts_l. done.
Qed.

Lemma length_le_mass N PL lk l1 p l2 :
  Forall (λ p, segOk N PL lk p) (l1 ++ p :: l2) → Seg.length p ≤ mass (l1 ++ p :: l2).
Proof.
  rewrite Forall_app, Forall_cons. intros (H1 & _ & H2).
  rewrite mass_app, mass_cons.
  pose proof (mass_nonneg _ _ _ _ H1). pose proof (mass_nonneg _ _ _ _ H2). lia.
Qed.

Lemma heap_length_le N h l1 p l2 :
  heapOk N h → ScoreHeap.partitions h = l1 ++ p :: l2 → Seg.length p ≤ limit.
Proof.
  intros Hok Hps. pose proof Hok as [_ _ _ _ Hm Hsegs _ _ _]. rewrite Hps in Hm, Hsegs.
  assert (H : Forall (λ p, segOk N (ScoreHeap.partitionLength h) (ScoreHeap.lookups h) p)
                (l1 ++ p :: l2)).
  { eapply Forall_impl; [exact Hsegs|]. simpl. tauto. }
  pose proof (length_le_mass _ _ _ _ _ _ H). lia.
Qed.

Lemma heap_id_int32 N h l1 p l2 :
  heapOk N h → ScoreHeap.partitions h = l1 ++ p :: l2 → is_int32 (Seg.id p).
Proof.
  intros Hok Hps. destruct (heap_seg_at N h l1 p l2 Hok Hps) as [_ Hid].
  destruct Hok as [_ _ _ Hn _ _ _ _ _]. unfold is_int32, limit in *. lia.
Qed.

Lemma toInt32_m1 : toInt32 (-1) = -1.
Proof. reflexivity. Qed.

(** The identifier [x] leaves the segment [p]: the segment afterwards
    and the side table, and the heaps that the callers build from them,
    with the segment kept or, when it is empty, taken out. *)
Lemma leave_ok N h x l1 p l2 :
  heapOk N h → ScoreHeap.partitions h = l1 ++ p :: l2 → x ∈ View.live p →
  ∃ lk' p', Segment.remove (ScoreHeap.lookups h) p x = Some (lk', p')
    ∧ length lk' = length (ScoreHeap.lookups h)
    ∧ ownerAt lk' x = -1
    ∧ (∀ y, 0 ≤ y → y ≠ x → sameCells (ScoreHeap.lookups h) lk' y)
    ∧ (∀ y, 0 ≤ y → scoreAt lk' y = scoreAt (ScoreHeap.lookups h) y)
    ∧ 0 ≤ Seg.length p' ≤ Seg.length p
    ∧ (Seg.length p' ≠ 0 →
         heapOk N (ScoreHeap.Make lk' (l1 ++ p' :: l2) (ScoreHeap.partitionIds h)
                     (ScoreHeap.nextId h) (ScoreHeap.partitionLength h)))
    ∧ (Seg.length p' = 0 → ∀ ids', idsOk ids' (l1 ++ l2) →
         heapOk N (ScoreHeap.Make lk' (l1 ++ l2) ids'
                     (ScoreHeap.nextId h) (ScoreHeap.partitionLength h))).
Proof.
  intros Hok Hps Hx.
  pose proof Hok as [Hlk HN HPL Hnid Hm Hsegs Hids Howned Hordered].
  destruct (heap_seg_at N h l1 p l2 Hok Hps) as [Hsp Hidp].
  destruct (segOk_member _ _ _ _ _ Hsp Hx) as (Hxr & Hxo & Hxs & Hxreg).
  pose proof (heap_length_le N h l1 p l2 Hok Hps) as Hlim.
  rewrite Hps in Hordered. destruct (ordered_around _ _ _ _ Hordered) as [Hprev Hnext].
  unfold segOk in Hsp. unfold Segment.remove.
  destruct (Seg.uniform p) eqn:Hu.
  - (* uniform: a tombstone *)
    apply live_uniform in Hx as [_ Hx0]; [|done].
    pose proof Hxreg as [k Hk]%list_elem_of_lookup_1.
    destruct (Uniform_remove_ok N _ p x k Hlk Hsp Hlim Hk Hx0) as (Hrun & Hreg & Hok').
    cbv zeta in Hrun, Hreg, Hok'.
    destruct (owner_slot_written N (ScoreHeap.lookups h) x (-1) (-1) Hlk Hxr)
      as (Hlen1 & Hsc1 & Hown1 & _ & Hoth1). cbv zeta in Hlen1, Hsc1, Hown1, Hoth1.
    set (lk' := TypedArray.put (TypedArray.put (ScoreHeap.lookups h) (x * 3 + 1) (-1))
                  (x * 3 + 2) (-1)) in *.
    set (p' := Seg.with_indices p (<[k := -1]> (Seg.indices p))) in *.
    pose proof Hsp as [Hlenp _].
    exists lk', p'. rewrite Hrun. split; [done|]. split; [done|].
    split; [rewrite Hown1; apply toInt32_m1|]. split; [done|]. split; [done|].
    split; [simpl; lia|]. split; [|simpl; lia].
    intros _.
    apply (heapOk_surgery N h l1 [p] l2 lk' [p'] _ _ (View.live p)); try done.
    + intros y Hy Hny. apply Hoth1; [done|]. intros ->. apply Hny.
      apply live_uniform; done.
    + intros y Hy. right. exists p. split; [left|done].
    + intros q y ->%list_elem_of_singleton Hy. done.
    + repeat constructor; [unfold segOk; simpl; rewrite Hu; done|simpl; lia|simpl; lia].
    + lia.
    + cbn [app]. eapply idsOk_replace; [rewrite <- Hps; done|done].
    + rewrite !mass_cons. simpl. lia.
    + intros y Hy Hyr Hyo. exists p'. split; [left|].
      assert (Hne : y ≠ x) by (intros ->; rewrite Hown1, toInt32_m1 in Hyo; lia).
      destruct (Hoth1 y ltac:(lia) Hne) as (_ & Hyo' & _).
      destruct (segOk_member N (ScoreHeap.partitionLength h) (ScoreHeap.lookups h) p y)
        as (_ & Hyop & _ & Hyreg); [unfold segOk; rewrite Hu; done|done|].
      split; [simpl; congruence|].
      apply live_uniform; [done|]. split; [|lia]. rewrite Hreg.
      apply list_elem_of_lookup_1 in Hyreg as [j Hj].
      apply list_elem_of_lookup. exists j. rewrite list_lookup_insert_ne; [done|].
      intros ->. rewrite Hk in Hj. congruence.
    + intros q r Hq Hr. cbn in Hr. injection Hr as <-. apply Hprev, Hq.
    + intros q r Hq Hr. cbn in Hq. injection Hq as <-.
      specialize (Hnext r Hr). unfold below in *. simpl. rewrite Hu in *. done.
  - (* sorted: the region closes up *)
    rewrite live_sorted in Hx by done.
    pose proof Hxreg as (la & lb & Hreg)%list_elem_of_split.
    assert (HPLlim : ScoreHeap.partitionLength h ≤ limit) by (unfold limit; lia).
    destruct (Partition_remove_ok N _ _ Hlk HPLlim p x la lb Hsp Hreg) as (G' & Hrun & HlenG).
    set (lk' := TypedArray.put (ScoreHeap.lookups h) (x * 3 + 1) (-1)) in *.
    set (p' := Seg.Make (Seg.uniform p) (Seg.id p) (la ++ lb ++ G') (Seg.length p - 1)
                 (Seg.min p)) in *.
    assert (Hown1 : ownerAt lk' x = -1).
    { unfold lk'. rewrite ownerAt_put_owner_same by lia. apply toInt32_m1. }
    assert (Hoth1 : ∀ y, 0 ≤ y → y ≠ x → sameCells (ScoreHeap.lookups h) lk' y).
    { intros y Hy Hne. apply sameCells_put_owner; done. }
    assert (Hsc1 : ∀ y, 0 ≤ y → scoreAt lk' y = scoreAt (ScoreHeap.lookups h) y).
    { intros y Hy. apply scoreAt_put_owner. done. }
    pose proof Hsp as [Hcap Hlenp Hrange Hsorted Hownp Hminp].
    destruct (sortedOk_shape N _ _ p Hsp) as (G & Hi & Hl & HG).
    rewrite Hreg, length_app in Hl. simpl in Hl.
    exists lk', p'. split; [done|]. split; [unfold lk'; apply put_length|].
    split; [done|]. split; [done|]. split; [done|]. split; [simpl; lia|].
    assert (Hregp' : region p' = la ++ lb).
    { apply (region_shape _ (la ++ lb) G'); [simpl; rewrite app_assoc; done|].
      simpl. rewrite length_app. lia. }
    split.
    + intros Hne. simpl in Hne.
      assert (Hne' : la ++ lb ≠ []).
      { intros Hnil. apply (f_equal length) in Hnil. rewrite length_app in Hnil.
        simpl in Hnil. lia. }
      pose proof (sortedOk_removed N _ _ lk' p x la lb G' Hsp Hreg HlenG Hne' Hoth1) as Hok'.
      fold p' in Hok'.
      apply (heapOk_surgery N h l1 [p] l2 lk' [p'] _ _ (region p)); try done.
      * unfold lk'. apply put_length.
      * intros y Hy Hny. apply Hoth1; [done|]. intros ->. done.
      * intros y Hy. right. exists p. split; [left|]. rewrite live_sorted; done.
      * intros q y ->%list_elem_of_singleton Hy. rewrite live_sorted in Hy; done.
      * repeat constructor; [unfold segOk; simpl; rewrite Hu; done|simpl; lia|simpl; lia].
      * lia.
      * cbn [app]. eapply idsOk_replace; [rewrite <- Hps; done|done].
      * rewrite !mass_cons. simpl. lia.
      * intros y Hy Hyr Hyo. exists p'. split; [left|].
        assert (Hnex : y ≠ x) by (intros ->; rewrite Hown1 in Hyo; lia).
        destruct (Hoth1 y ltac:(lia) Hnex) as (_ & Hyo' & _).
        rewrite Forall_forall in Hownp. split; [simpl; rewrite Hyo'; symmetry; auto|].
        rewrite live_sorted by done. rewrite Hregp'. rewrite Hreg in Hy.
        rewrite elem_of_app, elem_of_cons in Hy. rewrite elem_of_app. tauto.
      * intros q r Hq Hr. cbn in Hr. injection Hr as <-. apply Hprev, Hq.
      * intros q r Hq Hr. cbn in Hq. injection Hq as <-.
        specialize (Hnext r Hr). unfold below in *. cbn [Seg.uniform p']. rewrite Hu in *.
        rewrite Hregp'. rewrite Hreg in Hnext. rewrite Forall_forall in Hnext |- *.
        intros y Hy. rewrite Hsc1.
        -- apply Hnext. rewrite elem_of_app, elem_of_cons. rewrite elem_of_app in Hy. tauto.
        -- rewrite Forall_forall in Hrange. rewrite Hreg in Hrange.
           assert (0 ≤ y < N); [|lia]. apply Hrange.
           rewrite elem_of_app, elem_of_cons. rewrite elem_of_app in Hy. tauto.
    + intros Hz ids' Hids'. simpl in Hz.
      apply (heapOk_surgery N h l1 [p] l2 lk' [] _ _ (region p)); try done.
      * unfold lk'. apply put_length.
      * intros y Hy Hny. apply Hoth1; [done|]. intros ->. done.
      * intros y Hy. right. exists p. split; [left|]. rewrite live_sorted; done.
      * intros q y ->%list_elem_of_singleton Hy. rewrite live_sorted in Hy; done.
      * lia.
      * rewrite mass_cons. unfold mass at 1. simpl. lia.
      * intros y Hy Hyr Hyo. exfalso.
        assert (y = x); [|subst y; lia].
        rewrite Hreg in Hy. destruct la; [|simpl in Hl; lia]. destruct lb; [|simpl in Hl; lia].
        apply list_elem_of_singleton in Hy. done.
      * intros q r Hq Hr. cbn [app] in Hr.
        eapply below_mono; [apply Hprev, Hq|].
        specialize (Hnext r Hr). unfold below in Hnext. rewrite Hu in Hnext.
        rewrite Forall_forall in Hnext, Hminp. specialize (Hnext x Hx).
        specialize (Hminp x Hx). lia.
Qed.

(** *** [remove] *)

Lemma capacity_eq N h : heapOk N h → capacity h = N.
Proof.
  intros [Hlk _ _ _ _ _ _ _ _]. unfold capacity. rewrite Hlk.
  rewrite Z.mul_comm. apply Z.div_mul. lia.
Qed.

Lemma present_iff N h x :
  heapOk N h → View.present h x ↔ 0 ≤ x < N ∧ 0 ≤ ownerAt (ScoreHeap.lookups h) x.
Proof.
  intros [Hlk _ _ _ _ _ _ _ _]. unfold View.present, View.owner. split.
  - intros (o & Ho & H0). apply get_Some in Ho as [Hr Ho].
    split; [lia|]. unfold ownerAt. rewrite (list_lookup_total_correct _ _ _ Ho). done.
  - intros [Hx Ho]. exists (ownerAt (ScoreHeap.lookups h) x).
    split; [apply (get_owner N); done|done].
Qed.

(** An identifier that is not present: nothing happens. *)
Lemma remove_absent h x : ¬ View.present h x → ScoreHeap.remove h x = Some (h, None).
Proof.
  intros Hno. unfold ScoreHeap.remove. case_bool_decide; [|done].
  destruct (TypedArray.get (ScoreHeap.lookups h) (x * 3 + 1)) as [o|] eqn:Ho; [|done].
  case_bool_decide; [|done]. exfalso. apply Hno. exists o. done.
Qed.

Ltac heap_simpl :=
  unfold ScoreHeap.with_partitions, ScoreHeap.with_lookups, ScoreHeap.with_partitionIds,
    ScoreHeap.with_nextId;
  cbn [ScoreHeap.lookups ScoreHeap.partitions ScoreHeap.partitionIds
       ScoreHeap.nextId ScoreHeap.partitionLength].

Lemma remove_present N h x :
  heapOk N h → 0 ≤ x < N → 0 ≤ ownerAt (ScoreHeap.lookups h) x →
  ∃ h', ScoreHeap.remove h x = Some (h', Some x)
    ∧ heapOk N h'
    ∧ ownerAt (ScoreHeap.lookups h') x = -1
    ∧ (∀ y, 0 ≤ y → y ≠ x → sameCells (ScoreHeap.lookups h) (ScoreHeap.lookups h') y)
    ∧ scoreAt (ScoreHeap.lookups h') x = scoreAt (ScoreHeap.lookups h) x
    ∧ ScoreHeap.nextId h' = ScoreHeap.nextId h
    ∧ ScoreHeap.partitionLength h' = ScoreHeap.partitionLength h
    ∧ mass (ScoreHeap.partitions h') ≤ mass (ScoreHeap.partitions h).
Proof.
  intros Hok Hx Ho. pose proof Hok as [Hlk _ _ _ _ _ Hids _ _].
  destruct (locate N h x Hok Hx Ho) as (l1 & p & l2 & Hps & Hid & Hxp & Hidx).
  destruct (leave_ok N h x l1 p l2 Hok Hps Hxp)
    as (lk' & p' & Hrun & Hlen & Hown & Hoth & Hsc & Hlenp & Hkeep & Hdrop).
  unfold ScoreHeap.remove. rewrite Hps.
  rewrite bool_decide_eq_true_2 by (rewrite length_app; simpl; lia).
  rewrite (get_owner N _ Hlk x Hx). rewrite bool_decide_eq_true_2 by done.
  rewrite Hidx. cbn [mbind option_bind].
  rewrite jsget_middle by done. cbn [mbind option_bind].
  rewrite Hrun. cbn [mbind option_bind]. heap_simpl.
  rewrite jsput_middle by done.
  case_bool_decide as Hz.
  - rewrite splice_delete by done.
    edestruct (reindex_ok (ScoreHeap.Make lk' (l1 ++ l2) (ScoreHeap.partitionIds h)
                 (ScoreHeap.nextId h) (ScoreHeap.partitionLength h))
                 (Z.of_nat (length l1)) (l1 ++ l2)) as (ids' & Hre & Hids'); [done|lia| | |].
    + apply (NoDup_ids_delete l1 [p] l2). cbn [app]. rewrite <- Hps.
      eapply idsOk_NoDup. done.
    + cbn [ScoreHeap.partitionIds]. intros k q Hk Hq. apply Hids. rewrite Hps.
      rewrite lookup_app_l in Hq by lia. apply lookup_app_l_Some. done.
    + rewrite Hre. cbn [mbind option_bind]. eexists. split; [reflexivity|].
      heap_simpl. split; [apply Hdrop; done|]. split; [done|]. split; [done|].
      split; [apply Hsc; lia|]. split; [done|]. split; [done|].
      rewrite !mass_app, mass_cons. destruct Hok as [_ _ _ _ _ Hsegs _ _ _].
      rewrite Hps in Hsegs. apply Forall_app in Hsegs as [_ Hsegs].
      apply Forall_cons in Hsegs as [[Hp _] _]. apply segOk_length in Hp. lia.
  - cbn [mbind option_bind]. eexists. split; [reflexivity|].
    heap_simpl. split; [apply Hkeep; done|]. split; [done|]. split; [done|].
    split; [apply Hsc; lia|]. split; [done|]. split; [done|].
    rewrite !mass_app, !mass_cons. lia.
Qed.


(** ** [next] *)

Import Utility SearchSpec MergeSpec Inv Ghost.

Lemma nextLoop_nil fuel : ScoreHeap.nextLoop fuel [] = ([], None).
Proof. destruct fuel; reflexivity. Qed.

Lemma nextLoop_snoc fuel ps p :
  ScoreHeap.nextLoop (S fuel) (ps ++ [p])
  = match Segment.next p with
    | (p', Some x) => (ps ++ [p'], Some x)
    | (_, None) => ScoreHeap.nextLoop fuel ps
    end.
Proof.
  cbn [ScoreHeap.nextLoop].
  assert (Hi : Z.of_nat (length (ps ++ [p])) - 1 = Z.of_nat (length ps))
    by (rewrite length_app; simpl; lia).
  rewrite Hi, jsget_middle by done.
  destruct (Segment.next p) as [p' [x|]].
  - rewrite jsput_middle by done. reflexivity.
  - rewrite jsput_middle by done.
    replace (Z.of_nat (length (ps ++ [p'])) - 1) with (Z.of_nat (length ps))
      by (rewrite length_app; simpl; lia).
    rewrite splice_delete by done. rewrite app_nil_r. reflexivity.
Qed.

(** Every score of a segment is at most [min] of a later one. *)
Lemma ordered_later N PL lk : ∀ rest q r,
  ordered lk (q :: rest) → Forall (segOk N PL lk) rest → r ∈ rest →
  below lk q (Seg.min r).
Proof.
  induction rest as [|r0 rest IH]; intros q r Hord Hsegs Hr; [inversion Hr|].
  apply ordered_cons in Hord as [Hq Hord]. apply Forall_cons in Hsegs as [Hr0 Hsegs].
  specialize (Hq r0 eq_refl).
  apply elem_of_cons in Hr as [->|Hr]; [done|].
  eapply below_mono; [exact Hq|].
  eapply below_min; [exact Hr0|]. apply IH; done.
Qed.

Lemma idsOk_prefix ids a b : idsOk ids (a ++ b) → idsOk ids a.
Proof. intros H k p Hk. apply H. apply lookup_app_l_Some. done. Qed.

Lemma with_partitions_same h : ScoreHeap.with_partitions h (ScoreHeap.partitions h) = h.
Proof. destruct h. reflexivity. Qed.

(** The last element of a sorted region has the largest score. *)
Lemma sorted_last_max lk R x y :
  StronglySorted (before lk) (R ++ [x]) → y ∈ R ++ [x] → scoreAt lk y ≤ scoreAt lk x.
Proof.
  intros Hs Hy. apply elem_of_app in Hy as [Hy|Hy].
  - apply list_elem_of_lookup_1 in Hy as [i Hi].
    assert (Hlt : before lk y x).
    { eapply (StronglySorted_lookup_lt _ _ i (length R)); [exact Hs| | |].
      - apply lookup_app_l_Some. done.
      - rewrite lookup_app_r by lia. rewrite Nat.sub_diag. done.
      - eapply lookup_lt_Some. done. }
    unfold before, keyLt, keyOf in Hlt. simpl in Hlt. lia.
  - apply list_elem_of_singleton in Hy as ->. lia.
Qed.

(** [next] of a segment of the heap: the segment afterwards, and an
    identifier of the largest score of the segment if it has a live
    member. *)
Lemma Segment_next_ok N PL lk p :
  segOk N PL lk p →
  ∃ p' r, Segment.next p = (p', r)
    ∧ match r with
      | Some x =>
          segOk N PL lk p' ∧ Seg.id p' = Seg.id p ∧ Seg.min p' = Seg.min p
          ∧ Seg.uniform p' = Seg.uniform p ∧ Seg.length p' ≤ Seg.length p
          ∧ View.live p' = View.live p
          ∧ x ∈ View.live p
          ∧ (∀ y, y ∈ View.live p → scoreAt lk y ≤ scoreAt lk x)
          ∧ Segment.next p' = (p', Some x)
      | None => View.live p = []
      end.
Proof.
  unfold segOk, Segment.next. destruct (Seg.uniform p) eqn:Hu; intros Hok.
  - pose proof Hok as [Hlen Hslots].
    destruct (last_live_split (region p)) as [Hdead|(L & x & T & Hr & Hx & HT)].
    + rewrite Uniform_next_dead by done. eexists _, None. split; [done|].
      unfold View.live. rewrite Hu. fold (region p).
      clear -Hdead. induction Hdead as [|t T Ht HT IHT]; [done|].
      rewrite filter_cons, decide_False by lia. done.
    + rewrite (Uniform_next_live p L x T) by (done || lia).
      eexists _, (Some x). split; [done|].
      destruct (live_after_next p L x T Hu ltac:(lia) Hr HT) as [Hreg Hlive].
      pose proof (region_length p ltac:(lia)) as Hn. rewrite Hr, length_app in Hn. simpl in Hn.
      assert (Hxl : x ∈ View.live p).
      { apply live_uniform; [done|]. split; [|done]. rewrite Hr.
        apply elem_of_app. right. left. }
      cbn [Seg.uniform Seg.with_length Seg.id Seg.min Seg.length].
      rewrite Hu. split; [|split; [done|split; [done|split; [done|split; [simpl; lia|]]]]].
      * split; [simpl; lia|]. rewrite Hreg. intros i y Hy Hy0. cbn [Seg.min Seg.id Seg.with_length].
        apply (Hslots i y); [|done]. rewrite Hr.
        apply lookup_app_Some in Hy as [Hy|[Hge Hy]].
        -- apply lookup_app_l_Some. done.
        -- destruct (i - length L)%nat as [|?] eqn:Hd; [|done].
           rewrite lookup_app_r by lia. rewrite Hd. done.
      * split; [done|]. split; [done|]. split.
        -- intros y Hy. apply live_uniform in Hxl as [[i Hi]%list_elem_of_lookup_1 _]; [|done].
           apply live_uniform in Hy as [[j Hj]%list_elem_of_lookup_1 Hy0]; [|done].
           destruct (Hslots i x Hi Hx) as (_ & -> & _).
           destruct (Hslots j y Hj Hy0) as (_ & -> & _). lia.
        -- rewrite (Uniform_next_live _ L x []).
           ++ f_equal.
           ++ simpl. lia.
           ++ done.
           ++ done.
           ++ constructor.
  - pose proof Hok as [Hcap Hlen Hrange Hsorted Hown Hmin].
    destruct (sortedOk_shape N PL lk p Hok) as (G & Hi & Hl & HG).
    destruct (snoc_or_nil (region p)) as [Hnil|(R & x & Hr)].
    { rewrite Hnil in Hl. simpl in Hl. lia. }
    assert (Hnext : Partition.next p = Some x).
    { unfold Partition.next. rewrite bool_decide_eq_true_2 by lia.
      rewrite Hi, Hr, <- app_assoc. cbn [app]. apply (get_middle R G x).
      rewrite Hl, Hr, length_app. simpl. lia. }
    rewrite Hnext. eexists _, (Some x). split; [done|].
    unfold Segment.next. rewrite Hu, Hnext. rewrite live_sorted by done.
    split; [done|]. do 4 (split; [done || lia|]). split; [done|].
    split; [rewrite Hr; apply elem_of_app; right; left|]. split; [|done].
    intros y Hy. rewrite Hr in Hy, Hsorted. eapply sorted_last_max; done.
Qed.

Lemma absent_all N h :
  heapOk N h → ScoreHeap.partitions h = [] →
  ∀ y, 0 ≤ y < N → ownerAt (ScoreHeap.lookups h) y < 0.
Proof.
  intros Hok Hps y Hy. destruct (decide (0 ≤ ownerAt (ScoreHeap.lookups h) y)) as [Ho|]; [|lia].
  destruct Hok as [_ _ _ _ _ _ _ Howned _].
  destruct (Howned y Hy Ho) as (p & Hp & _). rewrite Hps in Hp. inversion Hp.
Qed.

Lemma next_ok N : ∀ ps h,
  ScoreHeap.partitions h = ps → heapOk N h →
  ∃ h' r, ScoreHeap.next h = (h', r) ∧ nextSpec N h h' r.
Proof.
  induction ps as [|p ps0 IH] using rev_ind; intros h Hps Hok.
  - exists h, None. unfold ScoreHeap.next. rewrite Hps, nextLoop_nil.
    assert (Hh : ScoreHeap.with_partitions h [] = h).
    { rewrite <- Hps. apply with_partitions_same. }
    rewrite Hh. split; [done|]. unfold nextSpec. split; [done|]. do 3 (split; [done|]).
    split; [lia|]. split; [apply absent_all; done|].
    unfold ScoreHeap.next. rewrite Hps, nextLoop_nil, Hh. done.
  - pose proof Hok as [Hlk HN HPL Hnid Hm Hsegs Hids Howned Hordered].
    destruct (heap_seg_at N h ps0 p [] Hok Hps) as [Hsp Hidp].
    destruct (Segment_next_ok _ _ _ p Hsp) as (p' & r & Hrun & Hr).
    rewrite Hps in Hordered. destruct (ordered_around _ _ _ _ Hordered) as [Hprev _].
    unfold ScoreHeap.next at 1. rewrite Hps.
    replace (length (ps0 ++ [p])) with (S (length ps0)) by (rewrite length_app; simpl; lia).
    rewrite nextLoop_snoc, Hrun. destruct r as [x|].
    + destruct Hr as (Hsp' & Hid' & Hmin' & Hu' & Hlen' & Hlive & Hxl & Hmax & Hagain).
      eexists _, (Some x). split; [reflexivity|].
      assert (Hok' : heapOk N (ScoreHeap.with_partitions h (ps0 ++ [p']))).
      { apply (heapOk_surgery N h ps0 [p] [] (ScoreHeap.lookups h) [p'] _ _ (View.live p));
          try done.
        - intros y Hy. right. exists p. split; [left|done].
        - intros q y ->%list_elem_of_singleton Hy. done.
        - repeat constructor; [done|lia|lia].
        - lia.
        - cbn [app]. eapply idsOk_replace; [rewrite <- Hps; done|done].
        - rewrite !mass_cons. lia.
        - intros y Hy Hyr Hyo. exists p'. split; [left|].
          destruct (segOk_member _ _ _ _ _ Hsp Hy) as (_ & Ho & _).
          split; [congruence|]. rewrite Hlive. done.
        - intros q r Hq Hr'. cbn in Hr'. injection Hr' as <-. rewrite Hmin'. apply Hprev, Hq. }
      unfold nextSpec. heap_simpl. split; [exact Hok'|]. do 3 (split; [done|]).
      split; [rewrite Hps, !mass_app, !mass_cons; lia|].
      destruct (segOk_member _ _ _ _ _ Hsp Hxl) as (Hxr & Hxo & Hxs & _).
      split; [split; [done|split; [lia|]]|].
      * intros y Hy Hyo. destruct (Howned y Hy Hyo) as (q & Hq & Hidq & Hyq).
        rewrite Hps in Hq. apply elem_of_app in Hq as [Hq|Hq].
        -- apply list_elem_of_split in Hq as (a1 & a2 & ->).
           rewrite <- app_assoc in Hordered, Hps. cbn [app] in Hordered, Hps.
           apply ordered_app in Hordered as (_ & Hordered & _).
           assert (Hb : below (ScoreHeap.lookups h) q (Seg.min p)).
           { eapply (ordered_later N (ScoreHeap.partitionLength h) _ (a2 ++ [p]));
               [exact Hordered| |apply elem_of_app; right; left].
             rewrite Hps in Hsegs. apply Forall_app in Hsegs as [_ Hsegs].
             apply Forall_cons in Hsegs as [_ Hsegs].
             eapply Forall_impl; [exact Hsegs|]. simpl. tauto. }
           destruct (heap_seg_at N h a1 q (a2 ++ [p]) Hok Hps) as [Hsq _].
           pose proof (below_member _ _ _ _ _ _ Hsq Hb Hyq). lia.
        -- apply list_elem_of_singleton in Hq as ->. auto.
      * unfold ScoreHeap.next. heap_simpl.
        replace (length (ps0 ++ [p'])) with (S (length ps0))
          by (rewrite length_app; simpl; lia).
        rewrite nextLoop_snoc, Hagain. reflexivity.
    + assert (Hok0 : heapOk N (ScoreHeap.with_partitions h ps0)).
      { rewrite <- (app_nil_r ps0).
        apply (heapOk_surgery N h ps0 [p] [] (ScoreHeap.lookups h) [] _ _ (View.live p));
          try done.
        - intros y Hy. right. exists p. split; [left|done].
        - intros q y ->%list_elem_of_singleton Hy. done.
        - lia.
        - cbn [app]. rewrite app_nil_r. eapply idsOk_prefix. rewrite <- Hps. done.
        - rewrite mass_cons. unfold mass at 1. simpl.
          apply segOk_length in Hsp. lia.
        - intros y Hy. rewrite Hr in Hy. inversion Hy. }
      destruct (IH (ScoreHeap.with_partitions h ps0) eq_refl Hok0) as (h' & r & Hnext & Hspec).
      exists h', r. split.
      * unfold ScoreHeap.next in Hnext. cbn [ScoreHeap.partitions ScoreHeap.with_partitions] in Hnext.
        destruct (ScoreHeap.nextLoop (S (length ps0)) ps0) as [ps' r'].
        exact Hnext.
      * destruct Hspec as (H1 & H2 & H3 & H4 & H5 & H6 & H7).
        unfold nextSpec. split; [done|]. do 3 (split; [done|]).
        split; [|split; [exact H6|exact H7]].
        cbn [ScoreHeap.partitions ScoreHeap.with_partitions] in H5.
        rewrite Hps, mass_app, mass_cons. apply segOk_length in Hsp.
        unfold mass at 3. simpl. lia.
Qed.


(** ** [joinPartitions] *)

Import Utility SearchSpec MergeSpec Inv Ghost.

(** [max] of a segment of the heap bounds the scores of its members. *)
Lemma Segment_max_ok N PL lk p :
  Z.of_nat (length lk) = 3 * N → segOk N PL lk p →
  ∃ m, Segment.max lk p = Some m
    ∧ Seg.min p ≤ m
    ∧ (∀ y, y ∈ View.live p → scoreAt lk y ≤ m)
    ∧ (Seg.uniform p = true → m = Seg.min p)
    ∧ (Seg.uniform p = false → ∃ x, x ∈ region p ∧ scoreAt lk x = m).
Proof.
  intros Hlk. unfold segOk, Segment.max. destruct (Seg.uniform p) eqn:Hu; intros Hok.
  - exists (Seg.min p). unfold UniformPartition.max. split; [done|]. split; [lia|].
    split; [|split; done].
    intros y Hy. apply live_uniform in Hy as [[i Hi]%list_elem_of_lookup_1 Hy0]; [|done].
    destruct Hok as [_ Hslots]. destruct (Hslots i y Hi Hy0) as (_ & -> & _). lia.
  - pose proof Hok as [Hcap Hlen Hrange Hsorted Hown Hmin].
    destruct (sortedOk_shape N PL lk p Hok) as (G & Hi & Hl & HG).
    destruct (snoc_or_nil (region p)) as [Hnil|(R & x & Hr)].
    { rewrite Hnil in Hl. simpl in Hl. lia. }
    assert (Hxin : x ∈ region p) by (rewrite Hr; apply elem_of_app; right; left).
    rewrite Forall_forall in Hrange, Hmin.
    exists (scoreAt lk x). split; [|split; [auto|split; [|split; [done|]]]].
    + unfold Partition.max.
      rewrite Hi, Hr, <- app_assoc. cbn [app].
      rewrite (get_middle R G x) by (rewrite Hl, Hr, length_app; simpl; lia).
      cbn [mbind option_bind]. apply (get_score N); auto.
    + intros y Hy. rewrite live_sorted in Hy by done. rewrite Hr in Hy, Hsorted.
      eapply sorted_last_max; done.
    + intros _. exists x. done.
Qed.

Lemma splice_delete_next {A} (l1 : list A) a b l2 i :
  i = Z.of_nat (length l1) + 1 →
  JsArray.splice (l1 ++ a :: b :: l2) i 1 [] = l1 ++ a :: l2.
Proof.
  intros ->. rewrite (cons_middle a l1 (b :: l2)), app_assoc.
  rewrite splice_delete by (rewrite length_app; simpl; lia).
  rewrite <- app_assoc. done.
Qed.

(** Two neighbours become one segment. *)
Lemma heapOk_merge N h l1 p1 p2 l2 lk' r ids' nextId' :
  heapOk N h → ScoreHeap.partitions h = l1 ++ p1 :: p2 :: l2 →
  length lk' = length (ScoreHeap.lookups h) →
  (∀ y, 0 ≤ y → y ∉ View.live p1 → y ∉ View.live p2 →
     sameCells (ScoreHeap.lookups h) lk' y) →
  segOk N (ScoreHeap.partitionLength h) lk' r → 0 ≤ Seg.id r < nextId' →
  ScoreHeap.nextId h ≤ nextId' ≤ limit →
  idsOk ids' (l1 ++ r :: l2) →
  Seg.length r = Seg.length p1 + Seg.length p2 →
  (∀ y, y ∈ View.live p1 ∨ y ∈ View.live p2 → ownerAt lk' y = Seg.id r ∧ y ∈ View.live r) →
  Seg.min p1 ≤ Seg.min r →
  (∀ b, Seg.min p2 ≤ b →
     (∀ y, y ∈ View.live p1 ∨ y ∈ View.live p2 → scoreAt (ScoreHeap.lookups h) y ≤ b) →
     below lk' r b) →
  heapOk N (ScoreHeap.Make lk' (l1 ++ r :: l2) ids' nextId' (ScoreHeap.partitionLength h)).
Proof.
  intros Hok Hps Hlen Hsame Hr Hidr Hnext Hids Hlenr Hown Hmin Hbelow.
  pose proof Hok as [Hlk HN HPL Hnid Hm Hsegs _ Howned Hordered].
  destruct (heap_seg_at N h l1 p1 (p2 :: l2) Hok Hps) as [Hs1 _].
  assert (Hps2 : ScoreHeap.partitions h = (l1 ++ [p1]) ++ p2 :: l2)
    by (rewrite <- app_assoc; done).
  destruct (heap_seg_at N h _ p2 l2 Hok Hps2) as [Hs2 _].
  pose proof Hordered as Hordered2.
  rewrite Hps in Hordered.
  destruct (ordered_around _ _ _ _ Hordered) as [Hprev Hp12].
  specialize (Hp12 p2 eq_refl).
  rewrite Hps2 in Hordered2. destruct (ordered_around _ _ _ _ Hordered2) as [_ Hp2r].
  apply (heapOk_surgery N h l1 [p1; p2] l2 lk' [r] _ _ (View.live p1 ++ View.live p2));
    try done.
  - intros y Hy Hny. rewrite elem_of_app in Hny. apply Hsame; tauto.
  - intros y [Hy|Hy]%elem_of_app; right; [exists p1|exists p2]; (split; [|done]).
    + left.
    + right. left.
  - intros q y Hq Hy. apply elem_of_app.
    apply elem_of_cons in Hq as [->|Hq]; [auto|].
    apply list_elem_of_singleton in Hq as ->. auto.
  - repeat constructor; [done|lia|lia].
  - rewrite !mass_cons. unfold mass at 1 2. simpl. lia.
  - intros y Hy Hyr Hyo. exists r. split; [left|].
    rewrite elem_of_app in Hy. destruct (Hown y Hy) as [Ho Hl]. done.
  - intros q r' Hq Hr'. cbn in Hr'. injection Hr' as <-.
    eapply below_mono; [apply Hprev, Hq|done].
  - intros q r' Hq Hr'. cbn in Hq. injection Hq as <-.
    specialize (Hp2r r' Hr'). apply Hbelow.
    + eapply below_min; done.
    + intros y [Hy|Hy].
      * pose proof (below_member _ _ _ _ _ _ Hs1 Hp12 Hy).
        pose proof (below_min _ _ _ _ _ Hs2 Hp2r). lia.
      * eapply below_member; done.
Qed.

Lemma jsget_next {A} (l1 : list A) a b l2 i :
  i = Z.of_nat (length l1) + 1 → JsArray.get (l1 ++ a :: b :: l2) i = Some b.
Proof.
  intros ->. rewrite (cons_middle a l1 (b :: l2)), app_assoc.
  apply jsget_middle. rewrite length_app. simpl. lia.
Qed.

Lemma jsput_next {A} (l1 : list A) a b l2 i b' :
  i = Z.of_nat (length l1) + 1 → JsArray.put (l1 ++ a :: b :: l2) i b' = l1 ++ a :: b' :: l2.
Proof.
  intros ->. rewrite (cons_middle a l1 (b :: l2)), app_assoc.
  rewrite jsput_middle by (rewrite length_app; simpl; lia).
  rewrite <- app_assoc. done.
Qed.

Lemma joinKeeps_refl N h : heapOk N h → joinKeeps N h h.
Proof. intros Hok. unfold joinKeeps. repeat (split; [done || lia|]). done. Qed.

Lemma joinPartitions_outside h i :
  ¬ (0 ≤ i ∧ i < Z.of_nat (length (ScoreHeap.partitions h)) - 1) →
  ScoreHeap.joinPartitions h i = Some h.
Proof. intros Hi. unfold ScoreHeap.joinPartitions. rewrite bool_decide_eq_false_2; done. Qed.

Section join.
Context (N : Z) (h : ScoreHeap.t) (l1 : list Seg.t) (p1 p2 : Seg.t) (l2 : list Seg.t) (m2 : Z).
Hypothesis Hok : heapOk N h.
Hypothesis Hroom : ScoreHeap.nextId h + 1 ≤ limit.
Hypothesis Hps : ScoreHeap.partitions h = l1 ++ p1 :: p2 :: l2.
Hypothesis Hmax : Segment.max (ScoreHeap.lookups h) p2 = Some m2.

Lemma join_pair :
  segOk N (ScoreHeap.partitionLength h) (ScoreHeap.lookups h) p1
  ∧ segOk N (ScoreHeap.partitionLength h) (ScoreHeap.lookups h) p2
  ∧ 0 ≤ Seg.id p1 < ScoreHeap.nextId h ∧ 0 ≤ Seg.id p2 < ScoreHeap.nextId h
  ∧ below (ScoreHeap.lookups h) p1 (Seg.min p2)
  ∧ (∀ y, y ∈ View.live p1 → y ∉ View.live p2)
  ∧ Seg.length p1 + Seg.length p2 ≤ limit
  ∧ Seg.min p2 ≤ m2
  ∧ (∀ y, y ∈ View.live p2 → scoreAt (ScoreHeap.lookups h) y ≤ m2).
Proof.
  pose proof Hok as [Hlk HN HPL Hnid Hm Hsegs Hids Howned Hordered].
  destruct (heap_seg_at N h l1 p1 (p2 :: l2) Hok Hps) as [Hs1 Hid1].
  assert (Hps2 : ScoreHeap.partitions h = (l1 ++ [p1]) ++ p2 :: l2)
    by (rewrite <- app_assoc; done).
  destruct (heap_seg_at N h _ p2 l2 Hok Hps2) as [Hs2 Hid2].
  rewrite Hps in Hordered. destruct (ordered_around _ _ _ _ Hordered) as [_ Hp12].
  destruct (Segment_max_ok N _ _ p2 Hlk Hs2) as (m & Hm2 & Hmin2 & Hle2 & _).
  rewrite Hmax in Hm2. injection Hm2 as <-.
  do 4 (split; [done|]). split; [apply Hp12; done|]. split; [|split; [|done]].
  - intros y Hy1 Hy2.
    assert (H1 : ScoreHeap.partitions h !! length l1 = Some p1).
    { rewrite Hps, lookup_app_r by lia. rewrite Nat.sub_diag. done. }
    assert (H2 : ScoreHeap.partitions h !! S (length l1) = Some p2).
    { rewrite Hps, lookup_app_r by lia.
      replace (S (length l1) - length l1)%nat with 1%nat by lia. done. }
    pose proof (heap_disjoint N h _ _ _ _ y Hok H1 H2 Hy1 Hy2). lia.
  - rewrite Hps in Hm, Hsegs. rewrite mass_app, !mass_cons in Hm.
    apply Forall_app in Hsegs as [Hsa Hsb]. do 2 apply Forall_cons in Hsb as [_ Hsb].
    assert (0 ≤ mass l1).
    { eapply (mass_nonneg N (ScoreHeap.partitionLength h) (ScoreHeap.lookups h)).
      eapply Forall_impl; [exact Hsa|]. simpl. tauto. }
    assert (0 ≤ mass l2).
    { eapply (mass_nonneg N (ScoreHeap.partitionLength h) (ScoreHeap.lookups h)).
      eapply Forall_impl; [exact Hsb|]. simpl. tauto. }
    lia.
Qed.

(** The test and the branches of [joinPartitions] at this pair. *)
Lemma joinPartitions_at :
  ScoreHeap.joinPartitions h (Z.of_nat (length l1))
  = let index := Z.of_nat (length l1) in
    if bool_decide (Seg.min p1 = m2) then
      if Seg.uniform p1 then
        '(lookups, partition1) ← Segment.join (ScoreHeap.lookups h) p1 p2;
        ScoreHeap.reindex (ScoreHeap.Make lookups (l1 ++ partition1 :: l2)
           (ScoreHeap.partitionIds h) (ScoreHeap.nextId h) (ScoreHeap.partitionLength h))
          (index + 1)
      else if Seg.uniform p2 then
        '(lookups, partition2) ← Segment.join (ScoreHeap.lookups h) p2 p1;
        ScoreHeap.reindex (ScoreHeap.Make lookups (l1 ++ partition2 :: l2)
           (ScoreHeap.partitionIds h) (ScoreHeap.nextId h) (ScoreHeap.partitionLength h))
          index
      else
        fresh ← TypedArray.create (Seg.length p1 + Seg.length p2);
        a ← TypedArray.set fresh
               (TypedArray.subarray (Seg.indices p1) 0 (Seg.length p1)) 0;
        partitionIndices ← TypedArray.set a
               (TypedArray.subarray (Seg.indices p2) 0 (Seg.length p2))
               (Seg.length p1);
        '(lookups, u) ← UniformPartition.new (ScoreHeap.nextId h) (ScoreHeap.lookups h)
                          partitionIndices (Z.of_nat (length partitionIndices));
        ScoreHeap.reindex (ScoreHeap.Make lookups (l1 ++ u :: l2)
                   (<[ScoreHeap.nextId h := index]> (ScoreHeap.partitionIds h))
                   (ScoreHeap.nextId h + 1) (ScoreHeap.partitionLength h))
          (index + 1)
    else if bool_decide (Seg.uniform p1 = false ∧ Seg.uniform p2 = false
                         ∧ Seg.length p1 + Seg.length p2 ≤ ScoreHeap.partitionLength h) then
      '(lookups, partition1) ← Segment.join (ScoreHeap.lookups h) p1 p2;
      ScoreHeap.reindex (ScoreHeap.Make lookups (l1 ++ partition1 :: l2)
           (ScoreHeap.partitionIds h) (ScoreHeap.nextId h) (ScoreHeap.partitionLength h))
        (index + 0)
    else Some h.
Proof.
  unfold ScoreHeap.joinPartitions. rewrite Hps.
  rewrite bool_decide_eq_true_2 by (rewrite length_app; simpl; lia).
  rewrite (jsget_middle l1 p1 (p2 :: l2) (Z.of_nat (length l1))) by done.
  cbn [mbind option_bind].
  rewrite jsget_next by done. cbn [mbind option_bind].
  rewrite Hmax. cbn [mbind option_bind]. cbv zeta.
  case_bool_decide; [destruct (Seg.uniform p1); [|destruct (Seg.uniform p2)]|].
  - destruct (Segment.join (ScoreHeap.lookups h) p1 p2) as [[lk' q]|]; [|done].
    cbn [mbind option_bind]. heap_simpl.
    rewrite jsput_middle by done. rewrite splice_delete_next by done. done.
  - destruct (Segment.join (ScoreHeap.lookups h) p2 p1) as [[lk' q]|]; [|done].
    cbn [mbind option_bind]. heap_simpl.
    rewrite jsput_next by done. rewrite splice_delete by done. done.
  - destruct (TypedArray.create (Seg.length p1 + Seg.length p2)) as [fresh|]; [|done].
    cbn [mbind option_bind].
    destruct (TypedArray.set fresh _ 0) as [a|]; [|done]. cbn [mbind option_bind].
    destruct (TypedArray.set a _ (Seg.length p1)) as [b|]; [|done]. cbn [mbind option_bind].
    destruct (UniformPartition.new _ _ b _) as [[lk' u]|]; [|done]. cbn [mbind option_bind].
    rewrite splice_two by done. done.
  - case_bool_decide; [|done].
    destruct (Segment.join (ScoreHeap.lookups h) p1 p2) as [[lk' q]|]; [|done].
    cbn [mbind option_bind]. heap_simpl.
    rewrite jsput_middle by done. rewrite splice_delete_next by done. done.
Qed.

End join.

Lemma reindex_at lk' l1 r l2 ids nid PL i :
  NoDup (Seg.id <$> l1 ++ r :: l2) →
  (∀ k q, l1 !! k = Some q → ids !! Seg.id q = Some (Z.of_nat k)) →
  i = Z.of_nat (length l1)
  ∨ (i = Z.of_nat (length l1) + 1 ∧ ids !! Seg.id r = Some (Z.of_nat (length l1))) →
  ∃ ids', ScoreHeap.reindex (ScoreHeap.Make lk' (l1 ++ r :: l2) ids nid PL) i
          = Some (ScoreHeap.Make lk' (l1 ++ r :: l2) ids' nid PL)
    ∧ idsOk ids' (l1 ++ r :: l2).
Proof.
  intros Hnd Hpre Hi.
  destruct (reindex_ok (ScoreHeap.Make lk' (l1 ++ r :: l2) ids nid PL) i (l1 ++ r :: l2))
    as (ids' & Hre & Hids'); [done|lia|done| |].
  - cbn [ScoreHeap.partitionIds]. intros k q Hk Hq.
    apply lookup_app_Some in Hq as [Hq|[Hge Hq]]; [auto|].
    destruct Hi as [->|[-> Hr]]; [lia|].
    replace k with (length l1) in * by lia. rewrite Nat.sub_diag in Hq. injection Hq as <-.
    done.
  - exists ids'. split; [exact Hre|done].
Qed.

Lemma ids_fresh N h q :
  heapOk N h → q ∈ ScoreHeap.partitions h → Seg.id q ≠ ScoreHeap.nextId h.
Proof.
  intros Hok [k Hk]%list_elem_of_lookup_1.
  destruct (heap_segOk N h k q Hok Hk) as [_ Hid]. lia.
Qed.

(** What a segment offers to the uniform segment that absorbs it. *)
Lemma segOk_other N PL lk q :
  0 ≤ N → segOk N PL lk q →
  0 ≤ Seg.length q ≤ Z.of_nat (length (Seg.indices q))
  ∧ Forall (λ y, y < N) (region q)
  ∧ liveOnce (region q)
  ∧ (∀ y, y ∈ region q → 0 ≤ y → y ∈ View.live q).
Proof.
  intros HN. unfold segOk. destruct (Seg.uniform q) eqn:Hu; intros Hok.
  - pose proof Hok as [Hlen Hslots]. split; [lia|]. split; [|split].
    + apply Forall_forall. intros y [i Hi]%list_elem_of_lookup_1.
      destruct (decide (0 ≤ y)) as [Hy|Hy]; [|lia].
      destruct (Hslots i y Hi Hy) as (? & _). done.
    + intros j j' y Hj Hj' Hy. eapply uniformOk_slot; done.
    + intros y Hy Hy0. apply live_uniform; done.
  - pose proof Hok as [Hcap Hlen Hrange Hsorted Hown Hmin]. split; [lia|]. split; [|split].
    + eapply Forall_impl; [exact Hrange|]. simpl. intros y Hy. lia.
    + apply liveOnce_NoDup. eapply StronglySorted_NoDup. done.
    + intros y Hy _. rewrite live_sorted; done.
Qed.

Section joins.
Context (N : Z) (h : ScoreHeap.t) (l1 : list Seg.t) (p1 p2 : Seg.t) (l2 : list Seg.t) (m2 : Z).
Hypothesis Hok : heapOk N h.
Hypothesis Hroom : ScoreHeap.nextId h + 1 ≤ limit.
Hypothesis Hps : ScoreHeap.partitions h = l1 ++ p1 :: p2 :: l2.
Hypothesis Hmax : Segment.max (ScoreHeap.lookups h) p2 = Some m2.

Lemma join_equal :
  Seg.min p1 = m2 →
  Seg.min p2 = Seg.min p1
  ∧ ∀ y, y ∈ View.live p1 ∨ y ∈ View.live p2 →
      scoreAt (ScoreHeap.lookups h) y = Seg.min p1.
Proof.
  intros Heq.
  destruct (join_pair N h l1 p1 p2 l2 m2 Hok Hps Hmax)
    as (Hs1 & Hs2 & Hid1 & Hid2 & Hb & Hdisj & Hlim & Hmin2 & Hle2).
  pose proof (below_min _ _ _ _ _ Hs1 Hb) as Hm12.
  split; [lia|]. intros y [Hy|Hy].
  - destruct (segOk_member _ _ _ _ _ Hs1 Hy) as (_ & _ & Hge & _).
    pose proof (below_member _ _ _ _ _ _ Hs1 Hb Hy). lia.
  - destruct (segOk_member _ _ _ _ _ Hs2 Hy) as (_ & _ & Hge & _).
    specialize (Hle2 y Hy). lia.
Qed.

Lemma join_ids_prefix k q :
  l1 !! k = Some q → ScoreHeap.partitionIds h !! Seg.id q = Some (Z.of_nat k).
Proof.
  intros Hk. destruct Hok as [_ _ _ _ _ _ Hids _ _]. apply Hids.
  rewrite Hps. apply lookup_app_l_Some. done.
Qed.

Lemma join_ids_1 : ScoreHeap.partitionIds h !! Seg.id p1 = Some (Z.of_nat (length l1)).
Proof.
  destruct Hok as [_ _ _ _ _ _ Hids _ _]. apply Hids.
  rewrite Hps, lookup_app_r by lia. rewrite Nat.sub_diag. done.
Qed.

Lemma join_NoDup r :
  Seg.id r = Seg.id p1 ∨ Seg.id r = Seg.id p2 ∨ Seg.id r = ScoreHeap.nextId h →
  NoDup (Seg.id <$> l1 ++ r :: l2).
Proof.
  intros Hr. pose proof Hok as [_ _ _ _ _ _ Hids _ _].
  pose proof (idsOk_NoDup _ _ Hids) as Hnd. rewrite Hps in Hnd.
  rewrite fmap_app, fmap_cons. destruct Hr as [-> | [-> | ->]].
  - eapply sublist_NoDup; [exact Hnd|]. rewrite fmap_app, !fmap_cons.
    apply sublist_app; [done|]. apply sublist_skip. apply sublist_cons. done.
  - eapply sublist_NoDup; [exact Hnd|]. rewrite fmap_app, !fmap_cons.
    apply sublist_app; [done|]. apply sublist_cons. done.
  - assert (Hnd' : NoDup (Seg.id <$> l1 ++ l2)).
    { apply (NoDup_ids_delete l1 [p1; p2] l2). done. }
    rewrite fmap_app in Hnd'. apply NoDup_app in Hnd' as (Hn1 & Hn12 & Hn2).
    assert (Hfresh : ∀ l, l ⊆ ScoreHeap.partitions h → ScoreHeap.nextId h ∉ Seg.id <$> l).
    { intros l Hl (q & Hq & Hin)%list_elem_of_fmap.
      apply (ids_fresh N h q Hok); [apply Hl, Hin|done]. }
    apply NoDup_app. split; [done|]. split.
    + intros x Hx [->|Hx2]%elem_of_cons; [|eapply Hn12; done].
      apply (Hfresh l1); [|done]. rewrite Hps. intros q Hq. apply elem_of_app. auto.
    + apply NoDup_cons. split; [|done].
      apply (Hfresh l2). rewrite Hps. intros q Hq. apply elem_of_app. right.
      right. right. done.
Qed.

End joins.

(** A uniform segment absorbs a segment of members of its score. *)
Lemma absorb_ok N PL lk a b :
  Z.of_nat (length lk) = 3 * N → 0 ≤ N →
  Seg.uniform a = true → segOk N PL lk a → segOk N PL lk b →
  is_int32 (Seg.id a) → Seg.length a + Seg.length b ≤ limit →
  (∀ y, y ∈ View.live b → scoreAt lk y = Seg.min a) →
  (∀ y, y ∈ View.live a → y ∉ View.live b) →
  ∃ lk' r, Segment.join lk a b = Some (lk', r)
    ∧ length lk' = length lk
    ∧ (∀ y, 0 ≤ y → scoreAt lk' y = scoreAt lk y)
    ∧ (∀ y, 0 ≤ y → y ∉ View.live b → sameCells lk lk' y)
    ∧ (∀ y, y ∈ View.live b → ownerAt lk' y = Seg.id a)
    ∧ segOk N PL lk' r
    ∧ Seg.uniform r = true ∧ Seg.id r = Seg.id a ∧ Seg.min r = Seg.min a
    ∧ Seg.length r = Seg.length a + Seg.length b
    ∧ region r = region a ++ region b.
Proof.
  intros Hlk HN Hu Ha Hb Hid Hlim Hscore Hdisj.
  destruct (segOk_other N PL lk b HN Hb) as (Hlenb & Hrange & Honce & Hlive).
  pose proof Ha as Ha'. unfold segOk in Ha'. rewrite Hu in Ha'.
  destruct (Uniform_join_ok N lk a b Hlk Hid Ha' Hlenb Hlim Hrange Honce)
    as (ind & Hrun & Hreg & Htag & Hok').
  { intros y Hy Hy0. split; [apply Hscore, Hlive; done|].
    intros Hya. apply (Hdisj y); [apply live_uniform; done|apply Hlive; done]. }
  cbv zeta in Hrun, Hreg, Hok'. destruct Htag as [Hl' Hsc' Hslot' Hoth'].
  eexists _, _. unfold Segment.join. rewrite Hu. split; [exact Hrun|].
  split; [done|]. split; [done|]. split; [|split; [|split]].
  - intros y Hy Hny. apply Hoth'; [done|]. intros Hin. apply Hny, Hlive; [done|lia].
  - intros y Hy. pose proof (live_region _ _ Hy) as [j Hj]%list_elem_of_lookup_1.
    destruct (segOk_member _ _ _ _ _ Hb Hy) as (Hy0 & _).
    destruct (Hslot' j y Hj ltac:(lia)) as [Ho _]. done.
  - unfold segOk. cbn [Seg.uniform]. rewrite Hu in Hok' |- *. done.
  - cbn [Seg.uniform Seg.id Seg.min Seg.length]. rewrite Hu in Hreg |- *. done.
Qed.

Section joinCases.
Context (N : Z) (h : ScoreHeap.t) (l1 : list Seg.t) (p1 p2 : Seg.t) (l2 : list Seg.t) (m2 : Z).
Hypothesis Hok : heapOk N h.
Hypothesis Hroom : ScoreHeap.nextId h + 1 ≤ limit.
Hypothesis Hps : ScoreHeap.partitions h = l1 ++ p1 :: p2 :: l2.
Hypothesis Hmax : Segment.max (ScoreHeap.lookups h) p2 = Some m2.

(** The lower segment is uniform and absorbs the upper one. *)
Lemma join_lower :
  Seg.min p1 = m2 → Seg.uniform p1 = true →
  ∃ h' r, ScoreHeap.joinPartitions h (Z.of_nat (length l1)) = Some h'
    ∧ joinKeeps N h h'
    ∧ ScoreHeap.partitions h' = l1 ++ r :: l2
    ∧ Seg.uniform r = true ∧ Seg.id r = Seg.id p1
    ∧ region r = region p1 ++ region p2.
Proof.
  intros Heq Hu1. pose proof Hok as [Hlk HN HPL Hnid Hm Hsegs Hids Howned Hordered].
  destruct (join_pair N h l1 p1 p2 l2 m2 Hok Hps Hmax)
    as (Hs1 & Hs2 & Hid1 & Hid2 & Hb & Hdisj & Hlim & Hmin2 & Hle2).
  destruct (join_equal N h l1 p1 p2 l2 m2 Hok Hps Hmax Heq) as [Hmin12 Hall].
  destruct (absorb_ok N _ _ p1 p2 Hlk ltac:(lia) Hu1 Hs1 Hs2)
    as (lk' & r & Hrun & Hl' & Hsc' & Hoth' & Hown' & Hsr & Hur & Hidr & Hminr & Hlenr & Hregr);
    [unfold is_int32, limit in *; lia|done|intros y Hy; apply Hall; auto|done|].
  rewrite (joinPartitions_at h l1 p1 p2 l2 m2 Hps Hmax). cbv zeta.
  rewrite bool_decide_eq_true_2 by done. rewrite Hu1, Hrun. cbn [mbind option_bind].
  destruct (reindex_at lk' l1 r l2 (ScoreHeap.partitionIds h) (ScoreHeap.nextId h)
              (ScoreHeap.partitionLength h) (Z.of_nat (length l1) + 1))
    as (ids' & Hre & Hids').
  { eapply (join_NoDup N h l1 p1 p2 l2); [done|done|auto]. }
  { intros k q Hk. eapply (join_ids_prefix N h l1 p1 p2 l2); done. }
  { right. split; [done|]. rewrite Hidr. eapply (join_ids_1 N h l1 p1 p2 l2); done. }
  rewrite Hre. eexists _, r. split; [reflexivity|].
  split; [|cbn [ScoreHeap.partitions]; done].
  unfold joinKeeps. heap_simpl. split; [|split; [done|split; [done|split; [|split]]]].
  - apply (heapOk_merge N h l1 p1 p2 l2); try done.
    + intros y Hy _ Hn2. apply Hoth'; done.
    + lia.
    + lia.
    + intros y [Hy|Hy].
      * destruct (segOk_member _ _ _ _ _ Hs1 Hy) as (Hyr & Hyo & _).
        destruct (Hoth' y ltac:(lia) (Hdisj y Hy)) as (_ & -> & _).
        split; [congruence|]. apply live_uniform in Hy as [Hy Hy0]; [|done].
        apply live_uniform; [done|]. rewrite Hregr. split; [|done]. apply elem_of_app. auto.
      * destruct (segOk_member _ _ _ _ _ Hs2 Hy) as (Hyr & _).
        split; [rewrite Hown' by done; done|].
        apply live_uniform; [done|]. rewrite Hregr. split; [|lia].
        apply elem_of_app. right. apply live_region. done.
    + lia.
    + intros b Hb2 _. unfold below. rewrite Hur. lia.
  - intros y Hy Hneg. apply Hoth'; [done|]. intros Hin.
    destruct (segOk_member _ _ _ _ _ Hs2 Hin) as (_ & Ho & _). lia.
  - intros y Hy Ho. destruct (decide (y ∈ View.live p2)) as [Hin|Hnin].
    + rewrite Hown' by done. lia.
    + destruct (Hoth' y ltac:(lia) Hnin) as (_ & -> & _). done.
  - split; [lia|]. split; [done|]. rewrite Hps, !mass_app, !mass_cons. lia.
Qed.

(** The upper segment is uniform and absorbs the lower one. *)
Lemma join_upper :
  Seg.min p1 = m2 → Seg.uniform p1 = false → Seg.uniform p2 = true →
  ∃ h' r, ScoreHeap.joinPartitions h (Z.of_nat (length l1)) = Some h'
    ∧ joinKeeps N h h'
    ∧ ScoreHeap.partitions h' = l1 ++ r :: l2
    ∧ Seg.uniform r = true ∧ Seg.id r = Seg.id p2
    ∧ region r = region p2 ++ region p1.
Proof.
  intros Heq Hu1 Hu2. pose proof Hok as [Hlk HN HPL Hnid Hm Hsegs Hids Howned Hordered].
  destruct (join_pair N h l1 p1 p2 l2 m2 Hok Hps Hmax)
    as (Hs1 & Hs2 & Hid1 & Hid2 & Hb & Hdisj & Hlim & Hmin2 & Hle2).
  destruct (join_equal N h l1 p1 p2 l2 m2 Hok Hps Hmax Heq) as [Hmin12 Hall].
  destruct (absorb_ok N _ _ p2 p1 Hlk ltac:(lia) Hu2 Hs2 Hs1)
    as (lk' & r & Hrun & Hl' & Hsc' & Hoth' & Hown' & Hsr & Hur & Hidr & Hminr & Hlenr & Hregr);
    [unfold is_int32, limit in *; lia|lia|intros y Hy; rewrite Hmin12; apply Hall; auto| |].
  { intros y Hy2 Hy1. exact (Hdisj y Hy1 Hy2). }
  rewrite (joinPartitions_at h l1 p1 p2 l2 m2 Hps Hmax). cbv zeta.
  rewrite bool_decide_eq_true_2 by done. rewrite Hu1, Hu2, Hrun. cbn [mbind option_bind].
  destruct (reindex_at lk' l1 r l2 (ScoreHeap.partitionIds h) (ScoreHeap.nextId h)
              (ScoreHeap.partitionLength h) (Z.of_nat (length l1)))
    as (ids' & Hre & Hids').
  { eapply (join_NoDup N h l1 p1 p2 l2); [done|done|auto]. }
  { intros k q Hk. eapply (join_ids_prefix N h l1 p1 p2 l2); done. }
  { left. done. }
  rewrite Hre. eexists _, r. split; [reflexivity|].
  split; [|cbn [ScoreHeap.partitions]; done].
  unfold joinKeeps. heap_simpl. split; [|split; [done|split; [done|split; [|split]]]].
  - apply (heapOk_merge N h l1 p1 p2 l2); try done.
    + intros y Hy Hn1 _. apply Hoth'; done.
    + lia.
    + lia.
    + lia.
    + intros y [Hy|Hy].
      * destruct (segOk_member _ _ _ _ _ Hs1 Hy) as (Hyr & _).
        split; [rewrite Hown' by done; done|].
        apply live_uniform; [done|]. rewrite Hregr. split; [|lia].
        apply elem_of_app. right. apply live_region. done.
      * destruct (segOk_member _ _ _ _ _ Hs2 Hy) as (Hyr & Hyo & _).
        assert (Hn1 : y ∉ View.live p1) by (intros Hy1; exact (Hdisj y Hy1 Hy)).
        destruct (Hoth' y ltac:(lia) Hn1) as (_ & -> & _).
        split; [congruence|]. apply live_uniform in Hy as [Hy Hy0]; [|done].
        apply live_uniform; [done|]. rewrite Hregr. split; [|done]. apply elem_of_app. auto.
    + lia.
    + intros b Hb2 _. unfold below. rewrite Hur. lia.
  - intros y Hy Hneg. apply Hoth'; [done|]. intros Hin.
    destruct (segOk_member _ _ _ _ _ Hs1 Hin) as (_ & Ho & _). lia.
  - intros y Hy Ho. destruct (decide (y ∈ View.live p1)) as [Hin|Hnin].
    + rewrite Hown' by done. lia.
    + destruct (Hoth' y ltac:(lia) Hnin) as (_ & -> & _). done.
  - split; [lia|]. split; [done|]. rewrite Hps, !mass_app, !mass_cons. lia.
Qed.

End joinCases.

Section joinSorted.
Context (N : Z) (h : ScoreHeap.t) (l1 : list Seg.t) (p1 p2 : Seg.t) (l2 : list Seg.t) (m2 : Z).
Hypothesis Hok : heapOk N h.
Hypothesis Hroom : ScoreHeap.nextId h + 1 ≤ limit.
Hypothesis Hps : ScoreHeap.partitions h = l1 ++ p1 :: p2 :: l2.
Hypothesis Hmax : Segment.max (ScoreHeap.lookups h) p2 = Some m2.
Hypothesis Hu1 : Seg.uniform p1 = false.
Hypothesis Hu2 : Seg.uniform p2 = false.

(** Two sorted segments of one score become a new uniform segment. *)
Lemma join_fresh :
  Seg.min p1 = m2 →
  ∃ h' r, ScoreHeap.joinPartitions h (Z.of_nat (length l1)) = Some h'
    ∧ joinKeeps N h h'
    ∧ ScoreHeap.partitions h' = l1 ++ r :: l2
    ∧ Seg.uniform r = true ∧ Seg.id r = ScoreHeap.nextId h
    ∧ region r = region p1 ++ region p2.
Proof.
  intros Heq. pose proof Hok as [Hlk HN HPL Hnid Hm Hsegs Hids Howned Hordered].
  destruct (join_pair N h l1 p1 p2 l2 m2 Hok Hps Hmax)
    as (Hs1 & Hs2 & Hid1 & Hid2 & Hb & Hdisj & Hlim & Hmin2 & Hle2).
  destruct (join_equal N h l1 p1 p2 l2 m2 Hok Hps Hmax Heq) as [Hmin12 Hall].
  pose proof Hs1 as Hso1. pose proof Hs2 as Hso2. unfold segOk in Hso1, Hso2.
  rewrite Hu1 in Hso1. rewrite Hu2 in Hso2.
  pose proof Hso1 as [Hcap1 Hlen1 Hrange1 Hsorted1 Hown1 Hminp1].
  pose proof Hso2 as [Hcap2 Hlen2 Hrange2 Hsorted2 Hown2 Hminp2].
  rewrite (live_sorted p1 Hu1) in *. rewrite (live_sorted p2 Hu2) in *.
  pose proof (region_length p1 ltac:(lia)) as Hn1.
  pose proof (region_length p2 ltac:(lia)) as Hn2.
  set (ind := region p1 ++ region p2).
  assert (Hlenind : Z.of_nat (length ind) = Seg.length p1 + Seg.length p2).
  { unfold ind. rewrite length_app. lia. }
  destruct (Uniform_new_ok N (ScoreHeap.lookups h) (ScoreHeap.nextId h) ind (Seg.min p1))
    as (Hrun & Htag & Hok'); try done.
  { unfold is_int32, limit in *. lia. }
  { intros Hnil. rewrite Hnil in Hlenind. simpl in Hlenind. lia. }
  { lia. }
  { unfold ind. apply Forall_app. done. }
  { unfold ind. apply NoDup_app. split; [eapply StronglySorted_NoDup; done|].
    split; [done|eapply StronglySorted_NoDup; done]. }
  { unfold ind. apply Forall_forall. intros y Hy. apply Hall. apply elem_of_app. done. }
  cbv zeta in Hrun, Htag, Hok'. destruct Htag as [Hl' Hsc' Hslot' Hoth'].
  set (lk' := tagLoop (ScoreHeap.nextId h) ind 0 (ScoreHeap.lookups h)) in *.
  set (u := Seg.Make true (ScoreHeap.nextId h) ind (Z.of_nat (length ind)) (Seg.min p1)) in *.
  rewrite (joinPartitions_at h l1 p1 p2 l2 m2 Hps Hmax). cbv zeta.
  rewrite bool_decide_eq_true_2 by done. rewrite Hu1, Hu2.
  rewrite create_ok by fits. cbn [mbind option_bind].
  rewrite !subarray_region by lia. fold (region p1) (region p2).
  rewrite set_ok by lens. cbn [mbind option_bind].
  change (Z.to_nat 0) with 0%nat. rewrite take_0. cbn [app].
  rewrite set_ok by lens. cbn [mbind option_bind].
  rewrite (take_app_at (region p1)) by lia.
  rewrite (drop_app_past (region p1) _ _ (length (region p2))) by lia.
  rewrite drop_ge by lens. rewrite app_nil_r. fold ind.
  rewrite Hrun. cbn [mbind option_bind].
  destruct (reindex_at lk' l1 u l2
              (<[ScoreHeap.nextId h := Z.of_nat (length l1)]> (ScoreHeap.partitionIds h))
              (ScoreHeap.nextId h + 1)
              (ScoreHeap.partitionLength h) (Z.of_nat (length l1) + 1))
    as (ids' & Hre & Hids').
  { eapply (join_NoDup N h l1 p1 p2 l2); [done|done|auto]. }
  { intros k q Hk. rewrite lookup_insert_ne.
    - eapply (join_ids_prefix N h l1 p1 p2 l2); done.
    - intros Hq. eapply (ids_fresh N h q Hok); [|done].
      rewrite Hps. apply elem_of_app. left. eapply list_elem_of_lookup_2. done. }
  { right. split; [done|]. apply lookup_insert_eq. }
  rewrite Hre. eexists _, u. split; [reflexivity|].
  assert (Hregu : region u = ind).
  { unfold region, u. simpl. rewrite Nat2Z.id. apply firstn_all. }
  split; [|cbn [ScoreHeap.partitions]; done].
  unfold joinKeeps. heap_simpl. split; [|split; [done|split; [done|split; [|split]]]].
  - apply (heapOk_merge N h l1 p1 p2 l2 lk' u ids' (ScoreHeap.nextId h + 1) Hok Hps Hl').
    + intros y Hy Hny1 Hny2. apply Hoth'; [done|]. unfold ind. rewrite elem_of_app.
      rewrite (live_sorted p1 Hu1) in Hny1. rewrite (live_sorted p2 Hu2) in Hny2. tauto.
    + exact Hok'.
    + simpl. lia.
    + lia.
    + exact Hids'.
    + simpl. lia.
    + intros y Hy. rewrite (live_sorted p1 Hu1), (live_sorted p2 Hu2) in Hy.
      assert (Hin : y ∈ ind) by (unfold ind; apply elem_of_app; done).
      assert (Hy0 : 0 ≤ y).
      { rewrite Forall_forall in Hrange1, Hrange2.
        destruct Hy as [Hy|Hy]; [apply Hrange1 in Hy|apply Hrange2 in Hy]; lia. }
      pose proof Hin as [j Hj]%list_elem_of_lookup_1.
      destruct (Hslot' j y Hj Hy0) as [Ho _]. split; [done|].
      apply live_uniform; [done|]. rewrite Hregu. done.
    + simpl. lia.
    + intros b Hb2 _. unfold below. simpl. lia.
  - intros y Hy Hneg. apply Hoth'; [done|]. unfold ind. intros [Hin|Hin]%elem_of_app.
    + rewrite Forall_forall in Hown1. rewrite (Hown1 y Hin) in Hneg. lia.
    + rewrite Forall_forall in Hown2. rewrite (Hown2 y Hin) in Hneg. lia.
  - intros y Hy Ho. destruct (decide (y ∈ ind)) as [Hin|Hnin].
    + pose proof Hin as [j Hj]%list_elem_of_lookup_1.
      destruct (Hslot' j y Hj ltac:(lia)) as [-> _]. lia.
    + destruct (Hoth' y ltac:(lia) Hnin) as (_ & -> & _). done.
  - split; [lia|]. split; [done|]. rewrite Hps, !mass_app, !mass_cons. simpl. lia.
Qed.

(** Two sorted segments of different scores are merged when they fit. *)
Lemma join_sorted :
  Seg.min p1 ≠ m2 →
  Seg.length p1 + Seg.length p2 ≤ ScoreHeap.partitionLength h →
  ∃ h' r, ScoreHeap.joinPartitions h (Z.of_nat (length l1)) = Some h'
    ∧ joinKeeps N h h'
    ∧ ScoreHeap.partitions h' = l1 ++ r :: l2
    ∧ Seg.uniform r = false ∧ Seg.id r = Seg.id p1
    ∧ StronglySorted (before (ScoreHeap.lookups h)) (region r)
    ∧ (∀ v, v ∈ region r ↔ v ∈ region p1 ∨ v ∈ region p2).
Proof.
  intros Hne Hfit. pose proof Hok as [Hlk HN HPL Hnid Hm Hsegs Hids Howned Hordered].
  destruct (join_pair N h l1 p1 p2 l2 m2 Hok Hps Hmax)
    as (Hs1 & Hs2 & Hid1 & Hid2 & Hb & Hdisj & Hlim & Hmin2 & Hle2).
  pose proof Hs1 as Hso1. pose proof Hs2 as Hso2. unfold segOk in Hso1, Hso2.
  rewrite Hu1 in Hso1. rewrite Hu2 in Hso2.
  pose proof Hso1 as [Hcap1 Hlen1 Hrange1 Hsorted1 Hown1 Hminp1].
  pose proof Hso2 as [Hcap2 Hlen2 Hrange2 Hsorted2 Hown2 Hminp2].
  rewrite (live_sorted p1 Hu1) in *. rewrite (live_sorted p2 Hu2) in *.
  destruct (Partition_join_ok N (ScoreHeap.partitionLength h) (ScoreHeap.lookups h) p1 p2)
    as (lk' & r & Hrun & Hh & Hur & Hidr & Hlenr & Hminr & Hmem & Hsr); try done.
  { lia. }
  { unfold limit. lia. }
  { unfold is_int32, limit in *. lia. }
  { eapply below_min; done. }
  destruct Hh as [Hl' Hsc' Hown' Hoth'].
  rewrite (joinPartitions_at h l1 p1 p2 l2 m2 Hps Hmax). cbv zeta.
  rewrite bool_decide_eq_false_2 by done. rewrite bool_decide_eq_true_2 by done.
  unfold Segment.join. rewrite Hu1, Hrun. cbn [mbind option_bind].
  destruct (reindex_at lk' l1 r l2 (ScoreHeap.partitionIds h) (ScoreHeap.nextId h)
              (ScoreHeap.partitionLength h) (Z.of_nat (length l1) + 0))
    as (ids' & Hre & Hids').
  { eapply (join_NoDup N h l1 p1 p2 l2); [done|done|auto]. }
  { intros k q Hk. eapply (join_ids_prefix N h l1 p1 p2 l2); done. }
  { left. lia. }
  rewrite Hre. eexists _, r. split; [reflexivity|].
  assert (Hlr : View.live r = region r) by (apply live_sorted; congruence).
  split; [|cbn [ScoreHeap.partitions]; split; [done|split; [congruence|split; [done|]]]].
  - unfold joinKeeps. heap_simpl. split; [|split; [done|split; [done|split; [|split]]]].
    + apply (heapOk_merge N h l1 p1 p2 l2 lk' r ids' (ScoreHeap.nextId h) Hok Hps Hl').
      * intros y Hy _ Hn2. apply Hoth'; [done|]. rewrite (live_sorted p2 Hu2) in Hn2. done.
      * unfold segOk. rewrite Hur, Hu1. done.
      * lia.
      * lia.
      * exact Hids'.
      * lia.
      * intros y Hy. rewrite (live_sorted p1 Hu1), (live_sorted p2 Hu2) in Hy.
        rewrite Hlr. split; [|apply Hmem; done].
        destruct (decide (y ∈ region p2)) as [Hin|Hnin]; [rewrite Hown' by done; done|].
        destruct Hy as [Hy|Hy]; [|done].
        rewrite Forall_forall in Hrange1, Hown1.
        destruct (Hoth' y) as (_ & -> & _); [apply Hrange1 in Hy; lia|done|].
        rewrite Hidr. auto.
      * lia.
      * intros b Hb2 Hle. unfold below. rewrite Hur, Hu1. apply Forall_forall.
        intros y Hy. apply Hmem in Hy.
        rewrite Hsc'.
        -- apply Hle. rewrite (live_sorted p1 Hu1), (live_sorted p2 Hu2). done.
        -- rewrite Forall_forall in Hrange1, Hrange2.
           destruct Hy as [Hy|Hy]; [apply Hrange1 in Hy|apply Hrange2 in Hy]; lia.
    + intros y Hy Hneg. apply Hoth'; [done|]. intros Hin.
      rewrite Forall_forall in Hown2. rewrite (Hown2 y Hin) in Hneg. lia.
    + intros y Hy Ho. destruct (decide (y ∈ region p2)) as [Hin|Hnin].
      * rewrite Hown' by done. lia.
      * destruct (Hoth' y ltac:(lia) Hnin) as (_ & -> & _). done.
    + split; [lia|]. split; [done|]. rewrite Hps, !mass_app, !mass_cons. lia.
  - destruct Hsr as [_ _ Hrange Hsorted _ _]. split; [|done].
    eapply StronglySorted_ext; [|exact Hsorted].
    intros a b Ha Hb'. rewrite Forall_forall in Hrange.
    apply before_sameCells; symmetry; apply Hsc'.
    + apply Hrange in Ha. lia.
    + apply Hrange in Hb'. lia.
Qed.

End joinSorted.

(** [joinPartitions] at any position keeps the heap. *)
Lemma joinPartitions_keeps N h i :
  heapOk N h → ScoreHeap.nextId h + 1 ≤ limit →
  ∃ h', ScoreHeap.joinPartitions h i = Some h' ∧ joinKeeps N h h'.
Proof.
  intros Hok Hroom.
  destruct (decide (0 ≤ i ∧ i < Z.of_nat (length (ScoreHeap.partitions h)) - 1)) as [Hi|Hi];
    [|exists h; split; [apply joinPartitions_outside; done|apply joinKeeps_refl; done]].
  destruct (lookup_lt_is_Some_2 (ScoreHeap.partitions h) (Z.to_nat i)) as [p1 H1]; [lia|].
  apply list_elem_of_split_length in H1 as (l1 & rest & Hps & Hlen).
  destruct rest as [|p2 l2].
  { rewrite Hps, length_app in Hi. simpl in Hi. lia. }
  replace i with (Z.of_nat (length l1)) by lia.
  pose proof Hok as [Hlk _ _ _ _ _ _ _ _].
  assert (Hps2 : ScoreHeap.partitions h = (l1 ++ [p1]) ++ p2 :: l2)
    by (rewrite <- app_assoc; done).
  destruct (heap_seg_at N h _ p2 l2 Hok Hps2) as [Hs2 _].
  destruct (Segment_max_ok N _ _ p2 Hlk Hs2) as (m2 & Hmax & _).
  destruct (decide (Seg.min p1 = m2)) as [Heq|Hne].
  - destruct (Seg.uniform p1) eqn:Hu1.
    + destruct (join_lower N h l1 p1 p2 l2 m2 Hok Hroom Hps Hmax Heq Hu1) as (h' & r & Hrun & Hk & _).
      exists h'. done.
    + destruct (Seg.uniform p2) eqn:Hu2.
      * destruct (join_upper N h l1 p1 p2 l2 m2 Hok Hroom Hps Hmax Heq Hu1 Hu2)
          as (h' & r & Hrun & Hk & _).
        exists h'. done.
      * destruct (join_fresh N h l1 p1 p2 l2 m2 Hok Hroom Hps Hmax Hu1 Hu2 Heq)
          as (h' & r & Hrun & Hk & _).
        exists h'. done.
  - destruct (decide (Seg.uniform p1 = false ∧ Seg.uniform p2 = false
                      ∧ Seg.length p1 + Seg.length p2 ≤ ScoreHeap.partitionLength h))
      as [(Hu1 & Hu2 & Hfit)|Hno].
    + destruct (join_sorted N h l1 p1 p2 l2 m2 Hok Hroom Hps Hmax Hu1 Hu2 Hne Hfit)
        as (h' & r & Hrun & Hk & _).
      exists h'. done.
    + exists h. split; [|apply joinKeeps_refl; done].
      rewrite (joinPartitions_at h l1 p1 p2 l2 m2 Hps Hmax). cbv zeta.
      rewrite bool_decide_eq_false_2 by done. rewrite bool_decide_eq_false_2 by done. done.
Qed.

(** *** The removal part of [update] *)

Lemma atPartition_run h l1 p l2 i f lk' p' :
  ScoreHeap.partitions h = l1 ++ p :: l2 → i = Z.of_nat (length l1) →
  f (ScoreHeap.lookups h) p = Some (lk', p') →
  ScoreHeap.atPartition h i f
  = Some (ScoreHeap.Make lk' (l1 ++ p' :: l2) (ScoreHeap.partitionIds h)
            (ScoreHeap.nextId h) (ScoreHeap.partitionLength h)).
Proof.
  intros Hps -> Hf. unfold ScoreHeap.atPartition. rewrite Hps.
  rewrite jsget_middle by done. cbn [mbind option_bind]. rewrite Hf.
  cbn [mbind option_bind]. heap_simpl. rewrite jsput_middle by done. done.
Qed.

Lemma others_trans N h1 h2 h3 x : others N h1 h2 x → others N h2 h3 x → others N h1 h3 x.
Proof.
  intros H12 H23 y Hy Hne. destruct (H12 y Hy Hne) as [Hs1 Ho1].
  destruct (H23 y Hy Hne) as [Hs2 Ho2]. split; [congruence|tauto].
Qed.

Lemma joinKeeps_others N h h' x : joinKeeps N h h' → others N h h' x.
Proof.
  intros (_ & _ & Hsc & Habs & Hpres & _) y Hy Hne. split; [apply Hsc; lia|].
  split; [|apply Hpres; done].
  intros Ho. destruct (decide (0 ≤ ownerAt (ScoreHeap.lookups h) y)) as [|Hneg]; [done|].
  destruct (Habs y ltac:(lia) ltac:(lia)) as (_ & Heq & _). lia.
Qed.

Lemma displace_ok N h x l1 p l2 :
  heapOk N h → ScoreHeap.nextId h + 1 ≤ limit →
  ScoreHeap.partitions h = l1 ++ p :: l2 → x ∈ View.live p →
  ∃ h', ScoreHeap.displace h (Z.of_nat (length l1)) x = Some h'
    ∧ heapOk N h'
    ∧ ownerAt (ScoreHeap.lookups h') x < 0
    ∧ others N h h' x
    ∧ ScoreHeap.nextId h ≤ ScoreHeap.nextId h' ≤ ScoreHeap.nextId h + 1
    ∧ ScoreHeap.partitionLength h' = ScoreHeap.partitionLength h
    ∧ mass (ScoreHeap.partitions h') ≤ mass (ScoreHeap.partitions h).
Proof.
  intros Hok Hroom Hps Hx. pose proof Hok as [Hlk _ _ _ _ Hsegs Hids _ _].
  destruct (heap_seg_at N h l1 p l2 Hok Hps) as [Hsp _].
  destruct (segOk_member _ _ _ _ _ Hsp Hx) as (Hxr & _).
  destruct (leave_ok N h x l1 p l2 Hok Hps Hx)
    as (lk' & p' & Hrun & Hlen & Hown & Hoth & Hsc & Hlenp & Hkeep & Hdrop).
  assert (Hothers : ∀ ps' ids',
    others N h (ScoreHeap.Make lk' ps' ids' (ScoreHeap.nextId h) (ScoreHeap.partitionLength h)) x).
  { intros ps' ids' y Hy Hne. cbn [ScoreHeap.lookups].
    destruct (Hoth y ltac:(lia) Hne) as (-> & -> & _). done. }
  unfold ScoreHeap.displace.
  rewrite (atPartition_run h l1 p l2 _ _ lk' p' Hps eq_refl Hrun). cbn [mbind option_bind].
  cbn [ScoreHeap.partitions]. rewrite jsget_middle by done. cbn [mbind option_bind].
  case_bool_decide as Hz.
  - heap_simpl. rewrite splice_delete by done.
    edestruct (reindex_ok (ScoreHeap.Make lk' (l1 ++ l2) (ScoreHeap.partitionIds h)
                 (ScoreHeap.nextId h) (ScoreHeap.partitionLength h))
                 (Z.of_nat (length l1)) (l1 ++ l2)) as (ids' & Hre & Hids'); [done|lia| | |].
    + apply (NoDup_ids_delete l1 [p] l2). cbn [app]. rewrite <- Hps.
      eapply idsOk_NoDup. done.
    + cbn [ScoreHeap.partitionIds]. intros k q Hk Hq. apply Hids. rewrite Hps.
      rewrite lookup_app_l in Hq by lia. apply lookup_app_l_Some. done.
    + rewrite Hre. cbn [mbind option_bind]. heap_simpl.
      specialize (Hdrop Hz ids' Hids').
      destruct (joinPartitions_keeps N _ (Z.of_nat (length l1) - 1) Hdrop)
        as (h' & Hjoin & Hk); [done|].
      exists h'. split; [exact Hjoin|].
      pose proof (joinKeeps_others N _ _ x Hk) as Hoj.
      destruct Hk as (Hok' & Hl' & Hsc' & Habs & Hpres & Hnid & HPL & Hmass).
      cbn [ScoreHeap.lookups ScoreHeap.partitions ScoreHeap.nextId
           ScoreHeap.partitionLength] in *.
      split; [done|]. split; [|split; [|split; [done|split; [done|]]]].
      * destruct (Habs x ltac:(lia) ltac:(lia)) as (_ & -> & _). lia.
      * eapply others_trans; [apply (Hothers (l1 ++ l2) ids')|exact Hoj].
      * rewrite Hmass, Hps, !mass_app, mass_cons.
        apply segOk_length in Hsp. lia.
  - cbn [mbind option_bind]. eexists. split; [reflexivity|]. heap_simpl.
    split; [apply Hkeep; done|]. split; [lia|]. split; [apply Hothers|].
    split; [lia|]. split; [done|]. rewrite Hps, !mass_app, !mass_cons. lia.
Qed.

(** The score of an absent identifier is written. *)
Lemma score_write_ok N h x s :
  heapOk N h → 0 ≤ x < N → ownerAt (ScoreHeap.lookups h) x < 0 → is_int32 s →
  let h' := ScoreHeap.with_lookups h (TypedArray.put (ScoreHeap.lookups h) (x * 3) s) in
  heapOk N h'
  ∧ scoreAt (ScoreHeap.lookups h') x = s
  ∧ ownerAt (ScoreHeap.lookups h') x = ownerAt (ScoreHeap.lookups h) x
  ∧ (∀ y, 0 ≤ y → y ≠ x → sameCells (ScoreHeap.lookups h) (ScoreHeap.lookups h') y).
Proof.
  intros Hok Hx Hneg Hs h'. pose proof Hok as [Hlk _ _ _ _ _ Hids _ _].
  assert (Hoth : ∀ y, 0 ≤ y → y ≠ x →
            sameCells (ScoreHeap.lookups h) (TypedArray.put (ScoreHeap.lookups h) (x * 3) s) y).
  { intros y Hy Hne. apply sameCells_put_score; (done || lia). }
  split; [|split; [|split; [|done]]].
  - unfold h'. heap_simpl.
    rewrite <- (app_nil_r (ScoreHeap.partitions h)).
    apply (heapOk_surgery N h (ScoreHeap.partitions h) [] [] _ [] _ _ [x]); try done.
    + rewrite app_nil_r. done.
    + apply put_length.
    + intros y Hy Hny. apply Hoth; [done|]. intros ->. apply Hny. left.
    + intros y ->%list_elem_of_singleton. left. done.
    + intros p y Hp. inversion Hp.
    + destruct Hok as [_ _ _ ? _ _ _ _ _]. lia.
    + cbn [app]. rewrite app_nil_r. done.
    + destruct Hok as [_ _ _ _ ? _ _ _ _]. lia.
    + intros y ->%list_elem_of_singleton _ Ho. exfalso.
      rewrite ownerAt_put_score in Ho by lia. lia.
  - unfold h'. heap_simpl. rewrite scoreAt_put_score by lia.
    rewrite decide_True by lia. apply toInt32_id. done.
  - unfold h'. heap_simpl. apply ownerAt_put_score. lia.
Qed.


(** ** An identifier enters a segment *)

Import Utility SearchSpec MergeSpec Inv Ghost.

Lemma heap_not_member N h p x :
  heapOk N h → p ∈ ScoreHeap.partitions h →
  ownerAt (ScoreHeap.lookups h) x < 0 → 0 ≤ x → x ∉ region p.
Proof.
  intros Hok Hp Hneg Hx Hin.
  apply list_elem_of_lookup_1 in Hp as [k Hk].
  destruct (heap_segOk N h k p Hok Hk) as [Hsp Hid].
  destruct (segOk_other N _ _ p ltac:(destruct Hok; lia) Hsp) as (_ & _ & _ & Hlive).
  destruct (segOk_member _ _ _ _ _ Hsp (Hlive x Hin Hx)) as (_ & Ho & _). lia.
Qed.

(** Into a uniform segment of the score. *)
Lemma insert_uniform_ok N h x s l1 q l2 hint f :
  heapOk N h → mass (ScoreHeap.partitions h) + 1 ≤ limit →
  ScoreHeap.partitions h = l1 ++ q :: l2 →
  Seg.uniform q = true → Seg.min q = s →
  0 ≤ x < N → ownerAt (ScoreHeap.lookups h) x < 0 → scoreAt (ScoreHeap.lookups h) x = s →
  f (ScoreHeap.lookups h) q = Segment.insert (ScoreHeap.lookups h) q x s hint →
  ∃ h', ScoreHeap.atPartition h (Z.of_nat (length l1)) f = Some h'
    ∧ placedSpec N h h' x s.
Proof.
  intros Hok Hroom Hps Hu Hmin Hx Hneg Hs Hf.
  pose proof Hok as [Hlk HN HPL Hnid Hm Hsegs Hids Howned Hordered].
  destruct (heap_seg_at N h l1 q l2 Hok Hps) as [Hsq Hidq].
  pose proof (heap_length_le N h l1 q l2 Hok Hps) as Hlim.
  pose proof (heap_id_int32 N h l1 q l2 Hok Hps) as Hint.
  rewrite Hps in Hordered. destruct (ordered_around _ _ _ _ Hordered) as [Hprev Hnext].
  pose proof Hsq as Hsq'. unfold segOk in Hsq'. rewrite Hu in Hsq'.
  assert (Hnin : x ∉ region q).
  { eapply (heap_not_member N h q x); try done; [|lia].
    rewrite Hps. apply elem_of_app. right. left. }
  destruct (Uniform_insert_ok N _ q x Hlk ltac:(lia) Hsq' Hlim Hint Hx ltac:(lia) Hnin)
    as (ind & Hrun & Hreg & Hok').
  cbv zeta in Hrun, Hok'.
  destruct (owner_slot_written N (ScoreHeap.lookups h) x (Seg.id q) (Seg.length q) Hlk Hx)
    as (Hlen1 & Hsc1 & Hown1 & _ & Hoth1). cbv zeta in Hlen1, Hsc1, Hown1, Hoth1.
  rewrite toInt32_id in Hown1 by done.
  set (lk' := TypedArray.put (TypedArray.put (ScoreHeap.lookups h) (x * 3 + 1) (Seg.id q))
                (x * 3 + 2) (Seg.length q)) in *.
  set (q' := Seg.Make (Seg.uniform q) (Seg.id q) ind (Seg.length q + 1) (Seg.min q)) in *.
  assert (Hregq' : region q' = region q ++ [x]) by exact Hreg.
  rewrite (atPartition_run h l1 q l2 _ _ lk' q' Hps eq_refl)
    by (rewrite Hf; unfold Segment.insert; rewrite Hu; exact Hrun).
  eexists. split; [reflexivity|]. unfold placedSpec. heap_simpl.
  split; [|split; [lia|split; [rewrite Hsc1 by lia; done|split; [|done]]]].
  - apply (heapOk_surgery N h l1 [q] l2 lk' [q'] _ _ (x :: View.live q)); try done.
    + intros y Hy Hny. apply not_elem_of_cons in Hny as [Hne _]. apply Hoth1; done.
    + intros y [->|Hy]%elem_of_cons; [left; done|right].
      exists q. split; [left|done].
    + intros p y ->%list_elem_of_singleton Hy. right. done.
    + repeat constructor; [unfold segOk; simpl; rewrite Hu; done|simpl; lia|simpl; lia].
    + lia.
    + cbn [app]. eapply idsOk_replace; [rewrite <- Hps; done|done].
    + rewrite !mass_cons. simpl. lia.
    + intros y Hy Hyr Hyo. exists q'. split; [left|].
      assert (Hlq' : ∀ z, z ∈ View.live q' ↔ z ∈ region q' ∧ 0 ≤ z)
        by (intros z; apply live_uniform; done).
      apply elem_of_cons in Hy as [->|Hy].
      * split; [simpl; congruence|]. apply Hlq'. rewrite Hregq'. split; [|lia].
        apply elem_of_app. right. left.
      * destruct (segOk_member _ _ _ _ _ Hsq Hy) as (_ & Ho & _ & Hyreg).
        assert (Hne : y ≠ x) by (intros ->; done).
        destruct (Hoth1 y ltac:(lia) Hne) as (_ & Ho' & _).
        split; [simpl; congruence|]. apply Hlq'. rewrite Hregq'. split; [|lia].
        apply elem_of_app. left. done.
    + intros p r Hp Hr. cbn in Hr. injection Hr as <-. apply Hprev, Hp.
    + intros p r Hp Hr. cbn in Hp. injection Hp as <-.
      specialize (Hnext r Hr). unfold below in *. simpl. rewrite Hu in *. done.
  - intros y Hy Hne. cbn [ScoreHeap.lookups].
    destruct (Hoth1 y ltac:(lia) Hne) as (-> & -> & _). done.
Qed.

(** Into a sorted segment with room. *)
Lemma insert_sorted_ok N h x s l1 q l2 hint la lb G' f :
  heapOk N h → mass (ScoreHeap.partitions h) + 1 ≤ limit →
  ScoreHeap.partitions h = l1 ++ q :: l2 →
  Seg.uniform q = false →
  0 ≤ x < N → ownerAt (ScoreHeap.lookups h) x < 0 → scoreAt (ScoreHeap.lookups h) x = s →
  insertsAt (ScoreHeap.lookups h) q x s hint la lb G' →
  (∀ p0, last l1 = Some p0 → below (ScoreHeap.lookups h) p0 s) →
  (∀ r, head l2 = Some r → s ≤ Seg.min r) →
  f (ScoreHeap.lookups h) q = Segment.insert (ScoreHeap.lookups h) q x s hint →
  ∃ h', ScoreHeap.atPartition h (Z.of_nat (length l1)) f = Some h'
    ∧ placedSpec N h h' x s.
Proof.
  intros Hok Hroom Hps Hu Hx Hneg Hs (Hreg & Hka & Hkb & Hrun & HlenG) Hlow Hup Hf.
  pose proof Hok as [Hlk HN HPL Hnid Hmass Hsegs Hids Howned Hordered].
  destruct (heap_seg_at N h l1 q l2 Hok Hps) as [Hsq Hidq].
  pose proof (heap_id_int32 N h l1 q l2 Hok Hps) as Hint.
  rewrite Hps in Hordered. destruct (ordered_around _ _ _ _ Hordered) as [Hprev Hnext].
  pose proof Hsq as Hsq'. unfold segOk in Hsq'. rewrite Hu in Hsq'.
  pose proof Hsq' as [Hcap Hlen Hrange Hsorted Hown Hminq].
  pose proof (region_length q ltac:(lia)) as Hnq.
  assert (Hnin : x ∉ region q).
  { eapply (heap_not_member N h q x); try done; [|lia].
    rewrite Hps. apply elem_of_app. right. left. }
  set (lk' := TypedArray.put (ScoreHeap.lookups h) (x * 3 + 1) (Seg.id q)) in *.
  set (m := if bool_decide (la = []) then s else Seg.min q) in *.
  set (q' := Seg.Make (Seg.uniform q) (Seg.id q) (la ++ x :: lb ++ G') (Seg.length q + 1) m) in *.
  assert (Hown1 : ownerAt lk' x = Seg.id q).
  { unfold lk'. rewrite ownerAt_put_owner_same by lia. apply toInt32_id. done. }
  assert (Hoth1 : ∀ y, 0 ≤ y → y ≠ x → sameCells (ScoreHeap.lookups h) lk' y).
  { intros y Hy Hne. apply sameCells_put_owner; done. }
  assert (Hsc1 : ∀ y, 0 ≤ y → scoreAt lk' y = scoreAt (ScoreHeap.lookups h) y).
  { intros y Hy. apply scoreAt_put_owner. done. }
  assert (Hm : m ≤ s ∧ Forall (λ y, m ≤ scoreAt (ScoreHeap.lookups h) y) (la ++ lb)
               ∧ Seg.min q ≤ m ∨ (la = [] ∧ m = s ∧ Forall (λ y, m ≤ scoreAt (ScoreHeap.lookups h) y) (la ++ lb))).
  { unfold m. case_bool_decide as Hla.
    - right. split; [done|]. split; [done|]. subst la. cbn [app].
      eapply Forall_impl; [exact Hkb|]. simpl. intros y Hy.
      unfold keyLt, keyOf in Hy. simpl in Hy. lia.
    - left. rewrite <- Hreg. split; [|split; [done|lia]].
      destruct la as [|y la']; [done|]. apply Forall_cons in Hka as [Hy _].
      rewrite Hreg in Hminq. apply Forall_cons in Hminq as [Hmy _].
      unfold keyLt, keyOf in Hy. simpl in Hy. lia. }
  assert (Hms : m ≤ s) by (destruct Hm as [(? & _)|(_ & -> & _)]; lia).
  assert (HmL : Forall (λ y, m ≤ scoreAt (ScoreHeap.lookups h) y) (la ++ lb))
    by (destruct Hm as [(_ & ? & _)|(_ & _ & ?)]; done).
  rewrite Hreg in Hrange, Hsorted, Hown, Hnin, Hnq. rewrite length_app in Hnq.
  assert (Hsq1 : sortedOk N (ScoreHeap.partitionLength h) lk' q').
  { eapply (sortedOk_placed N _ (ScoreHeap.lookups h) lk'); try done.
    - rewrite Hsc1 by lia. done.
    - rewrite HlenG. done.
    - rewrite length_app. lia. }
  assert (Hregq' : region q' = la ++ x :: lb).
  { apply (region_shape _ (la ++ x :: lb) G'); [simpl; rewrite <- app_assoc; done|].
    simpl. rewrite length_app. simpl. lia. }
  assert (Hlq : View.live q = la ++ lb) by (rewrite live_sorted; done).
  rewrite (atPartition_run h l1 q l2 _ _ lk' q' Hps eq_refl)
    by (rewrite Hf; unfold Segment.insert; rewrite Hu; exact Hrun).
  eexists. split; [reflexivity|]. unfold placedSpec. heap_simpl.
  split; [|split; [lia|split; [rewrite Hsc1 by lia; done|split; [|done]]]].
  - apply (heapOk_surgery N h l1 [q] l2 lk' [q'] _ _ (x :: View.live q)); try done.
    + unfold lk'. apply put_length.
    + intros y Hy Hny. apply not_elem_of_cons in Hny as [Hne _]. apply Hoth1; done.
    + intros y [->|Hy]%elem_of_cons; [left; done|right].
      exists q. split; [left|done].
    + intros p y ->%list_elem_of_singleton Hy. right. done.
    + repeat constructor; [unfold segOk; simpl; rewrite Hu; done|simpl; lia|simpl; lia].
    + lia.
    + cbn [app]. eapply idsOk_replace; [rewrite <- Hps; done|done].
    + rewrite !mass_cons. simpl. lia.
    + intros y Hy Hyr Hyo. exists q'. split; [left|].
      rewrite (live_sorted q') by done. rewrite Hregq'. rewrite Hlq in Hy.
      apply elem_of_cons in Hy as [->|Hy].
      * split; [simpl; congruence|]. apply elem_of_app. right. left.
      * assert (Hne : y ≠ x) by (intros ->; done).
        destruct (Hoth1 y ltac:(lia) Hne) as (_ & Ho' & _).
        rewrite Forall_forall in Hown. split; [simpl; rewrite Ho'; symmetry; auto|].
        rewrite elem_of_app, elem_of_cons. rewrite elem_of_app in Hy. tauto.
    + intros p r Hp Hr. cbn in Hr. injection Hr as <-. cbn [Seg.min q'].
      unfold m. case_bool_decide; [apply Hlow, Hp|apply Hprev, Hp].
    + intros p r Hp Hr. cbn in Hp. injection Hp as <-.
      specialize (Hnext r Hr). specialize (Hup r Hr).
      unfold below in *. cbn [Seg.uniform q']. rewrite Hu in *. rewrite Hregq'.
      rewrite Hreg in Hnext. apply (placed_below (ScoreHeap.lookups h) lk' x s); try done.
      * intros y Hy. apply Hsc1. rewrite Forall_forall in Hrange. apply Hrange in Hy. lia.
      * rewrite Hsc1 by lia. done.
  - intros y Hy Hne. cbn [ScoreHeap.lookups].
    destruct (Hoth1 y ltac:(lia) Hne) as (-> & -> & _). done.
Qed.

Lemma NoDup_ids_fresh (a b : list Seg.t) r :
  NoDup (Seg.id <$> a ++ b) → (∀ p, p ∈ a ++ b → Seg.id p ≠ Seg.id r) →
  NoDup (Seg.id <$> a ++ r :: b).
Proof.
  intros Hnd Hfresh. rewrite fmap_app in Hnd |- *. rewrite fmap_cons.
  apply NoDup_app in Hnd as (Ha & Hab & Hb). apply NoDup_app.
  split; [done|]. split.
  - intros i Hi [->|Hi2]%elem_of_cons; [|eapply Hab; done].
    apply list_elem_of_fmap in Hi as (p & Hp & Hin).
    apply (Hfresh p); [apply elem_of_app; auto|done].
  - apply NoDup_cons. split; [|done].
    intros (p & Hp & Hin)%list_elem_of_fmap.
    apply (Hfresh p); [apply elem_of_app; auto|done].
Qed.

(** All the members of a sorted segment whose [min] is its [max] have
    that score. *)
Lemma flat_segment N PL lk q s :
  Z.of_nat (length lk) = 3 * N → segOk N PL lk q →
  Seg.min q = s → Segment.max lk q = Some s →
  ∀ y, y ∈ View.live q → scoreAt lk y = s.
Proof.
  intros Hlk Hsq Hmin Hmax y Hy.
  destruct (Segment_max_ok N PL lk q Hlk Hsq) as (m & Hm & _ & Hle & _).
  rewrite Hmax in Hm. injection Hm as <-.
  destruct (segOk_member _ _ _ _ _ Hsq Hy) as (_ & _ & Hge & _).
  specialize (Hle y Hy). lia.
Qed.

(** A full sorted segment of one score becomes a uniform segment and
    takes the identifier. *)
Lemma convert_ok N h x s l1 q l2 :
  heapOk N h → mass (ScoreHeap.partitions h) + 1 ≤ limit →
  ScoreHeap.partitions h = l1 ++ q :: l2 →
  Seg.uniform q = false → Seg.length q = ScoreHeap.partitionLength h →
  Seg.min q = s → Segment.max (ScoreHeap.lookups h) q = Some s →
  0 ≤ x < N → ownerAt (ScoreHeap.lookups h) x < 0 → scoreAt (ScoreHeap.lookups h) x = s →
  ∃ h', ScoreHeap.convertAndInsert h (Z.of_nat (length l1)) x s = Some h'
    ∧ placedSpec N h h' x s.
Proof.
  intros Hok Hroom Hps Hu Hfull Hmin Hmax Hx Hneg Hs.
  pose proof Hok as [Hlk HN HPL Hnid Hmass Hsegs Hids Howned Hordered].
  destruct (heap_seg_at N h l1 q l2 Hok Hps) as [Hsq Hidq].
  pose proof (heap_id_int32 N h l1 q l2 Hok Hps) as Hint.
  pose proof (flat_segment N _ _ q s Hlk Hsq Hmin Hmax) as Hflat.
  rewrite Hps in Hordered. destruct (ordered_around _ _ _ _ Hordered) as [Hprev Hnext].
  pose proof Hsq as Hsq'. unfold segOk in Hsq'. rewrite Hu in Hsq'.
  pose proof Hsq' as [Hcap Hlen Hrange Hsorted Hown Hminq].
  rewrite (live_sorted q Hu) in Hflat.
  assert (Hreg : region q = Seg.indices q) by (unfold region; apply take_ge; lia).
  assert (Hnin : x ∉ region q).
  { eapply (heap_not_member N h q x); try done; [|lia].
    rewrite Hps. apply elem_of_app. right. left. }
  destruct (Uniform_new_ok N (ScoreHeap.lookups h) (Seg.id q) (Seg.indices q) s)
    as (Hrun & Htag & Hok'); try done.
  { intros Hnil. rewrite Hnil in Hcap. simpl in Hcap. lia. }
  { unfold limit. lia. }
  { rewrite <- Hreg. done. }
  { rewrite <- Hreg. eapply StronglySorted_NoDup. done. }
  { rewrite <- Hreg. apply Forall_forall. done. }
  cbv zeta in Hrun, Htag, Hok'. destruct Htag as [Hl' Hsc' Hslot' Hoth'].
  set (lk1 := tagLoop (Seg.id q) (Seg.indices q) 0 (ScoreHeap.lookups h)) in *.
  set (u := Seg.Make true (Seg.id q) (Seg.indices q)
              (Z.of_nat (length (Seg.indices q))) s) in *.
  assert (Hregu : region u = region q).
  { unfold region at 1, u. simpl. rewrite Nat2Z.id, firstn_all. done. }
  set (h1 := ScoreHeap.Make lk1 (l1 ++ u :: l2) (ScoreHeap.partitionIds h)
               (ScoreHeap.nextId h) (ScoreHeap.partitionLength h)).
  assert (Hok1 : heapOk N h1).
  { apply (heapOk_surgery N h l1 [q] l2 lk1 [u] _ _ (View.live q)); try done.
    - intros y Hy Hny. apply Hoth'; [done|]. rewrite <- Hreg, <- (live_sorted q Hu). done.
    - intros y Hy. right. exists q. split; [left|done].
    - intros p y ->%list_elem_of_singleton Hy. done.
    - apply Forall_cons. split; [split; [exact Hok'|simpl; lia]|constructor].
    - lia.
    - cbn [app]. eapply idsOk_replace; [rewrite <- Hps; done|done].
    - rewrite !mass_cons. simpl. lia.
    - intros y Hy Hyr Hyo. exists u. split; [left|].
      rewrite (live_sorted q Hu) in Hy.
      pose proof Hy as [j Hj]%list_elem_of_lookup_1. rewrite Hreg in Hj.
      destruct (Hslot' j y Hj ltac:(lia)) as [Ho _]. split; [simpl; congruence|].
      apply live_uniform; [done|]. rewrite Hregu. split; [done|lia].
    - intros p r Hp Hr. cbn in Hr. injection Hr as <-. simpl. rewrite <- Hmin.
      apply Hprev, Hp.
    - intros p r Hp Hr. cbn in Hp. injection Hp as <-.
      specialize (Hnext r Hr). unfold below in *. simpl. rewrite Hu in Hnext.
      destruct (region q) as [|y R] eqn:HR.
      + apply (f_equal length) in Hreg. simpl in Hreg. lia.
      + apply Forall_cons in Hnext as [Hy _]. rewrite (Hflat y) in Hy; [done|left]. }
  assert (Hx1 : sameCells (ScoreHeap.lookups h) lk1 x).
  { apply Hoth'; [lia|]. rewrite <- Hreg. done. }
  destruct Hx1 as (Hxs & Hxo & _).
  destruct (insert_uniform_ok N h1 x s l1 u l2 None
              (λ lookups p, Segment.insert lookups p x s None) Hok1)
    as (h' & Hrun2 & Hspec); try done.
  { unfold h1. cbn [ScoreHeap.partitions]. rewrite Hps in Hroom.
    rewrite !mass_app, !mass_cons in Hroom |- *. simpl. lia. }
  { unfold h1. cbn [ScoreHeap.lookups]. lia. }
  { unfold h1. cbn [ScoreHeap.lookups]. lia. }
  exists h'. split.
  - unfold ScoreHeap.convertAndInsert.
    rewrite (atPartition_run h l1 q l2 _ _ lk1 u Hps eq_refl).
    + cbn [mbind option_bind]. exact Hrun2.
    + cbn beta. rewrite Hfull, <- Hcap. exact Hrun.
  - destruct Hspec as (Hok2 & Ho2 & Hs2 & Hoth2 & HPL2).
    split; [done|]. split; [done|]. split; [done|]. split; [|done].
    eapply others_trans; [|exact Hoth2].
    intros y Hy Hne. unfold h1. cbn [ScoreHeap.lookups]. split; [apply Hsc'; lia|].
    destruct (decide (y ∈ Seg.indices q)) as [Hin|Hnin'].
    + pose proof Hin as [j Hj]%list_elem_of_lookup_1.
      destruct (Hslot' j y Hj ltac:(lia)) as [-> _].
      rewrite <- Hreg in Hin. rewrite Forall_forall in Hown. rewrite (Hown y Hin). done.
    + destruct (Hoth' y ltac:(lia) Hnin') as (_ & -> & _). done.
Qed.

Lemma ids_below N h p :
  heapOk N h → p ∈ ScoreHeap.partitions h → Seg.id p < ScoreHeap.nextId h.
Proof.
  intros Hok [k Hk]%list_elem_of_lookup_1.
  destruct (heap_segOk N h k p Hok Hk) as [_ Hid]. lia.
Qed.

(** [insertPartition]: the new sorted segment of the members [R] at
    position [length l1], its id recorded. *)
Lemma insertPartition_run N (h : ScoreHeap.t) l1 l2 R G :
  Z.of_nat (length (ScoreHeap.lookups h)) = 3 * N →
  0 ≤ ScoreHeap.nextId h < limit →
  ScoreHeap.partitions h = l1 ++ l2 →
  NoDup (Seg.id <$> l1 ++ l2) →
  (∀ p, p ∈ l1 ++ l2 → Seg.id p < ScoreHeap.nextId h) →
  (∀ k p, l1 !! k = Some p → ScoreHeap.partitionIds h !! Seg.id p = Some (Z.of_nat k)) →
  R ≠ [] → Forall (λ y, 0 ≤ y < N) R →
  ∃ lk' ids',
    let q := Seg.Make false (ScoreHeap.nextId h) (R ++ G) (Z.of_nat (length R))
               (scoreAt (ScoreHeap.lookups h) (default 0 (head R))) in
    ScoreHeap.insertPartition h (Z.of_nat (length l1)) (R ++ G) (Z.of_nat (length R))
    = Some (ScoreHeap.Make lk' (l1 ++ q :: l2) ids' (ScoreHeap.nextId h + 1)
              (ScoreHeap.partitionLength h))
    ∧ handed (ScoreHeap.lookups h) lk' R (ScoreHeap.nextId h)
    ∧ idsOk ids' (l1 ++ q :: l2).
Proof.
  intros Hlk Hnid Hps Hnd Hbelow Hpre HR Hrange.
  destruct (Partition_new_ok N (ScoreHeap.lookups h) (ScoreHeap.nextId h) (R ++ G)
              (Z.of_nat (length R)) R G) as (lk' & Hrun & Hh & _); try done.
  { unfold is_int32, limit in *. lia. }
  set (q := Seg.Make false (ScoreHeap.nextId h) (R ++ G) (Z.of_nat (length R))
              (scoreAt (ScoreHeap.lookups h) (default 0 (head R)))) in *.
  destruct (reindex_at lk' l1 q l2
              (<[ScoreHeap.nextId h := Z.of_nat (length l1)]> (ScoreHeap.partitionIds h))
              (ScoreHeap.nextId h + 1)
              (ScoreHeap.partitionLength h) (Z.of_nat (length l1) + 1))
    as (ids' & Hre & Hids').
  { apply NoDup_ids_fresh; [done|]. intros p Hp. specialize (Hbelow p Hp). simpl. lia. }
  { intros k p Hk. rewrite lookup_insert_ne; [auto|].
    assert (Seg.id p < ScoreHeap.nextId h); [|lia].
    apply Hbelow. apply elem_of_app. left. eapply list_elem_of_lookup_2. done. }
  { right. split; [done|]. apply lookup_insert_eq. }
  exists lk', ids'. cbv zeta. split; [|done].
  unfold ScoreHeap.insertPartition. rewrite Hrun. cbn [mbind option_bind].
  rewrite Hps, splice_insert by done. exact Hre.
Qed.

(** A new segment for the identifier alone. *)
Lemma singleton_ok N h x s l1 l2 :
  heapOk N h → mass (ScoreHeap.partitions h) + 1 ≤ limit →
  ScoreHeap.nextId h + 1 ≤ limit →
  ScoreHeap.partitions h = l1 ++ l2 →
  0 ≤ x < N → ownerAt (ScoreHeap.lookups h) x < 0 → scoreAt (ScoreHeap.lookups h) x = s →
  (∀ p, last l1 = Some p → below (ScoreHeap.lookups h) p s) →
  (∀ r, head l2 = Some r → s ≤ Seg.min r) →
  ∃ h', ScoreHeap.insertSingleton h (Z.of_nat (length l1)) x = Some h'
    ∧ placedSpec N h h' x s.
Proof.
  intros Hok Hroom Hroom' Hps Hx Hneg Hs Hlow Hup.
  pose proof Hok as [Hlk HN HPL Hnid Hmass Hsegs Hids Howned Hordered].
  assert (Hxi : is_int32 x) by (unfold is_int32, limit in *; lia).
  set (G := replicate (Z.to_nat (ScoreHeap.partitionLength h) - 1) 0).
  assert (Hind : TypedArray.put (replicate (Z.to_nat (ScoreHeap.partitionLength h)) 0) 0 x
                 = [x] ++ G).
  { replace (Z.to_nat (ScoreHeap.partitionLength h))
      with (S (Z.to_nat (ScoreHeap.partitionLength h) - 1)) at 1 by lia.
    cbn [replicate]. apply (put_app_at [] _ 0 0 x); done. }
  destruct (insertPartition_run N h l1 l2 [x] G) as (lk' & ids' & Hrun & Hh & Hids');
    try done.
  { lia. }
  { rewrite <- Hps. eapply idsOk_NoDup. done. }
  { intros p Hp. eapply ids_below; [done|]. rewrite Hps. done. }
  { intros k p Hk. apply Hids. rewrite Hps. apply lookup_app_l_Some. done. }
  { repeat constructor; lia. }
  cbv zeta in Hrun. change (default 0 (head [x])) with x in Hrun, Hids'.
  change (length [x]) with 1%nat in Hrun, Hids'. rewrite Hs in Hrun, Hids'.
  destruct Hh as [Hl' Hsc' Hown' Hoth'].
  set (q := Seg.Make false (ScoreHeap.nextId h) ([x] ++ G) (Z.of_nat 1) s) in *.
  assert (Hregq : region q = [x]) by (apply (region_shape _ [x] G); done).
  assert (Hxo : ownerAt lk' x = ScoreHeap.nextId h) by (apply Hown'; left).
  eexists. split.
  - unfold ScoreHeap.insertSingleton. rewrite create_ok by fits. cbn [mbind option_bind].
    rewrite Hind. exact Hrun.
  - unfold placedSpec. heap_simpl.
    split; [|split; [lia|split; [rewrite Hsc' by lia; done|split; [|done]]]].
    + assert (Hsq : sortedOk N (ScoreHeap.partitionLength h) lk' q).
      { apply (sortedOk_intro N _ lk' _ _ _ _ _ [x] G).
        - done.
        - done.
        - unfold G. cbn [app length]. rewrite length_replicate. lia.
        - done.
        - apply Forall_singleton. lia.
        - repeat constructor.
        - apply Forall_singleton. done.
        - apply Forall_singleton. rewrite Hsc' by lia. lia. }
      apply (heapOk_surgery N h l1 [] l2 lk' [q] ids' (ScoreHeap.nextId h + 1) [x] Hok Hps Hl');
        try done.
      * intros y ->%list_elem_of_singleton. left. done.
      * intros p y Hp. inversion Hp.
      * apply Forall_cons. split; [split; [exact Hsq|simpl; lia]|constructor].
      * lia.
      * rewrite mass_cons. unfold mass at 1 2. simpl. lia.
      * intros y ->%list_elem_of_singleton _ _. exists q. split; [left|].
        split; [done|]. rewrite live_sorted by done. rewrite Hregq. left.
      * intros p r Hp Hr. cbn in Hr. injection Hr as <-. apply Hlow, Hp.
      * intros p r Hp Hr. cbn in Hp. injection Hp as <-. specialize (Hup r Hr).
        unfold below. cbn [Seg.uniform q]. rewrite Hregq.
        repeat constructor. rewrite Hsc' by lia. lia.
    + intros y Hy Hne. cbn [ScoreHeap.lookups].
      destruct (Hoth' y ltac:(lia)) as (-> & -> & _); [|done].
      intros ->%list_elem_of_singleton. done.
Qed.

(** A full sorted segment gives its upper half to a new segment. *)
Lemma split_ok N h l1 q l2 :
  heapOk N h → ScoreHeap.nextId h + 1 ≤ limit →
  ScoreHeap.partitions h = l1 ++ q :: l2 →
  Seg.uniform q = false → Seg.length q = ScoreHeap.partitionLength h →
  ∃ splitIndices qlo qhi h2,
    Partition.split q = Some (splitIndices, qlo)
    ∧ ScoreHeap.insertPartition (ScoreHeap.with_partitions h (l1 ++ qlo :: l2))
        (Z.of_nat (length l1) + 1) splitIndices (ScoreHeap.partitionLength h / 2) = Some h2
    ∧ heapOk N h2
    ∧ ScoreHeap.partitions h2 = l1 ++ qlo :: qhi :: l2
    ∧ Seg.uniform qlo = false ∧ Seg.uniform qhi = false
    ∧ Seg.length qlo < ScoreHeap.partitionLength h
    ∧ Seg.length qhi < ScoreHeap.partitionLength h
    ∧ Seg.min qlo = Seg.min q ∧ Seg.min q ≤ Seg.min qhi
    ∧ (∀ y, 0 ≤ y → scoreAt (ScoreHeap.lookups h2) y = scoreAt (ScoreHeap.lookups h) y)
    ∧ (∀ y, 0 ≤ y < N →
         (0 ≤ ownerAt (ScoreHeap.lookups h2) y ↔ 0 ≤ ownerAt (ScoreHeap.lookups h) y))
    ∧ ScoreHeap.nextId h2 = ScoreHeap.nextId h + 1
    ∧ ScoreHeap.partitionLength h2 = ScoreHeap.partitionLength h
    ∧ mass (ScoreHeap.partitions h2) = mass (ScoreHeap.partitions h).
Proof.
  intros Hok Hroom Hps Hu Hfull.
  pose proof Hok as [Hlk HN HPL Hnid Hmass Hsegs Hids Howned Hordered].
  destruct (heap_seg_at N h l1 q l2 Hok Hps) as [Hsq Hidq].
  rewrite Hps in Hordered. destruct (ordered_around _ _ _ _ Hordered) as [Hprev Hnext].
  pose proof Hsq as Hsq'. unfold segOk in Hsq'. rewrite Hu in Hsq'.
  pose proof Hsq' as [Hcap Hlen Hrange Hsorted Hown Hminq].
  assert (HPL' : ScoreHeap.partitionLength h ≤ limit) by (unfold limit; lia).
  destruct (Partition_split_ok N _ _ q HPL' Hsq' Hfull ltac:(tauto))
    as (la & lb & Hreg & Hind & Hla & Hlb & Hsplit).
  set (PL := ScoreHeap.partitionLength h) in *.
  assert (Hhalf : 1 ≤ PL `div` 2 ∧ PL = 2 * (PL `div` 2)).
  { pose proof (Z.div_mod PL 2 ltac:(lia)). lia. }
  set (G := replicate (Z.to_nat (PL `div` 2)) 0) in *.
  set (qlo := Seg.with_length q (PL `div` 2)) in *.
  rewrite Hreg in Hrange, Hsorted, Hown, Hminq.
  apply Forall_app in Hrange as [Hra Hrb]. apply Forall_app in Hown as [Hoa Hob].
  apply Forall_app in Hminq as [Hma Hmb].
  pose proof (StronglySorted_NoDup _ _ Hsorted) as Hnd.
  apply NoDup_app in Hnd as (Hnda & Hndab & Hndb).
  apply StronglySorted_app in Hsorted as (Hsab & Hsa & Hsb).
  assert (Hlbne : lb ≠ []) by (intros ->; simpl in Hlb; lia).
  destruct (insertPartition_run N (ScoreHeap.with_partitions h (l1 ++ qlo :: l2))
              (l1 ++ [qlo]) l2 lb G) as (lk' & ids' & Hrun & Hh & Hids'); try done.
  { cbn [ScoreHeap.nextId ScoreHeap.with_partitions]. lia. }
  { cbn [ScoreHeap.partitions ScoreHeap.with_partitions]. rewrite <- app_assoc. done. }
  { rewrite <- app_assoc. cbn [app].
    pose proof (idsOk_NoDup _ _ Hids) as Hn. rewrite Hps in Hn.
    rewrite fmap_app, fmap_cons in Hn |- *. done. }
  { cbn [ScoreHeap.nextId ScoreHeap.with_partitions]. intros p Hp.
    rewrite <- app_assoc in Hp. cbn [app] in Hp.
    rewrite elem_of_app, elem_of_cons in Hp.
    destruct Hp as [Hp|[->|Hp]]; [|simpl; lia|];
      (eapply ids_below; [done|]; rewrite Hps, elem_of_app, elem_of_cons; tauto). }
  { cbn [ScoreHeap.partitionIds ScoreHeap.with_partitions]. intros k p Hk.
    apply lookup_app_Some in Hk as [Hk|[Hge Hk]].
    - apply Hids. rewrite Hps. apply lookup_app_l_Some. done.
    - destruct (k - length l1)%nat as [|?] eqn:Hd; [|done]. injection Hk as <-.
      replace k with (length l1) by lia. simpl. apply Hids.
      rewrite Hps, lookup_app_r by lia. rewrite Nat.sub_diag. done. }
  cbv zeta in Hrun.
  cbn [ScoreHeap.lookups ScoreHeap.nextId ScoreHeap.partitionLength ScoreHeap.with_partitions]
    in Hrun, Hh, Hids'.
  destruct Hh as [Hl' Hsc' Hown' Hoth'].
  set (qhi := Seg.Make false (ScoreHeap.nextId h) (lb ++ G) (Z.of_nat (length lb))
                (scoreAt (ScoreHeap.lookups h) (default 0 (head lb)))) in *.
  rewrite <- app_assoc in Hrun, Hids'. cbn [app] in Hrun, Hids'.
  assert (Hhd : ∃ b0 lb', lb = b0 :: lb') by (destruct lb; [done|eauto]).
  destruct Hhd as (b0 & lb' & Hlb0).
  assert (Hminhi : Seg.min qhi = scoreAt (ScoreHeap.lookups h) b0)
    by (unfold qhi; rewrite Hlb0; done).
  assert (Hb0 : b0 ∈ lb) by (rewrite Hlb0; left).
  assert (Hreglo : region qlo = la).
  { apply (region_shape _ la lb); [done|]. simpl. lia. }
  assert (Hreghi : region qhi = lb) by (apply (region_shape _ lb G); done).
  assert (Hcells : ∀ y, y ∈ la → sameCells (ScoreHeap.lookups h) lk' y).
  { intros y Hy. apply Hoth'; [|eapply Hndab; done].
    rewrite Forall_forall in Hra. apply Hra in Hy. lia. }
  assert (Hslo : sortedOk N PL lk' qlo).
  { apply (sortedOk_intro N PL lk' _ _ _ _ _ la lb).
    - done.
    - simpl. lia.
    - simpl. done.
    - intros ->. simpl in Hla. lia.
    - done.
    - eapply StronglySorted_ext; [|exact Hsa]. intros a b Ha Hb.
      apply before_sameCells; apply Hcells; done.
    - apply Forall_forall. intros y Hy. destruct (Hcells y Hy) as (_ & -> & _).
      rewrite Forall_forall in Hoa. simpl. auto.
    - apply Forall_forall. intros y Hy. destruct (Hcells y Hy) as (-> & _).
      rewrite Forall_forall in Hma. simpl. auto. }
  assert (Hshi : sortedOk N PL lk' qhi).
  { apply (sortedOk_intro N PL lk' _ _ _ _ _ lb G).
    - done.
    - done.
    - unfold G. rewrite length_app, length_replicate. lia.
    - done.
    - done.
    - eapply StronglySorted_ext; [|exact Hsb]. intros a b Ha Hb.
      rewrite Forall_forall in Hrb.
      apply before_sameCells; apply Hsc'; [apply Hrb in Ha|apply Hrb in Hb]; lia.
    - apply Forall_forall. intros y Hy. apply Hown'. done.
    - apply Forall_forall. intros y Hy. change (Seg.min qhi ≤ scoreAt lk' y). rewrite Hminhi.
      rewrite Forall_forall in Hrb. rewrite Hsc' by (apply Hrb in Hy; lia).
      rewrite Hlb0 in Hsb, Hy. apply StronglySorted_inv in Hsb as [_ Hfirst].
      apply elem_of_cons in Hy as [->|Hy]; [lia|].
      rewrite Forall_forall in Hfirst. specialize (Hfirst y Hy).
      unfold before, keyLt, keyOf in Hfirst. simpl in Hfirst. lia. }
  exists (lb ++ G), qlo, qhi. eexists. split; [exact Hsplit|].
  split.
  { replace (Z.of_nat (length l1) + 1) with (Z.of_nat (length (l1 ++ [qlo])))
      by (rewrite length_app; simpl; lia).
    replace (PL / 2) with (Z.of_nat (length lb)) by lia. exact Hrun. }
  heap_simpl.
  assert (Hmin0 : Seg.min q ≤ Seg.min qhi).
  { rewrite Hminhi. rewrite Forall_forall in Hmb. auto. }
  split; [|split; [done|split; [exact Hu|split; [done|split; [simpl; lia|split; [simpl; lia|
    split; [simpl; done|split; [done|split; [done|split; [|split; [done|split; [done|]]]]]]]]]]]].
  - apply (heapOk_surgery N h l1 [q] l2 lk' [qlo; qhi] ids' _ (View.live q) Hok Hps Hl').
    + intros y Hy Hny. apply Hoth'; [done|]. intros Hin. apply Hny.
      rewrite live_sorted, Hreg by done. apply elem_of_app. auto.
    + intros y Hy. right. exists q. split; [left|done].
    + intros p y ->%list_elem_of_singleton Hy. done.
    + apply Forall_cons. split; [split; [unfold segOk; simpl; rewrite Hu; done|simpl; lia]|].
      apply Forall_cons. split; [split; [exact Hshi|simpl; lia]|constructor].
    + lia.
    + exact Hids'.
    + rewrite !mass_cons. unfold mass at 1. simpl. lia.
    + intros y Hy Hyr Hyo. rewrite live_sorted, Hreg in Hy by done.
      apply elem_of_app in Hy as [Hy|Hy].
      * exists qlo. split; [left|]. destruct (Hcells y Hy) as (_ & -> & _).
        rewrite Forall_forall in Hoa. split; [simpl; symmetry; auto|].
        rewrite live_sorted by (simpl; done). rewrite Hreglo. done.
      * exists qhi. split; [right; left|]. split; [rewrite Hown' by done; done|].
        rewrite live_sorted by done. rewrite Hreghi. done.
    + apply ordered_cons. split; [|done]. intros r [= <-].
      unfold below. cbn [Seg.uniform qlo Seg.with_length]. rewrite Hu, Hreglo.
      apply Forall_forall. intros y Hy. destruct (Hcells y Hy) as (-> & _).
      rewrite Hminhi. specialize (Hsab y b0 Hy Hb0).
      unfold before, keyLt, keyOf in Hsab. simpl in Hsab. lia.
    + intros p r Hp Hr. cbn in Hr. injection Hr as <-. apply Hprev, Hp.
    + intros p r Hp Hr. cbn in Hp. injection Hp as <-.
      specialize (Hnext r Hr). unfold below in *. cbn [Seg.uniform qhi]. rewrite Hu in Hnext.
      rewrite Hreghi. rewrite Hreg in Hnext. apply Forall_app in Hnext as [_ Hnext].
      rewrite Forall_forall in Hnext, Hrb |- *. intros y Hy.
      rewrite Hsc' by (apply Hrb in Hy; lia). auto.
  - intros y Hy. destruct (decide (y ∈ lb)) as [Hin|Hnin].
    + rewrite Hown' by done. rewrite Forall_forall in Hob. rewrite (Hob y Hin). lia.
    + destruct (Hoth' y ltac:(lia) Hnin) as (_ & -> & _). done.
  - rewrite Hps, !mass_app, !mass_cons. simpl. lia.
Qed.


(** ** The search for the segment of a score *)

Import Utility SearchSpec MergeSpec Inv Ghost.

Lemma route_at ps s i :
  0 ≤ i < Z.of_nat (length ps) →
  ScoreHeap.route ps s i = Some (routeAt (Seg.min <$> ps) s i).
Proof.
  intros Hi. unfold ScoreHeap.route, routeAt. rewrite length_fmap.
  destruct (lookup_lt_is_Some_2 ps (Z.to_nat i)) as [p Hp]; [lia|].
  rewrite (jsget_lookup ps i p) by (done || lia). cbn [mbind option_bind].
  rewrite (list_lookup_total_correct (Seg.min <$> ps) (Z.to_nat i) (Seg.min p))
    by (rewrite list_lookup_fmap, Hp; done).
  case_bool_decide; [|case_bool_decide; done]. case_bool_decide; [done|].
  destruct (lookup_lt_is_Some_2 ps (Z.to_nat (i + 1))) as [q Hq]; [lia|].
  rewrite (jsget_lookup ps (i + 1) q) by (done || lia). cbn [mbind option_bind].
  rewrite (list_lookup_total_correct (Seg.min <$> ps) (Z.to_nat (i + 1)) (Seg.min q))
    by (rewrite list_lookup_fmap, Hq; done).
  case_bool_decide; done.
Qed.

Lemma routeAt_sorted mins s :
  (∀ i j a b, mins !! i = Some a → mins !! j = Some b → (i < j)%nat → a ≤ b) →
  sorted_for (Z.of_nat (length mins)) (routeAt mins s).
Proof.
  intros Hmono i j Hij.
  assert (Hat : ∀ k, 0 ≤ k < Z.of_nat (length mins) →
            mins !! Z.to_nat k = Some (mins !!! Z.to_nat k)).
  { intros k Hk. apply list_lookup_lookup_total_lt. lia. }
  assert (Hle : ∀ a b, 0 ≤ a → a < b → b < Z.of_nat (length mins) →
            mins !!! Z.to_nat a ≤ mins !!! Z.to_nat b).
  { intros a b Ha Hab Hb. eapply Hmono; [apply Hat|apply Hat|]; lia. }
  assert (Hj : routeAt mins s i ≤ 0 → routeAt mins s j < 0).
  { unfold routeAt. intros Hc.
    assert (Hgt : mins !!! Z.to_nat j > s).
    { repeat case_bool_decide; try lia.
      - destruct (decide (j = i + 1)) as [->|]; [lia|].
        pose proof (Hle (i + 1) j ltac:(lia) ltac:(lia) ltac:(lia)). lia.
      - pose proof (Hle i j ltac:(lia) ltac:(lia) ltac:(lia)). lia.
      - pose proof (Hle i j ltac:(lia) ltac:(lia) ltac:(lia)). lia. }
    rewrite (bool_decide_eq_false_2 (mins !!! Z.to_nat j ≤ s)) by lia.
    rewrite bool_decide_eq_false_2 by lia. lia. }
  split; intros Hc; specialize (Hj ltac:(lia)); lia.
Qed.

Lemma segments_le_mass N PL lk ps :
  Forall (λ p, segOk N PL lk p) ps → Z.of_nat (length ps) ≤ mass ps.
Proof.
  induction 1 as [|p ps Hp _ IH]; [done|]. rewrite mass_cons.
  apply segOk_length in Hp. simpl. lia.
Qed.

(** The [min] fields never fall along the segments. *)
Lemma mins_sorted N h i j a b :
  heapOk N h →
  (Seg.min <$> ScoreHeap.partitions h) !! i = Some a →
  (Seg.min <$> ScoreHeap.partitions h) !! j = Some b → (i < j)%nat → a ≤ b.
Proof.
  intros Hok Hi Hj Hij. pose proof Hok as [_ _ _ _ _ Hsegs _ _ Hordered].
  rewrite list_lookup_fmap in Hi, Hj.
  destruct (ScoreHeap.partitions h !! i) as [p|] eqn:Hp; [|done].
  destruct (ScoreHeap.partitions h !! j) as [q|] eqn:Hq; [|done].
  simpl in Hi, Hj. injection Hi as <-. injection Hj as <-.
  apply list_elem_of_split_length in Hp as (l1 & rest & Hps & Hlen).
  rewrite Hps in Hq, Hordered, Hsegs. rewrite lookup_app_r in Hq by lia.
  destruct (j - length l1)%nat as [|k] eqn:Hk; [lia|]. simpl in Hq.
  apply ordered_app in Hordered as (_ & Hordered & _).
  apply Forall_app in Hsegs as [_ Hsegs]. apply Forall_cons in Hsegs as [[Hsp _] Hsegs].
  eapply below_min; [exact Hsp|].
  eapply (ordered_later N (ScoreHeap.partitionLength h) _ rest); [done| |].
  - eapply Forall_impl; [exact Hsegs|]. simpl. tauto.
  - eapply list_elem_of_lookup_2. done.
Qed.

(** The segment the search finds: the last one whose [min] is not above
    the score, or the first one when every [min] is above it. *)
Lemma route_found N h s :
  heapOk N h → ScoreHeap.partitions h ≠ [] →
  ∃ l1 p l2, ScoreHeap.partitions h = l1 ++ p :: l2
    ∧ searchBinary (Z.of_nat (length (ScoreHeap.partitions h)))
        (ScoreHeap.route (ScoreHeap.partitions h) s)
      = Some (Some (Z.of_nat (length l1)))
    ∧ ((Seg.min p ≤ s ∧ ∀ r, head l2 = Some r → s < Seg.min r)
       ∨ (s < Seg.min p ∧ l1 = [])).
Proof.
  intros Hok Hne. pose proof Hok as [_ _ _ _ Hmass Hsegs _ _ _].
  set (ps := ScoreHeap.partitions h) in *. set (mins := Seg.min <$> ps).
  assert (Hn : 0 < Z.of_nat (length ps)) by (destruct ps; [done|simpl; lia]).
  assert (Hlenm : length mins = length ps) by (unfold mins; apply length_fmap).
  destruct (searchBinary_found (Z.of_nat (length ps)) (ScoreHeap.route ps s) (routeAt mins s))
    as (q & Hq & Hqr & Hfound).
  - assert (Z.of_nat (length ps) ≤ mass ps); [|unfold limit in *; lia].
    eapply (segments_le_mass N (ScoreHeap.partitionLength h) (ScoreHeap.lookups h)).
    eapply Forall_impl; [exact Hsegs|]. simpl. tauto.
  - intros i Hi. apply route_at. done.
  - rewrite <- Hlenm. apply routeAt_sorted. intros i j a b Ha Hb Hij.
    eapply (mins_sorted N h i j a b); done.
  - done.
  - assert (Hat : ∀ k, 0 ≤ k < Z.of_nat (length ps) →
              ∃ p, ps !! Z.to_nat k = Some p ∧ mins !!! Z.to_nat k = Seg.min p).
    { intros k Hk. destruct (lookup_lt_is_Some_2 ps (Z.to_nat k)) as [p Hp]; [lia|].
      exists p. split; [done|]. apply list_lookup_total_correct.
      unfold mins. rewrite list_lookup_fmap, Hp. done. }
    assert (Hzero : q < Z.of_nat (length ps) ∧ routeAt mins s q = 0).
    { destruct Hfound as [Hz|[Hb Ha]]; [done|]. exfalso.
      destruct (decide (q = 0)) as [->|Hq0].
      - specialize (Ha 0 ltac:(lia)). unfold routeAt in Ha.
        repeat case_bool_decide; lia.
      - specialize (Hb (q - 1) ltac:(lia)).
        destruct (decide (q = Z.of_nat (length ps))) as [->|Hqn].
        + unfold routeAt in Hb. rewrite Hlenm in Hb. repeat case_bool_decide; lia.
        + specialize (Ha q ltac:(lia)). unfold routeAt in Ha, Hb.
          replace (q - 1 + 1) with q in Hb by lia.
          repeat case_bool_decide; lia. }
    destruct Hzero as [Hqn Hz].
    destruct (Hat q ltac:(lia)) as (p & Hp & Hmp).
    apply list_elem_of_split_length in Hp as (l1 & l2 & Hps & Hlen).
    exists l1, p, l2. split; [done|]. split; [rewrite Hq; do 2 f_equal; lia|].
    unfold routeAt in Hz. rewrite Hmp, Hlenm in Hz.
    case_bool_decide as Hle.
    + left. split; [done|]. intros r Hr. destruct l2 as [|r' l2']; [done|].
      injection Hr as ->.
      rewrite bool_decide_eq_false_2 in Hz
        by (rewrite Hps, length_app; simpl; lia).
      destruct (Hat (q + 1)) as (r0 & Hr0 & Hmr).
      { rewrite Hps, length_app. simpl. lia. }
      rewrite Hps, lookup_app_r in Hr0 by lia.
      replace (Z.to_nat (q + 1) - length l1)%nat with 1%nat in Hr0 by lia.
      simpl in Hr0. injection Hr0 as <-. rewrite Hmr in Hz.
      case_bool_decide; lia.
    + right. split; [lia|]. case_bool_decide as Hq0; [|lia].
      destruct l1; [done|simpl in Hlen; lia].
Qed.


(** ** The insertion part of [update] *)

Import Utility SearchSpec MergeSpec Inv Ghost.

Section insertsAt.
Context (N PL : Z) (lk : list Z).
Hypothesis Hlk : Z.of_nat (length lk) = 3 * N.
Hypothesis HPL : PL ≤ limit.
Hypothesis HN : N ≤ limit.

Lemma insertsAt_search q x s :
  sortedOk N PL lk q → x ∉ region q → Seg.length q < PL → 0 ≤ x < N →
  ∃ la lb G', insertsAt lk q x s None la lb G'.
Proof.
  intros Hq Hnin Hroom Hx.
  destruct (Partition_insert_ok N PL lk Hlk HPL q x s Hq Hnin Hroom)
    as (la & lb & G' & H); [unfold is_int32, limit in *; lia|].
  exists la, lb, G'. exact H.
Qed.

Lemma insertsAt_end q x s :
  sortedOk N PL lk q → Seg.length q < PL → 0 ≤ x < N →
  (∀ y, y ∈ region q → scoreAt lk y < s) →
  ∃ G', insertsAt lk q x s (Some (Seg.length q)) (region q) [] G'.
Proof.
  intros Hq Hroom Hx Hlt. pose proof Hq as [Hcap Hlen _ _ _ _].
  destruct (Partition_insert_at N PL lk q x s (region q) [] Hq)
    as (G' & Hrun & HlenG); [by rewrite app_nil_r|done|unfold is_int32, limit in *; lia|].
  exists G'. rewrite (region_length q) in Hrun by lia.
  split; [by rewrite app_nil_r|]. split; [|split; [constructor|split; done]].
  apply Forall_forall. intros y Hy. left. simpl. auto.
Qed.

Lemma insertsAt_front q x s :
  sortedOk N PL lk q → Seg.length q < PL → 0 ≤ x < N →
  (∀ y, y ∈ region q → s < scoreAt lk y) →
  ∃ G', insertsAt lk q x s (Some 0) [] (region q) G'.
Proof.
  intros Hq Hroom Hx Hlt.
  destruct (Partition_insert_at N PL lk q x s [] (region q) Hq)
    as (G' & Hrun & HlenG); [done|done|unfold is_int32, limit in *; lia|].
  exists G'. split; [done|]. split; [constructor|split; [|split; done]].
  apply Forall_forall. intros y Hy. left. simpl. auto.
Qed.

End insertsAt.

Lemma lower_is_last {A} (l1 : list A) p l2 :
  (if bool_decide (Z.of_nat (length l1) > 0)
   then JsArray.get (l1 ++ p :: l2) (Z.of_nat (length l1) - 1) else None) = last l1.
Proof.
  destruct (snoc_or_nil l1) as [->|(l & a & ->)]; [done|].
  rewrite bool_decide_eq_true_2 by (rewrite length_app; simpl; lia).
  rewrite last_snoc, <- app_assoc. cbn [app].
  apply jsget_middle. rewrite length_app. simpl. lia.
Qed.

Lemma upper_is_head {A} (l1 : list A) p l2 :
  (if bool_decide (Z.of_nat (length l1) < Z.of_nat (length (l1 ++ p :: l2)) - 1)
   then JsArray.get (l1 ++ p :: l2) (Z.of_nat (length l1) + 1) else None) = head l2.
Proof.
  destruct l2 as [|r l2].
  - rewrite bool_decide_eq_false_2 by (rewrite length_app; simpl; lia). done.
  - rewrite bool_decide_eq_true_2 by (rewrite length_app; simpl; lia).
    apply jsget_next. done.
Qed.

Section place.
Context (N : Z) (h : ScoreHeap.t) (x s : Z) (l1 : list Seg.t) (p : Seg.t) (l2 : list Seg.t)
  (m : Z).
Hypothesis Hok : heapOk N h.
Hypothesis Hroom1 : ScoreHeap.nextId h + 1 ≤ limit.
Hypothesis Hroom2 : mass (ScoreHeap.partitions h) + 1 ≤ limit.
Hypothesis Hps : ScoreHeap.partitions h = l1 ++ p :: l2.
Hypothesis Hx : 0 ≤ x < N.
Hypothesis Hneg : ownerAt (ScoreHeap.lookups h) x < 0.
Hypothesis Hs : scoreAt (ScoreHeap.lookups h) x = s.
Hypothesis Hmax : Segment.max (ScoreHeap.lookups h) p = Some m.
Hypothesis Hroute :
  (Seg.min p ≤ s ∧ ∀ r, head l2 = Some r → s < Seg.min r) ∨ (s < Seg.min p ∧ l1 = []).

Let lk := ScoreHeap.lookups h.
Let PL := ScoreHeap.partitionLength h.

Lemma place_facts :
  Z.of_nat (length lk) = 3 * N ∧ N ≤ limit ∧ PL ≤ limit
  ∧ segOk N PL lk p
  ∧ (∀ q, last l1 = Some q → below lk q (Seg.min p))
  ∧ (∀ r, head l2 = Some r → below lk p (Seg.min r))
  ∧ Seg.min p ≤ m
  ∧ (∀ y, y ∈ View.live p → scoreAt lk y ≤ m)
  ∧ (Seg.uniform p = true → m = Seg.min p).
Proof.
  pose proof Hok as [Hlk HN HPL Hnid Hmass Hsegs Hids Howned Hordered].
  destruct (heap_seg_at N h l1 p l2 Hok Hps) as [Hsp Hidp].
  destruct (Segment_max_ok N _ _ p Hlk Hsp) as (m' & Hmax' & Hminm & Hlem & Hum & _).
  rewrite Hmax in Hmax'. injection Hmax' as <-.
  rewrite Hps in Hordered. destruct (ordered_around _ _ _ _ Hordered) as [Hprev Hnext].
  unfold lk, PL. split; [done|]. split; [lia|]. split; [unfold limit; lia|].
  split; [done|]. split; [done|]. split; [done|]. split; [done|]. split; done.
Qed.

Lemma absent_here q : q ∈ ScoreHeap.partitions h → x ∉ region q.
Proof. intros Hq. eapply (heap_not_member N h q x); try done. lia. Qed.

(** 1: the segment found is uniform with the score. *)
Lemma act_here_uniform f hint :
  Seg.uniform p = true → Seg.min p = s →
  f lk p = Segment.insert lk p x s hint →
  ∃ h', ScoreHeap.atPartition h (Z.of_nat (length l1)) f = Some h' ∧ placedSpec N h h' x s.
Proof. intros Hu Hmin Hf. eapply insert_uniform_ok; done. Qed.

(** 3 and 8: the segment found is sorted and has room. *)
Lemma act_here_sorted f :
  Seg.uniform p = false → Seg.length p < PL →
  f lk p = Segment.insert lk p x s None →
  ∃ h', ScoreHeap.atPartition h (Z.of_nat (length l1)) f = Some h' ∧ placedSpec N h h' x s.
Proof.
  intros Hu Hlen Hf.
  destruct place_facts as (Hlk & HN & HPL & Hsp & Hprev & Hnext & Hminm & Hlem & Hum).
  pose proof Hsp as Hsp'. unfold segOk in Hsp'. rewrite Hu in Hsp'.
  destruct (insertsAt_search N PL lk Hlk HPL HN p x s Hsp') as (la & lb & G' & Hins);
    [apply absent_here; rewrite Hps; apply elem_of_app; right; left|done|done|].
  eapply (insert_sorted_ok N h x s l1 p l2 None la lb G'); try done.
  - intros p0 Hp0. destruct Hroute as [[Hle _]|[_ ->]]; [|done].
    eapply below_mono; [apply Hprev, Hp0|done].
  - intros r Hr. destruct Hroute as [[_ Hlt]|[Hlt _]]; [specialize (Hlt r Hr); lia|].
    pose proof (below_min _ _ _ _ _ Hsp (Hnext r Hr)). lia.
Qed.

Lemma act_here_end f :
  Seg.uniform p = false → Seg.length p < PL → m < s →
  f lk p = Segment.insert lk p x s (Some (Seg.length p)) →
  ∃ h', ScoreHeap.atPartition h (Z.of_nat (length l1)) f = Some h' ∧ placedSpec N h h' x s.
Proof.
  intros Hu Hlen Hms Hf.
  destruct place_facts as (Hlk & HN & HPL & Hsp & Hprev & Hnext & Hminm & Hlem & Hum).
  pose proof Hsp as Hsp'. unfold segOk in Hsp'. rewrite Hu in Hsp'.
  destruct (insertsAt_end N PL lk HN p x s Hsp') as (G' & Hins); [done|done| |].
  { intros y Hy. specialize (Hlem y). rewrite live_sorted in Hlem by done.
    specialize (Hlem Hy). lia. }
  eapply (insert_sorted_ok N h x s l1 p l2 _ (region p) [] G'); try done.
  - intros p0 Hp0. eapply below_mono; [apply Hprev, Hp0|lia].
  - intros r Hr. destruct Hroute as [[_ Hlt]|[Hlt _]]; [specialize (Hlt r Hr); lia|lia].
Qed.

(** 9: the segment found is sorted, full and of the score. *)
Lemma act_here_convert :
  Seg.uniform p = false → ¬ Seg.length p < PL → s = Seg.min p → Seg.min p = m →
  ∃ h', ScoreHeap.convertAndInsert h (Z.of_nat (length l1)) x s = Some h'
    ∧ placedSpec N h h' x s.
Proof.
  intros Hu Hfull Hmin Hflat.
  destruct place_facts as (Hlk & HN & HPL & Hsp & _).
  pose proof Hsp as Hsp'. unfold segOk in Hsp'. rewrite Hu in Hsp'.
  destruct Hsp' as [_ Hlen _ _ _ _].
  eapply convert_ok; try done.
  - fold PL. lia.
  - rewrite Hmax. congruence.
Qed.

(** 7: the segment found is uniform with another score. *)
Lemma act_singleton :
  Seg.uniform p = true → Seg.min p ≠ s →
  ∃ h', ScoreHeap.insertSingleton h
          (if bool_decide (s > Seg.min p) then Z.of_nat (length l1) + 1
           else Z.of_nat (length l1)) x = Some h'
    ∧ placedSpec N h h' x s.
Proof.
  intros Hu Hne.
  destruct place_facts as (Hlk & HN & HPL & Hsp & Hprev & Hnext & Hminm & Hlem & Hum).
  case_bool_decide as Hgt.
  - replace (Z.of_nat (length l1) + 1) with (Z.of_nat (length (l1 ++ [p])))
      by (rewrite length_app; simpl; lia).
    eapply singleton_ok; try done.
    + rewrite <- app_assoc. exact Hps.
    + intros q. rewrite last_snoc. intros [= <-]. unfold below. rewrite Hu. lia.
    + intros r Hr. destruct Hroute as [[_ Hlt]|[Hlt _]]; [specialize (Hlt r Hr); lia|lia].
  - destruct Hroute as [[Hle _]|[Hlt ->]]; [lia|].
    eapply (singleton_ok N h x s [] (p :: l2)); try done.
    intros r [= <-]. lia.
Qed.

End place.

Lemma below_intro lk q b :
  Seg.min q ≤ b → (∀ y, y ∈ View.live q → scoreAt lk y ≤ b) → below lk q b.
Proof.
  intros Hmin Hle. unfold below. destruct (Seg.uniform q) eqn:Hu; [done|].
  apply Forall_forall. intros y Hy. apply Hle. rewrite live_sorted; done.
Qed.

Section placeBeside.
Context (N : Z) (h : ScoreHeap.t) (x s : Z) (l1 : list Seg.t) (p : Seg.t) (l2 : list Seg.t)
  (m : Z).
Hypothesis Hok : heapOk N h.
Hypothesis Hroom1 : ScoreHeap.nextId h + 1 ≤ limit.
Hypothesis Hroom2 : mass (ScoreHeap.partitions h) + 1 ≤ limit.
Hypothesis Hps : ScoreHeap.partitions h = l1 ++ p :: l2.
Hypothesis Hx : 0 ≤ x < N.
Hypothesis Hneg : ownerAt (ScoreHeap.lookups h) x < 0.
Hypothesis Hs : scoreAt (ScoreHeap.lookups h) x = s.
Hypothesis Hmax : Segment.max (ScoreHeap.lookups h) p = Some m.
Hypothesis Hroute :
  (Seg.min p ≤ s ∧ ∀ r, head l2 = Some r → s < Seg.min r) ∨ (s < Seg.min p ∧ l1 = []).

Let lk := ScoreHeap.lookups h.
Let PL := ScoreHeap.partitionLength h.

Section lower.
Context (l1' : list Seg.t) (lo : Seg.t).
Hypothesis Hl1 : l1 = l1' ++ [lo].

Lemma lower_at : ScoreHeap.partitions h = l1' ++ lo :: p :: l2.
Proof. rewrite Hps, Hl1, <- app_assoc. done. Qed.

Lemma lower_index : Z.of_nat (length l1) - 1 = Z.of_nat (length l1').
Proof. rewrite Hl1, length_app. simpl. lia. Qed.

Lemma lower_facts :
  segOk N PL lk lo
  ∧ (∀ q, last l1' = Some q → below lk q (Seg.min lo))
  ∧ below lk lo (Seg.min p)
  ∧ Seg.min lo ≤ Seg.min p.
Proof.
  pose proof Hok as [Hlk HN HPL Hnid Hmass Hsegs Hids Howned Hordered].
  destruct (heap_seg_at N h l1' lo (p :: l2) Hok lower_at) as [Hsl _].
  rewrite lower_at in Hordered. destruct (ordered_around _ _ _ _ Hordered) as [Hprev Hnext].
  specialize (Hnext p eq_refl). split; [done|]. split; [done|]. split; [done|].
  eapply below_min; done.
Qed.

(** 2: the lower neighbour is uniform with the score. *)
Lemma act_lower_uniform f hint :
  Seg.uniform lo = true → Seg.min lo = s →
  f lk lo = Segment.insert lk lo x s hint →
  ∃ h', ScoreHeap.atPartition h (Z.of_nat (length l1) - 1) f = Some h'
    ∧ placedSpec N h h' x s.
Proof.
  intros Hu Hmin Hf. rewrite lower_index.
  eapply insert_uniform_ok; try done. apply lower_at.
Qed.

(** 6: the lower neighbour is sorted with room, the score is [min] of
    the segment found. *)
Lemma act_lower_sorted f :
  Seg.uniform lo = false → Seg.length lo < PL → s = Seg.min p →
  f lk lo = Segment.insert lk lo x s None →
  ∃ h', ScoreHeap.atPartition h (Z.of_nat (length l1) - 1) f = Some h'
    ∧ placedSpec N h h' x s.
Proof.
  intros Hu Hlen Hmin Hf. rewrite lower_index.
  destruct (place_facts _ _ _ _ _ _ Hok Hps Hmax) as (Hlk & HN & HPL & _).
  destruct lower_facts as (Hsl & Hprev & Hb & Hle).
  pose proof Hsl as Hsl'. unfold segOk in Hsl'. rewrite Hu in Hsl'.
  destruct (insertsAt_search N PL lk Hlk HPL HN lo x s Hsl') as (la & lb & G' & Hins);
    [|done|done|].
  { eapply absent_here; try done. rewrite lower_at. apply elem_of_app. right. left. }
  eapply (insert_sorted_ok N h x s l1' lo (p :: l2) None la lb G'); try done.
  - apply lower_at.
  - intros p0 Hp0. eapply below_mono; [apply Hprev, Hp0|lia].
  - intros r [= <-]. lia.
Qed.

(** 6: the lower neighbour is sorted, full and of the score. *)
Lemma act_lower_convert loMax :
  Seg.uniform lo = false → ¬ Seg.length lo < PL → s = Seg.min lo →
  Segment.max lk lo = Some loMax → Seg.min lo = loMax →
  ∃ h', ScoreHeap.convertAndInsert h (Z.of_nat (length l1) - 1) x s = Some h'
    ∧ placedSpec N h h' x s.
Proof.
  intros Hu Hfull Hmin Hlomax Hflat. rewrite lower_index.
  destruct lower_facts as (Hsl & _).
  pose proof Hsl as Hsl'. unfold segOk in Hsl'. rewrite Hu in Hsl'.
  destruct Hsl' as [_ Hlen _ _ _ _].
  eapply convert_ok; try done.
  - apply lower_at.
  - fold PL. lia.
  - fold lk. rewrite Hlomax. congruence.
Qed.

End lower.

Section upper.
Context (up : Seg.t) (l2' : list Seg.t).
Hypothesis Hl2 : l2 = up :: l2'.

Lemma upper_at : ScoreHeap.partitions h = (l1 ++ [p]) ++ up :: l2'.
Proof. rewrite Hps, Hl2, <- app_assoc. done. Qed.

(** 5: the score is not below the segment found, the upper neighbour is
    sorted with room. *)
Lemma act_upper_front f :
  Seg.uniform up = false → Seg.length up < PL → m ≤ s →
  f lk up = Segment.insert lk up x s (Some 0) →
  ∃ h', ScoreHeap.atPartition h (Z.of_nat (length l1) + 1) f = Some h'
    ∧ placedSpec N h h' x s.
Proof.
  intros Hu Hlen Hms Hf.
  replace (Z.of_nat (length l1) + 1) with (Z.of_nat (length (l1 ++ [p])))
    by (rewrite length_app; simpl; lia).
  destruct (place_facts _ _ _ _ _ _ Hok Hps Hmax)
    as (Hlk & HN & HPL & Hsp & Hprev & Hnext & Hminm & Hlem & Hum).
  pose proof Hok as [_ _ _ _ _ _ _ _ Hordered].
  destruct (heap_seg_at N h _ up l2' Hok upper_at) as [Hsu _].
  rewrite upper_at in Hordered. destruct (ordered_around _ _ _ _ Hordered) as [_ Hnextu].
  pose proof Hsu as Hsu'. unfold segOk in Hsu'. rewrite Hu in Hsu'.
  assert (Hlt : s < Seg.min up).
  { destruct Hroute as [[_ Hlt]|[Hlt _]]; [apply Hlt; rewrite Hl2; done|lia]. }
  destruct (insertsAt_front N PL lk HN up x s Hsu') as (G' & Hins); [done|done| |].
  { intros y Hy. destruct Hsu' as [_ _ _ _ _ Hmin]. rewrite Forall_forall in Hmin.
    specialize (Hmin y Hy). unfold lk. lia. }
  eapply (insert_sorted_ok N h x s (l1 ++ [p]) up l2' _ [] (region up) G'); try done.
  - apply upper_at.
  - intros p0. rewrite last_snoc. intros [= <-]. apply below_intro; [lia|].
    intros y Hy. specialize (Hlem y Hy). lia.
  - intros r Hr. pose proof (below_min _ _ _ _ _ Hsu (Hnextu r Hr)). lia.
Qed.

End upper.

End placeBeside.

(** A sorted segment with room takes an absent identifier at the place
    its own search finds, when the score lies between the neighbours. *)
Lemma insert_search_ok N h x s l1 q l2 f :
  heapOk N h → mass (ScoreHeap.partitions h) + 1 ≤ limit →
  ScoreHeap.partitions h = l1 ++ q :: l2 →
  Seg.uniform q = false → Seg.length q < ScoreHeap.partitionLength h →
  0 ≤ x < N → ownerAt (ScoreHeap.lookups h) x < 0 → scoreAt (ScoreHeap.lookups h) x = s →
  (∀ p0, last l1 = Some p0 → below (ScoreHeap.lookups h) p0 s) →
  (∀ r, head l2 = Some r → s ≤ Seg.min r) →
  f (ScoreHeap.lookups h) q = Segment.insert (ScoreHeap.lookups h) q x s None →
  ∃ h', ScoreHeap.atPartition h (Z.of_nat (length l1)) f = Some h'
    ∧ placedSpec N h h' x s.
Proof.
  intros Hok Hroom Hps Hu Hlen Hx Hneg Hs Hlow Hup Hf.
  pose proof Hok as [Hlk HN HPL _ _ _ _ _ _].
  destruct (heap_seg_at N h l1 q l2 Hok Hps) as [Hsq _].
  unfold segOk in Hsq. rewrite Hu in Hsq.
  assert (HPL' : ScoreHeap.partitionLength h ≤ limit) by (unfold limit; lia).
  destruct (insertsAt_search N _ _ Hlk HPL' ltac:(lia) q x s Hsq)
    as (la & lb & G' & Hins); [|done|done|].
  { eapply heap_not_member; try done; [|lia]. rewrite Hps. apply elem_of_app. right. left. }
  eapply (insert_sorted_ok N h x s l1 q l2 None la lb G'); done.
Qed.

(** 10: the segment found is sorted and full: it is split, and the half
    the score belongs to takes the identifier. *)
Lemma act_split N h x s l1 p l2 f :
  heapOk N h → ScoreHeap.nextId h + 1 ≤ limit → mass (ScoreHeap.partitions h) + 1 ≤ limit →
  ScoreHeap.partitions h = l1 ++ p :: l2 →
  0 ≤ x < N → ownerAt (ScoreHeap.lookups h) x < 0 → scoreAt (ScoreHeap.lookups h) x = s →
  (Seg.min p ≤ s ∧ ∀ r, head l2 = Some r → s < Seg.min r) ∨ (s < Seg.min p ∧ l1 = []) →
  Seg.uniform p = false → ¬ Seg.length p < ScoreHeap.partitionLength h →
  (∀ lk q, f lk q = Segment.insert lk q x s None) →
  ∃ splitIndices qlo h2 qhi,
    Partition.split p = Some (splitIndices, qlo)
    ∧ ScoreHeap.insertPartition (ScoreHeap.with_partitions h (l1 ++ qlo :: l2))
        (Z.of_nat (length l1) + 1) splitIndices (ScoreHeap.partitionLength h / 2) = Some h2
    ∧ JsArray.get (ScoreHeap.partitions h2) (Z.of_nat (length l1) + 1) = Some qhi
    ∧ ∃ h', (if bool_decide (Seg.min qhi > s)
             then ScoreHeap.atPartition h2 (Z.of_nat (length l1)) f
             else ScoreHeap.atPartition h2 (Z.of_nat (length l1) + 1) f) = Some h'
        ∧ placedSpec N h h' x s.
Proof.
  intros Hok Hroom1 Hroom2 Hps Hx Hneg Hs Hroute Hu Hfull Hf.
  destruct (heap_seg_at N h l1 p l2 Hok Hps) as [Hsp _].
  pose proof Hsp as Hsp'. unfold segOk in Hsp'. rewrite Hu in Hsp'.
  destruct Hsp' as [_ Hlen _ _ _ _].
  destruct (split_ok N h l1 p l2 Hok Hroom1 Hps Hu ltac:(lia))
    as (splitIndices & qlo & qhi & h2 & Hsplit & Hins & Hok2 & Hps2 & Hulo & Huhi & Hllo & Hlhi
        & Hminlo & Hminhi & Hsc & Hpres & Hnid & HPL2 & Hmass2).
  exists splitIndices, qlo, h2, qhi. split; [done|]. split; [done|].
  split; [rewrite Hps2; apply jsget_next; done|].
  assert (Hneg2 : ownerAt (ScoreHeap.lookups h2) x < 0).
  { specialize (Hpres x Hx). lia. }
  assert (Hs2 : scoreAt (ScoreHeap.lookups h2) x = s).
  { rewrite Hsc by lia. done. }
  assert (Hoth : others N h h2 x).
  { intros y Hy _. split; [apply Hsc; lia|apply Hpres; done]. }
  pose proof Hok2 as [_ _ _ _ _ _ _ _ Hordered].
  assert (Hwrap : ∀ h', placedSpec N h2 h' x s → placedSpec N h h' x s).
  { intros h' (Hok' & Hown' & Hsc' & Hoth' & HPL'). split; [done|]. split; [done|].
    split; [done|]. split; [eapply others_trans; done|congruence]. }
  case_bool_decide as Hcmp.
  - destruct (insert_search_ok N h2 x s l1 qlo (qhi :: l2) f Hok2) as (h' & Hrun & Hspec);
      try done; try lia.
    + rewrite Hps2 in Hordered. destruct (ordered_around _ _ _ _ Hordered) as [Hprev _].
      intros p0 Hp0. destruct Hroute as [[Hle _]|[_ ->]]; [|done].
      eapply below_mono; [apply Hprev, Hp0|lia].
    + intros r [= <-]. lia.
    + exists h'. split; [done|]. apply Hwrap, Hspec.
  - replace (Z.of_nat (length l1) + 1) with (Z.of_nat (length (l1 ++ [qlo])))
      by (rewrite length_app; simpl; lia).
    destruct (insert_search_ok N h2 x s (l1 ++ [qlo]) qhi l2 f Hok2) as (h' & Hrun & Hspec);
      try done; try lia.
    + rewrite Hps2, <- app_assoc. done.
    + rewrite Hps2 in Hordered. destruct (ordered_around _ _ _ _ Hordered) as [_ Hnext].
      intros p0. rewrite last_snoc. intros [= <-].
      eapply below_mono; [apply Hnext; done|lia].
    + intros r Hr. destruct Hroute as [[_ Hlt]|[Hlt _]]; [specialize (Hlt r Hr); lia|lia].
    + exists h'. split; [done|]. apply Hwrap, Hspec.
Qed.

Local Ltac goal_decide P H :=
  destruct (decide P) as [H|H];
  [rewrite (bool_decide_eq_true_2 P H)|rewrite (bool_decide_eq_false_2 P H)].

(** The insertion part of [update] puts an absent identifier into the
    heap, whichever action of the decision list is taken. *)
Lemma place_ok N h x s :
  heapOk N h → ScoreHeap.nextId h + 1 ≤ limit → mass (ScoreHeap.partitions h) + 1 ≤ limit →
  ScoreHeap.partitions h ≠ [] →
  0 ≤ x < N → ownerAt (ScoreHeap.lookups h) x < 0 → scoreAt (ScoreHeap.lookups h) x = s →
  ∃ h', ScoreHeap.place h x s = Some h' ∧ placedSpec N h h' x s.
Proof.
  intros Hok Hroom1 Hroom2 Hne Hx Hneg Hs.
  destruct (route_found N h s Hok Hne) as (l1 & p & l2 & Hps & Hsearch & Hroute).
  pose proof Hok as [Hlk _ HPL _ _ _ _ _ _].
  destruct (heap_seg_at N h l1 p l2 Hok Hps) as [Hsp _].
  destruct (Segment_max_ok N _ _ p Hlk Hsp) as (m & Hmax & Hminm & Hlem & Hum & _).
  unfold ScoreHeap.place. cbv zeta. rewrite Hsearch. cbn [mbind option_bind].
  rewrite Hps.
  rewrite (jsget_middle l1 p l2 _ eq_refl). cbn [mbind option_bind].
  rewrite Hmax. cbn [mbind option_bind].
  rewrite !lower_is_last, !upper_is_head.
  destruct (Seg.uniform p && bool_decide (Seg.min p = s)) eqn:C1.
  { apply andb_true_iff in C1 as [Hu Hmin%bool_decide_eq_true].
    eapply (act_here_uniform N h x s l1 p l2); done. }
  match goal with |- context [if ?c then ScoreHeap.atPartition h (Z.of_nat (length l1) - 1) _ else _] =>
    destruct c eqn:C2 end.
  { destruct (last l1) as [lo|] eqn:Hlast; [|done].
    apply last_Some in Hlast as [l1' Hl1].
    apply andb_true_iff in C2 as [Hu Hmin%bool_decide_eq_true].
    eapply (act_lower_uniform N h x s l1 p l2); done. }
  match goal with |- context [if ?c then ScoreHeap.atPartition h (Z.of_nat (length l1)) _ else _] =>
    destruct c eqn:C3 end.
  { apply andb_true_iff in C3 as [[Hu%negb_true_iff Hlen%bool_decide_eq_true]%andb_true_iff
                                   Hgt%bool_decide_eq_true].
    eapply (act_here_end N h x s l1 p l2); try done. lia. }
  match goal with |- context [if ?c then ScoreHeap.atPartition h (Z.of_nat (length l1) + 1) _ else _] =>
    destruct c eqn:C5 end.
  { apply andb_true_iff in C5 as [[Hstuck Hge%bool_decide_eq_true]%andb_true_iff Hup].
    destruct l2 as [|up l2']; [done|]. cbn [head] in Hup.
    apply andb_true_iff in Hup as [Hu%negb_true_iff Hlen%bool_decide_eq_true].
    eapply (act_upper_front N h x s l1 p (up :: l2')); done. }
  match goal with |- ∃ h', (_ ≫= (λ lowerTakes : bool, if lowerTakes then _ else ?r)) = _ ∧ _ =>
    assert (Hrest : ∃ h', r = Some h' ∧ placedSpec N h h' x s) end.
  { clear C2 C3 C5. destruct (Seg.uniform p) eqn:Hu.
    - cbn [andb] in C1. apply bool_decide_eq_false in C1.
      eapply (act_singleton N h x s l1 p l2); done.
    - clear C1. case_bool_decide as Hlen.
      { eapply (act_here_sorted N h x s l1 p l2); done. }
      case_bool_decide as Hflat.
      { destruct Hflat as [Hmin Hflat]. eapply (act_here_convert N h x s l1 p l2); done. }
      destruct (act_split N h x s l1 p l2 (λ lookups p0, Segment.insert lookups p0 x s None)
                  Hok Hroom1 Hroom2 Hps Hx Hneg Hs Hroute Hu Hlen ltac:(done))
        as (splitIndices & qlo & h2 & qhi & Hsplit & Hins & Hget & h' & Hrun & Hspec).
      rewrite Hsplit. cbn [mbind option_bind].
      rewrite bool_decide_eq_true_2 by tauto.
      rewrite (jsput_middle l1 p l2 _ qlo eq_refl), Hins. cbn [mbind option_bind].
      rewrite Hget. cbn [mbind option_bind]. exists h'. done. }
  clear C1 C2 C3 C5.
  match goal with |- context [if ?c then match last l1 with Some _ => _ | None => _ end else _] =>
    destruct c eqn:C6 end; [|exact Hrest].
  apply andb_true_iff in C6 as [Hstuck Hmin%bool_decide_eq_true].
  destruct (last l1) as [lo|] eqn:Hlast; [|exact Hrest].
  apply last_Some in Hlast as [l1' Hl1].
  destruct (Seg.uniform lo) eqn:Hulo; cbn [negb]; [exact Hrest|].
  goal_decide (Seg.length lo < ScoreHeap.partitionLength h) Hlenlo.
  { cbn [mbind option_bind]. eapply (act_lower_sorted N h x s l1 p l2); done. }
  goal_decide (s = Seg.min lo) Hminlo; [|exact Hrest].
  destruct (lower_facts N h l1 p l2 Hok Hps l1' lo Hl1) as (Hslo & _).
  destruct (Segment_max_ok N _ _ lo Hlk Hslo) as (loMax & Hlomax & _).
  rewrite Hlomax. cbn [mbind option_bind].
  goal_decide (Seg.min lo = loMax) Hflat; [|exact Hrest].
  eapply (act_lower_convert N h x s l1 p l2); done.
Qed.


(** ** [update] *)

Import Utility SearchSpec MergeSpec Inv Ghost.

Lemma region_placed u i la x lb G n m :
  n = Z.of_nat (length (la ++ lb)) + 1 →
  region (Seg.Make u i (la ++ x :: lb ++ G) n m) = la ++ x :: lb.
Proof.
  intros ->. unfold region. cbn [Seg.length Seg.indices].
  replace (la ++ x :: lb ++ G) with ((la ++ x :: lb) ++ G) by (rewrite <- app_assoc; done).
  apply take_app_length'. rewrite !length_app. simpl. lia.
Qed.

Lemma sublist_middle {X} (la : list X) x lb : la ++ lb `sublist_of` la ++ x :: lb.
Proof. apply sublist_app; [done|]. apply sublist_cons. done. Qed.

Lemma Forall_sublist {X} (P : X → Prop) (l k : list X) :
  Forall P l → k `sublist_of` l → Forall P k.
Proof.
  rewrite !Forall_forall. intros Hl Hsub y Hy. apply Hl. eapply elem_of_sublist; done.
Qed.

(** The owner takes the new score in place: a sorted segment moves the
    member to its place. *)
Lemma inplace_sorted_ok N h x s l1 p l2 :
  heapOk N h → ScoreHeap.partitions h = l1 ++ p :: l2 → x ∈ View.live p →
  Seg.uniform p = false → is_int32 s →
  (l1 = [] ∨ Seg.min p ≤ s) →
  (∀ r, head l2 = Some r → s < Seg.min r) →
  ∃ p', Partition.update (ScoreHeap.lookups h) p x s = Some p'
    ∧ placedSpec N h
        (ScoreHeap.Make (TypedArray.put (ScoreHeap.lookups h) (x * 3) s) (l1 ++ p' :: l2)
           (ScoreHeap.partitionIds h) (ScoreHeap.nextId h) (ScoreHeap.partitionLength h)) x s.
Proof.
  intros Hok Hps Hxp Hu Hs Hlow Hup.
  pose proof Hok as [Hlk HN HPL Hnid Hmass Hsegs Hids Howned Hordered].
  destruct (heap_seg_at N h l1 p l2 Hok Hps) as [Hsp Hidp].
  pose proof Hsp as Hso. unfold segOk in Hso. rewrite Hu in Hso.
  pose proof Hso as [Hcap Hlen Hrange Hsorted Hown Hmin].
  rewrite Hps in Hordered. destruct (ordered_around _ _ _ _ Hordered) as [Hprev Hnext].
  pose proof Hxp as Hxr. rewrite live_sorted in Hxr by done.
  apply list_elem_of_split in Hxr as (la & lb & Hr).
  destruct (sortedOk_shape N _ _ p Hso) as (G & Hind & Hl & HG).
  rewrite Hr in Hrange, Hsorted, Hown, Hmin, Hl.
  assert (Hx : 0 ≤ x < N).
  { rewrite Forall_forall in Hrange. apply Hrange. apply elem_of_app. right. left. }
  assert (HPL' : ScoreHeap.partitionLength h ≤ limit) by (unfold limit; lia).
  destruct (Partition_update_ok N _ _ Hlk HPL' p x s la lb Hso Hr) as (p' & Hrun & Hmoved).
  { unfold is_int32, limit in *. lia. }
  exists p'. split; [exact Hrun|].
  destruct Hmoved as (t & G' & m & -> & HlenG & Hkb & Hka & Hm1 & Hm2 & HmL).
  rewrite Hu. clear Hrun.
  set (L := la ++ lb) in *. set (lk := ScoreHeap.lookups h) in *.
  set (lk' := TypedArray.put lk (x * 3) s).
  assert (HL : take t L ++ drop t L = L) by apply take_drop.
  assert (Hsub : L `sublist_of` la ++ x :: lb) by apply sublist_middle.
  assert (HxL : x ∉ L).
  { apply StronglySorted_NoDup in Hsorted. apply NoDup_app in Hsorted as (_ & Hab & Hb).
    apply NoDup_cons in Hb as [Hb _]. unfold L. rewrite elem_of_app. intros [Ha|Hb'].
    - apply (Hab x Ha). left.
    - done. }
  assert (Hoth : ∀ y, 0 ≤ y → y ≠ x → sameCells lk lk' y).
  { intros y Hy Hne. apply sameCells_put_score; (done || lia). }
  assert (Hsx : scoreAt lk' x = s).
  { unfold lk'. rewrite scoreAt_put_score by lia.
    rewrite decide_True by lia. apply toInt32_id. done. }
  assert (Hox : ownerAt lk' x = Seg.id p).
  { unfold lk'. rewrite ownerAt_put_score by lia.
    rewrite Forall_forall in Hown. apply Hown. apply elem_of_app. right. left. }
  assert (Hn : Seg.length p = Z.of_nat (length (take t L ++ drop t L)) + 1).
  { rewrite HL, Hl. unfold L. rewrite !length_app. simpl. lia. }
  assert (Hreg : region (Seg.Make false (Seg.id p)
                   (take t L ++ x :: drop t L ++ G') (Seg.length p) m)
                 = take t L ++ x :: drop t L).
  { apply region_placed. done. }
  assert (Hmem : ∀ y, y ∈ region p → y ∈ take t L ++ x :: drop t L).
  { intros y. rewrite Hr. rewrite !elem_of_app, !elem_of_cons. intros Hy.
    assert (y = x ∨ y ∈ L) as [->|HyL] by (unfold L; rewrite elem_of_app; tauto); [tauto|].
    rewrite <- HL in HyL. apply elem_of_app in HyL. tauto. }
  assert (Hso' : sortedOk N (ScoreHeap.partitionLength h) lk'
            (Seg.Make false (Seg.id p) (take t L ++ x :: drop t L ++ G')
               (Seg.length p) m)).
  { apply (sortedOk_placed N _ lk lk' _ _ m x s (take t L) (drop t L) G' _).
    - rewrite HL. eapply Forall_sublist; done.
    - rewrite HL. eapply StronglySorted_sublist; done.
    - rewrite HL. eapply Forall_sublist; done.
    - rewrite HL. done.
    - done.
    - done.
    - done.
    - done.
    - done.
    - done.
    - done.
    - rewrite HL. done.
    - rewrite HlenG. done.
    - done. }
  assert (Hmass1 : 0 ≤ limit - mass (l1 ++ p :: l2)) by (rewrite <- Hps; lia).
  split.
  { apply (heapOk_surgery N h l1 [p] l2 lk' [_] _ _ (region p) Hok Hps).
    - apply put_length.
    - intros y Hy Hny. apply Hoth; [done|]. intros ->. apply Hny.
      rewrite <- (live_sorted p Hu). done.
    - intros y Hy. right. exists p. split; [left|rewrite live_sorted; done].
    - intros p0 y ->%list_elem_of_singleton Hy. rewrite <- (live_sorted p Hu). done.
    - apply Forall_cons. split; [|constructor]. split; [|done].
      unfold segOk. cbn [Seg.uniform]. exact Hso'.
    - lia.
    - cbn [app]. apply (idsOk_replace _ l1 p _ l2); [rewrite <- Hps; done|done].
    - cbn [mass foldr Seg.length]. rewrite Hps. lia.
    - intros y Hy _ _. eexists. split; [left|]. cbn [Seg.id]. split.
      + destruct (decide (y = x)) as [->|Hne]; [done|].
        assert (Hyr : 0 ≤ y).
        { rewrite Hr in Hy. rewrite Forall_forall in Hrange. apply Hrange in Hy. lia. }
        destruct (Hoth y Hyr Hne) as (_ & -> & _).
        rewrite Hr in Hy. rewrite Forall_forall in Hown. symmetry. apply Hown, Hy.
      + rewrite live_sorted by done. rewrite Hreg. apply Hmem, Hy.
    - cbn. done.
    - intros p0 q Hp0 [= <-]. cbn [Seg.min].
      destruct Hlow as [->|Hle]; [done|].
      eapply below_mono; [apply Hprev, Hp0|lia].
    - intros p0 q [= <-] Hq. unfold below. cbn [Seg.uniform]. rewrite Hreg.
      specialize (Hnext q Hq). unfold below in Hnext. rewrite Hu, Hr in Hnext.
      specialize (Hup q Hq).
      apply (placed_below lk lk' x s _ _ (Seg.min q)); [|done|lia|].
      + intros y Hy. rewrite HL in Hy.
        assert (Hyr : 0 ≤ y).
        { rewrite Forall_forall in Hrange. eapply elem_of_sublist in Hy; [|exact Hsub].
          apply Hrange in Hy. lia. }
        destruct (Hoth y Hyr) as (-> & _); [|done]. intros ->. done.
      + rewrite HL. eapply Forall_sublist; done. }
  split; [cbn [ScoreHeap.lookups]; fold lk'; rewrite Hox; lia|]. split; [done|]. split; [|done].
  intros y Hy Hne. cbn [ScoreHeap.lookups]. destruct (Hoth y ltac:(lia) Hne) as (-> & -> & _).
  done.
Qed.

(** The owner takes the new score in place: a uniform segment has
    nothing to do, the score written is the score that was there. *)
Lemma inplace_uniform_ok N h x s l1 p l2 :
  heapOk N h → ScoreHeap.partitions h = l1 ++ p :: l2 → x ∈ View.live p →
  Seg.uniform p = true → is_int32 s → Seg.min p = s →
  placedSpec N h
    (ScoreHeap.Make (TypedArray.put (ScoreHeap.lookups h) (x * 3) s) (l1 ++ p :: l2)
       (ScoreHeap.partitionIds h) (ScoreHeap.nextId h) (ScoreHeap.partitionLength h)) x s.
Proof.
  intros Hok Hps Hxp Hu Hs Hmin.
  pose proof Hok as [Hlk HN _ _ _ _ _ _ _].
  destruct (heap_seg_at N h l1 p l2 Hok Hps) as [Hsp Hidp].
  pose proof Hsp as Huo. unfold segOk in Huo. rewrite Hu in Huo.
  pose proof Hxp as Hxr. apply live_uniform in Hxr as [Hxr Hx0]; [|done].
  apply list_elem_of_lookup_1 in Hxr as [i Hi].
  destruct Huo as [_ Hslots]. destruct (Hslots i x Hi Hx0) as (HxN & Hsc & Hown & _).
  assert (Hsame : TypedArray.put (ScoreHeap.lookups h) (x * 3) s = ScoreHeap.lookups h).
  { unfold TypedArray.put. rewrite bool_decide_eq_true_2 by lia.
    apply list_insert_id. rewrite toInt32_id by done.
    rewrite <- Hmin, <- Hsc. unfold scoreAt. apply list_lookup_lookup_total_lt. lia. }
  rewrite Hsame, <- Hps.
  assert (Hh : ScoreHeap.Make (ScoreHeap.lookups h) (ScoreHeap.partitions h)
                 (ScoreHeap.partitionIds h) (ScoreHeap.nextId h) (ScoreHeap.partitionLength h)
               = h) by (destruct h; done).
  rewrite Hh. split; [done|]. split; [lia|]. split; [congruence|]. split; [|done].
  intros y Hy Hne. done.
Qed.

(** What the test of [update] for the in-place path answers. *)
Lemma fits_run h l1 p l2 s :
  ScoreHeap.partitions h = l1 ++ p :: l2 →
  ∃ b, ScoreHeap.fits h (Z.of_nat (length l1)) p s = Some b
    ∧ (b = true →
       if Seg.uniform p then Seg.min p = s
       else (l1 = [] ∨ Seg.min p ≤ s) ∧ ∀ r, head l2 = Some r → s < Seg.min r).
Proof.
  intros Hps. unfold ScoreHeap.fits. rewrite Hps. destruct (Seg.uniform p) eqn:Hu.
  { eexists. split; [done|]. intros Hb%bool_decide_eq_true. done. }
  case_bool_decide as H1.
  { exists true. split; [done|]. intros _. rewrite length_app in H1. simpl in H1.
    destruct l1; [|simpl in H1; lia]. destruct l2; [|simpl in H1; lia].
    split; [left; done|]. intros r Hr. done. }
  case_bool_decide as Hle; [|exists false; done].
  case_bool_decide as Hlast.
  { exists true. split; [done|]. intros _. rewrite length_app in Hlast. simpl in Hlast.
    destruct l2; [|simpl in Hlast; lia]. split; [right; done|]. intros r Hr. done. }
  destruct l2 as [|q l2'].
  { exfalso. apply Hlast. rewrite length_app. simpl. lia. }
  rewrite jsget_next by done. cbn [mbind option_bind]. eexists. split; [done|].
  intros Hb%bool_decide_eq_true. split; [right; done|]. intros r [= <-]. lia.
Qed.

(** The second half of [update]: the score of the absent identifier is
    written and the identifier is inserted. *)
Lemma reinsert_ok N h0 h x s :
  heapOk N h → others N h0 h x →
  ScoreHeap.partitionLength h = ScoreHeap.partitionLength h0 →
  ownerAt (ScoreHeap.lookups h) x < 0 →
  ScoreHeap.nextId h + 1 ≤ limit → mass (ScoreHeap.partitions h) + 1 ≤ limit →
  0 ≤ x < N → is_int32 s →
  ∃ h',
    (let h := ScoreHeap.with_lookups h (TypedArray.put (ScoreHeap.lookups h) (x * 3) s) in
     if bool_decide (Z.of_nat (length (ScoreHeap.partitions h)) = 0)
     then ScoreHeap.insertSingleton h 0 x
     else ScoreHeap.place h x s) = Some h'
    ∧ placedSpec N h0 h' x s.
Proof.
  intros Hok Hoth HPL Hneg Hroom1 Hroom2 Hx Hs.
  destruct (score_write_ok N h x s Hok Hx Hneg Hs) as (Hok2 & Hsc2 & Hown2 & Hoth2).
  cbv zeta in *.
  set (h2 := ScoreHeap.with_lookups h (TypedArray.put (ScoreHeap.lookups h) (x * 3) s)) in *.
  assert (Hoth02 : others N h0 h2 x).
  { eapply others_trans; [exact Hoth|]. intros y Hy Hne.
    destruct (Hoth2 y ltac:(lia) Hne) as (-> & -> & _). done. }
  assert (Hwrap : ∀ h', placedSpec N h2 h' x s → placedSpec N h0 h' x s).
  { intros h' (Hok' & Hown' & Hsc' & Hoth' & HPL'). split; [done|]. split; [done|].
    split; [done|]. split; [eapply others_trans; done|].
    rewrite HPL'. unfold h2. heap_simpl. done. }
  assert (Hneg2 : ownerAt (ScoreHeap.lookups h2) x < 0) by lia.
  case_bool_decide as Hempty.
  - assert (Hnil : ScoreHeap.partitions h2 = [] ++ []).
    { destruct (ScoreHeap.partitions h2); [done|simpl in Hempty; lia]. }
    destruct (singleton_ok N h2 x s [] [] Hok2) as (h' & Hrun & Hspec); try done.
    exists h'. split; [exact Hrun|]. apply Hwrap, Hspec.
  - destruct (place_ok N h2 x s Hok2) as (h' & Hrun & Hspec); try done.
    { intros Hnil. apply Hempty. rewrite Hnil. done. }
    exists h'. split; [exact Hrun|]. apply Hwrap, Hspec.
Qed.

(** [update] returns, keeps the invariant, leaves the identifier in the
    heap with the score asked for, and touches nobody else. *)
Lemma update_ok N h x s :
  heapOk N h → roomy h → 0 ≤ x < N → is_int32 s →
  ∃ h', ScoreHeap.update h x s = Some h' ∧ placedSpec N h h' x s.
Proof.
  intros Hok [Hroom1 Hroom2] Hx Hs. pose proof Hok as [Hlk _ _ _ _ _ _ _ _].
  unfold ScoreHeap.update. cbv zeta. rewrite (get_owner N _ Hlk x Hx).
  destruct (decide (0 ≤ ownerAt (ScoreHeap.lookups h) x)) as [Ho|Ho].
  - rewrite (bool_decide_eq_true_2 _ Ho).
    destruct (locate N h x Hok Hx Ho) as (l1 & p & l2 & Hps & Hid & Hxp & Hidx).
    assert (Hget : JsArray.get (ScoreHeap.partitions h) (Z.of_nat (length l1)) = Some p)
      by (rewrite Hps; apply jsget_middle; done).
    rewrite Hidx, !Hget.
    cbn [fmap option_fmap option_map].
    destruct (fits_run h l1 p l2 s Hps) as (b & Hfits & Hb).
    rewrite Hfits. cbn [mbind option_bind]. destruct b.
    + specialize (Hb eq_refl). destruct (Seg.uniform p) eqn:Hu.
      * rewrite (atPartition_run h l1 p l2 _ _ (ScoreHeap.lookups h) p Hps eq_refl).
        2:{ unfold Segment.update. rewrite Hu. done. }
        cbn [mbind option_bind]. eexists. split; [done|]. heap_simpl.
        apply inplace_uniform_ok; done.
      * destruct Hb as [Hlow Hup].
        destruct (inplace_sorted_ok N h x s l1 p l2 Hok Hps Hxp Hu Hs Hlow Hup)
          as (p' & Hrun & Hspec).
        rewrite (atPartition_run h l1 p l2 _ _ (ScoreHeap.lookups h) p' Hps eq_refl).
        2:{ unfold Segment.update. rewrite Hu, Hrun. done. }
        cbn [mbind option_bind]. eexists. split; [done|]. heap_simpl. exact Hspec.
    + destruct (displace_ok N h x l1 p l2 Hok ltac:(lia) Hps Hxp)
        as (h1 & Hrun & Hok1 & Hneg1 & Hoth1 & Hnid1 & HPL1 & Hmass1).
      rewrite Hrun. cbn [mbind option_bind].
      apply (reinsert_ok N h h1 x s); try done; lia.
  - rewrite (bool_decide_eq_false_2 _ Ho). cbn [mbind option_bind].
    apply (reinsert_ok N h h x s); try done; lia.
Qed.


(** ** The constructor *)

Import Utility SearchSpec MergeSpec Inv Ghost.

(** *** The sort of the pairs *)

Lemma pairLe_iff a b : pairLe a b ↔ a.2 < b.2 ∨ (a.2 = b.2 ∧ a.1 ≤ b.1).
Proof. unfold pairLe, ScoreHeap.comparePairs. case_bool_decide; lia. Qed.

Lemma pairLe_trans a b c : pairLe a b → pairLe b c → pairLe a c.
Proof. rewrite !pairLe_iff. lia. Qed.

Lemma pairLe_total a b : ¬ pairLe a b → pairLe b a.
Proof. rewrite !pairLe_iff. lia. Qed.

Lemma insertPair_perm a l : ScoreHeap.insertPair a l ≡ₚ a :: l.
Proof.
  induction l as [|b l IH]; [done|]. simpl. case_bool_decide; [done|].
  rewrite IH. apply Permutation_swap.
Qed.

Lemma sortPairs_perm l : ScoreHeap.sortPairs l ≡ₚ l.
Proof.
  induction l as [|a l IH]; [done|]. unfold ScoreHeap.sortPairs in *. simpl.
  rewrite insertPair_perm, IH. done.
Qed.

Lemma insertPair_sorted a l :
  StronglySorted pairLe l → StronglySorted pairLe (ScoreHeap.insertPair a l).
Proof.
  induction 1 as [|b l Hs IH Hb]; simpl; [repeat constructor|].
  case_bool_decide as Hab.
  - constructor; [constructor; done|]. constructor; [done|].
    eapply Forall_impl; [exact Hb|]. intros c Hc. eapply pairLe_trans; done.
  - constructor; [done|]. rewrite insertPair_perm. constructor; [|done].
    apply pairLe_total. done.
Qed.

Lemma sortPairs_sorted l : StronglySorted pairLe (ScoreHeap.sortPairs l).
Proof.
  induction l as [|a l IH]; [constructor|]. apply insertPair_sorted. exact IH.
Qed.

Lemma sorted_strict l :
  NoDup l.*1 → StronglySorted pairLe l → StronglySorted pairLt l.
Proof.
  intros Hnd Hs. induction Hs as [|a l Hs IH Ha]; [constructor|].
  rewrite fmap_cons in Hnd. apply NoDup_cons in Hnd as [Hnin Hnd].
  constructor; [auto|]. rewrite Forall_forall in *. intros b Hb.
  specialize (Ha b Hb). apply pairLe_iff in Ha. unfold pairLt, keyLt. simpl.
  assert (a.1 ≠ b.1).
  { intros Heq. apply Hnin. rewrite Heq. apply list_elem_of_fmap. exists b. done. }
  lia.
Qed.

(** The pairs of the constructor after the sort. *)
Lemma sortPairs_ok pairs maxLength :
  pairsOk pairs maxLength →
  let sp := ScoreHeap.sortPairs pairs in
  length sp = length pairs
  ∧ NoDup sp.*1
  ∧ Forall (λ a, 0 ≤ a.1 < maxLength ∧ is_int32 a.2) sp
  ∧ StronglySorted pairLt sp.
Proof.
  intros (HN & Hnd & Hrange) sp.
  pose proof (sortPairs_perm pairs) as Hperm. fold sp in Hperm.
  assert (Hnd' : NoDup sp.*1) by (rewrite Hperm; done).
  split; [rewrite Hperm; done|]. split; [done|]. split; [rewrite Hperm; done|].
  apply sorted_strict; [done|]. apply sortPairs_sorted.
Qed.

(** Distinct identifiers of a key space are at most as many as the
    space has. *)
Lemma NoDup_range_length (l : list Z) N :
  0 ≤ N → NoDup l → Forall (λ y, 0 ≤ y < N) l → Z.of_nat (length l) ≤ N.
Proof.
  intros HN Hnd Hrange.
  assert (Hsub : l ⊆ seqZ 0 N).
  { intros y Hy. rewrite Forall_forall in Hrange. apply elem_of_seqZ. specialize (Hrange y Hy). lia. }
  pose proof (submseteq_length l (seqZ 0 N) (NoDup_submseteq l (seqZ 0 N) Hnd Hsub)) as Hle.
  rewrite length_seqZ in Hle. lia.
Qed.

(** *** The chunks *)

Lemma writeScores_app S T lk : writeScores (S ++ T) lk = writeScores T (writeScores S lk).
Proof. apply foldl_app. Qed.

Lemma writeScores_ok N : ∀ S lk,
  Z.of_nat (length lk) = 3 * N →
  NoDup S.*1 → Forall (λ a, 0 ≤ a.1 < N ∧ is_int32 a.2) S →
  scored lk (writeScores S lk) S.
Proof.
  induction S as [|[x s] S IH]; intros lk Hlk Hnd Hrange.
  - split; try done. intros a Ha. inversion Ha.
  - rewrite fmap_cons in Hnd. apply NoDup_cons in Hnd as [Hnin Hnd].
    apply Forall_cons in Hrange as [[Hx Hs] Hrange]. simpl in Hx, Hs, Hnin.
    change (writeScores ((x, s) :: S) lk) with (writeScores S (TypedArray.put lk (x * 3) s)).
    destruct (IH (TypedArray.put lk (x * 3) s)) as [Hl Hc Hsc Hoth]; try done.
    { rewrite put_length. done. }
    split.
    + rewrite Hl. apply put_length.
    + intros y Hy. destruct (Hc y Hy) as [-> ->].
      rewrite ownerAt_put_score, slotAt_put_score by lia. done.
    + intros a [->|Ha]%elem_of_cons; [|auto]. simpl.
      rewrite Hoth by (done || lia). rewrite scoreAt_put_score by lia.
      rewrite decide_True by lia. apply toInt32_id. done.
    + intros y Hy Hny. rewrite fmap_cons in Hny. simpl in Hny.
      rewrite Hoth; [|done|intros Hin; apply Hny; right; done].
      rewrite scoreAt_put_score by lia. rewrite decide_False; [done|].
      intros [-> _]. apply Hny. left.
Qed.

(** The filling loop takes the pairs [S] that follow the position. *)
Lemma fillLoop_spec : ∀ S A B chunk lk,
  ScoreHeap.fillLoop (length S) (A ++ S ++ B) (Z.of_nat (length A) + Z.of_nat (length S))
    (Z.of_nat (length A)) chunk lk
  = Some (Z.of_nat (length A) + Z.of_nat (length S), chunk ++ S.*1, writeScores S lk).
Proof.
  induction S as [|[x s] S IH]; intros A B chunk lk.
  - simpl. rewrite bool_decide_eq_false_2 by lia. rewrite app_nil_r, Z.add_0_r. done.
  - cbn [length ScoreHeap.fillLoop app]. rewrite bool_decide_eq_true_2 by lia.
    rewrite (jsget_middle A (x, s) (S ++ B) _ eq_refl). cbn [mbind option_bind].
    specialize (IH (A ++ [(x, s)]) B (chunk ++ [x]) (TypedArray.put lk (x * 3) s)).
    rewrite <- app_assoc in IH. cbn [app] in IH. rewrite length_app in IH. simpl in IH.
    replace (Z.of_nat (length A + 1) + Z.of_nat (length S))
      with (Z.of_nat (length A) + Z.of_nat (Datatypes.S (length S))) in IH by lia.
    replace (Z.of_nat (length A + 1)) with (Z.of_nat (length A) + 1) in IH by lia.
    rewrite IH. rewrite fmap_cons, <- app_assoc. done.
Qed.

(** The extending loop takes the pairs that follow with the score of
    the pair before the position, and stops at the first other score. *)
Lemma extendLoop_spec prev : ∀ B A chunk lk,
  (∃ a, last A = Some a ∧ a.2 = prev) →
  ∃ S R, B = S ++ R
    ∧ ScoreHeap.extendLoop (length B) (A ++ B) (Z.of_nat (length A)) chunk lk
      = Some (Z.of_nat (length A) + Z.of_nat (length S), chunk ++ S.*1, writeScores S lk)
    ∧ Forall (λ a, a.2 = prev) S
    ∧ (∀ a, head R = Some a → a.2 ≠ prev).
Proof.
  induction B as [|[x s] B IH]; intros A chunk lk (a & Hlast & Ha).
  - exists [], []. split; [done|]. simpl.
    rewrite bool_decide_eq_false_2 by (rewrite app_nil_r; lia).
    rewrite app_nil_r, Z.add_0_r. done.
  - cbn [length ScoreHeap.extendLoop].
    rewrite bool_decide_eq_true_2 by (rewrite length_app; simpl; lia).
    rewrite (jsget_middle A (x, s) B _ eq_refl). cbn [mbind option_bind].
    apply last_Some in Hlast as [A' ->].
    assert (Hprev : JsArray.get ((A' ++ [a]) ++ (x, s) :: B) (Z.of_nat (length (A' ++ [a])) - 1)
                    = Some a).
    { rewrite <- app_assoc. cbn [app]. apply jsget_middle. rewrite length_app. simpl. lia. }
    rewrite Hprev. cbn [mbind option_bind]. destruct a as [xa sa]. simpl in Ha. subst sa.
    case_bool_decide as Heq.
    + subst s.
      destruct (IH ((A' ++ [(xa, prev)]) ++ [(x, prev)]) (chunk ++ [x])
                  (TypedArray.put lk (x * 3) prev)) as (S & R & -> & Hrun & HS & HR).
      { exists (x, prev). rewrite last_snoc. done. }
      exists ((x, prev) :: S), R. split; [done|]. split; [|split; [constructor; done|done]].
      rewrite <- (app_assoc _ [(x, prev)]) in Hrun. cbn [app] in Hrun.
      rewrite (length_app _ [(x, prev)]) in Hrun. cbn [length] in Hrun.
      replace (Z.of_nat (length (A' ++ [(xa, prev)]) + 1))
        with (Z.of_nat (length (A' ++ [(xa, prev)])) + 1) in Hrun by lia.
      rewrite Hrun. rewrite fmap_cons, <- app_assoc. cbn [length]. f_equal. f_equal. f_equal. lia.
    + exists [], ((x, s) :: B). split; [done|]. simpl. rewrite app_nil_r, Z.add_0_r.
      split; [done|]. split; [constructor|]. intros a [= <-]. done.
Qed.

(** *** The partitioning loop *)

Lemma pairLt_score a b : pairLt a b → a.2 ≤ b.2.
Proof. unfold pairLt, keyLt. simpl. lia. Qed.

Lemma sorted_across (A S R : list (Z * Z)) b a :
  StronglySorted pairLt (A ++ S ++ R) → b ∈ S → a ∈ R → b.2 ≤ a.2.
Proof.
  intros Hs Hb Ha. apply StronglySorted_app in Hs as (_ & _ & Hs).
  apply StronglySorted_app in Hs as (Hsr & _ & _). apply pairLt_score. auto.
Qed.

Lemma segments_count N h :
  heapOk N h → Z.of_nat (length (ScoreHeap.partitions h)) ≤ mass (ScoreHeap.partitions h).
Proof.
  intros [_ _ _ _ _ Hsegs _ _ _]. eapply segments_le_mass.
  eapply Forall_impl; [exact Hsegs|]. intros p [Hp _]. exact Hp.
Qed.

(** A segment of the pairs [S] is added at the end. *)
Lemma append_ok N PL A S R h lk' q :
  NoDup (A ++ S ++ R).*1 →
  Forall (λ a, 0 ≤ a.1 < N ∧ is_int32 a.2) (A ++ S ++ R) →
  StronglySorted pairLt (A ++ S ++ R) →
  Z.of_nat (length (A ++ S ++ R)) ≤ limit →
  built N PL A (S ++ R) h → S ≠ [] →
  length lk' = length (ScoreHeap.lookups h) →
  (∀ a, a ∈ S → scoreAt lk' a.1 = a.2 ∧ ownerAt lk' a.1 = ScoreHeap.nextId h) →
  (∀ y, 0 ≤ y → y ∉ S.*1 → sameCells (ScoreHeap.lookups h) lk' y) →
  segOk N PL lk' q → Seg.id q = ScoreHeap.nextId h →
  Seg.length q = Z.of_nat (length S) →
  (∀ y, y ∈ View.live q ↔ y ∈ S.*1) →
  (∀ a, head S = Some a → Seg.min q = a.2) →
  built N PL (A ++ S) R
    (ScoreHeap.Make lk' (ScoreHeap.partitions h ++ [q])
       (<[ScoreHeap.nextId h := Z.of_nat (length (ScoreHeap.partitions h))]>
          (ScoreHeap.partitionIds h))
       (ScoreHeap.nextId h + 1) (ScoreHeap.partitionLength h)).
Proof.
  intros Hnd Hrange Hsorted Hlim [Hok HPL Hnid Hmass Habsent Hbelow Hdone Hothers] Hne Hl' HS
    Hoth Hq Hidq Hlenq Hlive Hminq.
  pose proof (segments_count N h Hok) as Hcount.
  pose proof Hok as [Hlk HN HPLr _ _ _ Hids _ _].
  rewrite !length_app in Hlim.
  assert (HlenS : 1 ≤ Z.of_nat (length S)) by (destruct S; [done|simpl; lia]).
  destruct S as [|a0 S0] eqn:HeqS; [done|]. rewrite <- HeqS in *.
  assert (Ha0 : a0 ∈ S) by (rewrite HeqS; left).
  specialize (Hminq a0). rewrite HeqS in Hminq at 1. specialize (Hminq eq_refl).
  assert (Hdisj : ∀ a, a ∈ R → a.1 ∉ S.*1).
  { intros a Ha Hin. rewrite !fmap_app in Hnd.
    apply NoDup_app in Hnd as (_ & _ & Hnd). apply NoDup_app in Hnd as (_ & Hsr & _).
    apply (Hsr a.1 Hin). apply list_elem_of_fmap. exists a. done. }
  assert (Hrange0 : ∀ a, a ∈ S → 0 ≤ a.1 < N).
  { intros a Ha. rewrite Forall_forall in Hrange. apply Hrange.
    rewrite !elem_of_app. tauto. }
  split; heap_simpl.
  - change (ScoreHeap.partitions h ++ [q]) with (ScoreHeap.partitions h ++ [q] ++ []).
    rewrite <- HPL in Hq.
    apply (heapOk_surgery N h (ScoreHeap.partitions h) [] [] lk' [q] _ _ S.*1 Hok).
    + rewrite app_nil_r. done.
    + done.
    + done.
    + intros y [a [-> Ha]]%list_elem_of_fmap. left. apply Habsent.
      apply elem_of_app. left. done.
    + intros p y Hp. inversion Hp.
    + apply Forall_cons. split; [split; [done|lia]|constructor].
    + lia.
    + cbn [app]. intros k p Hk. apply lookup_app_Some in Hk as [Hk|[Hge Hk]].
      * rewrite lookup_insert_ne; [apply Hids, Hk|].
        apply list_elem_of_lookup_2 in Hk. pose proof (ids_fresh N h p Hok Hk). congruence.
      * destruct (k - length (ScoreHeap.partitions h))%nat eqn:Hd; [|done].
        injection Hk as <-. rewrite Hidq, lookup_insert_eq. f_equal. lia.
    + rewrite mass_cons. unfold mass at 1 2. simpl. lia.
    + intros y Hy _ _. exists q. split; [left|]. split; [|apply Hlive, Hy].
      apply list_elem_of_fmap in Hy as [a [-> Ha]]. destruct (HS a Ha) as [_ ->]. done.
    + done.
    + intros p q0 Hp [= <-]. rewrite Hminq. apply (Hbelow p a0 Hp).
      apply elem_of_app. left. done.
    + intros p q0 _ Hq0. done.
  - done.
  - rewrite length_app. simpl. lia.
  - rewrite mass_app, mass_cons, length_app. unfold mass at 2. simpl. lia.
  - intros a Ha. specialize (Hdisj a Ha).
    assert (0 ≤ a.1).
    { rewrite Forall_forall in Hrange. specialize (Hrange a). rewrite !elem_of_app in Hrange.
      specialize (Hrange ltac:(tauto)). lia. }
    destruct (Hoth a.1 ltac:(done) Hdisj) as (_ & -> & _).
    apply Habsent. apply elem_of_app. right. done.
  - intros p a. rewrite last_snoc. intros [= <-] Ha. apply below_intro.
    + rewrite Hminq. eapply sorted_across; done.
    + intros y [b [-> Hb]]%Hlive%list_elem_of_fmap. destruct (HS b Hb) as [-> _].
      eapply sorted_across; done.
  - intros a [Ha|Ha]%elem_of_app.
    + assert (Hnin : a.1 ∉ S.*1).
      { intros Hin. rewrite !fmap_app in Hnd. apply NoDup_app in Hnd as (_ & Has & _).
        apply (Has a.1); [apply list_elem_of_fmap; exists a; done|].
        apply elem_of_app. left. done. }
      assert (0 ≤ a.1).
      { rewrite Forall_forall in Hrange. specialize (Hrange a).
        rewrite !elem_of_app in Hrange. specialize (Hrange ltac:(tauto)). lia. }
      destruct (Hoth a.1 ltac:(done) Hnin) as (-> & -> & _). apply Hdone, Ha.
    + destruct (HS a Ha) as [-> ->]. split; [lia|done].
  - intros y Hy Hnin. rewrite fmap_app, elem_of_app in Hnin.
    destruct (Hoth y ltac:(lia) ltac:(tauto)) as (_ & -> & _). apply Hothers; tauto.
Qed.

Lemma toInt32_ids N (l : list Z) :
  N ≤ limit → Forall (λ y, 0 ≤ y < N) l → toInt32 <$> l = l.
Proof.
  intros HN Hl. induction Hl as [|y l Hy _ IH]; [done|].
  rewrite fmap_cons, IH, toInt32_id; [done|]. unfold is_int32, limit in *. lia.
Qed.

Section chunk.
Context (N : Z) (lk : list Z) (S : list (Z * Z)) (nid : Z).
Hypothesis Hlk : Z.of_nat (length lk) = 3 * N.
Hypothesis HN : 0 ≤ N ≤ limit.
Hypothesis Hnd : NoDup S.*1.
Hypothesis Hrange : Forall (λ a, 0 ≤ a.1 < N ∧ is_int32 a.2) S.
Hypothesis Hne : S ≠ [].
Hypothesis Hnid : 0 ≤ nid ≤ limit.

Lemma chunk_range : Forall (λ y, 0 ≤ y < N) S.*1.
Proof.
  apply Forall_fmap. eapply Forall_impl; [exact Hrange|]. intros a [Ha _]. exact Ha.
Qed.

Lemma chunk_length : Z.of_nat (length S.*1) ≤ limit.
Proof. pose proof (NoDup_range_length S.*1 N ltac:(lia) Hnd chunk_range). lia. Qed.

Lemma chunk_int32 : is_int32 nid.
Proof. unfold is_int32, limit in *. lia. Qed.

Lemma chunked_intro lk2 lk' :
  scored lk lk2 S → length lk' = length lk2 →
  (∀ y, 0 ≤ y → scoreAt lk' y = scoreAt lk2 y) →
  (∀ y, y ∈ S.*1 → ownerAt lk' y = nid) →
  (∀ y, 0 ≤ y → y ∉ S.*1 → sameCells lk2 lk' y) →
  chunked lk S nid lk'.
Proof.
  intros [Hl Hc Hsc Hoth] Hl' Hsc' Hown' Hoth'. split; [congruence|]. split.
  - intros a Ha. pose proof chunk_range as Hr. rewrite Forall_forall in Hr.
    assert (Hin : a.1 ∈ S.*1) by (apply list_elem_of_fmap; exists a; done).
    specialize (Hr _ Hin). rewrite Hsc' by lia. split; [apply Hsc, Ha|apply Hown', Hin].
  - intros y Hy Hny. destruct (Hoth' y Hy Hny) as (H1 & H2 & H3).
    destruct (Hc y Hy) as [H4 H5]. specialize (Hoth y Hy Hny).
    split; [congruence|]. split; congruence.
Qed.

(** A chunk of one score becomes a uniform segment. *)
Lemma uniform_chunk s :
  Forall (λ a, a.2 = s) S →
  ∃ lk' q,
    UniformPartition.new nid (writeScores S lk) (toInt32 <$> S.*1) (Z.of_nat (length S.*1))
    = Some (lk', q)
    ∧ chunked lk S nid lk' ∧ uniformOk N lk' q ∧ Seg.uniform q = true
    ∧ Seg.id q = nid ∧ Seg.length q = Z.of_nat (length S)
    ∧ (∀ y, y ∈ View.live q ↔ y ∈ S.*1)
    ∧ Seg.min q = s.
Proof.
  intros Hs. pose proof chunk_range as Hcr.
  pose proof (writeScores_ok N S lk Hlk Hnd Hrange) as Hscored.
  rewrite (toInt32_ids N) by (done || lia).
  destruct (Uniform_new_ok N (writeScores S lk) nid S.*1 s) as (Hrun & Htag & Huo).
  - destruct Hscored as [Hl _ _ _]. rewrite Hl. done.
  - apply chunk_int32.
  - destruct S; done.
  - apply chunk_length.
  - done.
  - done.
  - apply Forall_fmap. apply Forall_forall. intros a Ha. simpl.
    destruct Hscored as [_ _ Hsc _]. rewrite (Hsc a Ha).
    rewrite Forall_forall in Hs. apply Hs, Ha.
  - eexists _, _. split; [exact Hrun|]. destruct Htag as [Hl' Hsc' Hslot' Hoth'].
    split; [|split; [done|split; [done|split; [done|split; [|split; [|done]]]]]].
    + eapply chunked_intro; try done.
      intros y Hy. pose proof Hy as [j Hj]%list_elem_of_lookup_1.
      rewrite Forall_forall in Hcr. specialize (Hcr y Hy).
      destruct (Hslot' j y Hj ltac:(lia)) as [-> _]. done.
    + cbn [Seg.length]. rewrite length_fmap. done.
    + intros y. rewrite live_uniform by done.
      assert (Hreg : region (Seg.Make true nid S.*1 (Z.of_nat (length S.*1)) s) = S.*1).
      { unfold region. cbn [Seg.length Seg.indices]. rewrite Nat2Z.id. apply firstn_all. }
      rewrite Hreg. split; [tauto|]. intros Hy. split; [done|].
      rewrite Forall_forall in Hcr. specialize (Hcr y Hy). lia.
Qed.

(** A chunk of at most [PL] pairs in ascending order becomes a sorted
    segment. *)
Lemma sorted_chunk PL :
  Z.of_nat (length S) ≤ PL → StronglySorted pairLt S →
  ∃ indices lk' q,
    TypedArray.set (replicate (Z.to_nat PL) 0) (toInt32 <$> S.*1) 0 = Some indices
    ∧ Partition.new nid (writeScores S lk) indices (Z.of_nat (length S.*1)) = Some (lk', q)
    ∧ chunked lk S nid lk' ∧ sortedOk N PL lk' q ∧ Seg.uniform q = false
    ∧ Seg.id q = nid ∧ Seg.length q = Z.of_nat (length S)
    ∧ (∀ y, y ∈ View.live q ↔ y ∈ S.*1)
    ∧ (∀ a, head S = Some a → Seg.min q = a.2).
Proof.
  intros HPL Hsorted. pose proof chunk_range as Hcr.
  pose proof (writeScores_ok N S lk Hlk Hnd Hrange) as Hscored.
  rewrite (toInt32_ids N) by (done || lia).
  set (G := replicate (Z.to_nat PL - length S.*1) 0).
  assert (HlenS : length S.*1 = length S) by apply length_fmap.
  assert (Hset : TypedArray.set (replicate (Z.to_nat PL) 0) S.*1 0 = Some (S.*1 ++ G)).
  { rewrite set_ok by (rewrite ?length_replicate; lia).
    change (Z.to_nat 0) with 0%nat. rewrite take_0. cbn [app Nat.add].
    rewrite drop_replicate. done. }
  destruct (Partition_new_ok N (writeScores S lk) nid (S.*1 ++ G) (Z.of_nat (length S.*1))
              S.*1 G) as (lk' & Hrun & Hh & Hslot); try done.
  - destruct Hscored as [Hl _ _ _]. rewrite Hl. done.
  - apply chunk_int32.
  - destruct S; done.
  - exists (S.*1 ++ G), lk'. eexists. split; [exact Hset|]. split; [exact Hrun|].
    destruct Hh as [Hl' Hsc' Hown' Hoth'].
    assert (Hch : chunked lk S nid lk') by (eapply chunked_intro; done).
    assert (Hbound : ∀ a, a ∈ S →
              scoreAt (writeScores S lk) (default 0 (head S.*1)) ≤ a.2).
    { intros a Ha. destruct Hscored as [_ _ Hsc _]. destruct S as [|b S']; [inversion Ha|].
      rewrite fmap_cons. cbn [head default id]. rewrite (Hsc b) by left.
      apply elem_of_cons in Ha as [->|Ha]; [done|].
      apply StronglySorted_inv in Hsorted as [_ Hb]. rewrite Forall_forall in Hb.
      apply pairLt_score. auto. }
    set (q := Seg.Make false nid (S.*1 ++ G) (Z.of_nat (length S.*1)) _).
    assert (Hreg : region q = S.*1) by (apply (region_shape _ S.*1 G); done).
    assert (Hmin : ∀ a, head S = Some a → Seg.min q = a.2).
    { intros a Ha. destruct S as [|b S']; [done|]. injection Ha as ->.
      unfold q. cbn [Seg.min fmap list_fmap head default].
      destruct Hscored as [_ _ Hsc _]. apply Hsc. left. }
    split; [done|]. split; [|split; [done|split; [done|split; [|split; [|done]]]]].
    + destruct Hch as (_ & HS & _).
      apply (sortedOk_intro N PL lk' _ _ _ _ _ S.*1 G); try done.
      * rewrite length_app. unfold G. rewrite length_replicate. lia.
      * destruct S; done.
      * clear -Hsorted HS. induction Hsorted as [|a l Hs IH Ha]; [constructor|].
        rewrite fmap_cons. constructor.
        { apply IH. intros b Hb. apply HS. right. done. }
        apply Forall_fmap. apply Forall_forall. intros b Hb.
        rewrite Forall_forall in Ha. specialize (Ha b Hb).
        unfold before, keyOf. simpl.
        destruct (HS a ltac:(left)) as [-> _]. destruct (HS b ltac:(right; done)) as [-> _].
        exact Ha.
      * apply Forall_fmap. apply Forall_forall. intros a Ha. simpl. apply HS, Ha.
      * apply Forall_fmap. apply Forall_forall. intros a Ha. simpl.
        destruct (HS a Ha) as [-> _]. apply Hbound, Ha.
    + unfold q. cbn [Seg.length]. lia.
    + intros y. rewrite live_sorted by done. rewrite Hreg. done.
Qed.

End chunk.

Lemma sorted_between (S : list (Z * Z)) f l a :
  StronglySorted pairLt S → head S = Some f → last S = Some l → a ∈ S →
  f.2 ≤ a.2 ≤ l.2.
Proof.
  intros Hs Hf Hl Ha. destruct S as [|f' S']; [done|]. injection Hf as ->.
  apply StronglySorted_inv in Hs as [Hs Hf]. rewrite Forall_forall in Hf.
  destruct (snoc_or_nil S') as [->|(S'' & l' & ->)].
  - injection Hl as <-. apply list_elem_of_singleton in Ha as ->. lia.
  - rewrite app_comm_cons, last_snoc in Hl. injection Hl as ->.
    apply StronglySorted_app in Hs as (Hsl & _ & _).
    apply elem_of_cons in Ha as [-> | [Ha | ->%list_elem_of_singleton]%elem_of_app].
    + split; [lia|]. apply pairLt_score, Hf. apply elem_of_app. right. left.
    + split; [apply pairLt_score, Hf; apply elem_of_app; left; done|].
      apply pairLt_score, Hsl; [done|left].
    + split; [|lia]. apply pairLt_score, Hf. apply elem_of_app. right. left.
Qed.

Lemma jsget_inner {X} (A S R : list X) k i :
  i = Z.of_nat (length A) + Z.of_nat k → (k < length S)%nat →
  JsArray.get (A ++ S ++ R) i = S !! k.
Proof.
  intros -> Hk. replace (Z.of_nat (length A) + Z.of_nat k) with (Z.of_nat (length A + k)) by lia.
  rewrite jsget_nat, lookup_app_r by lia. rewrite lookup_app_l by lia. f_equal. lia.
Qed.

(** One turn of the partitioning loop. *)
Lemma turn_ok N PL A B fuel h :
  NoDup (A ++ B).*1 →
  Forall (λ a, 0 ≤ a.1 < N ∧ is_int32 a.2) (A ++ B) →
  StronglySorted pairLt (A ++ B) →
  Z.of_nat (length (A ++ B)) ≤ limit →
  built N PL A B h → B ≠ [] →
  ∃ S R h', B = S ++ R ∧ S ≠ []
    ∧ ScoreHeap.partitionLoop (Datatypes.S fuel) (A ++ B) (Z.of_nat (length A)) h
      = ScoreHeap.partitionLoop fuel (A ++ B) (Z.of_nat (length (A ++ S))) h'
    ∧ built N PL (A ++ S) R h'.
Proof.
  intros Hnd Hrange Hsorted Hlim Hb HB.
  pose proof Hb as [Hok HPL Hnid Hmass Habsent Hbelow _ _].
  pose proof Hok as [Hlk HN HPLr _ _ _ _ _ _].
  pose proof (segments_count N h Hok) as Hcount.
  assert (Hsplit : ∃ S0 R0, B = S0 ++ R0 ∧ S0 ≠ []
            ∧ Z.of_nat (length S0) = Z.min (Z.of_nat (length B)) PL).
  { exists (take (Z.to_nat PL) B), (drop (Z.to_nat PL) B).
    split; [symmetry; apply take_drop|]. split.
    - destruct B; [done|]. replace (Z.to_nat PL) with (Datatypes.S (Z.to_nat PL - 1)) by lia. done.
    - rewrite length_take. lia. }
  destruct Hsplit as (S0 & R0 & -> & HS0 & HlenS0).
  cbn [ScoreHeap.partitionLoop].
  rewrite bool_decide_eq_true_2 by (rewrite !length_app; destruct S0; [done|simpl; lia]).
  cbv zeta.
  replace (Z.min (Z.of_nat (length (A ++ S0 ++ R0))) (Z.of_nat (length A) + ScoreHeap.partitionLength h))
    with (Z.of_nat (length A) + Z.of_nat (length S0)) by (rewrite !length_app in *; lia).
  replace (Z.to_nat (Z.of_nat (length A) + Z.of_nat (length S0) - Z.of_nat (length A)))
    with (length S0) by lia.
  rewrite fillLoop_spec. cbn [mbind option_bind app].
  assert (Hsorted' := Hsorted). apply StronglySorted_app in Hsorted' as (_ & _ & Hsorted').
  assert (HsS0 : StronglySorted pairLt S0) by (apply StronglySorted_app in Hsorted'; tauto).
  assert (Hnid' : 0 ≤ ScoreHeap.nextId h ≤ limit) by (rewrite !length_app in Hlim; lia).
  match goal with |- ∃ S R h', _ ∧ _ ∧ (?t ≫= _) = _ ∧ _ =>
    assert (Htest : ∃ u : bool, t = Some u
              ∧ (u = true → ∃ s, Forall (λ a, a.2 = s) S0
                               ∧ ∃ a, last (A ++ S0) = Some a ∧ a.2 = s)
              ∧ (u = false → Z.of_nat (length S0) ≤ PL)) end.
  { case_bool_decide as Hfull; [|exists false; split; [done|split; [done|lia]]].
    destruct (head S0) as [[xf sf]|] eqn:Hhead; [|destruct S0; done].
    destruct (last S0) as [[xl sl]|] eqn:Hlast; [|destruct S0; [done|]; rewrite last_cons in Hlast; destruct (last S0); done].
    assert (Hpos : (0 < length S0)%nat) by (destruct S0; [done|simpl; lia]).
    rewrite (jsget_inner A S0 R0 (Nat.pred (length S0))
               (Z.of_nat (length A) + Z.of_nat (length S0) - 1)) by lia.
    rewrite <- last_lookup, Hlast. cbn [mbind option_bind].
    rewrite (jsget_inner A S0 R0 0) by (rewrite ?length_fmap; lia).
    rewrite <- head_lookup, Hhead. cbn [mbind option_bind].
    eexists. split; [done|]. split; [|intros _; lia].
    intros Heq%bool_decide_eq_true. subst sl. exists sf. split.
    - apply Forall_forall. intros a Ha.
      pose proof (sorted_between S0 _ _ a HsS0 Hhead Hlast Ha) as Hbt. simpl in Hbt. lia.
    - exists (xl, sf). rewrite last_app, Hlast. done. }
  destruct Htest as (u & -> & Hu1 & Hu0). cbn [mbind option_bind].
  destruct u.
  - destruct (Hu1 eq_refl) as (s & Hall & a & Hlast & Ha). clear Hu1 Hu0.
    replace (Z.to_nat (Z.of_nat (length (A ++ S0 ++ R0))
                       - (Z.of_nat (length A) + Z.of_nat (length S0))))
      with (length R0) by (rewrite !length_app; lia).
    replace (Z.of_nat (length A) + Z.of_nat (length S0)) with (Z.of_nat (length (A ++ S0)))
      by (rewrite length_app; lia).
    rewrite (app_assoc A S0 R0).
    destruct (extendLoop_spec s R0 (A ++ S0) S0.*1 (writeScores S0 (ScoreHeap.lookups h)))
      as (S1 & R & -> & Hrun & HS1 & HR); [exists a; done|].
    rewrite Hrun. cbn [mbind option_bind]. rewrite <- fmap_app, <- writeScores_app.
    rewrite (app_assoc S0 S1 R) in Hnd, Hrange, Hsorted, Hlim, Hb.
    assert (HndS : NoDup (S0 ++ S1).*1).
    { rewrite !fmap_app in Hnd. rewrite !fmap_app.
      apply NoDup_app in Hnd as (_ & _ & Hnd). apply NoDup_app in Hnd as (Hnd & _ & _).
      done. }
    assert (HrS : Forall (λ a, 0 ≤ a.1 < N ∧ is_int32 a.2) (S0 ++ S1)).
    { rewrite !Forall_app in Hrange. rewrite Forall_app. tauto. }
    destruct (uniform_chunk N (ScoreHeap.lookups h) (S0 ++ S1) (ScoreHeap.nextId h)
                Hlk HN HndS HrS ltac:(destruct S0; done) Hnid' s)
      as (lk' & q & Hnew & (Hl' & HSc & Hoth) & Huo & Huq & Hidq & Hlenq & Hlive & Hminq).
    { apply Forall_app. done. }
    rewrite Hnew. cbn [mbind option_bind].
    exists (S0 ++ S1), R. eexists. split; [apply app_assoc|]. split; [destruct S0; done|].
    split.
    + f_equal. rewrite !length_app. lia.
    + apply (append_ok N PL A (S0 ++ S1) R h lk' q); try done.
      * destruct S0; done.
      * unfold segOk. rewrite Huq. done.
      * intros b Hb0. rewrite Hminq. destruct S0 as [|b0 S0']; [done|]. injection Hb0 as <-.
        rewrite Forall_forall in Hall. symmetry. apply Hall. left.
  - clear Hu1. specialize (Hu0 eq_refl).
    assert (HndS : NoDup S0.*1).
    { rewrite !fmap_app in Hnd.
      apply NoDup_app in Hnd as (_ & _ & Hnd). apply NoDup_app in Hnd as (Hnd & _ & _).
      done. }
    assert (HrS : Forall (λ a, 0 ≤ a.1 < N ∧ is_int32 a.2) S0).
    { rewrite !Forall_app in Hrange. tauto. }
    destruct (sorted_chunk N (ScoreHeap.lookups h) S0 (ScoreHeap.nextId h)
                Hlk HN HndS HrS HS0 Hnid' PL Hu0 HsS0)
      as (indices & lk' & q & Hset & Hnew & (Hl' & HSc & Hoth) & Hso & Huq & Hidq & Hlenq
          & Hlive & Hminq).
    rewrite HPL, create_ok by fits. cbn [mbind option_bind].
    rewrite Hset. cbn [mbind option_bind]. rewrite Hnew. cbn [mbind option_bind].
    exists S0, R0. eexists. split; [done|]. split; [done|]. split.
    + f_equal. rewrite !length_app. lia.
    + rewrite <- HPL at 2. apply (append_ok N PL A S0 R0 h lk' q); try done.
      unfold segOk. rewrite Huq. done.
Qed.

(** The partitioning loop returns with every pair in a segment. *)
Lemma partitionLoop_ok N PL sp :
  NoDup sp.*1 →
  Forall (λ a, 0 ≤ a.1 < N ∧ is_int32 a.2) sp →
  StronglySorted pairLt sp →
  Z.of_nat (length sp) ≤ limit →
  ∀ fuel A B h, sp = A ++ B → (length B ≤ fuel)%nat → built N PL A B h →
  ∃ h', ScoreHeap.partitionLoop fuel sp (Z.of_nat (length A)) h = Some h'
    ∧ built N PL sp [] h'.
Proof.
  intros Hnd Hrange Hsorted Hlim.
  assert (Hend : ∀ fuel A h, sp = A ++ [] → built N PL A [] h →
            ∃ h', ScoreHeap.partitionLoop fuel sp (Z.of_nat (length A)) h = Some h'
              ∧ built N PL sp [] h').
  { intros fuel A h HA Hb. rewrite app_nil_r in HA. subst A. exists h. split; [|done].
    destruct fuel; cbn [ScoreHeap.partitionLoop]; rewrite bool_decide_eq_false_2 by lia; done. }
  induction fuel as [|fuel IH]; intros A B h Hsp Hfuel Hb.
  - destruct B; [|simpl in Hfuel; lia]. apply Hend; done.
  - destruct (decide (B = [])) as [->|HB]; [apply Hend; done|].
    subst sp.
    destruct (turn_ok N PL A B fuel h Hnd Hrange Hsorted Hlim Hb HB)
      as (S & R & h' & -> & HS & Hrun & Hb').
    rewrite Hrun. apply (IH (A ++ S) R h'); [rewrite <- app_assoc; done| |done].
    rewrite length_app in Hfuel. destruct S; [done|]. simpl in Hfuel. lia.
Qed.

Lemma computePartitionLength_ok n :
  2 ≤ ScoreHeap.computePartitionLength n ≤ 4096
  ∧ ScoreHeap.computePartitionLength n `mod` 2 = 0.
Proof.
  unfold ScoreHeap.computePartitionLength, ScoreHeap.MAX_SECTOR_LENGTH,
    ScoreHeap.MIN_SECTOR_LENGTH, ScoreHeap.TARGET_SECTOR_LENGTH.
  case_bool_decide as Hn; [split; [lia|done]|].
  assert (Hk : 0 ≤ Z.log2 (n `div` 1024)) by apply Z.log2_nonneg.
  destruct (decide (Z.log2 (n `div` 1024) = 0)) as [->|Hne]; [split; [lia|done]|].
  replace (Z.log2 (n `div` 1024)) with (1 + (Z.log2 (n `div` 1024) - 1)) by lia.
  rewrite Z.pow_add_r by lia. change (2 ^ 1) with 2.
  generalize (2 ^ (Z.log2 (n `div` 1024) - 1)). intros m.
  split; [lia|].
  assert (Hv : ∃ v, Z.min 4096 (Z.max 32 (2 * m)) = 2 * v).
  { destruct (Z.max_spec 32 (2 * m)) as [[_ ->]|[_ ->]];
      [destruct (Z.min_spec 4096 (2 * m)) as [[_ ->]|[_ ->]]|]; [exists 2048|exists m|exists 16]; lia. }
  destruct Hv as [v ->]. rewrite Z.mul_comm. apply Z.mod_mul. done.
Qed.

Lemma fresh_table N x :
  0 ≤ N → 0 ≤ x < N →
  ownerAt (TypedArray.fill (replicate (Z.to_nat (N * 3)) 0) (-1)) x = -1.
Proof.
  intros HN Hx. unfold ownerAt, TypedArray.fill. rewrite length_replicate.
  apply lookup_total_replicate_2. lia.
Qed.

(** The constructor returns, with every pair in a segment. *)
Lemma new_built pairs maxLength :
  pairsOk pairs maxLength →
  ∃ h PL, ScoreHeap.new pairs maxLength = Some h
    ∧ built maxLength PL (ScoreHeap.sortPairs pairs) [] h.
Proof.
  intros Hpairs.
  destruct (sortPairs_ok pairs maxLength Hpairs) as (Hlen & Hnd & Hrange & Hsorted).
  destruct Hpairs as (HN & _ & _).
  set (sp := ScoreHeap.sortPairs pairs) in *.
  assert (Hlim : Z.of_nat (length sp) ≤ limit).
  { rewrite <- (length_fmap fst).
    assert (Hr : Forall (λ y, 0 ≤ y < maxLength) sp.*1).
    { apply Forall_fmap. eapply Forall_impl; [exact Hrange|]. intros a [Ha _]. exact Ha. }
    pose proof (NoDup_range_length sp.*1 maxLength ltac:(lia) Hnd Hr) as Hle. lia. }
  unfold ScoreHeap.new. rewrite create_ok by fits. cbn [mbind option_bind]. cbv zeta.
  fold sp.
  set (h0 := ScoreHeap.Make _ [] ∅ 0 _).
  destruct (partitionLoop_ok maxLength (ScoreHeap.partitionLength h0) sp Hnd Hrange Hsorted Hlim
              (length sp) [] sp h0) as (h' & Hrun & Hb); [done|done| |].
  - split; try done.
    + split.
      * unfold h0. cbn [ScoreHeap.lookups]. unfold TypedArray.fill.
        rewrite !length_replicate. lia.
      * done.
      * apply computePartitionLength_ok.
      * done.
      * unfold limit. done.
      * constructor.
      * intros k p Hk. done.
      * intros x Hx Ho. exfalso. unfold h0 in Ho. cbn [ScoreHeap.lookups] in Ho.
        rewrite fresh_table in Ho by lia. lia.
      * done.
    + intros a Ha. rewrite Forall_forall in Hrange. destruct (Hrange a Ha) as [Hr _].
      unfold h0. cbn [ScoreHeap.lookups]. rewrite fresh_table by lia. lia.
    + intros a Ha. inversion Ha.
    + intros y Hy _. unfold h0. cbn [ScoreHeap.lookups]. rewrite fresh_table by lia. lia.
  - exists h', (ScoreHeap.partitionLength h0). done.
Qed.

(** The constructor returns a heap that satisfies the invariant. *)
Lemma new_ok pairs maxLength :
  pairsOk pairs maxLength →
  ∃ h, ScoreHeap.new pairs maxLength = Some h ∧ heapOk maxLength h.
Proof.
  intros Hpairs. destruct (new_built pairs maxLength Hpairs) as (h & PL & Hrun & Hb).
  exists h. split; [exact Hrun|]. destruct Hb as [Hok _ _ _ _ _ _ _]. exact Hok.
Qed.

(** ** Scenario A and the empty heap *)

(** C4, as stated, fails: the one segment built from the four equal
    pairs is a sorted segment, not a uniform one (a chunk is promoted
    only when it has [partitionLength] members, and that is at least 32). *)
Lemma scenarioA_segment_is_not_uniform :
  ∃ h p, ScoreHeap.new ScenarioA.pairs 4 = Some h
         ∧ ScoreHeap.partitions h = [p] ∧ Seg.uniform p = false.
Proof.
  eexists _, _. split; [vm_compute; reflexivity|].
  split; reflexivity.
Qed.

(** C4, amended: capacity 4 and the pairs (0,5),(1,5),(2,5),(3,5) give
    exactly one segment, a sorted one of capacity 32 holding 0,1,2,3 in
    this order; [next()] returns 3, [remove(3)] returns 3, and [next()]
    then returns 2. *)
Theorem scenarioA_single_sorted_segment :
  ∃ h p, ScoreHeap.new ScenarioA.pairs 4 = Some h
    ∧ ScoreHeap.partitions h = [p]
    ∧ Seg.uniform p = false
    ∧ View.live p = [0; 1; 2; 3]
    ∧ ScoreHeap.partitionLength h = 32
    ∧ (ScoreHeap.next h).2 = Some 3
    ∧ ∃ h', ScoreHeap.remove (ScoreHeap.next h).1 3 = Some (h', Some 3)
            ∧ (ScoreHeap.next h').2 = Some 2.
Proof.
  eexists _, _. split; [vm_compute; reflexivity|].
  repeat (split; [reflexivity|]).
  eexists. split; [vm_compute; reflexivity|].
  reflexivity.
Qed.

(** C10, as stated, fails for a capacity the side table cannot have:
    [new ScoreHeap([], 10^18)] asks for an [Int32Array] of 3 * 10^18
    cells, more than 2^53 - 1, and the constructor throws a RangeError
    although the capacity is not negative. *)
Lemma empty_heap_of_huge_capacity_throws :
  0 ≤ 10 ^ 18 ∧ ScoreHeap.new [] (10 ^ 18) = None.
Proof. split; [lia|]. vm_compute. reflexivity. Qed.

(** C10, amended: for every capacity from 0 to 2^30 the constructor
    accepts an empty list of pairs; the heap has no segment, [next()]
    returns [undefined] and [remove] returns [undefined] for every
    identifier, both leaving the heap as it is. *)
Theorem empty_heap_has_nothing (maxLength : Z) :
  0 ≤ maxLength ≤ Inv.limit →
  ∃ h, ScoreHeap.new [] maxLength = Some h
    ∧ ScoreHeap.partitions h = []
    ∧ ScoreHeap.next h = (h, None)
    ∧ ∀ index, ScoreHeap.remove h index = Some (h, None).
Proof.
  intros Hn. unfold ScoreHeap.new, TypedArray.create, TypedArray.MAX_LENGTH.
  rewrite bool_decide_eq_true_2 by (unfold Inv.limit in Hn; lia). simpl.
  eexists. split; [reflexivity|].
  split; [reflexivity|]. split; [reflexivity|].
  intros index. reflexivity.
Qed.

Lemma empty_heap_has_nothing_witness :
  ∃ h, ScoreHeap.new [] 7 = Some h
    ∧ ScoreHeap.partitions h = []
    ∧ ScoreHeap.next h = (h, None)
    ∧ ∀ index, ScoreHeap.remove h index = Some (h, None).
Proof. apply (empty_heap_has_nothing 7). unfold Inv.limit. lia. Defined.


(** ** The heaps a caller can hold *)

Import Utility SearchSpec MergeSpec Inv Ghost.

(** Every heap built by the constructor and changed by the methods
    satisfies the invariant, for the capacity it was built with. *)
Lemma reachable_heapOk h : reachable h → heapOk (capacity h) h.
Proof.
  induction 1 as [pairs maxLength h Hpairs Hnew|h Hr IH|h index h' r Hr IH Hrem
                  |h index score h' Hr IH Hindex Hscore Hroom Hupd].
  - destruct (new_ok pairs maxLength Hpairs) as (h0 & Hnew0 & Hok).
    rewrite Hnew in Hnew0. injection Hnew0 as <-.
    rewrite (capacity_eq maxLength h Hok). exact Hok.
  - destruct (next_ok (capacity h) _ h eq_refl IH) as (h' & r & Hnext & Hok & _).
    rewrite Hnext. cbn [fst]. rewrite (capacity_eq (capacity h) h' Hok). exact Hok.
  - destruct (decide (0 ≤ index < capacity h ∧ 0 ≤ ownerAt (ScoreHeap.lookups h) index))
      as [[Hx Ho]|Hp].
    + destruct (remove_present (capacity h) h index IH Hx Ho) as (h0 & Hrun & Hok & _).
      rewrite Hrem in Hrun. injection Hrun as <- _.
      rewrite (capacity_eq (capacity h) h' Hok). exact Hok.
    + rewrite <- (present_iff (capacity h) h index IH) in Hp.
      rewrite (remove_absent h index Hp) in Hrem. injection Hrem as <- _. exact IH.
  - destruct (update_ok (capacity h) h index score IH Hroom Hindex Hscore)
      as (h0 & Hrun & Hok & _).
    rewrite Hupd in Hrun. injection Hrun as <-.
    rewrite (capacity_eq (capacity h) h' Hok). exact Hok.
Qed.

(** The score and the presence of an identifier, read from the cells. *)
Lemma score_cell N h x :
  heapOk N h → 0 ≤ x < N → View.score h x = Some (scoreAt (ScoreHeap.lookups h) x).
Proof. intros [Hlk _ _ _ _ _ _ _ _] Hx. apply (get_score N); done. Qed.

Lemma owner_cell N h x :
  heapOk N h → 0 ≤ x < N → View.owner h x = Some (ownerAt (ScoreHeap.lookups h) x).
Proof. intros [Hlk _ _ _ _ _ _ _ _] Hx. apply (get_owner N); done. Qed.

Lemma owner_outside N h x :
  heapOk N h → ¬ 0 ≤ x < N → View.owner h x = None.
Proof. intros [Hlk _ _ _ _ _ _ _ _] Hx. apply (get_owner_outside N); done. Qed.

(** ** The scenarios *)

Lemma pairsOk_decide pairs maxLength :
  0 ≤ maxLength ≤ limit →
  bool_decide (NoDup pairs.*1) = true →
  forallb (λ a, bool_decide (0 ≤ a.1 < maxLength) && bool_decide (- 2 ^ 31 ≤ a.2 < 2 ^ 31))
    pairs = true →
  pairsOk pairs maxLength.
Proof.
  intros HN Hnd Hall. split; [done|]. split; [apply bool_decide_eq_true in Hnd; done|].
  apply Forall_forall. intros a Ha.
  rewrite forallb_forall in Hall. specialize (Hall a).
  rewrite <- list_elem_of_In in Hall. specialize (Hall Ha).
  apply andb_true_iff in Hall as [H1%bool_decide_eq_true H2%bool_decide_eq_true]. done.
Qed.

Lemma ScenarioA_new : ScoreHeap.new ScenarioA.pairs 4 = Some ScenarioA.heap.
Proof. vm_compute. reflexivity. Qed.

Lemma ScenarioA_reachable : reachable ScenarioA.heap.
Proof.
  apply (reach_new ScenarioA.pairs 4); [|exact ScenarioA_new].
  apply pairsOk_decide; [unfold limit; lia|vm_compute; reflexivity|vm_compute; reflexivity].
Qed.

Lemma ScenarioTie_new : ScoreHeap.new ScenarioTie.pairs 34 = Some ScenarioTie.built.
Proof. vm_compute. reflexivity. Qed.

Lemma ScenarioTie_first : ScoreHeap.update ScenarioTie.built 33 5 = Some ScenarioTie.first.
Proof. vm_compute. reflexivity. Qed.

Lemma ScenarioTie_second : ScoreHeap.update ScenarioTie.first 32 5 = Some ScenarioTie.heap.
Proof. vm_compute. reflexivity. Qed.

Lemma ScenarioTie_reachable : reachable ScenarioTie.heap.
Proof.
  assert (H0 : reachable ScenarioTie.built).
  { apply (reach_new ScenarioTie.pairs 34); [|exact ScenarioTie_new].
    apply pairsOk_decide; [unfold limit; lia|vm_compute; reflexivity|vm_compute; reflexivity]. }
  assert (H1 : reachable ScenarioTie.first).
  { apply (reach_update ScenarioTie.built 33 5); [done| | | |exact ScenarioTie_first].
    - change (capacity ScenarioTie.built) with 34. lia.
    - unfold is_int32. lia.
    - split.
      + change (ScoreHeap.nextId ScenarioTie.built) with 1. unfold limit. lia.
      + change (mass (ScoreHeap.partitions ScenarioTie.built)) with 32. unfold limit. lia. }
  apply (reach_update ScenarioTie.first 32 5); [done| | | |exact ScenarioTie_second].
  - change (capacity ScenarioTie.first) with 34. lia.
  - unfold is_int32. lia.
  - split.
    + change (ScoreHeap.nextId ScenarioTie.first) with 1. unfold limit. lia.
    + change (mass (ScoreHeap.partitions ScenarioTie.first)) with 33. unfold limit. lia.
Qed.

Lemma ScenarioJoin_new : ScoreHeap.new ScenarioJoin.pairs 33 = Some ScenarioJoin.built.
Proof. vm_compute. reflexivity. Qed.

Lemma ScenarioJoin_remove :
  ScoreHeap.remove ScenarioJoin.built 0 = Some (ScenarioJoin.heap, Some 0).
Proof. vm_compute. reflexivity. Qed.

Lemma ScenarioJoin_built_reachable : reachable ScenarioJoin.built.
Proof.
  apply (reach_new ScenarioJoin.pairs 33); [|exact ScenarioJoin_new].
  apply pairsOk_decide; [unfold limit; lia|vm_compute; reflexivity|vm_compute; reflexivity].
Qed.

Lemma ScenarioJoin_reachable : reachable ScenarioJoin.heap.
Proof.
  exact (reach_remove _ _ _ _ ScenarioJoin_built_reachable ScenarioJoin_remove).
Qed.

Lemma reachable_after_remove h i :
  reachable h → reachable (default ScenarioA.nothing (fst <$> ScoreHeap.remove h i)).
Proof.
  intros Hreach. pose proof (reachable_heapOk h Hreach) as Hok.
  destruct (decide (0 ≤ i < capacity h ∧ 0 ≤ ownerAt (ScoreHeap.lookups h) i))
    as [[Hi Ho]|Hno].
  - destruct (remove_present (capacity h) h i Hok Hi Ho) as (h' & Hrun & _).
    rewrite Hrun. cbn. exact (reach_remove h i h' (Some i) Hreach Hrun).
  - rewrite <- (present_iff (capacity h) h i Hok) in Hno.
    rewrite (remove_absent h i Hno). cbn. exact Hreach.
Qed.

Lemma reachable_after_update h i s :
  reachable h → is_int32 s →
  bool_decide (0 ≤ i < capacity h ∧ ScoreHeap.nextId h + 2 ≤ limit
               ∧ mass (ScoreHeap.partitions h) + 1 ≤ limit) = true →
  reachable (default ScenarioA.nothing (ScoreHeap.update h i s)).
Proof.
  intros Hreach Hs (Hi & Hroom)%bool_decide_eq_true_1.
  destruct (update_ok (capacity h) h i s (reachable_heapOk h Hreach) Hroom Hi Hs)
    as (h' & Hrun & _).
  rewrite Hrun. cbn. exact (reach_update h i s h' Hreach Hi Hs Hroom Hrun).
Qed.

Lemma ScenarioConvert_filled_reachable : reachable ScenarioConvert.filled.
Proof.
  unfold ScenarioConvert.filled.
  change ScenarioConvert.inserts with (Z.of_nat <$> reverse (seq 0 32)).
  cbn [seq reverse rev_append fmap list_fmap foldl].
  repeat (apply reachable_after_update; [|unfold is_int32; lia|vm_compute; reflexivity]).
  apply (reach_new [] 40); [|vm_compute; reflexivity].
  apply pairsOk_decide; [unfold limit; lia|vm_compute; reflexivity|vm_compute; reflexivity].
Qed.

Lemma ScenarioConvert_reachable : reachable ScenarioConvert.heap.
Proof.
  apply reachable_after_remove.
  apply reachable_after_update; [|unfold is_int32; lia|vm_compute; reflexivity].
  exact ScenarioConvert_filled_reachable.
Qed.

(** ** The claims about the heap *)

(** C1, as stated, fails in its tie rule: in the heap of the tie
    scenario (thirty-two identifiers of score 5 built into a uniform
    segment, then [update(33, 5)] and [update(32, 5)]) the identifiers
    32 and 33 are present with the same score, the largest there is,
    and [next()] returns 32, not the larger identifier 33. *)
Lemma next_tie_returns_a_smaller_identifier :
  reachable ScenarioTie.heap
  ∧ (ScoreHeap.next ScenarioTie.heap).2 = Some 32
  ∧ View.present ScenarioTie.heap 33
  ∧ View.score ScenarioTie.heap 33 = Some 5
  ∧ View.score ScenarioTie.heap 32 = Some 5
  ∧ 32 < 33.
Proof.
  split; [exact ScenarioTie_reachable|]. split; [vm_compute; reflexivity|].
  split; [exists 0; split; [vm_compute; reflexivity|lia]|].
  split; [vm_compute; reflexivity|]. split; [vm_compute; reflexivity|lia].
Qed.

(** C1, amended: for every reachable heap [next()] returns a present
    identifier whose score no present identifier exceeds, or
    [undefined] when no identifier is present. When several present
    identifiers have that score it returns one of them, which need not
    be the one of the largest value. [next()] leaves the side table as
    it is, so the present identifiers and all scores are unchanged, and
    a second [next()] returns the same result and changes nothing at
    all. *)
Theorem next_returns_a_maximum h :
  reachable h →
  ∃ h' r, ScoreHeap.next h = (h', r)
    ∧ ScoreHeap.lookups h' = ScoreHeap.lookups h
    ∧ (∀ y, View.present h' y ↔ View.present h y)
    ∧ (∀ y, View.score h' y = View.score h y)
    ∧ ScoreHeap.next h' = (h', r)
    ∧ match r with
      | Some x =>
          View.present h x
          ∧ ∃ sx, View.score h x = Some sx
              ∧ ∀ y sy, View.present h y → View.score h y = Some sy → sy ≤ sx
      | None => ∀ y, ¬ View.present h y
      end.
Proof.
  intros Hok%reachable_heapOk. set (N := capacity h) in *.
  destruct (next_ok N _ h eq_refl Hok)
    as (h' & r & Hnext & Hok' & Hlk & _ & _ & _ & Hr & Hagain).
  exists h', r. split; [exact Hnext|]. split; [exact Hlk|].
  split; [intros y; unfold View.present, View.owner; rewrite Hlk; done|].
  split; [intros y; unfold View.score; rewrite Hlk; done|].
  split; [exact Hagain|]. destruct r as [x|].
  - destruct Hr as (Hx & Ho & Hmax). split; [apply (present_iff N h x Hok); done|].
    exists (scoreAt (ScoreHeap.lookups h) x). split; [apply (score_cell N); done|].
    intros y sy [Hy Hoy]%(present_iff N h y Hok) Hsy.
    rewrite (score_cell N h y Hok Hy) in Hsy. injection Hsy as <-. apply Hmax; done.
  - intros y [Hy Hoy]%(present_iff N h y Hok). specialize (Hr y Hy). lia.
Qed.

Lemma next_returns_a_maximum_witness :
  ∃ h' r, ScoreHeap.next ScenarioA.heap = (h', r)
    ∧ ScoreHeap.lookups h' = ScoreHeap.lookups ScenarioA.heap
    ∧ (∀ y, View.present h' y ↔ View.present ScenarioA.heap y)
    ∧ (∀ y, View.score h' y = View.score ScenarioA.heap y)
    ∧ ScoreHeap.next h' = (h', r)
    ∧ match r with
      | Some x =>
          View.present ScenarioA.heap x
          ∧ ∃ sx, View.score ScenarioA.heap x = Some sx
              ∧ ∀ y sy, View.present ScenarioA.heap y →
                  View.score ScenarioA.heap y = Some sy → sy ≤ sx
      | None => ∀ y, ¬ View.present ScenarioA.heap y
      end.
Proof. apply (next_returns_a_maximum ScenarioA.heap). exact ScenarioA_reachable. Defined.

(** C2: in every reachable heap, for two consecutive segments, [max] of
    the first (as its getter reads it) is at most the [min] field of
    the second, and no score of the first is above a score of the
    second. The reachable heaps are closed under [update] with every
    action of its decision list and the join after a removal. *)
Theorem segments_stay_ordered h l1 p q l2 :
  reachable h → ScoreHeap.partitions h = l1 ++ p :: q :: l2 →
  ∃ mp, View.maxOf h p = Some mp
    ∧ mp ≤ Seg.min q
    ∧ ∀ x y sx sy, x ∈ View.live p → y ∈ View.live q →
        View.score h x = Some sx → View.score h y = Some sy → sx ≤ sy.
Proof.
  intros Hok%reachable_heapOk Hps. set (N := capacity h) in *.
  pose proof Hok as [Hlk _ _ _ _ _ _ _ Hordered].
  destruct (heap_seg_at N h l1 p (q :: l2) Hok Hps) as [Hsp _].
  assert (Hps' : ScoreHeap.partitions h = (l1 ++ [p]) ++ q :: l2)
    by (rewrite <- app_assoc; done).
  destruct (heap_seg_at N h _ q l2 Hok Hps') as [Hsq _].
  rewrite Hps in Hordered. destruct (ordered_around _ _ _ _ Hordered) as [_ Hnext].
  specialize (Hnext q eq_refl).
  destruct (Segment_max_ok N _ _ p Hlk Hsp) as (mp & Hmax & _ & _ & Hum & Hsm).
  exists mp. split; [exact Hmax|]. split.
  - destruct (Seg.uniform p) eqn:Hu.
    + rewrite (Hum eq_refl). unfold below in Hnext. rewrite Hu in Hnext. exact Hnext.
    + destruct (Hsm eq_refl) as (x & Hx & <-).
      apply (below_member N _ _ p _ x Hsp Hnext). rewrite live_sorted; done.
  - intros x y sx sy Hx Hy Hsx Hsy.
    destruct (segOk_member _ _ _ _ _ Hsp Hx) as (Hxr & _).
    destruct (segOk_member _ _ _ _ _ Hsq Hy) as (Hyr & _ & Hmin & _).
    rewrite (score_cell N h x Hok Hxr) in Hsx. injection Hsx as <-.
    rewrite (score_cell N h y Hok Hyr) in Hsy. injection Hsy as <-.
    pose proof (below_member N _ _ p _ x Hsp Hnext Hx). lia.
Qed.

Lemma segments_stay_ordered_witness :
  ∃ mp, View.maxOf ScenarioJoin.built (ScenarioJoin.lower ScenarioJoin.built) = Some mp
    ∧ mp ≤ Seg.min (ScenarioJoin.upper ScenarioJoin.built)
    ∧ ∀ x y sx sy,
        x ∈ View.live (ScenarioJoin.lower ScenarioJoin.built) →
        y ∈ View.live (ScenarioJoin.upper ScenarioJoin.built) →
        View.score ScenarioJoin.built x = Some sx →
        View.score ScenarioJoin.built y = Some sy → sx ≤ sy.
Proof.
  apply (segments_stay_ordered ScenarioJoin.built [] _ _ []).
  - exact ScenarioJoin_built_reachable.
  - vm_compute. reflexivity.
Defined.

(** C3: in every reachable heap and for every identifier, an owner
    field that is not negative names the one segment whose live region
    holds the identifier, and an identifier with a negative owner field
    or outside the side table is in the live region of no segment. The
    reachable heaps are the states between the calls of the methods. *)
Theorem owner_field_never_stale h x :
  reachable h →
  match View.owner h x with
  | Some o =>
      (0 ≤ o →
       ∃ k p, ScoreHeap.partitions h !! k = Some p ∧ Seg.id p = o ∧ x ∈ View.live p
         ∧ ∀ k' q, ScoreHeap.partitions h !! k' = Some q → x ∈ View.live q → k' = k)
      ∧ (o < 0 → ∀ q, q ∈ ScoreHeap.partitions h → x ∉ View.live q)
  | None => ∀ q, q ∈ ScoreHeap.partitions h → x ∉ View.live q
  end.
Proof.
  intros Hok%reachable_heapOk. set (N := capacity h) in *.
  pose proof Hok as [_ _ _ _ _ _ Hids Howned _].
  destruct (decide (0 ≤ x < N)) as [Hx|Hx].
  - rewrite (owner_cell N h x Hok Hx). split.
    + intros Ho. destruct (Howned x Hx Ho) as (p & [k Hk]%list_elem_of_lookup_1 & Hid & Hxp).
      exists k, p. split; [done|]. split; [done|]. split; [done|].
      intros k' q Hk' Hxq.
      destruct (heap_segOk N h k' q Hok Hk') as [Hsq _].
      destruct (segOk_member _ _ _ _ _ Hsq Hxq) as (_ & Hoq & _).
      apply (idsOk_inj _ _ k' k q p Hids Hk' Hk). congruence.
    + intros Ho q Hq. apply (absent_no_member N h q x Hok Hq Ho).
  - rewrite (owner_outside N h x Hok Hx). intros q [k Hk]%list_elem_of_lookup_1 Hxq.
    destruct (heap_segOk N h k q Hok Hk) as [Hsq _].
    destruct (segOk_member _ _ _ _ _ Hsq Hxq) as (Hxr & _). done.
Qed.

Lemma owner_field_never_stale_witness :
  View.owner ScenarioTie.heap 33 = Some 0
  ∧ ∃ k p, ScoreHeap.partitions ScenarioTie.heap !! k = Some p ∧ Seg.id p = 0
      ∧ 33 ∈ View.live p
      ∧ ∀ k' q, ScoreHeap.partitions ScenarioTie.heap !! k' = Some q →
          33 ∈ View.live q → k' = k.
Proof.
  split; [vm_compute; reflexivity|].
  pose proof (owner_field_never_stale ScenarioTie.heap 33 ScenarioTie_reachable) as H.
  change (View.owner ScenarioTie.heap 33) with (Some 0) in H.
  apply (proj1 H). lia.
Defined.




(** C8: for every heap state, [remove] of an identifier that is not
    present (a negative owner field, or no field at all) returns
    [undefined] and the heap it was called on, so a second call does
    the same; in every reachable heap [remove] of a present identifier
    returns the identifier, which is absent afterwards. *)
Theorem remove_absent_changes_nothing h x :
  (¬ View.present h x →
   ScoreHeap.remove h x = Some (h, None)
   ∧ ∀ h1 r1, ScoreHeap.remove h x = Some (h1, r1) → ScoreHeap.remove h1 x = Some (h, None))
  ∧ (reachable h → View.present h x →
     ∃ h', ScoreHeap.remove h x = Some (h', Some x) ∧ ¬ View.present h' x).
Proof.
  split.
  - intros Hno. pose proof (remove_absent h x Hno) as Hrun. split; [exact Hrun|].
    intros h1 r1 Hrun1. rewrite Hrun in Hrun1. injection Hrun1 as <- _. exact Hrun.
  - intros Hok%reachable_heapOk Hp. set (N := capacity h) in *.
    apply (present_iff N h x Hok) in Hp as [Hx Ho].
    destruct (remove_present N h x Hok Hx Ho) as (h' & Hrun & Hok' & Hown & _).
    exists h'. split; [exact Hrun|]. rewrite (present_iff N h' x Hok'). lia.
Qed.

Lemma remove_absent_changes_nothing_witness :
  ScoreHeap.remove ScenarioA.heap 7 = Some (ScenarioA.heap, None)
  ∧ ∃ h', ScoreHeap.remove ScenarioA.heap 3 = Some (h', Some 3)
          ∧ View.owner h' 3 = Some (-1).
Proof.
  split.
  - apply (proj1 (remove_absent_changes_nothing ScenarioA.heap 7)).
    intros (o & Ho & _). vm_compute in Ho. discriminate Ho.
  - destruct (proj2 (remove_absent_changes_nothing ScenarioA.heap 3) ScenarioA_reachable)
      as (h' & Hrun & _).
    + exists 0. split; [vm_compute; reflexivity|lia].
    + exists h'. split; [exact Hrun|].
      vm_compute in Hrun. injection Hrun as <-. vm_compute. reflexivity.
Defined.

(** C9, as stated, fails in its gloss of the highest live slot as the
    member inserted last: in the scenario of the converted segment the
    identifiers were inserted from 31 down to 0, all thirty-two are
    live members of the one uniform segment, and [next()] returns 31,
    the member inserted first. The conversion keeps the sorted order
    of the backing array, which is not the order of insertion. *)
Lemma uniform_next_returns_the_member_inserted_first :
  reachable ScenarioConvert.heap
  ∧ ScoreHeap.partitions ScenarioConvert.heap = [ScenarioConvert.segment]
  ∧ Seg.uniform ScenarioConvert.segment = true
  ∧ View.live ScenarioConvert.segment = seqZ 0 32
  ∧ head ScenarioConvert.inserts = Some 31
  ∧ last ScenarioConvert.inserts = Some 0
  ∧ (UniformPartition.next ScenarioConvert.segment).2 = Some 31
  ∧ (ScoreHeap.next ScenarioConvert.heap).2 = Some 31.
Proof.
  split; [exact ScenarioConvert_reachable|].
  repeat (split; [vm_compute; reflexivity|]). vm_compute. reflexivity.
Qed.

(** C9, amended: [next()] of a uniform segment returns the identifier
    at the highest slot below [length] that is not a tombstone, and
    drops the tombstones above it from the region, whatever the
    identifier values are. Nothing is said of the order of insertion:
    [insert] appends, but a conversion or a join fills the slots in
    another order. *)
Theorem uniform_next_returns_highest_live_slot p L x T :
  0 ≤ Seg.length p ≤ Z.of_nat (length (Seg.indices p)) →
  region p = L ++ x :: T → 0 ≤ x → Forall (λ y, y < 0) T →
  (UniformPartition.next p).2 = Some x
  ∧ region (UniformPartition.next p).1 = L ++ [x].
Proof.
  intros Hlen Hr Hx HT. rewrite (Uniform_next_live p L x T Hlen Hr Hx HT). cbn [fst snd].
  split; [done|]. unfold region in *. cbn [Seg.with_length Seg.length Seg.indices].
  assert (Hn : (length L + 1 ≤ Z.to_nat (Seg.length p))%nat).
  { apply (f_equal length) in Hr. rewrite length_take, length_app in Hr. simpl in Hr. lia. }
  replace (Z.to_nat (Z.of_nat (length L) + 1)) with (length L + 1)%nat by lia.
  rewrite <- (Nat.min_l (length L + 1) (Z.to_nat (Seg.length p))) by lia.
  rewrite <- take_take, Hr.
  rewrite (cons_middle x L T), app_assoc.
  apply take_app_length'. rewrite length_app. simpl. lia.
Qed.

(** In the tie scenario the uniform segment returns 32 while 33 is one
    of its live members. *)
Lemma uniform_next_returns_highest_live_slot_witness :
  (UniformPartition.next ScenarioTie.segment).2 = Some 32
  ∧ region (UniformPartition.next ScenarioTie.segment).1 = (seqZ 0 32 ++ [33]) ++ [32]
  ∧ Seg.uniform ScenarioTie.segment = true
  ∧ 33 ∈ View.live ScenarioTie.segment.
Proof.
  destruct (uniform_next_returns_highest_live_slot ScenarioTie.segment
              (seqZ 0 32 ++ [33]) 32 []) as [H1 H2].
  - vm_compute. split; discriminate.
  - vm_compute. reflexivity.
  - lia.
  - constructor.
  - split; [exact H1|]. split; [exact H2|]. split; [reflexivity|].
    apply list_elem_of_In. vm_compute. repeat (first [left; reflexivity|right]).
Defined.

(** ** More about the methods *)

(** X1: in a reachable heap with room, [update] of an identifier of the
    key space with an int32 score returns; afterwards the identifier is
    present with that score, and every other identifier of the key
    space has the score it had and is present exactly if it was. *)
Theorem update_sets_the_score h x s :
  reachable h → 0 ≤ x < capacity h → is_int32 s → roomy h →
  ∃ h', ScoreHeap.update h x s = Some h'
    ∧ View.present h' x
    ∧ View.score h' x = Some s
    ∧ capacity h' = capacity h
    ∧ ∀ y, 0 ≤ y < capacity h → y ≠ x →
        View.score h' y = View.score h y ∧ (View.present h' y ↔ View.present h y).
Proof.
  intros Hok%reachable_heapOk Hx Hs Hroom. set (N := capacity h) in *.
  destruct (update_ok N h x s Hok Hroom Hx Hs) as (h' & Hrun & Hok' & Ho & Hsc & Hoth & _).
  exists h'. split; [exact Hrun|].
  split; [apply (present_iff N h' x Hok'); done|].
  split; [rewrite (score_cell N h' x Hok' Hx), Hsc; done|].
  split; [apply (capacity_eq N h' Hok')|].
  intros y Hy Hne. destruct (Hoth y Hy Hne) as [Hsy Hoy].
  rewrite (score_cell N h' y Hok' Hy), (score_cell N h y Hok Hy), Hsy.
  split; [done|]. rewrite (present_iff N h' y Hok'), (present_iff N h y Hok). tauto.
Qed.

Lemma update_sets_the_score_witness :
  ∃ h', ScoreHeap.update ScenarioTie.built 33 5 = Some h'
    ∧ View.present h' 33
    ∧ View.score h' 33 = Some 5
    ∧ capacity h' = capacity ScenarioTie.built
    ∧ ∀ y, 0 ≤ y < capacity ScenarioTie.built → y ≠ 33 →
        View.score h' y = View.score ScenarioTie.built y
        ∧ (View.present h' y ↔ View.present ScenarioTie.built y).
Proof.
  apply (update_sets_the_score ScenarioTie.built 33 5).
  - apply (reach_new ScenarioTie.pairs 34); [|exact ScenarioTie_new].
    apply pairsOk_decide; [unfold limit; lia|vm_compute; reflexivity|vm_compute; reflexivity].
  - change (capacity ScenarioTie.built) with 34. lia.
  - unfold is_int32. lia.
  - split.
    + change (ScoreHeap.nextId ScenarioTie.built) with 1. unfold limit. lia.
    + change (mass (ScoreHeap.partitions ScenarioTie.built)) with 32. unfold limit. lia.
Defined.

(** X2: the constructor, given distinct identifiers of the key space
    with int32 scores, returns a heap of that capacity in which exactly
    the identifiers of the pairs are present, each with its score. *)
Theorem constructor_holds_the_pairs pairs maxLength :
  pairsOk pairs maxLength →
  ∃ h, ScoreHeap.new pairs maxLength = Some h
    ∧ capacity h = maxLength
    ∧ (∀ x, View.present h x ↔ x ∈ pairs.*1)
    ∧ (∀ a, a ∈ pairs → View.score h a.1 = Some a.2).
Proof.
  intros Hpairs. destruct (new_built pairs maxLength Hpairs) as (h & PL & Hrun & Hb).
  destruct Hb as [Hok _ _ _ _ _ Hdone Hothers].
  pose proof (sortPairs_perm pairs) as Hperm.
  destruct Hpairs as (HN & Hnd & Hrange). rewrite Forall_forall in Hrange.
  exists h. split; [exact Hrun|]. split; [apply (capacity_eq maxLength h Hok)|]. split.
  - intros x. rewrite (present_iff maxLength h x Hok). split.
    + intros [Hx Ho]. destruct (decide (x ∈ (ScoreHeap.sortPairs pairs).*1)) as [Hin|Hnin].
      * rewrite Hperm in Hin. exact Hin.
      * specialize (Hothers x Hx Hnin). lia.
    + intros [a [-> Ha]]%list_elem_of_fmap. destruct (Hrange a Ha) as [Hr _].
      split; [done|]. apply Hdone. rewrite Hperm. exact Ha.
  - intros a Ha. destruct (Hrange a Ha) as [Hr _].
    rewrite (score_cell maxLength h a.1 Hok Hr). f_equal. apply Hdone. rewrite Hperm. exact Ha.
Qed.

Lemma constructor_holds_the_pairs_witness :
  ∃ h, ScoreHeap.new ScenarioA.pairs 4 = Some h
    ∧ capacity h = 4
    ∧ (∀ x, View.present h x ↔ x ∈ ScenarioA.pairs.*1)
    ∧ (∀ a, a ∈ ScenarioA.pairs → View.score h a.1 = Some a.2).
Proof.
  apply (constructor_holds_the_pairs ScenarioA.pairs 4).
  apply pairsOk_decide; [unfold limit; lia|vm_compute; reflexivity|vm_compute; reflexivity].
Defined.

(** X3: in a reachable heap [remove] of a present identifier makes it
    absent and keeps its score cell; every other identifier of the key
    space has the score it had and is present exactly if it was. *)
Theorem remove_takes_one_identifier_out h x :
  reachable h → View.present h x →
  ∃ h', ScoreHeap.remove h x = Some (h', Some x)
    ∧ View.owner h' x = Some (-1)
    ∧ View.score h' x = View.score h x
    ∧ capacity h' = capacity h
    ∧ ∀ y, 0 ≤ y < capacity h → y ≠ x →
        View.score h' y = View.score h y ∧ (View.present h' y ↔ View.present h y).
Proof.
  intros Hok%reachable_heapOk Hp. set (N := capacity h) in *.
  apply (present_iff N h x Hok) in Hp as [Hx Ho].
  destruct (remove_present N h x Hok Hx Ho) as (h' & Hrun & Hok' & Hown & Hoth & Hsc & _).
  exists h'. split; [exact Hrun|].
  split; [rewrite (owner_cell N h' x Hok' Hx), Hown; done|].
  split; [rewrite (score_cell N h' x Hok' Hx), (score_cell N h x Hok Hx), Hsc; done|].
  split; [apply (capacity_eq N h' Hok')|].
  intros y Hy Hne. destruct (Hoth y ltac:(lia) Hne) as (Hsy & Hoy & _).
  rewrite (score_cell N h' y Hok' Hy), (score_cell N h y Hok Hy), Hsy.
  split; [done|]. rewrite (present_iff N h' y Hok'), (present_iff N h y Hok), Hoy. tauto.
Qed.

Lemma remove_takes_one_identifier_out_witness :
  ∃ h', ScoreHeap.remove ScenarioA.heap 2 = Some (h', Some 2)
    ∧ View.owner h' 2 = Some (-1)
    ∧ View.score h' 2 = View.score ScenarioA.heap 2
    ∧ capacity h' = capacity ScenarioA.heap
    ∧ ∀ y, 0 ≤ y < capacity ScenarioA.heap → y ≠ 2 →
        View.score h' y = View.score ScenarioA.heap y
        ∧ (View.present h' y ↔ View.present ScenarioA.heap y).
Proof.
  apply (remove_takes_one_identifier_out ScenarioA.heap 2).
  - exact ScenarioA_reachable.
  - exists 0. split; [vm_compute; reflexivity|lia].
Defined.

(** X4: in a reachable heap a sorted segment has a backing array of
    [partitionLength] slots and at least one member, and its members
    stand in strictly ascending order of score, then identifier. *)
Theorem sorted_segments_stay_sorted h p :
  reachable h → p ∈ ScoreHeap.partitions h → Seg.uniform p = false →
  Z.of_nat (length (Seg.indices p)) = ScoreHeap.partitionLength h
  ∧ 1 ≤ Seg.length p ≤ ScoreHeap.partitionLength h
  ∧ StronglySorted (before (ScoreHeap.lookups h)) (View.live p).
Proof.
  intros Hok%reachable_heapOk [k Hk]%list_elem_of_lookup_1 Hu.
  destruct (heap_segOk (capacity h) h k p Hok Hk) as [Hsp _].
  unfold segOk in Hsp. rewrite Hu in Hsp. destruct Hsp as [Hcap Hlen _ Hsorted _ _].
  rewrite live_sorted by done. done.
Qed.

Lemma sorted_segments_stay_sorted_witness :
  Z.of_nat (length (Seg.indices (ScenarioJoin.lower ScenarioJoin.heap)))
  = ScoreHeap.partitionLength ScenarioJoin.heap
  ∧ 1 ≤ Seg.length (ScenarioJoin.lower ScenarioJoin.heap)
      ≤ ScoreHeap.partitionLength ScenarioJoin.heap
  ∧ StronglySorted (before (ScoreHeap.lookups ScenarioJoin.heap))
      (View.live (ScenarioJoin.lower ScenarioJoin.heap)).
Proof.
  apply (sorted_segments_stay_sorted ScenarioJoin.heap).
  - exact ScenarioJoin_reachable.
  - apply (list_elem_of_lookup_2 _ 0%nat). vm_compute. reflexivity.
  - vm_compute. reflexivity.
Defined.

(** X5: in a reachable heap every live member of a uniform segment has
    the score of the segment, and its slot cell in the side table is
    its position in the backing array. *)
Theorem uniform_segments_hold_one_score h p i x :
  reachable h → p ∈ ScoreHeap.partitions h → Seg.uniform p = true →
  Seg.indices p !! i = Some x → Z.of_nat i < Seg.length p → 0 ≤ x →
  View.score h x = Some (Seg.min p)
  ∧ View.owner h x = Some (Seg.id p)
  ∧ slotAt (ScoreHeap.lookups h) x = Z.of_nat i.
Proof.
  intros Hok%reachable_heapOk [k Hk]%list_elem_of_lookup_1 Hu Hi Hlt Hx.
  destruct (heap_segOk (capacity h) h k p Hok Hk) as [Hsp _].
  unfold segOk in Hsp. rewrite Hu in Hsp. destruct Hsp as [_ Hslots].
  destruct (Hslots i x) as (HxN & Hsc & Hown & Hslot); [|done|].
  { unfold region. rewrite lookup_take_lt by lia. exact Hi. }
  rewrite (score_cell (capacity h) h x Hok ltac:(lia)), Hsc.
  rewrite (owner_cell (capacity h) h x Hok ltac:(lia)), Hown. done.
Qed.

Lemma uniform_segments_hold_one_score_witness :
  View.score ScenarioTie.heap 32 = Some (Seg.min ScenarioTie.segment)
  ∧ View.owner ScenarioTie.heap 32 = Some (Seg.id ScenarioTie.segment)
  ∧ slotAt (ScoreHeap.lookups ScenarioTie.heap) 32 = Z.of_nat 33.
Proof.
  apply (uniform_segments_hold_one_score ScenarioTie.heap ScenarioTie.segment 33 32).
  - exact ScenarioTie_reachable.
  - apply (list_elem_of_lookup_2 _ 0%nat). vm_compute. reflexivity.
  - vm_compute. reflexivity.
  - vm_compute. reflexivity.
  - vm_compute. reflexivity.
  - lia.
Defined.


(** ** How the methods of the heap compose *)

Import Utility SearchSpec MergeSpec Inv Ghost.

(** X6: an identifier updated to a score above the score of every other
    present identifier is what [next()] returns afterwards. *)
Theorem update_of_a_new_maximum_is_next h x s :
  reachable h → 0 ≤ x < capacity h → is_int32 s → roomy h →
  (∀ y t, View.present h y → y ≠ x → View.score h y = Some t → t < s) →
  ∃ h', ScoreHeap.update h x s = Some h' ∧ (ScoreHeap.next h').2 = Some x.
Proof.
  intros Hok%reachable_heapOk Hx Hs Hroom Hbelow. set (N := capacity h) in *.
  destruct (update_ok N h x s Hok Hroom Hx Hs) as (h' & Hrun & Hok' & Ho & Hsc & Hoth & _).
  exists h'. split; [exact Hrun|].
  destruct (next_ok N _ h' eq_refl Hok') as (h2 & r & Hnext & _ & _ & _ & _ & _ & Hr & _).
  rewrite Hnext. cbn [snd]. destruct r as [z|].
  - destruct Hr as (Hz & Hoz & Hmax). destruct (decide (z = x)) as [->|Hne]; [done|exfalso].
    destruct (Hoth z Hz Hne) as [Hsz Hpz].
    specialize (Hmax x Hx Ho). rewrite Hsc, Hsz in Hmax.
    assert (Hlt : scoreAt (ScoreHeap.lookups h) z < s); [|lia].
    apply (Hbelow z); [apply (present_iff N h z Hok); tauto|done|].
    apply (score_cell N h z Hok Hz).
  - specialize (Hr x Hx). lia.
Qed.

Lemma update_of_a_new_maximum_is_next_witness :
  ∃ h', ScoreHeap.update ScenarioA.heap 1 9 = Some h' ∧ (ScoreHeap.next h').2 = Some 1.
Proof.
  apply (update_of_a_new_maximum_is_next ScenarioA.heap 1 9).
  - exact ScenarioA_reachable.
  - change (capacity ScenarioA.heap) with 4. lia.
  - unfold is_int32. lia.
  - split.
    + change (ScoreHeap.nextId ScenarioA.heap) with 1. unfold limit. lia.
    + change (mass (ScoreHeap.partitions ScenarioA.heap)) with 4. unfold limit. lia.
  - intros y t [o [Ho Hpos]] Hne Ht.
    assert (Hy : 0 ≤ y < 4).
    { destruct (decide (0 ≤ y < 4)) as [|Hout]; [done|exfalso].
      rewrite (owner_outside 4 ScenarioA.heap y) in Ho; [done| |done].
      exact (reachable_heapOk _ ScenarioA_reachable). }
    assert (Hcases : y = 0 ∨ y = 1 ∨ y = 2 ∨ y = 3) by lia.
    destruct Hcases as [-> | [-> | [-> | ->]]]; vm_compute in Ht; injection Ht as <-; lia.
Defined.

Lemma gone_after_remove h x h' r :
  reachable h → ScoreHeap.remove h x = Some (h', r) → ¬ View.present h' x.
Proof.
  intros Hreach Hrem. pose proof (reachable_heapOk h Hreach) as Hok.
  destruct (decide (0 ≤ x < capacity h ∧ 0 ≤ ownerAt (ScoreHeap.lookups h) x))
    as [[Hx Ho]|Hp].
  - destruct (remove_present (capacity h) h x Hok Hx Ho) as (h0 & Hrun & Hok0 & Hown & _).
    rewrite Hrem in Hrun. injection Hrun as <- _.
    rewrite (present_iff (capacity h) h' x Hok0). lia.
  - rewrite <- (present_iff (capacity h) h x Hok) in Hp.
    rewrite (remove_absent h x Hp) in Hrem. injection Hrem as <- _. exact Hp.
Qed.

(** X7: after [remove(identifier)], whatever it returned, [next()] does
    not return that identifier. *)
Theorem removed_identifier_is_not_next h x h' r :
  reachable h → ScoreHeap.remove h x = Some (h', r) → (ScoreHeap.next h').2 ≠ Some x.
Proof.
  intros Hreach Hrem.
  assert (Hok' : heapOk (capacity h') h').
  { apply reachable_heapOk. exact (reach_remove h x h' r Hreach Hrem). }
  pose proof (gone_after_remove h x h' r Hreach Hrem) as Hgone.
  destruct (next_ok (capacity h') _ h' eq_refl Hok')
    as (h2 & r2 & Hnext & _ & _ & _ & _ & _ & Hr & _).
  rewrite Hnext. cbn [snd]. intros ->. destruct Hr as (Hx & Ho & _).
  apply Hgone. apply (present_iff (capacity h') h' x Hok'). done.
Qed.

Lemma removed_identifier_is_not_next_witness :
  ∃ h', ScoreHeap.remove ScenarioA.heap 3 = Some (h', Some 3)
        ∧ (ScoreHeap.next h').2 ≠ Some 3.
Proof.
  eexists. split; [vm_compute; reflexivity|].
  apply (removed_identifier_is_not_next ScenarioA.heap 3 _ (Some 3)).
  - exact ScenarioA_reachable.
  - vm_compute. reflexivity.
Defined.

(** X8: taking the identifiers out one by one with [next()] and
    [remove] yields them in descending order of score: the identifier
    that [next()] returns after the removal is another one, and its
    score is not above the score of the one removed. *)
Theorem next_remove_drains_in_descending_order h h1 x h2 r h3 y sx sy :
  reachable h →
  ScoreHeap.next h = (h1, Some x) → ScoreHeap.remove h1 x = Some (h2, r) →
  ScoreHeap.next h2 = (h3, Some y) →
  View.score h x = Some sx → View.score h y = Some sy →
  r = Some x ∧ y ≠ x ∧ sy ≤ sx.
Proof.
  intros Hok%reachable_heapOk Hnext Hrem Hnext2 Hsx Hsy. set (N := capacity h) in *.
  destruct (next_ok N _ h eq_refl Hok) as (h1' & r1 & Hn & Hok1 & Hlk1 & _ & _ & _ & Hr & _).
  rewrite Hnext in Hn. injection Hn as <- <-. destruct Hr as (Hx & Ho & Hmax).
  rewrite <- Hlk1 in Ho.
  destruct (remove_present N h1 x Hok1 Hx Ho) as (h2' & Hrun & Hok2 & Hown & Hoth & _).
  rewrite Hrem in Hrun. injection Hrun as <- ->.
  destruct (next_ok N _ h2 eq_refl Hok2) as (h3' & r3 & Hn2 & _ & _ & _ & _ & _ & Hr2 & _).
  rewrite Hnext2 in Hn2. injection Hn2 as <- <-. destruct Hr2 as (Hy & Hoy & _).
  assert (Hne : y ≠ x) by (intros ->; lia).
  split; [done|]. split; [done|].
  destruct (Hoth y ltac:(lia) Hne) as (_ & Hoy' & _). rewrite Hoy', Hlk1 in Hoy.
  rewrite (score_cell N h x Hok Hx) in Hsx. injection Hsx as <-.
  rewrite (score_cell N h y Hok Hy) in Hsy. injection Hsy as <-.
  apply Hmax; done.
Qed.

Lemma next_remove_drains_in_descending_order_witness :
  Some 32 = Some 32 ∧ 31 ≠ 32 ∧ 31 ≤ 32.
Proof.
  apply (next_remove_drains_in_descending_order ScenarioJoin.heap
           (ScoreHeap.next ScenarioJoin.heap).1 32
           (default ScenarioA.nothing
              (fst <$> ScoreHeap.remove (ScoreHeap.next ScenarioJoin.heap).1 32))
           (Some 32)
           (ScoreHeap.next
              (default ScenarioA.nothing
                 (fst <$> ScoreHeap.remove (ScoreHeap.next ScenarioJoin.heap).1 32))).1
           31 32 31).
  - exact ScenarioJoin_reachable.
  - vm_compute. reflexivity.
  - vm_compute. reflexivity.
  - vm_compute. reflexivity.
  - vm_compute. reflexivity.
  - vm_compute. reflexivity.
Defined.

(** X9: a second [remove] of the same identifier returns [undefined]
    and changes nothing. *)
Theorem second_remove_returns_undefined h x h' r :
  reachable h → ScoreHeap.remove h x = Some (h', r) →
  ScoreHeap.remove h' x = Some (h', None).
Proof.
  intros Hreach Hrem. apply remove_absent. exact (gone_after_remove h x h' r Hreach Hrem).
Qed.

Lemma second_remove_returns_undefined_witness :
  ScoreHeap.remove ScenarioJoin.heap 0 = Some (ScenarioJoin.heap, None).
Proof.
  apply (second_remove_returns_undefined ScenarioJoin.built 0 ScenarioJoin.heap (Some 0)).
  - exact ScenarioJoin_built_reachable.
  - vm_compute. reflexivity.
Defined.

Lemma Segment_next_id p : Seg.id (Segment.next p).1 = Seg.id p.
Proof.
  unfold Segment.next, UniformPartition.next.
  destruct (Seg.uniform p); [|done].
  repeat case_bool_decide; try done;
    destruct (TypedArray.get _ _); try done; repeat case_bool_decide; done.
Qed.

Lemma nextLoop_prefix : ∀ ps fuel,
  (length ps < fuel)%nat →
  (Seg.id <$> (ScoreHeap.nextLoop fuel ps).1) `prefix_of` (Seg.id <$> ps)
  ∧ ((ScoreHeap.nextLoop fuel ps).2 = None → (ScoreHeap.nextLoop fuel ps).1 = []).
Proof.
  induction ps as [|p ps IH] using rev_ind; intros fuel Hfuel.
  - rewrite nextLoop_nil. done.
  - rewrite length_app in Hfuel. cbn [length] in Hfuel.
    destruct fuel as [|fuel]; [lia|]. rewrite nextLoop_snoc.
    pose proof (Segment_next_id p) as Hid.
    destruct (Segment.next p) as [p' [x|]]; cbn [fst snd] in *.
    + split; [|done]. rewrite !fmap_app. cbn [fmap list_fmap]. rewrite Hid. done.
    + destruct (IH fuel ltac:(lia)) as [Hpre Hnone]. split; [|exact Hnone].
      rewrite fmap_app. etrans; [exact Hpre|]. apply prefix_app_r. done.
Qed.

(** X10: [next()] only drops segments from the tail: the segments
    afterwards are, by their ids and in order, a prefix of the segments
    before; and when it returns [undefined] no segment is left. This
    holds in every state of the heap. *)
Theorem next_drops_only_tail_segments h :
  (Seg.id <$> ScoreHeap.partitions (ScoreHeap.next h).1)
    `prefix_of` (Seg.id <$> ScoreHeap.partitions h)
  ∧ ((ScoreHeap.next h).2 = None → ScoreHeap.partitions (ScoreHeap.next h).1 = []).
Proof.
  unfold ScoreHeap.next.
  pose proof (nextLoop_prefix (ScoreHeap.partitions h)
                (S (length (ScoreHeap.partitions h))) ltac:(lia)) as H.
  destruct (ScoreHeap.nextLoop _ _) as [ps r]. exact H.
Qed.

(** X11: [update] of an absent identifier followed by [remove] of it
    brings the heap back to the same members: every identifier of the
    key space is present exactly if it was before, and the others have
    the score they had. *)
Theorem update_then_remove_round_trip h x s :
  reachable h → 0 ≤ x < capacity h → is_int32 s → roomy h → ¬ View.present h x →
  ∃ h1 h2, ScoreHeap.update h x s = Some h1
    ∧ ScoreHeap.remove h1 x = Some (h2, Some x)
    ∧ capacity h2 = capacity h
    ∧ ∀ y, 0 ≤ y < capacity h →
        (View.present h2 y ↔ View.present h y)
        ∧ (y ≠ x → View.score h2 y = View.score h y).
Proof.
  intros Hok%reachable_heapOk Hx Hs Hroom Hno. set (N := capacity h) in *.
  destruct (update_ok N h x s Hok Hroom Hx Hs) as (h1 & Hrun1 & Hok1 & Ho1 & _ & Hoth1 & _).
  destruct (remove_present N h1 x Hok1 Hx Ho1) as (h2 & Hrun2 & Hok2 & Hown2 & Hoth2 & _).
  exists h1, h2. split; [exact Hrun1|]. split; [exact Hrun2|].
  split; [rewrite (capacity_eq N h2 Hok2); done|].
  intros y Hy. rewrite (present_iff N h2 y Hok2), (present_iff N h y Hok).
  destruct (decide (y = x)) as [->|Hne].
  - split; [|done]. rewrite (present_iff N h x Hok) in Hno. split; [lia|tauto].
  - destruct (Hoth1 y Hy Hne) as [Hs1 Hp1].
    destruct (Hoth2 y ltac:(lia) Hne) as (Hs2 & Ho2 & _).
    split.
    + rewrite <- Hp1, Ho2. done.
    + intros _. rewrite (score_cell N h2 y Hok2 Hy), (score_cell N h y Hok Hy).
      rewrite Hs2, Hs1. done.
Qed.

Lemma update_then_remove_round_trip_witness :
  ∃ h1 h2, ScoreHeap.update ScenarioJoin.heap 0 7 = Some h1
    ∧ ScoreHeap.remove h1 0 = Some (h2, Some 0)
    ∧ capacity h2 = capacity ScenarioJoin.heap
    ∧ ∀ y, 0 ≤ y < capacity ScenarioJoin.heap →
        (View.present h2 y ↔ View.present ScenarioJoin.heap y)
        ∧ (y ≠ 0 → View.score h2 y = View.score ScenarioJoin.heap y).
Proof.
  apply (update_then_remove_round_trip ScenarioJoin.heap 0 7).
  - exact ScenarioJoin_reachable.
  - change (capacity ScenarioJoin.heap) with 33. lia.
  - unfold is_int32. lia.
  - split.
    + change (ScoreHeap.nextId ScenarioJoin.heap) with 2. unfold limit. lia.
    + change (mass (ScoreHeap.partitions ScenarioJoin.heap)) with 32. unfold limit. lia.
  - intros [o [Ho Hpos]]. vm_compute in Ho. injection Ho as <-. lia.
Defined.

Lemma partitionLoop_partitionLength : ∀ fuel sp i h h',
  ScoreHeap.partitionLoop fuel sp i h = Some h' →
  ScoreHeap.partitionLength h' = ScoreHeap.partitionLength h.
Proof.
  induction fuel as [|fuel IH]; intros sp i h h' Hrun; cbn [ScoreHeap.partitionLoop] in Hrun.
  - case_bool_decide; [done|]. injection Hrun as <-. done.
  - case_bool_decide; [|injection Hrun as <-; done]. cbv zeta in Hrun.
    apply bind_Some in Hrun as ([[i1 chunk1] lk1] & _ & Hrun).
    apply bind_Some in Hrun as (uniform & _ & Hrun).
    apply bind_Some in Hrun as ([[i2 chunk2] lk2] & _ & Hrun).
    apply bind_Some in Hrun as ([lk3 p] & _ & Hrun).
    apply IH in Hrun. exact Hrun.
Qed.

Lemma computePartitionLength_power n :
  ∃ k, 5 ≤ k ≤ 12 ∧ ScoreHeap.computePartitionLength n = 2 ^ k.
Proof.
  unfold ScoreHeap.computePartitionLength, ScoreHeap.MAX_SECTOR_LENGTH,
    ScoreHeap.MIN_SECTOR_LENGTH, ScoreHeap.TARGET_SECTOR_LENGTH.
  case_bool_decide as Hn; [exists 5; split; [lia|done]|].
  set (k := Z.log2 (n `div` 1024)).
  assert (Hk : 0 ≤ k) by apply Z.log2_nonneg.
  destruct (decide (k ≤ 5)) as [H5|H5].
  - exists 5. split; [lia|].
    pose proof (Z.pow_le_mono_r 2 k 5 ltac:(lia) H5) as Hle.
    change (2 ^ 5) with 32 in *. lia.
  - destruct (decide (k ≤ 12)) as [H12|H12].
    + exists k. split; [lia|].
      pose proof (Z.pow_le_mono_r 2 5 k ltac:(lia) ltac:(lia)) as Hlo.
      pose proof (Z.pow_le_mono_r 2 k 12 ltac:(lia) H12) as Hhi.
      change (2 ^ 5) with 32 in *. change (2 ^ 12) with 4096 in *. lia.
    + exists 12. split; [lia|].
      pose proof (Z.pow_le_mono_r 2 12 k ltac:(lia) ltac:(lia)) as Hhi.
      change (2 ^ 12) with 4096 in *. lia.
Qed.

Lemma new_partitionLength pairs maxLength h :
  ScoreHeap.new pairs maxLength = Some h →
  ScoreHeap.partitionLength h = ScoreHeap.computePartitionLength (JsArray.len pairs).
Proof.
  unfold ScoreHeap.new. intros Hrun.
  apply bind_Some in Hrun as (fresh & _ & Hrun). cbv zeta in Hrun.
  apply partitionLoop_partitionLength in Hrun. exact Hrun.
Qed.

Lemma remove_partitionLength h x h' r :
  reachable h → ScoreHeap.remove h x = Some (h', r) →
  ScoreHeap.partitionLength h' = ScoreHeap.partitionLength h.
Proof.
  intros Hreach Hrem. pose proof (reachable_heapOk h Hreach) as Hok.
  destruct (decide (0 ≤ x < capacity h ∧ 0 ≤ ownerAt (ScoreHeap.lookups h) x))
    as [[Hx Ho]|Hp].
  - destruct (remove_present (capacity h) h x Hok Hx Ho)
      as (h0 & Hrun & _ & _ & _ & _ & _ & HPL & _).
    rewrite Hrem in Hrun. injection Hrun as <- _. exact HPL.
  - rewrite <- (present_iff (capacity h) h x Hok) in Hp.
    rewrite (remove_absent h x Hp) in Hrem. injection Hrem as <- _. done.
Qed.

Lemma reachable_partitionLength h :
  reachable h → ∃ n, 0 ≤ n ∧ ScoreHeap.partitionLength h = ScoreHeap.computePartitionLength n.
Proof.
  induction 1 as [pairs maxLength h Hpairs Hnew|h Hreach IH|h x h' r Hreach IH Hrem
                 |h x s h' Hreach IH Hx Hs Hroom Hupd].
  - exists (JsArray.len pairs). split; [lia|].
    exact (new_partitionLength pairs maxLength h Hnew).
  - destruct IH as (n & Hn & IH). exists n. split; [done|]. rewrite <- IH.
    unfold ScoreHeap.next. destruct (ScoreHeap.nextLoop _ _). done.
  - destruct IH as (n & Hn & IH). exists n. split; [done|]. rewrite <- IH.
    exact (remove_partitionLength h x h' r Hreach Hrem).
  - destruct IH as (n & Hn & IH). exists n. split; [done|]. rewrite <- IH.
    destruct (update_ok (capacity h) h x s (reachable_heapOk h Hreach) Hroom Hx Hs)
      as (h0 & Hrun & _ & _ & _ & _ & HPL).
    rewrite Hupd in Hrun. injection Hrun as <-. exact HPL.
Qed.

(** X12: the segment size of a heap is a power of two between 32 and
    4096, fixed by the constructor: no method changes it. *)
Theorem segment_size_is_a_power_of_two h :
  reachable h → ∃ k, 5 ≤ k ≤ 12 ∧ ScoreHeap.partitionLength h = 2 ^ k.
Proof.
  intros (n & _ & ->)%reachable_partitionLength. apply computePartitionLength_power.
Qed.

Lemma segment_size_is_a_power_of_two_witness :
  ∃ k, 5 ≤ k ≤ 12 ∧ ScoreHeap.partitionLength ScenarioTie.heap = 2 ^ k.
Proof. apply (segment_size_is_a_power_of_two ScenarioTie.heap). exact ScenarioTie_reachable. Defined.

(** X13: the constructor sizes the segments by the number of pairs: 32
    slots up to 65535 pairs, 4096 slots from 4194304 pairs on, and in
    between the largest power of two that is at most a 1024th of the
    number of pairs. *)
Theorem constructor_sizes_the_segments pairs maxLength h :
  ScoreHeap.new pairs maxLength = Some h →
  let n := Z.of_nat (length pairs) in
  let size := ScoreHeap.partitionLength h in
  (n < 65536 → size = 32)
  ∧ (4194304 ≤ n → size = 4096)
  ∧ (65536 ≤ n < 4194304 →
       (∃ k, size = 2 ^ k) ∧ 1024 * size ≤ n < 2048 * size).
Proof.
  intros Hnew n size. unfold size. rewrite (new_partitionLength pairs maxLength h Hnew).
  change (Z.of_nat (length pairs)) with n. clearbody n. clear.
  unfold ScoreHeap.computePartitionLength, ScoreHeap.MAX_SECTOR_LENGTH,
    ScoreHeap.MIN_SECTOR_LENGTH, ScoreHeap.TARGET_SECTOR_LENGTH.
  case_bool_decide as Hn; [split; [|split]; intros; lia|].
  assert (Hq : 1 ≤ n `div` 1024) by (apply Z.div_le_lower_bound; lia).
  destruct (Z.log2_spec (n `div` 1024) ltac:(lia)) as [Hlo Hhi].
  set (k := Z.log2 (n `div` 1024)) in *.
  assert (Hk : 0 ≤ k) by apply Z.log2_nonneg.
  replace (2 ^ Z.succ k) with (2 * 2 ^ k) in Hhi by (rewrite Z.pow_succ_r; lia).
  assert (Hdiv : 1024 * (n `div` 1024) ≤ n < 1024 * (n `div` 1024) + 1024).
  { pose proof (Z.div_mod n 1024 ltac:(lia)) as Hdm.
    pose proof (Z.mod_pos_bound n 1024 ltac:(lia)). lia. }
  split; [|split].
  - intros Hsmall. assert (H64 : 2 ^ k < 64) by lia.
    assert (Hk5 : k ≤ 5).
    { destruct (decide (k ≤ 5)) as [|Hgt]; [done|exfalso].
      pose proof (Z.pow_le_mono_r 2 6 k ltac:(lia) ltac:(lia)) as Hle.
      change (2 ^ 6) with 64 in Hle. lia. }
    pose proof (Z.pow_le_mono_r 2 k 5 ltac:(lia) Hk5) as Hle.
    change (2 ^ 5) with 32 in Hle. lia.
  - intros Hbig. assert (H4096 : 4096 ≤ n `div` 1024) by (apply Z.div_le_lower_bound; lia).
    assert (Hk12 : 12 ≤ k).
    { destruct (decide (12 ≤ k)) as [|Hlt]; [done|exfalso].
      pose proof (Z.pow_le_mono_r 2 k 11 ltac:(lia) ltac:(lia)) as Hle.
      change (2 ^ 11) with 2048 in Hle. lia. }
    pose proof (Z.pow_le_mono_r 2 12 k ltac:(lia) Hk12) as Hle.
    change (2 ^ 12) with 4096 in Hle. lia.
  - intros [Hlow Hup].
    assert (H64 : 64 ≤ n `div` 1024) by (apply Z.div_le_lower_bound; lia).
    assert (H4096 : n `div` 1024 < 4096) by (apply Z.div_lt_upper_bound; lia).
    assert (Hk5 : 32 ≤ 2 ^ k) by lia.
    assert (Hk12 : 2 ^ k ≤ 4096) by lia.
    rewrite Z.max_r, Z.min_r by lia. split; [exists k; done|]. lia.
Qed.

Lemma constructor_sizes_the_segments_witness :
  (4 < 65536 → ScoreHeap.partitionLength ScenarioA.heap = 32)
  ∧ (4194304 ≤ 4 → ScoreHeap.partitionLength ScenarioA.heap = 4096)
  ∧ (65536 ≤ 4 < 4194304 →
       (∃ k, ScoreHeap.partitionLength ScenarioA.heap = 2 ^ k)
       ∧ 1024 * ScoreHeap.partitionLength ScenarioA.heap ≤ 4
           < 2048 * ScoreHeap.partitionLength ScenarioA.heap).
Proof.
  apply (constructor_sizes_the_segments ScenarioA.pairs 4 ScenarioA.heap).
  exact ScenarioA_new.
Defined.

(** X14: in a reachable heap [partitionIds] gives, for the id of every
    segment, the position of the segment in [partitions]; the ids are
    below [nextId], so an id is never given twice. *)
Theorem partition_ids_locate_the_segments h k p :
  reachable h → ScoreHeap.partitions h !! k = Some p →
  ScoreHeap.partitionIds h !! Seg.id p = Some (Z.of_nat k)
  ∧ 0 ≤ Seg.id p < ScoreHeap.nextId h
  ∧ ∀ k' q, ScoreHeap.partitions h !! k' = Some q → Seg.id q = Seg.id p → k' = k.
Proof.
  intros Hok%reachable_heapOk Hk. pose proof Hok as [_ _ _ _ _ _ Hids _ _].
  split; [apply Hids; done|]. split; [apply (heap_segOk (capacity h) h k p Hok Hk)|].
  intros k' q Hk' Heq. apply (idsOk_inj _ _ k' k q p Hids Hk' Hk Heq).
Qed.

Lemma partition_ids_locate_the_segments_witness :
  ScoreHeap.partitionIds ScenarioJoin.heap !! Seg.id (ScenarioJoin.upper ScenarioJoin.heap)
  = Some (Z.of_nat 1)
  ∧ 0 ≤ Seg.id (ScenarioJoin.upper ScenarioJoin.heap) < ScoreHeap.nextId ScenarioJoin.heap
  ∧ ∀ k' q, ScoreHeap.partitions ScenarioJoin.heap !! k' = Some q →
      Seg.id q = Seg.id (ScenarioJoin.upper ScenarioJoin.heap) → k' = 1%nat.
Proof.
  apply (partition_ids_locate_the_segments ScenarioJoin.heap 1).
  - exact ScenarioJoin_reachable.
  - vm_compute. reflexivity.
Defined.

(** X15: [remove] of the only member of a sorted segment takes the
    segment out of the sequence; in every other case the sequence keeps
    its segments. A uniform segment in particular stays when its last
    live member is removed: its length counts the removed slots too. *)
Theorem remove_drops_an_emptied_sorted_segment h l1 p l2 x :
  reachable h → ScoreHeap.partitions h = l1 ++ p :: l2 → x ∈ View.live p →
  ∃ h' p', ScoreHeap.remove h x = Some (h', Some x)
    ∧ Seg.id p' = Seg.id p
    ∧ Seg.uniform p' = Seg.uniform p
    ∧ ScoreHeap.partitions h'
      = (if bool_decide (Seg.uniform p = false ∧ Seg.length p = 1) then l1 ++ l2
         else l1 ++ p' :: l2).
Proof.
  intros Hok%reachable_heapOk Hps Hxp. set (N := capacity h) in *.
  pose proof Hok as [Hlk _ HPL _ _ _ Hids _ _].
  destruct (heap_seg_at N h l1 p l2 Hok Hps) as [Hsp Hidp].
  destruct (segOk_member _ _ _ _ _ Hsp Hxp) as (Hx & Hown & _ & Hxr).
  assert (Hk : ScoreHeap.partitions h !! length l1 = Some p).
  { rewrite Hps. rewrite lookup_app_r by lia. rewrite Nat.sub_diag. done. }
  pose proof (Hids _ _ Hk) as Hidx.
  destruct (leave_ok N h x l1 p l2 Hok Hps Hxp)
    as (lk' & p' & Hrun & _ & _ & _ & _ & Hlenp & _ & _).
  assert (Hshape : Seg.id p' = Seg.id p ∧ Seg.uniform p' = Seg.uniform p
                   ∧ (Seg.length p' = 0 ↔ Seg.uniform p = false ∧ Seg.length p = 1)).
  { unfold Segment.remove in Hrun. unfold segOk in Hsp.
    destruct (Seg.uniform p) eqn:Hu.
    - injection Hrun as _ <-. unfold UniformPartition.remove. destruct Hsp as [Hlen _].
      destruct (TypedArray.get _ _); cbn [Seg.id Seg.uniform Seg.length Seg.with_indices];
        (split; [done|split; [done|]]); (split; [intros Hz; lia|intros [Hf _]; done]).
    - apply list_elem_of_split in Hxr as (la & lb & Hr).
      assert (HPL' : ScoreHeap.partitionLength h ≤ limit) by (unfold limit; lia).
      destruct (Partition_remove_ok N _ _ Hlk HPL' p x la lb Hsp Hr) as (G' & Hrun' & _).
      rewrite Hrun in Hrun'. injection Hrun' as _ ->.
      cbn [Seg.id Seg.uniform Seg.length]. split; [done|]. split; [done|].
      split; [intros; split; [done|lia]|intros [_ ?]; lia]. }
  destruct Hshape as (Hid' & Hu' & Hzero).
  unfold ScoreHeap.remove. rewrite Hps.
  rewrite bool_decide_eq_true_2 by (rewrite length_app; simpl; lia).
  rewrite (get_owner N _ Hlk x Hx). rewrite bool_decide_eq_true_2 by lia.
  rewrite Hown, Hidx. cbn [mbind option_bind].
  rewrite jsget_middle by done. cbn [mbind option_bind].
  rewrite Hrun. cbn [mbind option_bind]. heap_simpl.
  rewrite jsput_middle by done.
  rewrite (bool_decide_ext _ _ Hzero).
  case_bool_decide as Hz.
  - rewrite splice_delete by done. unfold ScoreHeap.reindex.
    rewrite bool_decide_eq_true_2 by lia. cbn [mbind option_bind].
    eexists _, p'. split; [reflexivity|]. heap_simpl. done.
  - cbn [mbind option_bind]. eexists _, p'. split; [reflexivity|]. heap_simpl. done.
Qed.

Lemma remove_drops_an_emptied_sorted_segment_witness :
  ∃ h' p', ScoreHeap.remove ScenarioJoin.heap 32 = Some (h', Some 32)
    ∧ Seg.id p' = Seg.id (ScenarioJoin.upper ScenarioJoin.heap)
    ∧ Seg.uniform p' = Seg.uniform (ScenarioJoin.upper ScenarioJoin.heap)
    ∧ ScoreHeap.partitions h'
      = (if bool_decide (Seg.uniform (ScenarioJoin.upper ScenarioJoin.heap) = false
                         ∧ Seg.length (ScenarioJoin.upper ScenarioJoin.heap) = 1)
         then [ScenarioJoin.lower ScenarioJoin.heap] ++ []
         else [ScenarioJoin.lower ScenarioJoin.heap] ++ p' :: []).
Proof.
  apply (remove_drops_an_emptied_sorted_segment ScenarioJoin.heap
           [ScenarioJoin.lower ScenarioJoin.heap] (ScenarioJoin.upper ScenarioJoin.heap) [] 32).
  - exact ScenarioJoin_reachable.
  - vm_compute. reflexivity.
  - apply list_elem_of_In. vm_compute. left. reflexivity.
Defined.

Lemma ScenarioEmpty_reachable : reachable ScenarioEmpty.heap.
Proof.
  apply (reach_new [] 4); [|vm_compute; reflexivity].
  apply pairsOk_decide; [unfold limit; lia|vm_compute; reflexivity|vm_compute; reflexivity].
Qed.

(** X16: [update] on a heap without segments opens a sorted segment of
    one member at position 0, under a new id: the identifier in the
    first slot of a backing array of [partitionLength] slots, with the
    score as [min]. *)
Theorem update_on_an_empty_heap_opens_a_segment h x s :
  reachable h → ScoreHeap.partitions h = [] →
  0 ≤ x < capacity h → is_int32 s → roomy h →
  ∃ h', ScoreHeap.update h x s = Some h'
    ∧ ScoreHeap.partitions h'
      = [Seg.Make false (ScoreHeap.nextId h)
           (x :: replicate (Z.to_nat (ScoreHeap.partitionLength h) - 1) 0) 1 s]
    ∧ ScoreHeap.nextId h' = ScoreHeap.nextId h + 1
    ∧ ScoreHeap.partitionIds h' !! ScoreHeap.nextId h = Some 0.
Proof.
  intros Hok%reachable_heapOk Hps Hx Hs [Hroom _]. set (N := capacity h) in *.
  pose proof Hok as [Hlk HN HPL Hnid _ _ _ _ _].
  pose proof (absent_all N h Hok Hps x Hx) as Ho.
  destruct (score_write_ok N h x s Hok Hx Ho Hs) as (Hok1 & Hsx & _ & _).
  set (h1 := ScoreHeap.with_lookups h (TypedArray.put (ScoreHeap.lookups h) (x * 3) s)) in *.
  assert (Hxi : is_int32 x) by (unfold is_int32, limit in *; lia).
  set (G := replicate (Z.to_nat (ScoreHeap.partitionLength h) - 1) 0).
  assert (Hind : TypedArray.put (replicate (Z.to_nat (ScoreHeap.partitionLength h1)) 0) 0 x
                 = [x] ++ G).
  { unfold h1. heap_simpl.
    replace (Z.to_nat (ScoreHeap.partitionLength h))
      with (S (Z.to_nat (ScoreHeap.partitionLength h) - 1)) at 1 by lia.
    cbn [replicate]. apply (put_app_at [] _ 0 0 x); done. }
  destruct (insertPartition_run N h1 [] [] [x] G) as (lk' & ids' & Hrun & _ & Hids').
  { destruct Hok1 as [Hlk1 _ _ _ _ _ _ _ _]. exact Hlk1. }
  { unfold h1. heap_simpl. lia. }
  { unfold h1. heap_simpl. exact Hps. }
  { constructor. }
  { intros p Hp. inversion Hp. }
  { intros k p Hk. inversion Hk. }
  { done. }
  { repeat constructor; lia. }
  cbv zeta in Hrun. change (default 0 (head [x])) with x in Hrun, Hids'.
  change (length [x]) with 1%nat in Hrun, Hids'. rewrite Hsx in Hrun, Hids'.
  eexists. split.
  - unfold ScoreHeap.update. cbv zeta. rewrite (get_owner N _ Hlk x Hx).
    rewrite (bool_decide_eq_false_2 (0 ≤ ownerAt (ScoreHeap.lookups h) x)) by lia.
    cbn [mbind option_bind]. fold h1. rewrite bool_decide_eq_true_2 by (unfold h1; heap_simpl; rewrite Hps; done).
    unfold ScoreHeap.insertSingleton. rewrite create_ok by (unfold h1; heap_simpl; fits).
    cbn [mbind option_bind]. rewrite Hind. exact Hrun.
  - heap_simpl. split; [reflexivity|]. split; [unfold h1; heap_simpl; done|].
    specialize (Hids' 0%nat _ eq_refl). cbn [Seg.id] in Hids'. exact Hids'.
Qed.

Lemma update_on_an_empty_heap_opens_a_segment_witness :
  ∃ h', ScoreHeap.update ScenarioEmpty.heap 2 7 = Some h'
    ∧ ScoreHeap.partitions h'
      = [Seg.Make false (ScoreHeap.nextId ScenarioEmpty.heap)
           (2 :: replicate (Z.to_nat (ScoreHeap.partitionLength ScenarioEmpty.heap) - 1) 0) 1 7]
    ∧ ScoreHeap.nextId h' = ScoreHeap.nextId ScenarioEmpty.heap + 1
    ∧ ScoreHeap.partitionIds h' !! ScoreHeap.nextId ScenarioEmpty.heap = Some 0.
Proof.
  apply (update_on_an_empty_heap_opens_a_segment ScenarioEmpty.heap 2 7).
  - exact ScenarioEmpty_reachable.
  - vm_compute. reflexivity.
  - change (capacity ScenarioEmpty.heap) with 4. lia.
  - unfold is_int32. lia.
  - split.
    + change (ScoreHeap.nextId ScenarioEmpty.heap) with 0. unfold limit. lia.
    + change (mass (ScoreHeap.partitions ScenarioEmpty.heap)) with 0. unfold limit. lia.
Defined.

(** X17: [joinPartitions(index)] returns for every index, and whatever it
    joins, every identifier of the key space is present exactly if it
    was, with the score it had. For an index that is not the position
    of a segment with a segment after it, nothing changes at all. *)
Theorem joinPartitions_keeps_the_members h i :
  reachable h → ScoreHeap.nextId h + 1 ≤ limit →
  ∃ h', ScoreHeap.joinPartitions h i = Some h'
    ∧ capacity h' = capacity h
    ∧ (∀ y, View.present h' y ↔ View.present h y)
    ∧ (∀ y, 0 ≤ y < capacity h → View.score h' y = View.score h y)
    ∧ (¬ 0 ≤ i < Z.of_nat (length (ScoreHeap.partitions h)) - 1 → h' = h).
Proof.
  intros Hok%reachable_heapOk Hroom. set (N := capacity h) in *.
  destruct (joinPartitions_keeps N h i Hok Hroom)
    as (h' & Hrun & Hok' & Hlen & Hsc & Habs & Hpres & _).
  exists h'. split; [exact Hrun|]. split; [rewrite (capacity_eq N h' Hok'); done|].
  split; [|split].
  - intros y. rewrite (present_iff N h' y Hok'), (present_iff N h y Hok). split.
    + intros [Hy Ho]. split; [done|].
      destruct (decide (0 ≤ ownerAt (ScoreHeap.lookups h) y)) as [|Hneg]; [done|exfalso].
      destruct (Habs y ltac:(lia) ltac:(lia)) as (_ & Heq & _). lia.
    + intros [Hy Ho]. split; [done|]. apply Hpres; done.
  - intros y Hy. rewrite (score_cell N h' y Hok' Hy), (score_cell N h y Hok Hy).
    rewrite Hsc by lia. done.
  - intros Hout. rewrite (joinPartitions_outside h i Hout) in Hrun. injection Hrun as <-. done.
Qed.

Lemma joinPartitions_keeps_the_members_witness :
  ∃ h', ScoreHeap.joinPartitions ScenarioJoin.heap 0 = Some h'
    ∧ capacity h' = capacity ScenarioJoin.heap
    ∧ (∀ y, View.present h' y ↔ View.present ScenarioJoin.heap y)
    ∧ (∀ y, 0 ≤ y < capacity ScenarioJoin.heap →
         View.score h' y = View.score ScenarioJoin.heap y)
    ∧ (¬ 0 ≤ 0 < Z.of_nat (length (ScoreHeap.partitions ScenarioJoin.heap)) - 1 →
       h' = ScenarioJoin.heap).
Proof.
  apply (joinPartitions_keeps_the_members ScenarioJoin.heap 0).
  - exact ScenarioJoin_reachable.
  - change (ScoreHeap.nextId ScenarioJoin.heap) with 2. unfold limit. lia.
Defined.


(** ** The methods of a sorted segment *)

Import Utility SearchSpec MergeSpec Inv Ghost.

Lemma ScenarioFull_new : ScoreHeap.new ScenarioFull.pairs 34 = Some ScenarioFull.heap.
Proof. vm_compute. reflexivity. Qed.

Lemma ScenarioFull_reachable : reachable ScenarioFull.heap.
Proof.
  apply (reach_new ScenarioFull.pairs 34); [|exact ScenarioFull_new].
  apply pairsOk_decide; [unfold limit; lia|vm_compute; reflexivity|vm_compute; reflexivity].
Qed.

(** A sorted segment of a reachable heap, with the facts the methods
    need of it. *)
Lemma reachable_sorted h p :
  reachable h → p ∈ ScoreHeap.partitions h → Seg.uniform p = false →
  heapOk (capacity h) h
  ∧ sortedOk (capacity h) (ScoreHeap.partitionLength h) (ScoreHeap.lookups h) p
  ∧ Z.of_nat (length (ScoreHeap.lookups h)) = 3 * capacity h
  ∧ ScoreHeap.partitionLength h ≤ limit
  ∧ View.live p = region p.
Proof.
  intros Hok%reachable_heapOk [k Hk]%list_elem_of_lookup_1 Hu.
  destruct (heap_segOk (capacity h) h k p Hok Hk) as [Hsp _].
  unfold segOk in Hsp. rewrite Hu in Hsp.
  pose proof Hok as [Hlk _ HPL _ _ _ _ _ _].
  split; [done|]. split; [done|]. split; [done|]. split; [unfold limit; lia|].
  apply live_sorted. done.
Qed.

(** X18: [next()] of a sorted segment returns its greatest member: every
    other member has a smaller score, or the same score and a smaller
    identifier; and [max] is the score of that member. *)
Theorem sorted_next_returns_the_greatest_member h p :
  reachable h → p ∈ ScoreHeap.partitions h → Seg.uniform p = false →
  ∃ x, Partition.next p = Some x
    ∧ x ∈ View.live p
    ∧ Partition.max (ScoreHeap.lookups h) p = View.score h x
    ∧ ∀ y, y ∈ View.live p → y ≠ x → before (ScoreHeap.lookups h) y x.
Proof.
  intros Hreach Hp Hu.
  destruct (reachable_sorted h p Hreach Hp Hu) as (Hok & Hso & Hlk & HPL & Hlive).
  rewrite Hlive. set (N := capacity h) in *. set (lk := ScoreHeap.lookups h) in *.
  pose proof Hso as [Hcap Hlen Hrange Hsorted Hown Hmin].
  destruct (sortedOk_shape N _ lk p Hso) as (G & Hi & Hl & HG).
  destruct (snoc_or_nil (region p)) as [Hnil|(R & x & Hr)].
  { rewrite Hnil in Hl. simpl in Hl. lia. }
  assert (Hget : TypedArray.get (Seg.indices p) (Seg.length p - 1) = Some x).
  { rewrite Hi, Hr, <- app_assoc. cbn [app]. apply (get_middle R G x).
    rewrite Hl, Hr, length_app. simpl. lia. }
  assert (Hxin : x ∈ region p) by (rewrite Hr; apply elem_of_app; right; left).
  assert (Hx : 0 ≤ x < N) by (rewrite Forall_forall in Hrange; auto).
  exists x. split; [|split; [done|split]].
  - unfold Partition.next. rewrite bool_decide_eq_true_2 by lia. exact Hget.
  - unfold Partition.max. rewrite Hget. cbn [mbind option_bind]. reflexivity.
  - intros y Hy Hne. rewrite Hr in Hy, Hsorted.
    apply elem_of_app in Hy as [Hy|Hy]; [|apply list_elem_of_singleton in Hy; done].
    apply list_elem_of_lookup_1 in Hy as [i Hi'].
    eapply (StronglySorted_lookup_lt _ _ i (length R)); [exact Hsorted| | |].
    + apply lookup_app_l_Some. done.
    + rewrite lookup_app_r by lia. rewrite Nat.sub_diag. done.
    + eapply lookup_lt_Some. done.
Qed.

Lemma sorted_next_returns_the_greatest_member_witness :
  ∃ x, Partition.next (ScenarioJoin.lower ScenarioJoin.heap) = Some x
    ∧ x ∈ View.live (ScenarioJoin.lower ScenarioJoin.heap)
    ∧ Partition.max (ScoreHeap.lookups ScenarioJoin.heap) (ScenarioJoin.lower ScenarioJoin.heap)
      = View.score ScenarioJoin.heap x
    ∧ ∀ y, y ∈ View.live (ScenarioJoin.lower ScenarioJoin.heap) → y ≠ x →
        before (ScoreHeap.lookups ScenarioJoin.heap) y x.
Proof.
  apply (sorted_next_returns_the_greatest_member ScenarioJoin.heap).
  - exact ScenarioJoin_reachable.
  - apply (list_elem_of_lookup_2 _ 0%nat). vm_compute. reflexivity.
  - vm_compute. reflexivity.
Defined.

(** X19: [remove(index)] of a member of a sorted segment takes that
    member out and closes the gap: the others keep their order, the
    backing array keeps its size, [min] is not refreshed, and in the
    side table only the owner cell of the member changes, to -1. *)
Theorem sorted_remove_closes_the_gap h p x :
  reachable h → p ∈ ScoreHeap.partitions h → Seg.uniform p = false → x ∈ View.live p →
  ∃ p' l1 l2,
    Partition.remove (ScoreHeap.lookups h) p x
    = Some (TypedArray.put (ScoreHeap.lookups h) (x * 3 + 1) (-1), p')
    ∧ View.live p = l1 ++ x :: l2
    ∧ View.live p' = l1 ++ l2
    ∧ Seg.length p' = Seg.length p - 1
    ∧ length (Seg.indices p') = length (Seg.indices p)
    ∧ Seg.min p' = Seg.min p
    ∧ Seg.id p' = Seg.id p.
Proof.
  intros Hreach Hp Hu Hxp.
  destruct (reachable_sorted h p Hreach Hp Hu) as (Hok & Hso & Hlk & HPL & Hlive).
  rewrite Hlive in *. set (N := capacity h) in *. set (lk := ScoreHeap.lookups h) in *.
  apply list_elem_of_split in Hxp as (l1 & l2 & Hr).
  destruct (Partition_remove_ok N _ lk Hlk HPL p x l1 l2 Hso Hr) as (G' & Hrun & HlenG).
  destruct (sortedOk_shape N _ lk p Hso) as (G & Hi & Hl & HG).
  eexists _, l1, l2. split; [exact Hrun|]. split; [done|].
  cbn [Seg.length Seg.indices Seg.min Seg.id]. split; [|done].
  unfold View.live. cbn [Seg.uniform Seg.length Seg.indices]. rewrite Hu.
  rewrite app_assoc. apply take_app_at.
  rewrite Hl, Hr, !length_app. simpl. lia.
Qed.

Lemma sorted_remove_closes_the_gap_witness :
  ∃ p' l1 l2,
    Partition.remove (ScoreHeap.lookups ScenarioJoin.heap) (ScenarioJoin.lower ScenarioJoin.heap) 7
    = Some (TypedArray.put (ScoreHeap.lookups ScenarioJoin.heap) (7 * 3 + 1) (-1), p')
    ∧ View.live (ScenarioJoin.lower ScenarioJoin.heap) = l1 ++ 7 :: l2
    ∧ View.live p' = l1 ++ l2
    ∧ Seg.length p' = Seg.length (ScenarioJoin.lower ScenarioJoin.heap) - 1
    ∧ length (Seg.indices p') = length (Seg.indices (ScenarioJoin.lower ScenarioJoin.heap))
    ∧ Seg.min p' = Seg.min (ScenarioJoin.lower ScenarioJoin.heap)
    ∧ Seg.id p' = Seg.id (ScenarioJoin.lower ScenarioJoin.heap).
Proof.
  apply (sorted_remove_closes_the_gap ScenarioJoin.heap).
  - exact ScenarioJoin_reachable.
  - apply (list_elem_of_lookup_2 _ 0%nat). vm_compute. reflexivity.
  - vm_compute. reflexivity.
  - apply list_elem_of_In. vm_compute. repeat (first [left; reflexivity|right]).
Defined.

(** The side table with the score of an absent identifier written, as
    [update] writes it before it inserts: the sorted segments of the
    heap are as they were. *)
Lemma sorted_score_written h p x s :
  reachable h → p ∈ ScoreHeap.partitions h → Seg.uniform p = false →
  0 ≤ x < capacity h → ¬ View.present h x → is_int32 s →
  let lk := TypedArray.put (ScoreHeap.lookups h) (x * 3) s in
  sortedOk (capacity h) (ScoreHeap.partitionLength h) lk p
  ∧ Z.of_nat (length lk) = 3 * capacity h
  ∧ (x ∉ region p)
  ∧ scoreAt lk x = s.
Proof.
  intros Hreach Hp Hu Hx Hno Hs lk.
  destruct (reachable_sorted h p Hreach Hp Hu) as (Hok & Hso & Hlk & HPL & Hlive).
  assert (Ho : ownerAt (ScoreHeap.lookups h) x < 0).
  { rewrite (present_iff (capacity h) h x Hok) in Hno. lia. }
  assert (Hnin : x ∉ region p) by (apply (heap_not_member (capacity h) h p x); (done || lia)).
  split; [|split; [|split; [done|]]].
  - apply (sortedOk_frame _ _ (ScoreHeap.lookups h)); [done|].
    intros y Hy. destruct Hso as [_ _ Hrange _ _ _]. rewrite Forall_forall in Hrange.
    specialize (Hrange y Hy).
    destruct (sameCells_put_score (ScoreHeap.lookups h) y x s) as (H1 & H2 & _);
      [lia|lia|intros ->; done|]. split; [exact H1|exact H2].
  - unfold lk. rewrite put_length. done.
  - unfold lk. rewrite scoreAt_put_score by lia.
    rewrite decide_True by lia. apply toInt32_id. done.
Qed.

(** X20: [insert(index, score)] into a sorted segment with room, for an
    absent identifier whose score cell holds the score (as [update]
    writes it first): the identifier is put at its place, so that the
    members are again in strictly ascending order of score, then
    identifier; its owner cell gets the id of the segment, and [min]
    becomes the score when the identifier is the new first member. *)
Theorem sorted_insert_keeps_the_order h p x s :
  reachable h → p ∈ ScoreHeap.partitions h → Seg.uniform p = false →
  Seg.length p < ScoreHeap.partitionLength h →
  0 ≤ x < capacity h → ¬ View.present h x → is_int32 s →
  let lk := TypedArray.put (ScoreHeap.lookups h) (x * 3) s in
  let lk' := TypedArray.put lk (x * 3 + 1) (Seg.id p) in
  ∃ p' l1 l2,
    Partition.insert lk p x s None = Some (lk', p')
    ∧ View.live p = l1 ++ l2
    ∧ View.live p' = l1 ++ x :: l2
    ∧ StronglySorted (before lk') (View.live p')
    ∧ ownerAt lk' x = Seg.id p
    ∧ length (Seg.indices p') = length (Seg.indices p)
    ∧ Seg.min p' = (if bool_decide (l1 = []) then s else Seg.min p).
Proof.
  intros Hreach Hp Hu Hroom Hx Hno Hs lk lk'.
  destruct (reachable_sorted h p Hreach Hp Hu) as (Hok & _ & _ & HPL & Hlive).
  destruct (sorted_score_written h p x s Hreach Hp Hu Hx Hno Hs) as (Hso & Hlk & Hnin & Hsx).
  fold lk in Hso, Hlk, Hsx. set (N := capacity h) in *.
  assert (Hxi : is_int32 x).
  { destruct Hok as [_ HN _ _ _ _ _ _ _]. unfold is_int32, limit in *. lia. }
  destruct (Partition_insert_ok N _ lk Hlk HPL p x s Hso Hnin Hroom Hxi)
    as (l1 & l2 & G' & Hr & Hb & Ha & Hrun & HlenG).
  pose proof Hso as [Hcap Hlen Hrange Hsorted Hown Hmin].
  rewrite Hr in Hrange, Hsorted, Hown, Hmin, Hnin.
  assert (Hidp : is_int32 (Seg.id p)).
  { apply list_elem_of_lookup_1 in Hp as [k Hk].
    destruct (heap_segOk N h k p Hok Hk) as [_ Hid].
    destruct Hok as [_ _ _ Hnid _ _ _ _ _]. unfold is_int32, limit in *. lia. }
  assert (Hox : ownerAt lk' x = Seg.id p).
  { unfold lk'. rewrite ownerAt_put_owner_same by lia. apply toInt32_id. done. }
  set (m := if bool_decide (l1 = []) then s else Seg.min p) in *.
  assert (Hso' : sortedOk N (ScoreHeap.partitionLength h) lk'
            (Seg.Make (Seg.uniform p) (Seg.id p) (l1 ++ x :: l2 ++ G') (Seg.length p + 1) m)).
  { apply (sortedOk_placed N _ lk lk' _ _ m x s l1 l2 G' _); try done.
    - intros y Hy Hne. apply sameCells_put_owner; done.
    - unfold lk'. rewrite scoreAt_put_owner by lia. done.
    - unfold m. case_bool_decide as Hl1; [lia|].
      destruct l1 as [|y l1]; [done|].
      apply Forall_cons in Hb as [Hy _]. apply Forall_cons in Hmin as [Hmy _].
      unfold keyLt, keyOf in Hy. simpl in Hy. lia.
    - unfold m. case_bool_decide as Hl1; [|done]. subst l1. cbn [app].
      eapply Forall_impl; [exact Ha|]. intros y Hy.
      unfold keyLt, keyOf in Hy. simpl in Hy. lia.
    - rewrite HlenG. done.
    - destruct (sortedOk_shape N _ lk p Hso) as (G & _ & Hl & _). rewrite Hl, Hr. done. }
  assert (Hreg : region (Seg.Make (Seg.uniform p) (Seg.id p) (l1 ++ x :: l2 ++ G')
                   (Seg.length p + 1) m) = l1 ++ x :: l2).
  { apply region_placed.
    destruct (sortedOk_shape N _ lk p Hso) as (G & _ & Hl & _). rewrite Hl, Hr. done. }
  eexists _, l1, l2. split; [exact Hrun|]. rewrite Hlive. split; [done|].
  rewrite live_sorted by (cbn [Seg.uniform]; done). rewrite Hreg.
  split; [done|]. split.
  - destruct Hso' as [_ _ _ Hsorted' _ _]. rewrite Hreg in Hsorted'. exact Hsorted'.
  - split; [done|]. split; [done|]. reflexivity.
Qed.

Lemma sorted_insert_keeps_the_order_witness :
  ∃ p' l1 l2,
    Partition.insert (TypedArray.put (ScoreHeap.lookups ScenarioJoin.heap) (0 * 3) 7)
      (ScenarioJoin.lower ScenarioJoin.heap) 0 7 None
    = Some (TypedArray.put (TypedArray.put (ScoreHeap.lookups ScenarioJoin.heap) (0 * 3) 7)
              (0 * 3 + 1) (Seg.id (ScenarioJoin.lower ScenarioJoin.heap)), p')
    ∧ View.live (ScenarioJoin.lower ScenarioJoin.heap) = l1 ++ l2
    ∧ View.live p' = l1 ++ 0 :: l2
    ∧ StronglySorted
        (before (TypedArray.put (TypedArray.put (ScoreHeap.lookups ScenarioJoin.heap) (0 * 3) 7)
                   (0 * 3 + 1) (Seg.id (ScenarioJoin.lower ScenarioJoin.heap))))
        (View.live p')
    ∧ ownerAt (TypedArray.put (TypedArray.put (ScoreHeap.lookups ScenarioJoin.heap) (0 * 3) 7)
                 (0 * 3 + 1) (Seg.id (ScenarioJoin.lower ScenarioJoin.heap))) 0
      = Seg.id (ScenarioJoin.lower ScenarioJoin.heap)
    ∧ length (Seg.indices p') = length (Seg.indices (ScenarioJoin.lower ScenarioJoin.heap))
    ∧ Seg.min p'
      = (if bool_decide (l1 = []) then 7 else Seg.min (ScenarioJoin.lower ScenarioJoin.heap)).
Proof.
  apply (sorted_insert_keeps_the_order ScenarioJoin.heap (ScenarioJoin.lower ScenarioJoin.heap) 0 7).
  - exact ScenarioJoin_reachable.
  - apply (list_elem_of_lookup_2 _ 0%nat). vm_compute. reflexivity.
  - vm_compute. reflexivity.
  - vm_compute. reflexivity.
  - change (capacity ScenarioJoin.heap) with 33. lia.
  - intros [o [Ho Hpos]]. vm_compute in Ho. injection Ho as <-. lia.
  - unfold is_int32. lia.
Defined.

(** X21: [update(index, score)] of a member of a sorted segment moves
    it to the place of the new score, whatever that score is: the
    segment keeps its members and its length, and once the score cell
    is written (as [update] of the heap does next) the members are in
    strictly ascending order of score, then identifier, with [min] at
    most every score. *)
Theorem sorted_update_moves_the_member h p x s :
  reachable h → p ∈ ScoreHeap.partitions h → Seg.uniform p = false →
  x ∈ View.live p → is_int32 s →
  let lk' := TypedArray.put (ScoreHeap.lookups h) (x * 3) s in
  ∃ p', Partition.update (ScoreHeap.lookups h) p x s = Some p'
    ∧ View.live p' ≡ₚ View.live p
    ∧ StronglySorted (before lk') (View.live p')
    ∧ Forall (λ y, Seg.min p' ≤ scoreAt lk' y) (View.live p')
    ∧ Seg.length p' = Seg.length p
    ∧ length (Seg.indices p') = length (Seg.indices p)
    ∧ Seg.id p' = Seg.id p.
Proof.
  intros Hreach Hp Hu Hxp Hs lk'.
  destruct (reachable_sorted h p Hreach Hp Hu) as (Hok & Hso & Hlk & HPL & Hlive).
  rewrite Hlive in *. set (N := capacity h) in *. set (lk := ScoreHeap.lookups h) in *.
  pose proof Hso as [Hcap Hlen Hrange Hsorted Hown Hmin].
  apply list_elem_of_split in Hxp as (la & lb & Hr).
  destruct (sortedOk_shape N _ _ p Hso) as (G & Hind & Hl & HG).
  rewrite Hr in Hrange, Hsorted, Hown, Hmin, Hl.
  assert (Hx : 0 ≤ x < N).
  { rewrite Forall_forall in Hrange. apply Hrange. apply elem_of_app. right. left. }
  assert (Hxi : is_int32 x).
  { destruct Hok as [_ HN _ _ _ _ _ _ _]. unfold is_int32, limit in *. lia. }
  destruct (Partition_update_ok N _ _ Hlk HPL p x s la lb Hso Hr Hxi) as (p' & Hrun & Hmoved).
  exists p'. split; [exact Hrun|].
  destruct Hmoved as (t & G' & m & -> & HlenG & Hkb & Hka & Hm1 & Hm2 & HmL).
  rewrite Hu. clear Hrun.
  set (L := la ++ lb) in *.
  assert (HL : take t L ++ drop t L = L) by apply take_drop.
  assert (Hsub : L `sublist_of` la ++ x :: lb) by apply sublist_middle.
  assert (HxL : x ∉ L).
  { apply StronglySorted_NoDup in Hsorted. apply NoDup_app in Hsorted as (_ & Hab & Hb).
    apply NoDup_cons in Hb as [Hb _]. unfold L. rewrite elem_of_app. intros [Ha|Hb'].
    - apply (Hab x Ha). left.
    - done. }
  assert (Hoth : ∀ y, 0 ≤ y → y ≠ x → sameCells lk lk' y).
  { intros y Hy Hne. apply sameCells_put_score; (done || lia). }
  assert (Hsx : scoreAt lk' x = s).
  { unfold lk'. rewrite scoreAt_put_score by lia.
    rewrite decide_True by lia. apply toInt32_id. done. }
  assert (Hox : ownerAt lk' x = Seg.id p).
  { unfold lk'. rewrite ownerAt_put_score by lia.
    rewrite Forall_forall in Hown. apply Hown. apply elem_of_app. right. left. }
  assert (Hn : Seg.length p = Z.of_nat (length (take t L ++ drop t L)) + 1).
  { rewrite HL, Hl. unfold L. rewrite !length_app. simpl. lia. }
  assert (Hreg : region (Seg.Make false (Seg.id p)
                   (take t L ++ x :: drop t L ++ G') (Seg.length p) m)
                 = take t L ++ x :: drop t L).
  { apply region_placed. done. }
  assert (Hso' : sortedOk N (ScoreHeap.partitionLength h) lk'
            (Seg.Make false (Seg.id p) (take t L ++ x :: drop t L ++ G')
               (Seg.length p) m)).
  { apply (sortedOk_placed N _ lk lk' _ _ m x s (take t L) (drop t L) G' _).
    - rewrite HL. eapply Forall_sublist; done.
    - rewrite HL. eapply StronglySorted_sublist; done.
    - rewrite HL. eapply Forall_sublist; done.
    - rewrite HL. done.
    - done.
    - done.
    - done.
    - done.
    - done.
    - done.
    - done.
    - rewrite HL. done.
    - rewrite HlenG. done.
    - done. }
  rewrite live_sorted by done. rewrite Hreg, Hr.
  destruct Hso' as [_ _ _ Hsorted' _ Hmin']. rewrite Hreg in Hsorted', Hmin'.
  cbn [Seg.min Seg.length Seg.indices Seg.id] in *.
  split; [|done].
  rewrite <- !Permutation_middle. apply Permutation_skip. rewrite HL. done.
Qed.

Lemma sorted_update_moves_the_member_witness :
  ∃ p', Partition.update (ScoreHeap.lookups ScenarioJoin.heap)
          (ScenarioJoin.lower ScenarioJoin.heap) 7 100 = Some p'
    ∧ View.live p' ≡ₚ View.live (ScenarioJoin.lower ScenarioJoin.heap)
    ∧ StronglySorted (before (TypedArray.put (ScoreHeap.lookups ScenarioJoin.heap) (7 * 3) 100))
        (View.live p')
    ∧ Forall (λ y, Seg.min p'
                   ≤ scoreAt (TypedArray.put (ScoreHeap.lookups ScenarioJoin.heap) (7 * 3) 100) y)
        (View.live p')
    ∧ Seg.length p' = Seg.length (ScenarioJoin.lower ScenarioJoin.heap)
    ∧ length (Seg.indices p') = length (Seg.indices (ScenarioJoin.lower ScenarioJoin.heap))
    ∧ Seg.id p' = Seg.id (ScenarioJoin.lower ScenarioJoin.heap).
Proof.
  apply (sorted_update_moves_the_member ScenarioJoin.heap (ScenarioJoin.lower ScenarioJoin.heap)
           7 100).
  - exact ScenarioJoin_reachable.
  - apply (list_elem_of_lookup_2 _ 0%nat). vm_compute. reflexivity.
  - vm_compute. reflexivity.
  - apply list_elem_of_In. vm_compute. repeat (first [left; reflexivity|right]).
  - unfold is_int32. lia.
Defined.

(** X22: [split()] of a full sorted segment keeps the lower half of the
    members in the segment and returns the upper half, in order, at the
    front of a new array of the full size padded with zeros. *)
Theorem split_halves_a_full_segment h p :
  reachable h → p ∈ ScoreHeap.partitions h → Seg.uniform p = false →
  Seg.length p = ScoreHeap.partitionLength h →
  let half := ScoreHeap.partitionLength h `div` 2 in
  ∃ upper p',
    Partition.split p = Some (upper ++ replicate (Z.to_nat half) 0, p')
    ∧ View.live p = View.live p' ++ upper
    ∧ Z.of_nat (length upper) = half
    ∧ Seg.length p' = half
    ∧ Seg.indices p' = Seg.indices p
    ∧ Seg.min p' = Seg.min p.
Proof.
  intros Hreach Hp Hu Hfull half.
  destruct (reachable_sorted h p Hreach Hp Hu) as (Hok & Hso & Hlk & HPL & Hlive).
  destruct Hok as [_ _ [_ Heven] _ _ _ _ _ _].
  destruct (Partition_split_ok (capacity h) _ _ p HPL Hso Hfull Heven)
    as (la & lb & Hr & Hi & Hla & Hlb & Hrun).
  exists lb, (Seg.with_length p (ScoreHeap.partitionLength h `div` 2)).
  split; [exact Hrun|]. rewrite Hlive, Hr.
  split; [|done]. f_equal.
  unfold View.live. cbn [Seg.uniform Seg.with_length Seg.length Seg.indices].
  rewrite Hu, Hi. symmetry. apply take_app_at. lia.
Qed.

Lemma split_halves_a_full_segment_witness :
  ∃ upper p',
    Partition.split (ScenarioJoin.lower ScenarioJoin.built)
    = Some (upper ++ replicate (Z.to_nat (ScoreHeap.partitionLength ScenarioJoin.built `div` 2)) 0,
            p')
    ∧ View.live (ScenarioJoin.lower ScenarioJoin.built) = View.live p' ++ upper
    ∧ Z.of_nat (length upper) = ScoreHeap.partitionLength ScenarioJoin.built `div` 2
    ∧ Seg.length p' = ScoreHeap.partitionLength ScenarioJoin.built `div` 2
    ∧ Seg.indices p' = Seg.indices (ScenarioJoin.lower ScenarioJoin.built)
    ∧ Seg.min p' = Seg.min (ScenarioJoin.lower ScenarioJoin.built).
Proof.
  apply (split_halves_a_full_segment ScenarioJoin.built).
  - exact ScenarioJoin_built_reachable.
  - apply (list_elem_of_lookup_2 _ 0%nat). vm_compute. reflexivity.
  - vm_compute. reflexivity.
  - vm_compute. reflexivity.
Defined.

(** X23: [join(partition)] of a sorted segment with the sorted segment
    after it. When the members of both fit, the joined ones change
    owner and the members of both are merged in strictly ascending
    order of score, then identifier; no score changes. When they do not
    fit, [join] throws. *)
Theorem sorted_join_merges_or_throws h l1 p q l2 :
  reachable h → ScoreHeap.partitions h = l1 ++ p :: q :: l2 →
  Seg.uniform p = false → Seg.uniform q = false →
  (Seg.length p + Seg.length q ≤ ScoreHeap.partitionLength h →
   ∃ lk' p', Partition.join (ScoreHeap.lookups h) p q = Some (lk', p')
     ∧ (∀ v, v ∈ View.live p' ↔ v ∈ View.live p ∨ v ∈ View.live q)
     ∧ StronglySorted (before lk') (View.live p')
     ∧ (∀ v, v ∈ View.live p' → ownerAt lk' v = Seg.id p)
     ∧ (∀ y, 0 ≤ y → scoreAt lk' y = scoreAt (ScoreHeap.lookups h) y)
     ∧ Seg.length p' = Seg.length p + Seg.length q
     ∧ Seg.id p' = Seg.id p
     ∧ Seg.min p' = Seg.min p)
  ∧ (ScoreHeap.partitionLength h < Seg.length p + Seg.length q →
     Partition.join (ScoreHeap.lookups h) p q = None).
Proof.
  intros Hreach Hps Hup Huq.
  assert (Hp : p ∈ ScoreHeap.partitions h).
  { rewrite Hps. apply elem_of_app. right. left. }
  assert (Hq : q ∈ ScoreHeap.partitions h).
  { rewrite Hps. apply elem_of_app. right. right. left. }
  destruct (reachable_sorted h p Hreach Hp Hup) as (Hok & Hsp & Hlk & HPL & Hlivep).
  destruct (reachable_sorted h q Hreach Hq Huq) as (_ & Hsq & _ & _ & Hliveq).
  set (N := capacity h) in *. set (lk := ScoreHeap.lookups h) in *. split.
  - intros Hfit.
    assert (HN : N ≤ limit) by (destruct Hok as [_ HN _ _ _ _ _ _ _]; lia).
    assert (Hidp : is_int32 (Seg.id p)) by exact (heap_id_int32 N h l1 p (q :: l2) Hok Hps).
    assert (Hmin : Seg.min p ≤ Seg.min q).
    { pose proof Hok as [_ _ _ _ _ _ _ _ Hord]. rewrite Hps in Hord.
      destruct (ordered_around _ _ _ _ Hord) as [_ Hnext].
      apply (below_min N (ScoreHeap.partitionLength h) lk p).
      - unfold segOk. rewrite Hup. done.
      - apply Hnext. done. }
    assert (Hdis : ∀ x, x ∈ region p → x ∉ region q).
    { intros x Hxp Hxq. rewrite <- Hlivep in Hxp. rewrite <- Hliveq in Hxq.
      assert (Hk : (length l1 = S (length l1))%nat); [|lia].
      apply (heap_disjoint N h (length l1) (S (length l1)) p q x Hok); try done.
      - rewrite Hps. rewrite lookup_app_r by lia. rewrite Nat.sub_diag. done.
      - rewrite Hps. rewrite lookup_app_r by lia.
        replace (S (length l1) - length l1)%nat with 1%nat by lia. done. }
    destruct (Partition_join_ok N _ lk p q Hlk HN HPL Hidp Hsp Hsq Hfit Hmin Hdis)
      as (lk' & p' & Hrun & Hhand & Hu' & Hid' & Hlen' & Hmin' & Hmem & Hso').
    exists lk', p'. split; [exact Hrun|].
    rewrite Hlivep, Hliveq, (live_sorted p') by congruence.
    split; [exact Hmem|].
    destruct Hso' as [_ _ _ Hsorted' Hown' _]. split; [done|].
    split; [|split; [apply Hhand|done]].
    intros v Hv. rewrite Forall_forall in Hown'. rewrite <- Hid'. apply Hown', Hv.
  - intros Hover. unfold Partition.join.
    destruct Hsp as [Hcap _ _ _ _ _].
    rewrite bool_decide_eq_false_2 by lia. done.
Qed.

Lemma sorted_join_merges_or_throws_witness :
  (Seg.length (ScenarioJoin.lower ScenarioJoin.heap) + Seg.length (ScenarioJoin.upper ScenarioJoin.heap)
   ≤ ScoreHeap.partitionLength ScenarioJoin.heap →
   ∃ lk' p',
     Partition.join (ScoreHeap.lookups ScenarioJoin.heap) (ScenarioJoin.lower ScenarioJoin.heap)
       (ScenarioJoin.upper ScenarioJoin.heap) = Some (lk', p')
     ∧ (∀ v, v ∈ View.live p' ↔ v ∈ View.live (ScenarioJoin.lower ScenarioJoin.heap)
                                 ∨ v ∈ View.live (ScenarioJoin.upper ScenarioJoin.heap))
     ∧ StronglySorted (before lk') (View.live p')
     ∧ (∀ v, v ∈ View.live p' → ownerAt lk' v = Seg.id (ScenarioJoin.lower ScenarioJoin.heap))
     ∧ (∀ y, 0 ≤ y → scoreAt lk' y = scoreAt (ScoreHeap.lookups ScenarioJoin.heap) y)
     ∧ Seg.length p' = Seg.length (ScenarioJoin.lower ScenarioJoin.heap)
                       + Seg.length (ScenarioJoin.upper ScenarioJoin.heap)
     ∧ Seg.id p' = Seg.id (ScenarioJoin.lower ScenarioJoin.heap)
     ∧ Seg.min p' = Seg.min (ScenarioJoin.lower ScenarioJoin.heap))
  ∧ (ScoreHeap.partitionLength ScenarioJoin.heap
     < Seg.length (ScenarioJoin.lower ScenarioJoin.heap)
       + Seg.length (ScenarioJoin.upper ScenarioJoin.heap) →
     Partition.join (ScoreHeap.lookups ScenarioJoin.heap) (ScenarioJoin.lower ScenarioJoin.heap)
       (ScenarioJoin.upper ScenarioJoin.heap) = None).
Proof.
  apply (sorted_join_merges_or_throws ScenarioJoin.heap [] _ _ []).
  - exact ScenarioJoin_reachable.
  - vm_compute. reflexivity.
  - vm_compute. reflexivity.
  - vm_compute. reflexivity.
Defined.

(** X24: [insert(index, score)] into a full sorted segment throws: the
    shift of the members above the place does not fit the backing
    array. The heap splits or converts a full segment before it
    inserts. *)
Theorem sorted_insert_into_a_full_segment_throws h p x s :
  reachable h → p ∈ ScoreHeap.partitions h → Seg.uniform p = false →
  Seg.length p = ScoreHeap.partitionLength h →
  0 ≤ x < capacity h → ¬ View.present h x → is_int32 s →
  Partition.insert (TypedArray.put (ScoreHeap.lookups h) (x * 3) s) p x s None = None.
Proof.
  intros Hreach Hp Hu Hfull Hx Hno Hs.
  destruct (reachable_sorted h p Hreach Hp Hu) as (Hok & _ & _ & HPL & Hlive).
  destruct (sorted_score_written h p x s Hreach Hp Hu Hx Hno Hs) as (Hso & Hlk & Hnin & Hsx).
  set (lk := TypedArray.put (ScoreHeap.lookups h) (x * 3) s) in *. set (N := capacity h) in *.
  destruct (search_place N _ lk Hlk HPL p s x Hso Hnin) as (l1 & l2 & Hr & _ & _ & Hq).
  destruct (sortedOk_shape N _ lk p Hso) as (G & Hi & Hl & HG).
  pose proof Hso as [Hcap _ _ _ _ _].
  unfold Partition.insert.
  assert (Hsame : searchBinary (Seg.length p)
            (Partition.compare (TypedArray.put lk (x * 3 + 1) (Seg.id p)) (Seg.indices p) s x)
          = Some (Some (Z.of_nat (length l1)))).
  { rewrite <- Hq. apply searchBinary_ext. intros i. apply compare_put_owner. }
  rewrite Hsame. cbn [mbind option_bind]. unfold Partition.reindex.
  assert (Hsub : Z.of_nat (length (TypedArray.subarray (Seg.indices p)
                   (Z.of_nat (length l1)) (Seg.length p)))
                 = Seg.length p - Z.of_nat (length l1)).
  { assert (Hn : Seg.length p = Z.of_nat (length l1) + Z.of_nat (length l2)).
    { rewrite Hl, Hr, length_app. lia. }
    rewrite subarray_ok by lia. rewrite length_take, length_drop. lia. }
  assert (Hset : TypedArray.set (Seg.indices p)
                   (TypedArray.subarray (Seg.indices p) (Z.of_nat (length l1)) (Seg.length p))
                   (Z.of_nat (length l1) + 1) = None).
  { unfold TypedArray.set. rewrite Hsub. rewrite bool_decide_eq_false_2 by lia. reflexivity. }
  rewrite Hset. reflexivity.
Qed.

Lemma sorted_insert_into_a_full_segment_throws_witness :
  Partition.insert (TypedArray.put (ScoreHeap.lookups ScenarioFull.heap) (33 * 3) 7)
    ScenarioFull.segment 33 7 None = None.
Proof.
  apply (sorted_insert_into_a_full_segment_throws ScenarioFull.heap).
  - exact ScenarioFull_reachable.
  - apply (list_elem_of_lookup_2 _ 0%nat). vm_compute. reflexivity.
  - vm_compute. reflexivity.
  - vm_compute. reflexivity.
  - change (capacity ScenarioFull.heap) with 34. lia.
  - intros [o [Ho Hpos]]. vm_compute in Ho. injection Ho as <-. lia.
  - unfold is_int32. lia.
Defined.

(** ** The methods of a uniform segment *)

(** A uniform segment of a reachable heap, with the facts the methods
    need of it. *)
Lemma reachable_uniform h p :
  reachable h → p ∈ ScoreHeap.partitions h → Seg.uniform p = true →
  heapOk (capacity h) h
  ∧ uniformOk (capacity h) (ScoreHeap.lookups h) p
  ∧ Z.of_nat (length (ScoreHeap.lookups h)) = 3 * capacity h
  ∧ Seg.length p ≤ limit
  ∧ is_int32 (Seg.id p).
Proof.
  intros Hok%reachable_heapOk Hp Hu.
  apply list_elem_of_split in Hp as (l1 & l2 & Hps).
  destruct (heap_seg_at (capacity h) h l1 p l2 Hok Hps) as [Hsp _].
  unfold segOk in Hsp. rewrite Hu in Hsp.
  pose proof Hok as [Hlk _ _ _ _ _ _ _ _].
  split; [done|]. split; [done|]. split; [done|].
  split; [exact (heap_length_le _ h l1 p l2 Hok Hps)|exact (heap_id_int32 _ h l1 p l2 Hok Hps)].
Qed.

Lemma ScenarioTombs_reachable : reachable ScenarioTombs.heap.
Proof.
  unfold ScenarioTombs.heap. generalize (seqZ 0 32).
  assert (H0 : reachable ScenarioTie.built).
  { apply (reach_new ScenarioTie.pairs 34); [|exact ScenarioTie_new].
    apply pairsOk_decide; [unfold limit; lia|vm_compute; reflexivity|vm_compute; reflexivity]. }
  revert H0. generalize ScenarioTie.built. intros h Hh l. revert h Hh.
  induction l as [|i l IH]; intros h Hh; [exact Hh|].
  cbn [foldl]. apply IH. apply reachable_after_remove. exact Hh.
Qed.

Lemma Uniform_insert_capacity lk p x lk' p' :
  0 ≤ Seg.length p ≤ limit →
  UniformPartition.insert lk p x = Some (lk', p') →
  Z.of_nat (length (Seg.indices p'))
  = (if bool_decide (Z.of_nat (length (Seg.indices p)) = Seg.length p)
     then 2 * Seg.length p else Z.of_nat (length (Seg.indices p))).
Proof.
  intros Hlen. unfold UniformPartition.insert. case_bool_decide as Hfull.
  - rewrite create_ok by fits. cbn [mbind option_bind].
    rewrite set_ok by (rewrite ?length_replicate; lia). cbn [mbind option_bind].
    intros [= _ <-]. cbn [Seg.indices Seg.with_length Seg.with_indices].
    lens.
  - cbn [mbind option_bind]. intros [= _ <-].
    cbn [Seg.indices Seg.with_length Seg.with_indices]. rewrite put_length. done.
Qed.

(** X25: [insert(index)] into a uniform segment, for an absent identifier
    whose score cell holds the score of the segment (as [update] writes
    it first), appends the identifier after every slot, live or not,
    and records the segment and the slot in the side table. A full
    backing array is replaced by one of twice the length; otherwise
    the backing array keeps its length. *)
Theorem uniform_insert_appends_and_doubles h p x :
  reachable h → p ∈ ScoreHeap.partitions h → Seg.uniform p = true →
  0 ≤ x < capacity h → ¬ View.present h x → is_int32 (Seg.min p) →
  let lk := TypedArray.put (ScoreHeap.lookups h) (x * 3) (Seg.min p) in
  ∃ p',
    UniformPartition.insert lk p x
    = Some (TypedArray.put (TypedArray.put lk (x * 3 + 1) (Seg.id p)) (x * 3 + 2) (Seg.length p),
            p')
    ∧ region p' = region p ++ [x]
    ∧ View.live p' = View.live p ++ [x]
    ∧ Seg.length p' = Seg.length p + 1
    ∧ Z.of_nat (length (Seg.indices p'))
      = (if bool_decide (Z.of_nat (length (Seg.indices p)) = Seg.length p)
         then 2 * Seg.length p else Z.of_nat (length (Seg.indices p)))
    ∧ Seg.id p' = Seg.id p
    ∧ Seg.min p' = Seg.min p.
Proof.
  intros Hreach Hp Hu Hx Hno Hs lk.
  destruct (reachable_uniform h p Hreach Hp Hu) as (Hok & Huo & Hlk & Hlim & Hid).
  set (N := capacity h) in *.
  assert (Ho : ownerAt (ScoreHeap.lookups h) x < 0).
  { rewrite (present_iff N h x Hok) in Hno. lia. }
  assert (Hnin : x ∉ region p) by (apply (heap_not_member N h p x); (done || lia)).
  assert (Huo' : uniformOk N lk p).
  { apply (uniformOk_frame _ (ScoreHeap.lookups h)); [done|].
    intros y Hy Hy0. apply sameCells_put_score; [lia|lia|]. intros ->. done. }
  assert (Hlk' : Z.of_nat (length lk) = 3 * N) by (unfold lk; rewrite put_length; done).
  assert (Hsx : scoreAt lk x = Seg.min p).
  { unfold lk. rewrite scoreAt_put_score by lia.
    rewrite decide_True by lia. apply toInt32_id. done. }
  assert (HN : N ≤ limit) by (destruct Hok as [_ HN _ _ _ _ _ _ _]; lia).
  destruct (Uniform_insert_ok N lk p x Hlk' HN Huo' Hlim Hid Hx Hsx Hnin)
    as (ind & Hrun & Hreg & _).
  eexists. split; [exact Hrun|].
  assert (Hlen0 : 0 ≤ Seg.length p ≤ limit) by (destruct Huo as [Hlen0 _]; lia).
  pose proof (Uniform_insert_capacity lk p x _ _ Hlen0 Hrun) as Hcap.
  cbn [Seg.indices Seg.length Seg.id Seg.min] in *.
  split; [exact Hreg|]. split; [|done].
  unfold View.live. cbn [Seg.uniform Seg.indices Seg.length]. rewrite Hu.
  rewrite Hreg. fold (region p). rewrite filter_app. f_equal.
  rewrite filter_cons, decide_True by lia. done.
Qed.

Lemma uniform_insert_appends_and_doubles_witness :
  ∃ p',
    UniformPartition.insert
      (TypedArray.put (ScoreHeap.lookups ScenarioTie.built) (33 * 3) (Seg.min (ScenarioJoin.lower ScenarioTie.built)))
      (ScenarioJoin.lower ScenarioTie.built) 33
    = Some (TypedArray.put
              (TypedArray.put
                 (TypedArray.put (ScoreHeap.lookups ScenarioTie.built) (33 * 3) (Seg.min (ScenarioJoin.lower ScenarioTie.built)))
                 (33 * 3 + 1) (Seg.id (ScenarioJoin.lower ScenarioTie.built)))
              (33 * 3 + 2) (Seg.length (ScenarioJoin.lower ScenarioTie.built)), p')
    ∧ region p' = region (ScenarioJoin.lower ScenarioTie.built) ++ [33]
    ∧ View.live p' = View.live (ScenarioJoin.lower ScenarioTie.built) ++ [33]
    ∧ Seg.length p' = Seg.length (ScenarioJoin.lower ScenarioTie.built) + 1
    ∧ Z.of_nat (length (Seg.indices p'))
      = (if bool_decide (Z.of_nat (length (Seg.indices (ScenarioJoin.lower ScenarioTie.built)))
                         = Seg.length (ScenarioJoin.lower ScenarioTie.built))
         then 2 * Seg.length (ScenarioJoin.lower ScenarioTie.built)
         else Z.of_nat (length (Seg.indices (ScenarioJoin.lower ScenarioTie.built))))
    ∧ Seg.id p' = Seg.id (ScenarioJoin.lower ScenarioTie.built)
    ∧ Seg.min p' = Seg.min (ScenarioJoin.lower ScenarioTie.built).
Proof.
  apply (uniform_insert_appends_and_doubles ScenarioTie.built (ScenarioJoin.lower ScenarioTie.built) 33).
  - apply (reach_new ScenarioTie.pairs 34); [|exact ScenarioTie_new].
    apply pairsOk_decide; [unfold limit; lia|vm_compute; reflexivity|vm_compute; reflexivity].
  - apply (list_elem_of_lookup_2 _ 0%nat). vm_compute. reflexivity.
  - vm_compute. reflexivity.
  - change (capacity ScenarioTie.built) with 34. lia.
  - intros [o [Ho Hpos]]. vm_compute in Ho. injection Ho as <-. lia.
  - change (Seg.min (ScenarioJoin.lower ScenarioTie.built)) with 5. unfold is_int32. lia.
Defined.

(** X26: [remove(index)] of a live member of a uniform segment writes -1
    over the slot the side table records for it, and clears its owner
    and slot cells. Nothing moves and nothing shrinks: the length and
    every other slot stay, and the other live members are the live
    members afterwards. *)
Theorem uniform_remove_leaves_a_tombstone h p x :
  reachable h → p ∈ ScoreHeap.partitions h → Seg.uniform p = true → x ∈ View.live p →
  ∃ k, Seg.indices p !! k = Some x
    ∧ slotAt (ScoreHeap.lookups h) x = Z.of_nat k
    ∧ UniformPartition.remove (ScoreHeap.lookups h) p x
      = (TypedArray.put (TypedArray.put (ScoreHeap.lookups h) (x * 3 + 1) (-1)) (x * 3 + 2) (-1),
         Seg.with_indices p (<[k := -1]> (Seg.indices p)))
    ∧ ∀ y, y ∈ View.live (Seg.with_indices p (<[k := -1]> (Seg.indices p)))
           ↔ y ∈ View.live p ∧ y ≠ x.
Proof.
  intros Hreach Hp Hu Hxp.
  destruct (reachable_uniform h p Hreach Hp Hu) as (Hok & Huo & Hlk & Hlim & Hid).
  set (N := capacity h) in *. set (lk := ScoreHeap.lookups h) in *.
  apply live_uniform in Hxp as [[k Hk]%list_elem_of_lookup_1 Hx0]; [|done].
  destruct (Uniform_remove_ok N lk p x k Hlk Huo Hlim Hk Hx0) as (Hrun & Hreg & _).
  pose proof Huo as [_ Hslots]. destruct (Hslots k x Hk Hx0) as (_ & _ & _ & Hslot).
  exists k. split; [apply region_lookup in Hk as [Hk _]; exact Hk|].
  split; [exact Hslot|]. split; [exact Hrun|].
  intros y. rewrite !live_uniform by done. rewrite Hreg. split.
  - intros [[j Hj]%list_elem_of_lookup_1 Hy0].
    destruct (decide (j = k)) as [->|Hne].
    + rewrite list_lookup_insert_eq in Hj by (eapply lookup_lt_Some; done).
      injection Hj as <-. lia.
    + rewrite list_lookup_insert_ne in Hj by done.
      split; [split; [eapply list_elem_of_lookup_2; done|done]|].
      intros ->. apply Hne. apply (uniformOk_slot N lk p j k x); done.
  - intros [[[j Hj]%list_elem_of_lookup_1 Hy0] Hne]. split; [|done].
    apply (list_elem_of_lookup_2 _ j). rewrite list_lookup_insert_ne; [done|].
    intros ->. rewrite Hk in Hj. injection Hj as ->. done.
Qed.

Lemma uniform_remove_leaves_a_tombstone_witness :
  ∃ k, Seg.indices ScenarioTie.segment !! k = Some 7
    ∧ slotAt (ScoreHeap.lookups ScenarioTie.heap) 7 = Z.of_nat k
    ∧ UniformPartition.remove (ScoreHeap.lookups ScenarioTie.heap) ScenarioTie.segment 7
      = (TypedArray.put (TypedArray.put (ScoreHeap.lookups ScenarioTie.heap) (7 * 3 + 1) (-1))
           (7 * 3 + 2) (-1),
         Seg.with_indices ScenarioTie.segment (<[k := -1]> (Seg.indices ScenarioTie.segment)))
    ∧ ∀ y, y ∈ View.live (Seg.with_indices ScenarioTie.segment
                            (<[k := -1]> (Seg.indices ScenarioTie.segment)))
           ↔ y ∈ View.live ScenarioTie.segment ∧ y ≠ 7.
Proof.
  apply (uniform_remove_leaves_a_tombstone ScenarioTie.heap ScenarioTie.segment 7).
  - exact ScenarioTie_reachable.
  - apply (list_elem_of_lookup_2 _ 0%nat). vm_compute. reflexivity.
  - vm_compute. reflexivity.
  - apply list_elem_of_In. vm_compute. repeat (first [left; reflexivity|right]).
Defined.

(** X27: [next()] of a uniform segment with no live member returns
    [undefined], sets the length to 0 and replaces the backing array by
    one of a single slot. *)
Theorem uniform_next_releases_an_exhausted_segment h p :
  reachable h → p ∈ ScoreHeap.partitions h → Seg.uniform p = true → View.live p = [] →
  UniformPartition.next p = (Seg.Make true (Seg.id p) [0] 0 (Seg.min p), None).
Proof.
  intros Hreach Hp Hu Hlive.
  destruct (reachable_uniform h p Hreach Hp Hu) as (_ & [Hlen _] & _).
  rewrite (Uniform_next_dead p Hlen); [rewrite Hu; done|].
  apply Forall_forall. intros y Hy.
  destruct (decide (y < 0)) as [|Hge]; [done|exfalso].
  assert (Hin : y ∈ View.live p) by (apply live_uniform; [done|split; [done|lia]]).
  rewrite Hlive in Hin. inversion Hin.
Qed.

Lemma uniform_next_releases_an_exhausted_segment_witness :
  UniformPartition.next ScenarioTombs.segment
  = (Seg.Make true (Seg.id ScenarioTombs.segment) [0] 0 (Seg.min ScenarioTombs.segment), None).
Proof.
  apply (uniform_next_releases_an_exhausted_segment ScenarioTombs.heap).
  - exact ScenarioTombs_reachable.
  - apply (list_elem_of_lookup_2 _ 0%nat). vm_compute. reflexivity.
  - vm_compute. reflexivity.
  - vm_compute. reflexivity.
Defined.

